(** * Glowy Tanks: the simulation core of the arena shooter

    A shallow embedding of the server (the room table, the socket handlers,
    [applyInput], the 60 Hz game loop, the two room listings) and of the
    client's prediction and reconciliation code, its interpolation of the
    other players and its leaderboard, with the properties the design
    document states about them and further properties read off the code.

    Numbers.  A JavaScript number that carries a coordinate, a velocity, an
    angle, a delta-time or hit points is a real number ([R]); the code's
    arithmetic on it is the field arithmetic of [R], [Math.sqrt] is [sqrt],
    [Math.max]/[Math.min] are [Rmax]/[Rmin].  IEEE rounding and overflow
    are not part of this model.  [NaN] is, where a request can bring it
    in: module [Js] has [applyInput] on numbers that may be [NaN], for a
    sample whose [dt] is not a number.  Timestamps ([Date.now()]) and input
    sequence numbers are integers ([Z]); a bounce count is a [nat].

    Absent values.  A field that may be missing, [null] or of another type
    is an [option]; the code's truthiness tests ([x || d], [if (x)]) are
    written out on it.

    Objects used as maps ([games], [game.players], [game.scores]) are
    association lists in insertion order, the order [for ... in] visits the
    keys in (the keys are socket ids and [game_N] strings, never
    integer-like).  [lookup] reads the stored keys; the names a plain object
    inherits from [Object.prototype], which a [join] can put forward as a
    room name, are [property]'s, and the handlers that meet them are
    [joinOutcome], [inputOutcome] and [chatMessageOutcome]. *)

From Stdlib Require Import Reals Lra Lia ZArith List Ascii String Bool.
From Stdlib Require Import DecimalString Sorted.
From Stdlib Require Import DecimalNat DecimalFacts Permutation.
Import ListNotations.

Open Scope R_scope.

(** ** JavaScript helpers *)

(** [Math.sign]. *)
Definition sign (v : R) : R :=
  if Rlt_dec 0 v then 1 else if Rlt_dec v 0 then -1 else 0.

(** [v || d] on a number that may be missing: [undefined] and [0] are falsy. *)
Definition num_or (v : option R) (d : R) : R :=
  match v with
  | Some r => if Req_dec_T r 0 then d else r
  | None => d
  end.

(** [v || d] on an integer that may be missing. *)
Definition int_or (v : option Z) (d : Z) : Z :=
  match v with
  | Some z => if (z =? 0)%Z then d else z
  | None => d
  end.

(** ** Constants (server, lines 47-75) *)

Definition TICK_RATE : R := 60.
Definition MAP_WIDTH : R := 1000.
Definition MAP_HEIGHT : R := 720.
Definition TANK_ACCELERATION : R := 600.
Definition TANK_DECELERATION : R := 900.
Definition TANK_MAX_SPEED : R := 60.
Definition BULLET_SPEED : R := 300.
Definition BULLET_DAMAGE : R := 20.
Definition SHOOT_COOLDOWN : Z := 1500.
Definition RAPID_FIRE_COOLDOWN : Z := 400.
Definition MAX_HP : R := 100.
Definition RESPAWN_TIME : Z := 3000.
Definition MAX_PLAYERS : Z := 50.
Definition CHAT_MAX_MESSAGES : nat := 60.
Definition POWER_UP_LIFETIME : Z := 30000.
Definition POWER_UP_RADIUS : R := 30.
Definition NAME_MAX : nat := 20.

(** The keys of [POWER_UP_TYPES], in the object's order. *)
Inductive PowerUpType : Type :=
  | SPEED | RAPID_FIRE | SHIELD | DAMAGE_BOOST | HEALTH_PACK.

(** One entry of [POWER_UP_TYPES]; a field the entry does not have is [None]. *)
Record PowerUpCfg : Type := mkCfg {
  cfg_name : string;
  cfg_duration : Z;
  cfg_multiplier : option R;
  cfg_value : option R;
  cfg_shots : option nat;
  cfg_spread : option R
}.

Definition POWER_UP_TYPES (t : PowerUpType) : PowerUpCfg :=
  match t with
  | SPEED => mkCfg "speed" 5000 (Some 2) None None None
  | RAPID_FIRE => mkCfg "rapidFire" 5000 None None (Some 3%nat) (Some (12 / 100))
  | SHIELD => mkCfg "shield" 5000 None None None None
  | DAMAGE_BOOST => mkCfg "damageBoost" 10000 (Some (3 / 2)) None None None
  | HEALTH_PACK => mkCfg "healthPack" 0 None (Some 50) None None
  end.

(** [Object.keys(POWER_UP_TYPES)]. *)
Definition POWER_UP_KEYS : list PowerUpType :=
  [SPEED; RAPID_FIRE; SHIELD; DAMAGE_BOOST; HEALTH_PACK].

(** The multiplier of an entry that has one ([SPEED], [DAMAGE_BOOST]). *)
Definition multiplier (t : PowerUpType) : R :=
  match cfg_multiplier (POWER_UP_TYPES t) with Some m => m | None => 1 end.

(** ** Entities *)

(** The movement flags of an input sample ([input.inputs]), by truthiness. *)
Module Keys.
Record t : Type := mk { w : bool; s : bool; a : bool; d : bool }.
End Keys.

(** An input sample as it arrives from the network: any field may be
    missing or of the wrong type, which is [None] here (a [dt] that is present
    and not a number is outside this record; [Js.applyInput] below has
    it). *)
Module Input.
Record t : Type := mk {
  seq : option Z;
  inputs : option Keys.t;
  rotation : option R;
  turretRotation : option R;
  dt : option R
}.
End Input.

Module Player.
Record t : Type := mk {
  id : string;
  x : R;
  y : R;
  vx : R;
  vy : R;
  rotation : R;
  turretRotation : R;
  name : string;
  color : string;
  hp : R;
  dead : bool;
  respawnTime : Z;
  speedBoost : bool;
  speedBoostExpireTime : option Z;
  rapidFire : bool;
  rapidFireExpireTime : option Z;
  shield : bool;
  shieldExpireTime : option Z;
  damageBoost : bool;
  damageBoostExpireTime : option Z;
  lastShotTime : Z;
  invulnerable : bool;
  invulnerableExpireTime : option Z;
  lastProcessedInput : Z;
  (* a queued item that is falsy ([null], [0]) is [None] *)
  inputQueue : list (option Input.t)
}.

(** The object literal of the [join] and [host] handlers (its [inputs: {}]
    field, which nothing reads, is left out). *)
Definition fresh (sid : string) (px py : R) (nm col : string) : t :=
  mk sid px py 0 0 0 0 nm col MAX_HP false 0%Z
     false None false None false None false None 0%Z false None 0%Z [].

Definition set_pos (px py : R) (p : t) : t :=
  let '(mk i _ _ c e f g h k l m n o q r u v z a1 a2 a3 a4 a5 a6 a7) := p in
  mk i px py c e f g h k l m n o q r u v z a1 a2 a3 a4 a5 a6 a7.

Definition set_vel (pvx pvy : R) (p : t) : t :=
  let '(mk i b0 b1 _ _ f g h k l m n o q r u v z a1 a2 a3 a4 a5 a6 a7) := p in
  mk i b0 b1 pvx pvy f g h k l m n o q r u v z a1 a2 a3 a4 a5 a6 a7.

Definition set_rotation (v0 : R) (p : t) : t :=
  let '(mk i b0 b1 c e _ g h k l m n o q r u v z a1 a2 a3 a4 a5 a6 a7) := p in
  mk i b0 b1 c e v0 g h k l m n o q r u v z a1 a2 a3 a4 a5 a6 a7.

Definition set_turretRotation (v0 : R) (p : t) : t :=
  let '(mk i b0 b1 c e f _ h k l m n o q r u v z a1 a2 a3 a4 a5 a6 a7) := p in
  mk i b0 b1 c e f v0 h k l m n o q r u v z a1 a2 a3 a4 a5 a6 a7.

Definition set_hp (v0 : R) (p : t) : t :=
  let '(mk i b0 b1 c e f g h k _ m n o q r u v z a1 a2 a3 a4 a5 a6 a7) := p in
  mk i b0 b1 c e f g h k v0 m n o q r u v z a1 a2 a3 a4 a5 a6 a7.

Definition set_dead (v0 : bool) (p : t) : t :=
  let '(mk i b0 b1 c e f g h k l _ n o q r u v z a1 a2 a3 a4 a5 a6 a7) := p in
  mk i b0 b1 c e f g h k l v0 n o q r u v z a1 a2 a3 a4 a5 a6 a7.

Definition set_respawnTime (v0 : Z) (p : t) : t :=
  let '(mk i b0 b1 c e f g h k l m _ o q r u v z a1 a2 a3 a4 a5 a6 a7) := p in
  mk i b0 b1 c e f g h k l m v0 o q r u v z a1 a2 a3 a4 a5 a6 a7.

Definition set_speedBoost (v0 : bool) (e0 : option Z) (p : t) : t :=
  let '(mk i b0 b1 c e f g h k l m n _ _ r u v z a1 a2 a3 a4 a5 a6 a7) := p in
  mk i b0 b1 c e f g h k l m n v0 e0 r u v z a1 a2 a3 a4 a5 a6 a7.

Definition set_rapidFire (v0 : bool) (e0 : option Z) (p : t) : t :=
  let '(mk i b0 b1 c e f g h k l m n o q _ _ v z a1 a2 a3 a4 a5 a6 a7) := p in
  mk i b0 b1 c e f g h k l m n o q v0 e0 v z a1 a2 a3 a4 a5 a6 a7.

Definition set_shield (v0 : bool) (e0 : option Z) (p : t) : t :=
  let '(mk i b0 b1 c e f g h k l m n o q r u _ _ a1 a2 a3 a4 a5 a6 a7) := p in
  mk i b0 b1 c e f g h k l m n o q r u v0 e0 a1 a2 a3 a4 a5 a6 a7.

Definition set_damageBoost (v0 : bool) (e0 : option Z) (p : t) : t :=
  let '(mk i b0 b1 c e f g h k l m n o q r u v z _ _ a3 a4 a5 a6 a7) := p in
  mk i b0 b1 c e f g h k l m n o q r u v z v0 e0 a3 a4 a5 a6 a7.

Definition set_lastShotTime (v0 : Z) (p : t) : t :=
  let '(mk i b0 b1 c e f g h k l m n o q r u v z a1 a2 _ a4 a5 a6 a7) := p in
  mk i b0 b1 c e f g h k l m n o q r u v z a1 a2 v0 a4 a5 a6 a7.

Definition set_invulnerable (v0 : bool) (e0 : option Z) (p : t) : t :=
  let '(mk i b0 b1 c e f g h k l m n o q r u v z a1 a2 a3 _ _ a6 a7) := p in
  mk i b0 b1 c e f g h k l m n o q r u v z a1 a2 a3 v0 e0 a6 a7.

Definition set_lastProcessedInput (v0 : Z) (p : t) : t :=
  let '(mk i b0 b1 c e f g h k l m n o q r u v z a1 a2 a3 a4 a5 _ a7) := p in
  mk i b0 b1 c e f g h k l m n o q r u v z a1 a2 a3 a4 a5 v0 a7.

Definition set_inputQueue (v0 : list (option Input.t)) (p : t) : t :=
  let '(mk i b0 b1 c e f g h k l m n o q r u v z a1 a2 a3 a4 a5 a6 _) := p in
  mk i b0 b1 c e f g h k l m n o q r u v z a1 a2 a3 a4 a5 a6 v0.
End Player.

(** ** The physics integrator (server [applyInput], lines 504-588) *)

(** Lines 510-517: the raw direction of the flags, a component in {-1,0,1}. *)
Definition direction (k : Keys.t) : R * R :=
  let targetVx := 0 in
  let targetVy := 0 in
  let targetVy := if Keys.w k then targetVy - 1 else targetVy in
  let targetVy := if Keys.s k then targetVy + 1 else targetVy in
  let targetVx := if Keys.a k then targetVx - 1 else targetVx in
  let targetVx := if Keys.d k then targetVx + 1 else targetVx in
  (targetVx, targetVy).

(** Line 520. *)
Definition inputMagnitude (k : Keys.t) : R :=
  let '(targetVx, targetVy) := direction k in
  sqrt (targetVx * targetVx + targetVy * targetVy).

(** Lines 527-530. *)
Definition maxSpeed (speedBoost : bool) : R :=
  if speedBoost then TANK_MAX_SPEED * multiplier SPEED else TANK_MAX_SPEED.

(** Lines 519-524 and 532-534: the target velocity, normalised and scaled
    to [maxSpeed]. *)
Definition targetVelocity (maxSpeed : R) (k : Keys.t) : R * R :=
  let '(targetVx, targetVy) := direction k in
  let m := inputMagnitude k in
  let '(targetVx, targetVy) :=
    if Rlt_dec 0 m then (targetVx / m, targetVy / m) else (targetVx, targetVy) in
  (targetVx * maxSpeed, targetVy * maxSpeed).

(** Lines 544-554: one velocity component moved toward its target. *)
Definition approach (v target accelAmount : R) : R :=
  let diff := target - v in
  if Rlt_dec (Rabs diff) accelAmount then target
  else v + sign diff * accelAmount.

(** Lines 562-576: one coordinate and its velocity against the two walls. *)
Definition clampAxis (lo hi : R) (pv : R * R) : R * R :=
  let '(pos, vel) := pv in
  if Rlt_dec pos lo then (lo, Rmax 0 vel)
  else if Rlt_dec hi pos then (hi, Rmin 0 vel)
  else (pos, vel).

(** [applyInput]'s own [TANK_RADIUS] (line 561; line 2913 on the client). *)
Definition TANK_RADIUS : R := 20.

(** Lines 507-558: velocity and position after the move, before the walls
    are enforced. *)
Definition integrate (maxSpeed : R) (k : Keys.t) (dt : R)
    (px py pvx pvy : R) : (R * R) * (R * R) :=
  let '(targetVx, targetVy) := targetVelocity maxSpeed k in
  let acceleration :=
    if Rlt_dec 0 (inputMagnitude k) then TANK_ACCELERATION
    else TANK_DECELERATION in
  let accelAmount := acceleration * dt in
  let pvx := approach pvx targetVx accelAmount in
  let pvy := approach pvy targetVy accelAmount in
  ((px + pvx * dt, pvx), (py + pvy * dt, pvy)).

(** The kinematic part of [applyInput], which the client's copy (lines
    2859-2928) repeats line for line; the two differ in the arena size
    (the server's [MAP_WIDTH] and [MAP_HEIGHT], the client's canvas) and in
    how the maximum speed is written. *)
Definition moveWithin (width height : R) (maxSpeed : R) (k : Keys.t)
    (dt : R) (px py pvx pvy : R) : (R * R) * (R * R) :=
  let '(xv, yv) := integrate maxSpeed k dt px py pvx pvy in
  (clampAxis TANK_RADIUS (width - TANK_RADIUS) xv,
   clampAxis TANK_RADIUS (height - TANK_RADIUS) yv).

(** [applyInput] (lines 504-588). *)
Definition applyInput (player : Player.t) (input : Input.t) : Player.t :=
  match Input.inputs input with
  | None => player
  | Some k =>
    let dt := num_or (Input.dt input) (1 / 60) in
    let '((px, pvx), (py, pvy)) :=
      moveWithin MAP_WIDTH MAP_HEIGHT (maxSpeed (Player.speedBoost player)) k dt
        (Player.x player) (Player.y player)
        (Player.vx player) (Player.vy player) in
    let player := Player.set_pos px py (Player.set_vel pvx pvy player) in
    let player :=
      match Input.rotation input with
      | Some r => Player.set_rotation r player
      | None => player
      end in
    let player :=
      match Input.turretRotation input with
      | Some r => Player.set_turretRotation r player
      | None => player
      end in
    match Input.seq input with
    | Some n => Player.set_lastProcessedInput n player
    | None => player
    end
  end.

(** ** The integrator on values that are not numbers *)

(** [applyInput] once more (lines 504-576), on what the wire can carry: the
    sample's [dt] is whatever the client put there, and arithmetic on a
    value that is not a number gives [NaN], which every comparison answers
    with [false].  Infinities, and with them overflow, are not represented:
    a number here is a real or [NaN]. *)
Module Js.

Inductive num : Type :=
  | NaN
  | fin (r : R).

Definition lift2 (f : R -> R -> R) (a b : num) : num :=
  match a, b with
  | fin u, fin v => fin (f u v)
  | _, _ => NaN
  end.

Definition add : num -> num -> num := lift2 Rplus.
Definition sub : num -> num -> num := lift2 Rminus.
Definition mul : num -> num -> num := lift2 Rmult.

(** [Math.max] and [Math.min]: [NaN] if either argument is. *)
Definition max : num -> num -> num := lift2 Rmax.
Definition min : num -> num -> num := lift2 Rmin.

(** [Math.abs] and [Math.sign]. *)
Definition abs (a : num) : num :=
  match a with
  | fin u => fin (Rabs u)
  | NaN => NaN
  end.

Definition sign (a : num) : num :=
  match a with
  | fin u => fin (if Rlt_dec 0 u then 1 else if Rlt_dec u 0 then -1 else 0)
  | NaN => NaN
  end.

(** [a < b]: [false] when either side is [NaN]. *)
Definition lt (a b : num) : bool :=
  match a, b with
  | fin u, fin v => if Rlt_dec u v then true else false
  | _, _ => false
  end.

(** The [dt] field of a sample as [input.dt || 1 / 60] sees it: falsy
    ([undefined], [null], [0], [NaN], the empty string), or truthy, with the
    number the arithmetic converts it to: itself for a number, [NaN] for a
    string such as ["abc"]. *)
Inductive DtField : Type :=
  | Falsy
  | Truthy (n : num).

(** Line 507. *)
Definition dtOf (field : DtField) : num :=
  match field with
  | Falsy => fin (1 / 60)
  | Truthy n => n
  end.

(** The four fields of the player the integrator writes. *)
Record Body : Type := mkBody { x : num; y : num; vx : num; vy : num }.

(** Lines 544-554. *)
Definition approach (v target accelAmount : num) : num :=
  let diff := sub target v in
  if lt (abs diff) accelAmount then target
  else add v (mul (sign diff) accelAmount).

(** Lines 562-576. *)
Definition clampAxis (lo hi : R) (pv : num * num) : num * num :=
  let '(pos, vel) := pv in
  if lt pos (fin lo) then (fin lo, max (fin 0) vel)
  else if lt (fin hi) pos then (fin hi, min (fin 0) vel)
  else (pos, vel).

(** Lines 507-576, for a sample that has its [inputs]: the target velocity
    comes from the flags and the constants alone and is a number. *)
Definition applyInput (speedBoost : bool) (k : Keys.t) (field : DtField)
    (body : Body) : Body :=
  let dt := dtOf field in
  let target := targetVelocity (maxSpeed speedBoost) k in
  let acceleration :=
    if Rlt_dec 0 (inputMagnitude k) then TANK_ACCELERATION
    else TANK_DECELERATION in
  let accelAmount := mul (fin acceleration) dt in
  let pvx := approach (vx body) (fin (fst target)) accelAmount in
  let pvy := approach (vy body) (fin (snd target)) accelAmount in
  let px := add (x body) (mul pvx dt) in
  let py := add (y body) (mul pvy dt) in
  let xv := clampAxis TANK_RADIUS (MAP_WIDTH - TANK_RADIUS) (px, pvx) in
  let yv := clampAxis TANK_RADIUS (MAP_HEIGHT - TANK_RADIUS) (py, pvy) in
  mkBody (fst xv) (fst yv) (snd xv) (snd yv).

(** The samples of a queue, applied in order (lines 739-744). *)
Definition applyInputs (speedBoost : bool) (samples : list (Keys.t * DtField))
    (body : Body) : Body :=
  fold_left (fun b sample => applyInput speedBoost (fst sample) (snd sample) b)
            samples body.

(** [lo <= a <= hi], [false] for [NaN]. *)
Definition between (lo hi : R) (a : num) : bool :=
  match a with
  | fin u => if Rle_dec lo u then if Rle_dec u hi then true else false else false
  | NaN => false
  end.

(** The position is within the arena, a tank radius from every wall. *)
Definition inArena (body : Body) : bool :=
  between TANK_RADIUS (MAP_WIDTH - TANK_RADIUS) (x body)
  && between TANK_RADIUS (MAP_HEIGHT - TANK_RADIUS) (y body).

(** Nothing left of the four fields. *)
Definition allNaN : Body := mkBody NaN NaN NaN NaN.

(** A player's four fields, all numbers. *)
Definition ofPlayer (player : Player.t) : Body :=
  mkBody (fin (Player.x player)) (fin (Player.y player))
         (fin (Player.vx player)) (fin (Player.vy player)).

(** A [dt] that is a number, or missing. *)
Definition ofDt (dt : option R) : DtField :=
  match dt with
  | Some r => if Req_dec_T r 0 then Falsy else Truthy (fin r)
  | None => Falsy
  end.

End Js.

(** ** Objects used as maps *)

Section ObjectMap.
Context {V : Type}.

(** [m[k]]. *)
Fixpoint lookup (k : string) (m : list (string * V)) : option V :=
  match m with
  | [] => None
  | (k', v) :: rest => if String.eqb k k' then Some v else lookup k rest
  end.

(** [m[k] = v]: an existing key keeps its place, a new key goes last. *)
Fixpoint insert (k : string) (v : V) (m : list (string * V)) : list (string * V) :=
  match m with
  | [] => [(k, v)]
  | (k', v') :: rest =>
    if String.eqb k k' then (k, v) :: rest else (k', v') :: insert k v rest
  end.

(** [delete m[k]]. *)
Fixpoint remove (k : string) (m : list (string * V)) : list (string * V) :=
  match m with
  | [] => []
  | (k', v') :: rest =>
    if String.eqb k k' then rest else (k', v') :: remove k rest
  end.

End ObjectMap.

(** ** Bullets, power-ups, chat, rooms *)

Module Bullet.
Record t : Type := mk {
  x : R;
  y : R;
  vx : R;
  vy : R;
  angle : R;
  owner : string;
  color : string;
  createdAt : Z;
  bounces : nat
}.
End Bullet.

Module PowerUp.
Record t : Type := mk {
  id : R;
  type : PowerUpType;
  x : R;
  y : R;
  createdAt : Z
}.

(** The [uiType] field is the entry's [name]. *)
Definition uiType (p : t) : string := cfg_name (POWER_UP_TYPES (type p)).
End PowerUp.

Module Chat.
Record t : Type := mk {
  playerId : option string;
  text : string;
  timestamp : Z;
  system : bool
}.
End Chat.

Module Game.
Record t : Type := mk {
  id : string;
  name : string;
  mapType : string;
  players : list (string * Player.t);
  bullets : list Bullet.t;
  powerUps : list PowerUp.t;
  scores : list (string * Z);
  chat : list Chat.t;
  (* a pending [setTimeout] handle *)
  cleanupTimer : bool
}.

Definition set_players (v : list (string * Player.t)) (g : t) : t :=
  mk (id g) (name g) (mapType g) v (bullets g) (powerUps g) (scores g)
     (chat g) (cleanupTimer g).

Definition set_bullets (v : list Bullet.t) (g : t) : t :=
  mk (id g) (name g) (mapType g) (players g) v (powerUps g) (scores g)
     (chat g) (cleanupTimer g).

Definition set_powerUps (v : list PowerUp.t) (g : t) : t :=
  mk (id g) (name g) (mapType g) (players g) (bullets g) v (scores g)
     (chat g) (cleanupTimer g).

Definition set_scores (v : list (string * Z)) (g : t) : t :=
  mk (id g) (name g) (mapType g) (players g) (bullets g) (powerUps g) v
     (chat g) (cleanupTimer g).

Definition set_chat (v : list Chat.t) (g : t) : t :=
  mk (id g) (name g) (mapType g) (players g) (bullets g) (powerUps g)
     (scores g) v (cleanupTimer g).

Definition set_cleanupTimer (v : bool) (g : t) : t :=
  mk (id g) (name g) (mapType g) (players g) (bullets g) (powerUps g)
     (scores g) (chat g) v.
End Game.

(** ** What the server sends *)

(** One player of a [state] snapshot (lines 850-868). *)
Module PlayerView.
Record t : Type := mk {
  id : string;
  x : R;
  y : R;
  rotation : R;
  turretRotation : R;
  color : string;
  name : string;
  hp : R;
  dead : bool;
  vx : R;
  vy : R;
  speedBoost : bool;
  rapidFire : bool;
  shield : bool;
  damageBoost : bool;
  invulnerable : bool;
  lastProcessedInput : Z
}.

Definition of_player (key : string) (p : Player.t) : t :=
  mk key (Player.x p) (Player.y p) (Player.rotation p)
     (Player.turretRotation p) (Player.color p) (Player.name p)
     (Player.hp p) (Player.dead p) (Player.vx p) (Player.vy p)
     (Player.speedBoost p) (Player.rapidFire p) (Player.shield p)
     (Player.damageBoost p) (Player.invulnerable p)
     (Player.lastProcessedInput p).
End PlayerView.

(** One bullet of a snapshot: [{x, y, angle, color}]. *)
Record BulletView : Type := mkBulletView {
  bv_x : R; bv_y : R; bv_angle : R; bv_color : string
}.

Record Snapshot : Type := mkSnapshot {
  snap_players : list PlayerView.t;
  snap_bullets : list BulletView;
  snap_scores : list (string * Z);
  snap_powerUps : list PowerUp.t
}.

(** One row of the [servers] list. *)
Record ServerInfo : Type := mkServerInfo {
  si_id : string; si_name : string; si_players : nat; si_maxPlayers : Z
}.

Inductive Payload : Type :=
  | EvError (message : string)
  | EvJoin (sid gameId nm : string) (col mapType : option string)
           (mapWidth mapHeight : R)
  | EvState (state : Snapshot)
  | EvBulletHit (shooter victim : string) (hitX hitY : R)
  | EvWallImpact (wx wy : R) (col : string)
  | EvPlayerName (pid nm : string)
  | EvChatMessage (msg : Chat.t)
  | EvServers (list_ : list ServerInfo).

(** [socket.emit] reaches one socket, [io.to(gameId).emit] a room. *)
Inductive Emit : Type :=
  | ToSocket (sid : string) (p : Payload)
  | ToRoom (gameId : string) (p : Payload).

Definition isError (e : Emit) : bool :=
  match e with
  | ToSocket _ (EvError _) | ToRoom _ (EvError _) => true
  | _ => false
  end.

(** ** The server's state: the module-level variables and, per socket, the
    [gameId] property the handlers set on it. *)
Module Server.
Record t : Type := mk {
  games : list (string * Game.t);
  gameCounter : nat;
  lastPowerUpSpawnTime : list (string * Z);
  socketGameId : list (string * string)
}.

Definition init : t := mk [] 0 [] [].

Definition set_games (v : list (string * Game.t)) (sv : t) : t :=
  mk v (gameCounter sv) (lastPowerUpSpawnTime sv) (socketGameId sv).

Definition set_lastPowerUpSpawnTime (v : list (string * Z)) (sv : t) : t :=
  mk (games sv) (gameCounter sv) v (socketGameId sv).

Definition set_socketGameId (v : list (string * string)) (sv : t) : t :=
  mk (games sv) (gameCounter sv) (lastPowerUpSpawnTime sv) v.
End Server.

(** The results of successive [Math.random()] calls: call number [n] of a
    handler run returns [rnd n]. *)
Definition Rng : Type := nat -> R.

Definition rng_drop (k : nat) (rnd : Rng) : Rng := fun n => rnd (n + k)%nat.

(** [getRandomSpawn] (lines 78-81): two [Math.random()] calls. *)
Definition getRandomSpawn (rnd : Rng) : R * R :=
  (rnd 0%nat * (MAP_WIDTH - 40) + 20, rnd 1%nat * (MAP_HEIGHT - 40) + 20).

(** ** Strings (lines 99-111) *)

(** The ASCII characters [\s] matches.  (Strings are strings of 8-bit
    characters here; the white space [\s] and [trim] know beyond them is not
    modelled.) *)
Definition isSpace (c : Ascii.ascii) : bool :=
  let n := Ascii.nat_of_ascii c in
  (n =? 32)%nat || ((9 <=? n)%nat && (n <=? 13)%nat).

Fixpoint trimStart (l : list Ascii.ascii) : list Ascii.ascii :=
  match l with
  | c :: rest => if isSpace c then trimStart rest else l
  | [] => []
  end.

Definition trim (l : list Ascii.ascii) : list Ascii.ascii :=
  rev (trimStart (rev (trimStart l))).

(** [replace(/\s+/g, " ")]: [inRun] says the previous character was white
    space, already replaced. *)
Fixpoint collapseSpaces (inRun : bool) (l : list Ascii.ascii) : list Ascii.ascii :=
  match l with
  | [] => []
  | c :: rest =>
    if isSpace c
    then (if inRun then collapseSpaces true rest
          else " "%char :: collapseSpaces true rest)
    else c :: collapseSpaces false rest
  end.

(** [replace(/[\x00-\x1F]/g, "")]. *)
Definition stripControl (l : list Ascii.ascii) : list Ascii.ascii :=
  filter (fun c => negb (Ascii.nat_of_ascii c <=? 31)%nat) l.

(** [sanitizeString]; a value that is not a string is [None]. *)
Definition sanitizeString (nm : option string) : string :=
  match nm with
  | None => ""
  | Some str =>
    let s := trim (list_ascii_of_string str) in
    match s with
    | [] => ""
    | _ =>
      let s := stripControl (collapseSpaces false s) in
      let s := if (NAME_MAX <? List.length s)%nat then firstn NAME_MAX s else s in
      string_of_list_ascii s
    end
  end.

Definition COLORS : list string :=
  ["#4a90e2"; "#e74c3c"; "#f1c40f"; "#9b59b6"; "#1abc9c"; "#e67e22";
   "#2ecc71"; "#ff6b6b"; "#3498db"; "#8e44ad"; "#16a085"; "#d35400"]%string.

(** [arr[Math.floor(r * arr.length)]], the index as a natural number. *)
Definition randomIndex (r : R) (len : nat) : nat :=
  Z.to_nat (Zfloor (r * INR len)).

(** [randomColor], given the value [Math.random()] returned ([undefined],
    which no value in [0,1) reads, is the empty string). *)
Definition randomColor (r : R) : string :=
  nth (randomIndex r (List.length COLORS)) COLORS ""%string.

(** ** Power-ups (lines 129-184) *)

(** [spawnPowerUp], on the room found under [gameId] ([if (!game) return]
    is the caller's lookup).  Four [Math.random()] calls: the type, the id,
    [x], [y]. *)
Definition spawnPowerUp (now : Z) (rnd : Rng) (game : Game.t) : Game.t :=
  let randomType :=
    nth (randomIndex (rnd 0%nat) (List.length POWER_UP_KEYS)) POWER_UP_KEYS SPEED in
  let powerUp :=
    PowerUp.mk (IZR now + rnd 1%nat) randomType
      (rnd 2%nat * (MAP_WIDTH - 40) + 20)
      (rnd 3%nat * (MAP_HEIGHT - 40) + 20)
      now in
  Game.set_powerUps (Game.powerUps game ++ [powerUp]) game.

(** [cfg.duration || 10000]. *)
Definition duration (t : PowerUpType) : Z :=
  int_or (Some (cfg_duration (POWER_UP_TYPES t))) 10000.

(** The [switch] of [applyPowerUp], on the player found. *)
Definition applyPowerUpTo (now : Z) (typeKey : PowerUpType) (player : Player.t)
    : Player.t :=
  match typeKey with
  | HEALTH_PACK =>
    Player.set_hp
      (Rmin MAX_HP (Player.hp player + num_or (cfg_value (POWER_UP_TYPES typeKey)) 0))
      player
  | SPEED => Player.set_speedBoost true (Some (now + duration typeKey)%Z) player
  | RAPID_FIRE => Player.set_rapidFire true (Some (now + duration typeKey)%Z) player
  | SHIELD => Player.set_shield true (Some (now + duration typeKey)%Z) player
  | DAMAGE_BOOST => Player.set_damageBoost true (Some (now + duration typeKey)%Z) player
  end.

(** [applyPowerUp(gameId, playerId, powerUpType)], on the room's players. *)
Definition applyPowerUp (now : Z) (playerId : string) (powerUpType : PowerUpType)
    (players : list (string * Player.t)) : list (string * Player.t) :=
  match lookup playerId players with
  | None => players
  | Some player => insert playerId (applyPowerUpTo now powerUpType player) players
  end.

(** ** Chat log (lines 186-200) *)

Definition pushChatMessage (now : Z) (msg : Chat.t) (game : Game.t) : Game.t :=
  let msg :=
    Chat.mk (match Chat.playerId msg with
             | Some pid => if String.eqb pid "" then None else Some pid
             | None => None
             end)
            (Chat.text msg)
            (int_or (Some (Chat.timestamp msg)) now) (Chat.system msg) in
  let chat := Game.chat game ++ [msg] in
  let chat := if (CHAT_MAX_MESSAGES <? List.length chat)%nat then tl chat else chat in
  Game.set_chat chat game.

(** [s || d] on strings: the empty string is falsy. *)
Definition str_or (str dflt : string) : string :=
  if String.eqb str "" then dflt else str.

(** ** Socket handlers (lines 202-496) *)

Record JoinData : Type := mkJoinData {
  jd_serverId : option string;
  jd_name : option string
}.

Record HostData : Type := mkHostData {
  hd_name : option string;
  hd_playerName : option string;
  hd_map : option string
}.

(** A handler returns the new state and what it emitted, in order. *)
Definition Result : Type := Server.t * list Emit.

(** The player object of the [join] and [host] handlers (lines 224-253,
    409-439).  Three [Math.random()] calls: the colour, [x], [y]. *)
Definition newPlayer (rnd : Rng) (sid safeName : string) : Player.t :=
  Player.fresh sid (rnd 1%nat * (MAP_WIDTH - 40) + 20)
               (rnd 2%nat * (MAP_HEIGHT - 40) + 20)
               safeName (randomColor (rnd 0%nat)).

(** Lines 227-266, 412-452: the player and a zero score entered in the
    room, and the system message logged. *)
Definition enterGame (now : Z) (sid : string) (player : Player.t)
    (message : string) (game : Game.t) : Game.t :=
  let game := Game.set_players (insert sid player (Game.players game)) game in
  let game := Game.set_scores (insert sid 0%Z (Game.scores game)) game in
  pushChatMessage now (Chat.mk None message now true) game.

(** [broadcastPlayerName] (lines 113-118), on the room found. *)
Definition broadcastPlayerName (gameId playerId : string) (game : Game.t)
    : list Emit :=
  match lookup playerId (Game.players game) with
  | Some player => [ToRoom gameId (EvPlayerName playerId (Player.name player))]
  | None => []
  end.

(** What [join] does to the room it found (lines 215-266). *)
Definition joinGame (now : Z) (rnd : Rng) (sid : string) (nm : option string)
    (game : Game.t) : Game.t :=
  let game := Game.set_cleanupTimer false game in
  let safeName := sanitizeString nm in
  enterGame now sid (newPlayer rnd sid safeName)
            (str_or safeName "A player" ++ " joined the game.") game.

(** The [join] handler (lines 203-276), on the rooms stored in [games]:
    [lookup] reads the stored keys only.  A [serverId] that names a property
    [games] inherits is read as a room by line 209 and makes line 227 throw;
    [joinOutcome] below has that case. *)
Definition onJoin (now : Z) (rnd : Rng) (sid : string) (data : option JoinData)
    (sv : Server.t) : Result :=
  match data with
  | None => (sv, [ToSocket sid (EvError "Missing serverId")])
  | Some dta =>
    match jd_serverId dta with
    | None => (sv, [ToSocket sid (EvError "Missing serverId")])
    | Some gameId =>
      if String.eqb gameId "" then (sv, [ToSocket sid (EvError "Missing serverId")])
      else
      match lookup gameId (Server.games sv) with
      | None => (sv, [ToSocket sid (EvError "Game not found")])
      | Some game =>
        let safeName := sanitizeString (jd_name dta) in
        let game := joinGame now rnd sid (jd_name dta) game in
        let sv := Server.set_socketGameId (insert sid gameId (Server.socketGameId sv)) sv in
        (Server.set_games (insert gameId game (Server.games sv)) sv,
         broadcastPlayerName gameId sid game
         ++ [ToSocket sid (EvJoin sid gameId safeName
                                  (Some (randomColor (rnd 0%nat))) None
                                  MAP_WIDTH MAP_HEIGHT)])
      end
    end
  end.

(** [slice(-n)]. *)
Definition lastn {A : Type} (n : nat) (l : list A) : list A :=
  skipn (List.length l - n) l.

(** Lines 283-290: the items pushed on the player's queue, the queue cut
    to its last 120 items once it is longer than 180. *)
Definition queueInputs (sid : string) (player : Player.t)
    (items : list (option Input.t)) (game : Game.t) : Game.t :=
  let queue := Player.inputQueue player ++ items in
  let queue :=
    if (180 <? List.length queue)%nat then lastn 120 queue else queue in
  let player := Player.set_inputQueue queue player in
  Game.set_players (insert sid player (Game.players game)) game.

(** [inputs] is [None] when the payload is not an array.  ([inputOutcome]
    below has the case of a socket whose room name [games] inherits.) *)
Definition onInput (sid : string) (inputs : option (list (option Input.t)))
    (sv : Server.t) : Result :=
  match lookup sid (Server.socketGameId sv) with
  | None => (sv, [])
  | Some gameId =>
    match lookup gameId (Server.games sv) with
    | None => (sv, [])
    | Some game =>
      match lookup sid (Game.players game) with
      | None => (sv, [])
      | Some player =>
        match inputs with
        | None => (sv, [])
        | Some items =>
          let game := queueInputs sid player items game in
          (Server.set_games (insert gameId game (Server.games sv)) sv, [])
        end
      end
    end
  end.

(** The bullets of one shot, [i] running from [i0] for [n] rounds. *)
Fixpoint shotBullets (now : Z) (player : Player.t) (sid : string) (angle : R)
    (shots : nat) (spread : R) (i0 n : nat) : list Bullet.t :=
  match n with
  | O => []
  | S n' =>
    let offset :=
      if (shots =? 1)%nat then 0 else (INR i0 - (INR shots - 1) / 2) * spread in
    let a := angle + offset in
    let dt := 1 / TICK_RATE in
    Bullet.mk (Player.x player) (Player.y player)
              (cos a * BULLET_SPEED * dt) (sin a * BULLET_SPEED * dt)
              a sid (Player.color player) now 0
    :: shotBullets now player sid angle shots spread (S i0) n'
  end.

(** Lines 312-335: the bullets of the shot pushed, the shot's time kept. *)
Definition fireShots (now : Z) (sid : string) (player : Player.t)
    (angle : option R) (game : Game.t) : Game.t :=
  let isRapid := Player.rapidFire player in
  let angle := num_or angle 0 in
  let shots :=
    if isRapid
    then match cfg_shots (POWER_UP_TYPES RAPID_FIRE) with
         | Some n => if (n =? 0)%nat then 3%nat else n
         | None => 3%nat
         end
    else 1%nat in
  let spread := num_or (cfg_spread (POWER_UP_TYPES RAPID_FIRE)) (1 / 10) in
  let game :=
    Game.set_bullets
      (Game.bullets game ++ shotBullets now player sid angle shots spread 0 shots)
      game in
  let player := Player.set_lastShotTime now player in
  Game.set_players (insert sid player (Game.players game)) game.

(** [angle] is [Number(data?.angle)], [None] when that is [NaN].  An
    infinite angle (the payload ["Infinity"]), which [|| 0] keeps and whose
    cosine and sine are [NaN], is not an [R]: the handler is modelled on the
    angles that are finite, missing or not numbers. *)
Definition onShoot (now : Z) (sid : string) (angle : option R) (sv : Server.t)
    : Result :=
  match lookup sid (Server.socketGameId sv) with
  | None => (sv, [])
  | Some gameId =>
    match lookup gameId (Server.games sv) with
    | None => (sv, [])
    | Some game =>
      match lookup sid (Game.players game) with
      | None => (sv, [])
      | Some player =>
        if Player.dead player then (sv, [])
        else
          let cooldown :=
            if Player.rapidFire player then RAPID_FIRE_COOLDOWN
            else SHOOT_COOLDOWN in
          if (now - Player.lastShotTime player <? cooldown)%Z then (sv, [])
          else
            let game := fireShots now sid player angle game in
            (Server.set_games (insert gameId game (Server.games sv)) sv, [])
      end
    end
  end.

(** [text] is [data.text] when [data] carries a string there.
    ([chatMessageOutcome] below has the case of a socket whose room name
    [games] inherits.) *)
Definition onChatMessage (now : Z) (sid : string) (text : option string)
    (sv : Server.t) : Result :=
  match lookup sid (Server.socketGameId sv) with
  | None => (sv, [])
  | Some gameId =>
    match lookup gameId (Server.games sv) with
    | None => (sv, [])
    | Some game =>
      match lookup sid (Game.players game) with
      | None => (sv, [])
      | Some _ =>
        let sanitizedText := substring 0 200 (sanitizeString text) in
        if String.eqb sanitizedText "" then (sv, [])
        else
          let msg := Chat.mk (Some sid) sanitizedText now false in
          let game := pushChatMessage now msg game in
          (Server.set_games (insert gameId game (Server.games sv)) sv,
           [ToRoom gameId (EvChatMessage msg)])
      end
    end
  end.

Definition onGetServers (sid : string) (sv : Server.t) : Result :=
  let activeServers :=
    flat_map
      (fun kg : string * Game.t =>
         let game := snd kg in
         let playerCount := List.length (Game.players game) in
         if (0 <? playerCount)%nat
         then [mkServerInfo (Game.id game) (Game.name game) playerCount MAX_PLAYERS]
         else [])
      (Server.games sv) in
  (sv, [ToSocket sid (EvServers activeServers)]).

(** The rows the HTTP endpoint [/servers] answers with (lines 884-900). *)
Definition httpServers (sv : Server.t) : list ServerInfo :=
  flat_map
    (fun kg : string * Game.t =>
       let gameId := fst kg in
       let game := snd kg in
       let playerCount := List.length (Game.players game) in
       if (0 <? playerCount)%nat
       then [mkServerInfo (str_or (Game.id game) gameId)
                          (str_or (Game.name game) ("Game " ++ gameId))
                          playerCount MAX_PLAYERS]
       else [])
    (Server.games sv).

(** The double-quote character of the creation message. *)
Definition dquote : string := String (ascii_of_nat 34) EmptyString.

(** The decimal digits of a counter, for the template strings. *)
Definition decimal (n : nat) : string :=
  NilZero.string_of_uint (Nat.to_uint n).

(** The room [host] creates, with its host in it (lines 391-452). *)
Definition hostGame (now : Z) (rnd : Rng) (sid gameId gameName mapType : string)
    (playerName : option string) : Game.t :=
  let game := Game.mk gameId gameName mapType [] [] [] [] [] false in
  let safeName := sanitizeString playerName in
  enterGame now sid (newPlayer rnd sid safeName)
            ("Server " ++ dquote ++ gameName ++ dquote ++ " created.") game.

Definition onHost (now : Z) (rnd : Rng) (sid : string) (data : option HostData)
    (sv : Server.t) : Result :=
  match data with
  | None => (sv, [ToSocket sid (EvError "Invalid host data")])
  | Some dta =>
    let gameCounter := S (Server.gameCounter sv) in
    let gameId := ("game_" ++ decimal gameCounter)%string in
    let gameName :=
      str_or (match hd_name dta with Some n => n | None => "" end)
             ("Game " ++ decimal gameCounter) in
    let mapType :=
      str_or (match hd_map dta with Some m => m | None => "" end) "green" in
    let game := hostGame now rnd sid gameId gameName mapType (hd_playerName dta) in
    (Server.mk (insert gameId game (Server.games sv)) gameCounter
               (Server.lastPowerUpSpawnTime sv)
               (insert sid gameId (Server.socketGameId sv)),
     broadcastPlayerName gameId sid game
     ++ [ToSocket sid (EvJoin sid gameId gameName None (Some mapType)
                              MAP_WIDTH MAP_HEIGHT)])
  end.

(** Lines 472-484: the socket's player, if the room has one, taken out of
    the room with its score. *)
Definition removePlayer (now : Z) (sid : string) (game : Game.t) : Game.t :=
  match lookup sid (Game.players game) with
  | Some player =>
    let game :=
      pushChatMessage now
        (Chat.mk None (str_or (Player.name player) "A player"
                       ++ " left the game.") now true) game in
    let game := Game.set_players (remove sid (Game.players game)) game in
    Game.set_scores (remove sid (Game.scores game)) game
  | None => game
  end.

(** Lines 486-494: an empty room gets its cleanup timer. *)
Definition scheduleCleanup (game : Game.t) : Game.t :=
  match Game.players game with
  | [] => Game.set_cleanupTimer true game
  | _ => game
  end.

(** What [disconnect] does to the socket's room. *)
Definition leaveGame (now : Z) (sid : string) (game : Game.t) : Game.t :=
  scheduleCleanup (removePlayer now sid game).

Definition onDisconnect (now : Z) (sid : string) (sv : Server.t) : Result :=
  match lookup sid (Server.socketGameId sv) with
  | None => (sv, [])
  | Some gameId =>
    match lookup gameId (Server.games sv) with
    | None => (sv, [])
    | Some game =>
      (Server.set_games (insert gameId (leaveGame now sid game) (Server.games sv)) sv,
       [])
    end
  end.

(** The callback the [disconnect] handler schedules, when its timer fires. *)
Definition onCleanupTimer (gameId : string) (sv : Server.t) : Result :=
  match lookup gameId (Server.games sv) with
  | Some game =>
    match Game.cleanupTimer game, Game.players game with
    | true, [] => (Server.set_games (remove gameId (Server.games sv)) sv, [])
    | _, _ => (sv, [])
    end
  | None => (sv, [])
  end.

(** ** The game loop (lines 590-881) *)

(** [Math.atan2(y, x)] (signed zeros apart). *)
Definition atan2 (ay ax : R) : R :=
  if Rlt_dec 0 ax then atan (ay / ax)
  else if Rlt_dec ax 0 then
    (if Rle_dec 0 ay then atan (ay / ax) + PI else atan (ay / ax) - PI)
  else if Rlt_dec 0 ay then PI / 2
  else if Rlt_dec ay 0 then - PI / 2
  else 0.

(** The loop's own [TANK_RADIUS] (25, line 610) and its square. *)
Definition HIT_TANK_RADIUS : R := 25.
Definition TANK_RADIUS_SQ : R := HIT_TANK_RADIUS * HIT_TANK_RADIUS.
Definition bulletMaxAge : Z := 10000.
Definition MAX_BOUNCES : nat := 3.

(** Lines 627-639: the hit test of one bullet against one target, at the
    bullet's position and at its next one. *)
Definition hits (bullet : Bullet.t) (target : Player.t) : bool :=
  let dx := Player.x target - Bullet.x bullet in
  let dy := Player.y target - Bullet.y bullet in
  let distSq := dx * dx + dy * dy in
  let nextX := Bullet.x bullet + Bullet.vx bullet in
  let nextY := Bullet.y bullet + Bullet.vy bullet in
  let nextDx := Player.x target - nextX in
  let nextDy := Player.y target - nextY in
  let nextDistSq := nextDx * nextDx + nextDy * nextDy in
  if Rlt_dec distSq TANK_RADIUS_SQ then true
  else if Rlt_dec nextDistSq TANK_RADIUS_SQ then true
  else false.

(** Lines 622-639: the first player, in key order, the bullet hits. *)
Fixpoint findTarget (bullet : Bullet.t) (players : list (string * Player.t))
    : option (string * Player.t) :=
  match players with
  | [] => None
  | (id, target) :: rest =>
    if String.eqb id (Bullet.owner bullet) then findTarget bullet rest
    else if Player.dead target || Player.invulnerable target
         then findTarget bullet rest
    else if hits bullet target then Some (id, target)
    else findTarget bullet rest
  end.

(** Lines 641-649. *)
Definition bulletDamage (shooter : option Player.t) (target : Player.t) : R :=
  let damage := BULLET_DAMAGE in
  let damage :=
    match shooter with
    | Some sh =>
      if Player.damageBoost sh
      then IZR (Zfloor (damage * multiplier DAMAGE_BOOST))
      else damage
    | None => damage
    end in
  if Player.shield target then 0 else damage.

(** What the collision pass works on: the room's players and scores. *)
Definition Arena : Type := list (string * Player.t) * list (string * Z).

(** Lines 651-654: the target after the damage. *)
Definition applyDamage (now : Z) (damage : R) (target : Player.t) : Player.t :=
  let target := Player.set_hp (Rmax 0 (Player.hp target - damage)) target in
  if Rle_dec (Player.hp target) 0 then
    let target := Player.set_dead true target in
    Player.set_respawnTime (now + RESPAWN_TIME)%Z target
  else target.

(** Lines 655-657: the shooter's score on a kill, if the shooter has one. *)
Definition creditKill (owner : string) (scores : list (string * Z))
    : list (string * Z) :=
  match lookup owner scores with
  | Some n => insert owner (n + 1)%Z scores
  | None => scores
  end.

(** Lines 641-658: the hit applied to the target and to the scores. *)
Definition resolveHit (now : Z) (bullet : Bullet.t) (id : string)
    (target : Player.t) (ar : Arena) : Arena :=
  let '(players, scores) := ar in
  let shooter := lookup (Bullet.owner bullet) players in
  let damage := bulletDamage shooter target in
  let target := applyDamage now damage target in
  let scores :=
    if Rle_dec (Player.hp target) 0
    then creditKill (Bullet.owner bullet) scores
    else scores in
  (insert id target players, scores).

(** Position, velocity and bounce count of a bullet during the wall code. *)
Definition set_motion (bx by_ bvx bvy : R) (n : nat) (b : Bullet.t) : Bullet.t :=
  Bullet.mk bx by_ bvx bvy (Bullet.angle b) (Bullet.owner b) (Bullet.color b)
            (Bullet.createdAt b) n.

Definition set_angle (v : R) (b : Bullet.t) : Bullet.t :=
  Bullet.mk (Bullet.x b) (Bullet.y b) (Bullet.vx b) (Bullet.vy b) v
            (Bullet.owner b) (Bullet.color b) (Bullet.createdAt b)
            (Bullet.bounces b).

Definition outside (v bound : R) : bool :=
  if Rlt_dec v 0 then true else if Rlt_dec bound v then true else false.

(** Lines 684-701: the left and right walls.  [None] is the bullet spliced
    out; otherwise the bullet, whether it bounced, and the impact emitted. *)
Definition wallX (gameId : string) (b : Bullet.t)
    : option (Bullet.t * bool * list Emit) :=
  if outside (Bullet.x b) MAP_WIDTH then
    if (Bullet.bounces b <? MAX_BOUNCES)%nat then
      let b :=
        set_motion (Rmax 0 (Rmin MAP_WIDTH (Bullet.x b))) (Bullet.y b)
                   (- Bullet.vx b) (Bullet.vy b) (S (Bullet.bounces b)) b in
      Some (b, true,
            [ToRoom gameId (EvWallImpact (Bullet.x b) (Bullet.y b)
                              (str_or (Bullet.color b) "#ffff00"))])
    else None
  else Some (b, false, []).

(** Lines 703-720: the top and bottom walls. *)
Definition wallY (gameId : string) (b : Bullet.t)
    : option (Bullet.t * bool * list Emit) :=
  if outside (Bullet.y b) MAP_HEIGHT then
    if (Bullet.bounces b <? MAX_BOUNCES)%nat then
      let b :=
        set_motion (Bullet.x b) (Rmax 0 (Rmin MAP_HEIGHT (Bullet.y b)))
                   (Bullet.vx b) (- Bullet.vy b) (S (Bullet.bounces b)) b in
      Some (b, true,
            [ToRoom gameId (EvWallImpact (Bullet.x b) (Bullet.y b)
                              (str_or (Bullet.color b) "#ffff00"))])
    else None
  else Some (b, false, []).

(** Lines 676-731: a bullet that hit nobody moves, bounces or is removed.
    The bullet's position and velocity are numbers here; a bullet with a
    [NaN] among them, which passes every comparison of lines 684-703
    unchanged, is not a [Bullet.t]. *)
Definition moveBullet (now : Z) (gameId : string) (bullet : Bullet.t)
    : option Bullet.t * list Emit :=
  let bullet :=
    set_motion (Bullet.x bullet + Bullet.vx bullet)
               (Bullet.y bullet + Bullet.vy bullet)
               (Bullet.vx bullet) (Bullet.vy bullet) (Bullet.bounces bullet)
               bullet in
  match wallX gameId bullet with
  | None => (None, [])
  | Some (bullet, bouncedX, evX) =>
    match wallY gameId bullet with
    | None => (None, evX)
    | Some (bullet, bouncedY, evY) =>
      let bullet :=
        if bouncedX || bouncedY
        then set_angle (atan2 (Bullet.vy bullet) (Bullet.vx bullet)) bullet
        else bullet in
      let isNotTooOld :=
        (Bullet.createdAt bullet =? 0)%Z
        || (now - Bullet.createdAt bullet <? bulletMaxAge)%Z in
      if isNotTooOld then (Some bullet, evX ++ evY) else (None, evX ++ evY)
    end
  end.

(** Lines 616-731: the loop body for one bullet. *)
Definition stepBullet (now : Z) (gameId : string) (bullet : Bullet.t)
    (ar : Arena) : option Bullet.t * Arena * list Emit :=
  match findTarget bullet (fst ar) with
  | Some (id, target) =>
    (None, resolveHit now bullet id target ar,
     [ToRoom gameId (EvBulletHit (Bullet.owner bullet) id
                                 (Bullet.x bullet) (Bullet.y bullet))])
  | None =>
    let '(ob, ev) := moveBullet now gameId bullet in (ob, ar, ev)
  end.

(** Lines 615-732: the loop runs from the last bullet down to the first,
    splicing out the one it is at, so the bullets after a bullet are done
    before it and keep their order. *)
Fixpoint bulletPass (now : Z) (gameId : string) (bullets : list Bullet.t)
    (ar : Arena) : list Bullet.t * Arena * list Emit :=
  match bullets with
  | [] => ([], ar, [])
  | bullet :: later =>
    let '(later, ar, ev1) := bulletPass now gameId later ar in
    let '(ob, ar, ev2) := stepBullet now gameId bullet ar in
    (match ob with Some b => b :: later | None => later end, ar, ev1 ++ ev2)
  end.

(** Lines 739-744: one player's queue drained through [applyInput]. *)
Fixpoint drainQueue (queue : list (option Input.t)) (player : Player.t)
    : Player.t :=
  match queue with
  | [] => player
  | Some input :: rest => drainQueue rest (applyInput player input)
  | None :: rest => drainQueue rest player
  end.

Definition processInputs (player : Player.t) : Player.t :=
  Player.set_inputQueue [] (drainQueue (Player.inputQueue player) player).

(** Lines 752-768: one player's respawn; two [Math.random()] calls. *)
Definition shouldRespawn (now : Z) (player : Player.t) : bool :=
  Player.dead player
  && negb (Player.respawnTime player =? 0)%Z
  && (Player.respawnTime player <? now)%Z.

Definition respawn (now : Z) (rnd : Rng) (player : Player.t) : Player.t :=
  let spawn := getRandomSpawn rnd in
  let player := Player.set_pos (fst spawn) (snd spawn) player in
  let player := Player.set_vel 0 0 player in
  let player := Player.set_hp MAX_HP player in
  let player := Player.set_dead false player in
  let player := Player.set_lastShotTime 0%Z player in
  Player.set_invulnerable true (Some (now + 3000)%Z) player.

(** Lines 748-769; returns the players and how many random numbers were
    drawn. *)
Fixpoint respawnPass (now : Z) (rnd : Rng) (players : list (string * Player.t))
    : list (string * Player.t) * nat :=
  match players with
  | [] => ([], 0%nat)
  | (id, player) :: rest =>
    if shouldRespawn now player then
      let '(rest, n) := respawnPass now (rng_drop 2 rnd) rest in
      ((id, respawn now rnd player) :: rest, (2 + n)%nat)
    else
      let '(rest, n) := respawnPass now rnd rest in
      ((id, player) :: rest, n)
  end.

(** Lines 778-790: the first live player within the pickup radius. *)
Fixpoint collector (powerUp : PowerUp.t) (players : list (string * Player.t))
    : option string :=
  match players with
  | [] => None
  | (playerId, player) :: rest =>
    if Player.dead player then collector powerUp rest
    else
      let dx := Player.x player - PowerUp.x powerUp in
      let dy := Player.y player - PowerUp.y powerUp in
      let distance := sqrt (dx * dx + dy * dy) in
      if Rlt_dec distance POWER_UP_RADIUS then Some playerId
      else collector powerUp rest
  end.

(** Lines 772-794: the [filter] over the power-ups, the players changing
    as power-ups are collected. *)
Fixpoint powerUpPass (now : Z) (powerUps : list PowerUp.t)
    (players : list (string * Player.t))
    : list PowerUp.t * list (string * Player.t) :=
  match powerUps with
  | [] => ([], players)
  | powerUp :: rest =>
    if (POWER_UP_LIFETIME <? now - PowerUp.createdAt powerUp)%Z
    then powerUpPass now rest players
    else
      match collector powerUp players with
      | Some playerId =>
        powerUpPass now rest (applyPowerUp now playerId (PowerUp.type powerUp) players)
      | None =>
        let '(rest, players) := powerUpPass now rest players in
        (powerUp :: rest, players)
      end
  end.

(** [flag && expireTime && Date.now() > expireTime]. *)
Definition expired (now : Z) (flag : bool) (expireTime : option Z) : bool :=
  flag &&
  match expireTime with
  | Some e => negb (e =? 0)%Z && (e <? now)%Z
  | None => false
  end.

(** Lines 797-842, for one player. *)
Definition expireEffects (now : Z) (player : Player.t) : Player.t :=
  let player :=
    if expired now (Player.speedBoost player) (Player.speedBoostExpireTime player)
    then Player.set_speedBoost false None player else player in
  let player :=
    if expired now (Player.rapidFire player) (Player.rapidFireExpireTime player)
    then Player.set_rapidFire false None player else player in
  let player :=
    if expired now (Player.shield player) (Player.shieldExpireTime player)
    then Player.set_shield false None player else player in
  let player :=
    if expired now (Player.damageBoost player) (Player.damageBoostExpireTime player)
    then Player.set_damageBoost false None player else player in
  if expired now (Player.invulnerable player) (Player.invulnerableExpireTime player)
  then Player.set_invulnerable false None player else player.

(** Lines 845-877. *)
Definition snapshot (game : Game.t) : Snapshot :=
  mkSnapshot
    (map (fun kp : string * Player.t => PlayerView.of_player (fst kp) (snd kp))
         (Game.players game))
    (map (fun b => mkBulletView (Bullet.x b) (Bullet.y b) (Bullet.angle b)
                                (Bullet.color b))
         (Game.bullets game))
    (Game.scores game)
    (Game.powerUps game).

Definition mapValues {V : Type} (f : V -> V) (m : list (string * V))
    : list (string * V) :=
  map (fun kv => (fst kv, f (snd kv))) m.

(** Lines 596-604: the spawn check.  [last] is [lastPowerUpSpawnTime[gameId]]
    after line 598; returns its new value, the room, and the number of
    random numbers drawn. *)
Definition spawnCheck (now : Z) (rnd : Rng) (last : Z) (game : Game.t)
    : Z * Game.t * nat :=
  if (7000 <? now - last)%Z then
    if (List.length (Game.powerUps game) <? 6)%nat
    then (now, spawnPowerUp now rnd game, 4%nat)
    else (now, game, 0%nat)
  else (last, game, 0%nat).

(** One room's iteration of the loop. *)
Definition tickGame (now : Z) (rnd : Rng) (gameId : string) (last : option Z)
    (game : Game.t) : Z * Game.t * nat * list Emit :=
  let last := int_or last 0 in
  let '(last, game, n1) := spawnCheck now rnd last game in
  let '(bullets, (players, scores), ev) :=
    bulletPass now gameId (Game.bullets game)
               (Game.players game, Game.scores game) in
  let players := mapValues processInputs players in
  let '(players, n2) := respawnPass now (rng_drop n1 rnd) players in
  let '(powerUps, players) := powerUpPass now (Game.powerUps game) players in
  let players := mapValues (expireEffects now) players in
  let game :=
    Game.set_players players
      (Game.set_scores scores
         (Game.set_powerUps powerUps (Game.set_bullets bullets game))) in
  (last, game, (n1 + n2)%nat, ev ++ [ToRoom gameId (EvState (snapshot game))]).

(** The loop over the rooms, in key order: [todo] are the rooms still to
    visit, [sv] holds the rooms already done. *)
Fixpoint tickGames (now : Z) (rnd : Rng) (todo : list (string * Game.t))
    (sv : Server.t) : Result :=
  match todo with
  | [] => (sv, [])
  | (gameId, game) :: rest =>
    let '(last, game, n, ev) :=
      tickGame now rnd gameId (lookup gameId (Server.lastPowerUpSpawnTime sv)) game in
    let sv :=
      Server.set_lastPowerUpSpawnTime
        (insert gameId last (Server.lastPowerUpSpawnTime sv)) sv in
    let sv := Server.set_games (insert gameId game (Server.games sv)) sv in
    let '(sv, ev') := tickGames now (rng_drop n rnd) rest sv in
    (sv, ev ++ ev')
  end.

Definition onTick (now : Z) (rnd : Rng) (sv : Server.t) : Result :=
  tickGames now rnd (Server.games sv) sv.

(** ** Everything that can happen to the server *)

Inductive Request : Type :=
  | ReqJoin (sid : string) (data : option JoinData)
  | ReqInput (sid : string) (inputs : option (list (option Input.t)))
  | ReqShoot (sid : string) (angle : option R)
  | ReqChatMessage (sid : string) (text : option string)
  | ReqGetServers (sid : string)
  | ReqHost (sid : string) (data : option HostData)
  | ReqDisconnect (sid : string)
  | CleanupTimer (gameId : string)
  | Tick.

(** One step of the server, with [rnd] the random numbers it draws.  The
    clock is read once per step: every [Date.now()] of the step is [now]. *)
Definition handle (now : Z) (rnd : Rng) (req : Request) (sv : Server.t) : Result :=
  match req with
  | ReqJoin sid data => onJoin now rnd sid data sv
  | ReqInput sid inputs => onInput sid inputs sv
  | ReqShoot sid angle => onShoot now sid angle sv
  | ReqChatMessage sid text => onChatMessage now sid text sv
  | ReqGetServers sid => onGetServers sid sv
  | ReqHost sid data => onHost now rnd sid data sv
  | ReqDisconnect sid => onDisconnect now sid sv
  | CleanupTimer gameId => onCleanupTimer gameId sv
  | Tick => onTick now rnd sv
  end.

(** [Math.random()] returns a number in [0, 1). *)
Definition unit_rng (rnd : Rng) : Prop := forall n, 0 <= rnd n < 1.

(** The states the server can be in. *)
Inductive reachable : Server.t -> Prop :=
  | reach_init : reachable Server.init
  | reach_step now rnd req sv :
      reachable sv -> unit_rng rnd -> reachable (fst (handle now rnd req sv)).

(** ** Room names that every object inherits *)

(** [games] is a plain object (line 43), so [games[k]] finds, besides the
    rooms stored in it, the properties every object inherits from
    [Object.prototype].  Their values are functions, and for [__proto__] the
    prototype itself: all of them truthy, none with a [players] property. *)
Definition OBJECT_PROTOTYPE_KEYS : list string :=
  ["constructor"; "__defineGetter__"; "__defineSetter__"; "hasOwnProperty";
   "__lookupGetter__"; "__lookupSetter__"; "isPrototypeOf";
   "propertyIsEnumerable"; "toString"; "valueOf"; "__proto__";
   "toLocaleString"]%string.

Definition inherited (k : string) : bool :=
  existsb (String.eqb k) OBJECT_PROTOTYPE_KEYS.

(** What [m[k]] evaluates to on a plain object [m]: a value stored under
    [k], an inherited property, or [undefined]. *)
Inductive Property (V : Type) : Type :=
  | Own (v : V)
  | Inherited
  | Missing.

Arguments Own {V} v.
Arguments Inherited {V}.
Arguments Missing {V}.

Definition property {V : Type} (k : string) (m : list (string * V)) : Property V :=
  match lookup k m with
  | Some v => Own v
  | None => if inherited k then Inherited else Missing
  end.

(** How a handler run ends: it returns, with the state and the events of
    its result, or it throws a [TypeError] somewhere on the way, leaving the
    state as written so far and nothing emitted.  None of the three handlers
    below catches anything (the [host] handler does, lines 385-465). *)
Inductive Outcome : Type :=
  | Returned (result : Result)
  | Threw (sv : Server.t).

(** The [join] handler (lines 203-276) with the inherited names: for such a
    [serverId] line 209 reads a function, the guard of line 210 lets it
    pass, line 222 records the name as the socket's room and line 227 throws
    on [game.players[socket.id]], [game.players] being [undefined].  On
    every other request the handler is [onJoin]. *)
Definition joinOutcome (now : Z) (rnd : Rng) (sid : string)
    (data : option JoinData) (sv : Server.t) : Outcome :=
  match data with
  | None => Returned (onJoin now rnd sid data sv)
  | Some dta =>
    match jd_serverId dta with
    | None => Returned (onJoin now rnd sid data sv)
    | Some gameId =>
      if String.eqb gameId "" then Returned (onJoin now rnd sid data sv)
      else
        match property gameId (Server.games sv) with
        | Inherited =>
          Threw (Server.set_socketGameId
                   (insert sid gameId (Server.socketGameId sv)) sv)
        | _ => Returned (onJoin now rnd sid data sv)
        end
    end
  end.

(** The [input] handler (lines 278-291) with the inherited names: when the
    socket's room is one, [!game] is false and [game.players[socket.id]]
    throws (line 281). *)
Definition inputOutcome (sid : string) (inputs : option (list (option Input.t)))
    (sv : Server.t) : Outcome :=
  match lookup sid (Server.socketGameId sv) with
  | None => Returned (onInput sid inputs sv)
  | Some gameId =>
    match property gameId (Server.games sv) with
    | Inherited => Threw sv
    | _ => Returned (onInput sid inputs sv)
    end
  end.

(** The [chat:message] handler (lines 338-361), likewise (line 341).  The
    [shoot] handler reads [game.players?.[socket.id]] (line 298), which is
    [undefined] for an inherited name: it returns, as [onShoot] does. *)
Definition chatMessageOutcome (now : Z) (sid : string) (text : option string)
    (sv : Server.t) : Outcome :=
  match lookup sid (Server.socketGameId sv) with
  | None => Returned (onChatMessage now sid text sv)
  | Some gameId =>
    match property gameId (Server.games sv) with
    | Inherited => Threw sv
    | _ => Returned (onChatMessage now sid text sv)
    end
  end.

(** ** The client: prediction and reconciliation *)

Module Client.

(** The client's constants (lines 1285-1288) repeat the server's values;
    its speed-boost factor is the literal 2 (line 2881). *)
Definition maxSpeed (speedBoost : bool) : R :=
  if speedBoost then TANK_MAX_SPEED * 2 else TANK_MAX_SPEED.

(** [predictedPlayer]; [speedBoost] and [shield] are falsy until a
    snapshot sets them. *)
Module Predicted.
Record t : Type := mk {
  x : R;
  y : R;
  vx : R;
  vy : R;
  rotation : R;
  turretRotation : R;
  speedBoost : bool;
  shield : bool
}.

Definition init : t := mk 0 0 0 0 0 0 false false.
End Predicted.

(** What the client's [applyInput] reads of its second argument, which
    is an input packet (line 3682) or a history entry (line 3441). *)
Module Sample.
Record t : Type := mk {
  seq : Z;
  inputs : Keys.t;
  rotation : R;
  turretRotation : R;
  dt : R
}.
End Sample.

(** An entry of [predictionHistory] (lines 3685-3695). *)
Module Entry.
Record t : Type := mk {
  x : R;
  y : R;
  vx : R;
  vy : R;
  rotation : R;
  turretRotation : R;
  seq : Z;
  inputs : Keys.t;
  dt : R
}.

Definition sample (e : t) : Sample.t :=
  Sample.mk (seq e) (inputs e) (rotation e) (turretRotation e) (dt e).
End Entry.

Record t : Type := mk {
  gameStarted : bool;
  playerId : option string;
  canvasWidth : R;
  canvasHeight : R;
  keys : Keys.t;
  players : list (string * PlayerView.t);
  predictedPlayer : Predicted.t;
  predictionHistory : list Entry.t;
  inputQueue : list Sample.t;
  sequenceNumber : Z
}.

(** The client's [applyInput] (lines 2856-2933). *)
Definition applyInput (width height : R) (player : Predicted.t)
    (input : Sample.t) : Predicted.t :=
  let dt := num_or (Some (Sample.dt input)) (1 / 60) in
  let '((px, pvx), (py, pvy)) :=
    moveWithin width height (maxSpeed (Predicted.speedBoost player))
      (Sample.inputs input) dt
      (Predicted.x player) (Predicted.y player)
      (Predicted.vx player) (Predicted.vy player) in
  Predicted.mk px py pvx pvy (Sample.rotation input)
               (Sample.turretRotation input)
               (Predicted.speedBoost player) (Predicted.shield player).

(** Lines 3421-3428: the predicted state overwritten from the snapshot. *)
Definition overwrite (serverPlayer : PlayerView.t) (p : Predicted.t)
    : Predicted.t :=
  Predicted.mk (PlayerView.x serverPlayer) (PlayerView.y serverPlayer)
               (num_or (Some (PlayerView.vx serverPlayer)) 0)
               (num_or (Some (PlayerView.vy serverPlayer)) 0)
               (PlayerView.rotation serverPlayer)
               (Predicted.turretRotation p)
               (PlayerView.speedBoost serverPlayer)
               (PlayerView.shield serverPlayer).

(** Lines 3432-3437: entries shifted off the front while acknowledged. *)
Fixpoint dropAcked (lastProcessedInputSeq : Z) (history : list Entry.t)
    : list Entry.t :=
  match history with
  | e :: rest =>
    if (Entry.seq e <=? lastProcessedInputSeq)%Z
    then dropAcked lastProcessedInputSeq rest
    else history
  | [] => []
  end.

(** Lines 3440-3442: the [forEach] over the history. *)
Definition replay (width height : R) (history : list Entry.t)
    (p : Predicted.t) : Predicted.t :=
  fold_left (fun acc e => applyInput width height acc (Entry.sample e))
            history p.

(** Lines 3356-3362: the [players] table rebuilt from the snapshot (an
    entry with an empty id is skipped). *)
Definition indexPlayers (views : list PlayerView.t)
    : list (string * PlayerView.t) :=
  fold_left
    (fun acc p =>
       if String.eqb (PlayerView.id p) "" then acc
       else insert (PlayerView.id p) p acc)
    views [].

(** The [state] handler (lines 3352-3443), as far as prediction goes;
    [state] is [None] for a payload without a [players] array. *)
Definition onState (state : option Snapshot) (c : t) : t :=
  if negb (gameStarted c) then c
  else
    match state with
    | None => c
    | Some st =>
      let players := indexPlayers (snap_players st) in
      let found :=
        match playerId c with
        | Some pid => if String.eqb pid "" then None else lookup pid players
        | None => None
        end in
      match found with
      | Some serverPlayer =>
        let predicted := overwrite serverPlayer (predictedPlayer c) in
        let lastProcessedInputSeq :=
          int_or (Some (PlayerView.lastProcessedInput serverPlayer)) 0 in
        let history := dropAcked lastProcessedInputSeq (predictionHistory c) in
        let predicted := replay (canvasWidth c) (canvasHeight c) history predicted in
        mk (gameStarted c) (playerId c) (canvasWidth c) (canvasHeight c)
           (keys c) players predicted history (inputQueue c) (sequenceNumber c)
      | None =>
        mk (gameStarted c) (playerId c) (canvasWidth c) (canvasHeight c)
           (keys c) players (predictedPlayer c) (predictionHistory c)
           (inputQueue c) (sequenceNumber c)
      end
    end.

(** The end of [update] (lines 3670-3700): one input sampled, predicted
    and recorded.  [mouseTurret] is the turret angle line 3648 has just
    computed. *)
Definition recordInput (mouseTurret : R) (c : t) : t :=
  let dt := 1 / 60 in
  let predicted0 := predictedPlayer c in
  let predicted0 :=
    Predicted.mk (Predicted.x predicted0) (Predicted.y predicted0)
                 (Predicted.vx predicted0) (Predicted.vy predicted0)
                 (Predicted.rotation predicted0) mouseTurret
                 (Predicted.speedBoost predicted0) (Predicted.shield predicted0) in
  let input :=
    Sample.mk (sequenceNumber c) (keys c)
              (num_or (Some (Predicted.rotation predicted0)) 0)
              (num_or (Some (Predicted.turretRotation predicted0)) 0) dt in
  let predicted := applyInput (canvasWidth c) (canvasHeight c) predicted0 input in
  let entry :=
    Entry.mk (Predicted.x predicted) (Predicted.y predicted)
             (Predicted.vx predicted) (Predicted.vy predicted)
             (Predicted.rotation predicted) (Predicted.turretRotation predicted)
             (Sample.seq input) (keys c) dt in
  let history := predictionHistory c ++ [entry] in
  let history := if (60 <? List.length history)%nat then tl history else history in
  mk (gameStarted c) (playerId c) (canvasWidth c) (canvasHeight c)
     (keys c) (players c) predicted history (inputQueue c ++ [input])
     (sequenceNumber c + 1)%Z.

(** [update] (line 3616) does nothing until the local player is known. *)
Definition update (mouseTurret : R) (c : t) : t :=
  match playerId c with
  | Some pid =>
    match lookup pid (players c) with
    | Some _ => if gameStarted c then recordInput mouseTurret c else c
    | None => c
    end
  | None => c
  end.

End Client.

(** ** The client: interpolation of the other players *)

Module Interp.

(** Line 1292. *)
Definition INTERPOLATION_DELAY : R := 100.

(** [{x, y, rotation, turretRotation}]. *)
Record Pose : Type := mkPose {
  x : R; y : R; rotation : R; turretRotation : R
}.

(** An entry of [otherPlayersInterpolated] (lines 3451-3455). *)
Record t : Type := mk { current : Pose; target : Pose; timestamp : Z }.

Definition poseOf (p : PlayerView.t) : Pose :=
  mkPose (PlayerView.x p) (PlayerView.y p) (PlayerView.rotation p)
         (PlayerView.turretRotation p).

(** Lines 3449-3463: the entry of a player of the snapshot; [old] is the
    entry the table has for the player, if any. *)
Definition retarget (now : Z) (p : PlayerView.t) (old : option t) : t :=
  match old with
  | None => mk (poseOf p) (poseOf p) now
  | Some interpData => mk (target interpData) (poseOf p) now
  end.

(** Lines 3632-3636. *)
Definition easeT (now : Z) (interpData : t) : R :=
  let timeSinceUpdate := IZR (now - timestamp interpData) in
  let t := Rmin (timeSinceUpdate / INTERPOLATION_DELAY) 1 in
  1 - (1 - t) ^ 3.

Definition toward (current target e : R) : R :=
  current + (target - current) * e.

(** Lines 3638-3641: one frame of [update] for one entry. *)
Definition step (now : Z) (interpData : t) : t :=
  let e := easeT now interpData in
  let c := current interpData in
  let g := target interpData in
  mk (mkPose (toward (x c) (x g) e) (toward (y c) (y g) e)
             (toward (rotation c) (rotation g) e)
             (toward (turretRotation c) (turretRotation g) e))
     g (timestamp interpData).

End Interp.

(** ** The client: the leaderboard (lines 4231-4326) *)

Module Leaderboard.

Record Row : Type := mk {
  id : string; name : string; kills : Z; isSelf : bool
}.

(** [toUpperCase] on the characters a socket id is made of (ASCII). *)
Definition toUpper (c : Ascii.ascii) : Ascii.ascii :=
  let n := Ascii.nat_of_ascii c in
  if ((97 <=? n) && (n <=? 122))%nat then Ascii.ascii_of_nat (n - 32) else c.

Definition toUpperCase (s : string) : string :=
  string_of_list_ascii (map toUpper (list_ascii_of_string s)).

(** Lines 4241-4252: the row of one key of [scores]. *)
Definition row (playerNames : list (string * string))
    (players : list (string * PlayerView.t)) (socketId : option string)
    (kv : string * Z) : Row :=
  let playerId := fst kv in
  let score := snd kv in
  let name :=
    str_or (match lookup playerId playerNames with Some n => n | None => "" end)
      (str_or (match lookup playerId players with
               | Some p => PlayerView.name p
               | None => ""
               end)
              ("Player " ++ toUpperCase (substring 0 5 playerId))) in
  mk playerId name (int_or (Some score) 0)
     (match socketId with Some sid => String.eqb playerId sid | None => false end).

(** [sort((a, b) => b.kills - a.kills)]: descending by kills, rows of
    equal kills in the order they had (the sort is stable).  [place] puts
    a row in front of a sorted list of the rows that followed it. *)
Fixpoint place (r : Row) (sorted : list Row) : list Row :=
  match sorted with
  | [] => [r]
  | h :: rest =>
    if (kills r <? kills h)%Z then h :: place r rest else r :: h :: rest
  end.

Definition sortByKills (rows : list Row) : list Row := fold_right place [] rows.

(** Lines 4238-4274: the rows shown. *)
Definition topPlayers (playerNames : list (string * string))
    (players : list (string * PlayerView.t)) (socketId : option string)
    (scores : list (string * Z)) : list Row :=
  let leaderboardData := map (row playerNames players socketId) scores in
  firstn 10 (sortByKills leaderboardData).

End Leaderboard.

(** ** Predicates the properties are stated with *)

(** The rectangle a tank's centre is kept in. *)
Definition inArena (player : Player.t) : Prop :=
  TANK_RADIUS <= Player.x player <= MAP_WIDTH - TANK_RADIUS /\
  TANK_RADIUS <= Player.y player <= MAP_HEIGHT - TANK_RADIUS.

(** The magnitude of a velocity. *)
Definition magnitude (v : R * R) : R := sqrt (fst v * fst v + snd v * snd v).




(** The history in the order its entries were recorded: sequence numbers
    never decrease from the front to the back. *)
Definition ascending (history : list Client.Entry.t) : Prop :=
  StronglySorted (fun e1 e2 => (Client.Entry.seq e1 <= Client.Entry.seq e2)%Z)
                 history.

(** The entries the server has not acknowledged. *)
Definition unacked (ack : Z) (history : list Client.Entry.t)
    : list Client.Entry.t :=
  filter (fun e => (ack <? Client.Entry.seq e)%Z) history.

(** What the client's own steps keep true of its history: strictly
    increasing sequence numbers, all below the next number to issue. *)
Definition historyOrdered (c : Client.t) : Prop :=
  StronglySorted (fun e1 e2 => (Client.Entry.seq e1 < Client.Entry.seq e2)%Z)
                 (Client.predictionHistory c) /\
  Forall (fun e => (Client.Entry.seq e < Client.sequenceNumber c)%Z)
         (Client.predictionHistory c).

(** The flag and the expiry timestamp of a timed effect. *)
Definition effectFlag (ty : PowerUpType) (player : Player.t) : bool :=
  match ty with
  | SPEED => Player.speedBoost player
  | RAPID_FIRE => Player.rapidFire player
  | SHIELD => Player.shield player
  | DAMAGE_BOOST => Player.damageBoost player
  | HEALTH_PACK => false
  end.

Definition effectExpiry (ty : PowerUpType) (player : Player.t) : option Z :=
  match ty with
  | SPEED => Player.speedBoostExpireTime player
  | RAPID_FIRE => Player.rapidFireExpireTime player
  | SHIELD => Player.shieldExpireTime player
  | DAMAGE_BOOST => Player.damageBoostExpireTime player
  | HEALTH_PACK => None
  end.

(** The player with one effect's expiry timestamp replaced and nothing
    else touched. *)
Definition withExpiry (ty : PowerUpType) (e : option Z) (player : Player.t)
    : Player.t :=
  match ty with
  | SPEED => Player.set_speedBoost (Player.speedBoost player) e player
  | RAPID_FIRE => Player.set_rapidFire (Player.rapidFire player) e player
  | SHIELD => Player.set_shield (Player.shield player) e player
  | DAMAGE_BOOST => Player.set_damageBoost (Player.damageBoost player) e player
  | HEALTH_PACK => player
  end.

(** A socket whose claimed room ([socket.gameId]) does not exist, or does
    not hold a player of the socket.  A claimed name that [games] inherits
    is neither: [games[gameId]] is there, and is no room. *)
Definition stale (sid : string) (sv : Server.t) : Prop :=
  match lookup sid (Server.socketGameId sv) with
  | None => True
  | Some gameId =>
    match property gameId (Server.games sv) with
    | Missing => True
    | Own game => lookup sid (Game.players game) = None
    | Inherited => False
    end
  end.

(** A property of every value of an object. *)
Definition allValues {V : Type} (P : V -> Prop) (m : list (string * V)) : Prop :=
  Forall (fun kv => P (snd kv)) m.

(** A property of every room of the server. *)
Definition allGames (I : Game.t -> Prop) (sv : Server.t) : Prop :=
  allValues I (Server.games sv).

(** Hit points within [0, MAX_HP]. *)
Definition hpInRange (player : Player.t) : Prop :=
  0 <= Player.hp player <= MAX_HP.

(** A bounce count within the cap. *)
Definition bouncesInRange (bullet : Bullet.t) : Prop :=
  (Bullet.bounces bullet <= MAX_BOUNCES)%nat.

(** The room's two objects keyed by player id: no key twice, and a score
    only for a player of the room. *)
Definition wellKeyed (game : Game.t) : Prop :=
  NoDup (map fst (Game.players game)) /\
  NoDup (map fst (Game.scores game)) /\
  (forall id, In id (map fst (Game.scores game)) ->
              In id (map fst (Game.players game))).

(** The room a request or a tick leaves, of the result of [tickGame]. *)
Definition tickedGame (r : Z * Game.t * nat * list Emit) : Game.t :=
  snd (fst (fst r)).

(** A property of every player of every room. *)
Definition allPlayers (P : Player.t -> Prop) (sv : Server.t) : Prop :=
  allGames (fun game => allValues P (Game.players game)) sv.

(** A property of every bullet of every room. *)
Definition allBullets (Q : Bullet.t -> Prop) (sv : Server.t) : Prop :=
  allGames (fun game => Forall Q (Game.bullets game)) sv.

(** The bullet's next position is past an edge of the map. *)
Definition crossesBoundary (bullet : Bullet.t) : Prop :=
  outside (Bullet.x bullet + Bullet.vx bullet) MAP_WIDTH = true \/
  outside (Bullet.y bullet + Bullet.vy bullet) MAP_HEIGHT = true.

(** The event is a [bulletHit] whose victim is [id]. *)
Definition hitsVictim (id : string) (e : Emit) : Prop :=
  match e with
  | ToRoom _ (EvBulletHit _ victim _ _) => victim = id
  | _ => False
  end.

(** The states a player goes through as a sequence of samples is applied,
    one state after each application. *)
Fixpoint trajectory (player : Player.t) (inputs : list Input.t)
    : list Player.t :=
  match inputs with
  | [] => []
  | input :: rest =>
    let player := applyInput player input in
    player :: trajectory player rest
  end.

(** ** Further predicates *)

(** The input queue within the bound the [input] handler keeps. *)
Definition queueInBound (player : Player.t) : Prop :=
  (List.length (Player.inputQueue player) <= 180)%nat.

(** The chat log within [CHAT_MAX_MESSAGES]. *)
Definition chatInBound (game : Game.t) : Prop :=
  (List.length (Game.chat game) <= CHAT_MAX_MESSAGES)%nat.

(** What [pushChatMessage] stores of a message (lines 191-196). *)
Definition storedMessage (now : Z) (msg : Chat.t) : Chat.t :=
  Chat.mk (match Chat.playerId msg with
           | Some pid => if String.eqb pid "" then None else Some pid
           | None => None
           end)
          (Chat.text msg)
          (int_or (Some (Chat.timestamp msg)) now) (Chat.system msg).

(** A room created by [host] carries its key as [id], and a name. *)
Definition roomLabelled (kg : string * Game.t) : Prop :=
  Game.id (snd kg) = fst kg /\ Game.name (snd kg) <> ""%string.

Definition roomsLabelled (sv : Server.t) : Prop :=
  Forall roomLabelled (Server.games sv).

(** The room id [host] issues as number [k]. *)
Definition roomId (k : nat) : string := ("game_" ++ decimal k)%string.

(** The keys of [games] are ids issued so far, none twice. *)
Definition roomIdsIssued (sv : Server.t) : Prop :=
  NoDup (map fst (Server.games sv)) /\
  (forall gameId, In gameId (map fst (Server.games sv)) ->
                  exists k, (1 <= k <= Server.gameCounter sv)%nat /\
                            gameId = roomId k).

(** The one room a request can write to: the room a [join] names, the
    requesting socket's claimed room, the room [host] creates, the room of
    the timer. *)
Definition touchedRoom (req : Request) (sv : Server.t) : option string :=
  match req with
  | ReqJoin _ data =>
    match data with Some dta => jd_serverId dta | None => None end
  | ReqInput sid _ | ReqShoot sid _ | ReqChatMessage sid _ | ReqDisconnect sid =>
    lookup sid (Server.socketGameId sv)
  | ReqGetServers _ => None
  | ReqHost _ _ => Some (roomId (S (Server.gameCounter sv)))
  | CleanupTimer gameId => Some gameId
  | Tick => None
  end.

(** Two tables with the same keys in the same order, related entry by
    entry. *)
Definition pointwise {V : Type} (R : V -> V -> Prop) (m m' : list (string * V))
    : Prop :=
  Forall2 (fun kv kv' => fst kv' = fst kv /\ R (snd kv) (snd kv')) m m'.

(** A player after any number of hits of the collision pass: each hit finds
    the player alive and not invulnerable (line 625). *)
Inductive damaged (now : Z) (p : Player.t) : Player.t -> Prop :=
  | damaged_none : damaged now p p
  | damaged_hit q shooter :
      damaged now p q ->
      Player.dead q = false -> Player.invulnerable q = false ->
      damaged now p (applyDamage now (bulletDamage shooter q) q).

(** A player after any number of power-ups collected in one pass: each one
    finds the player alive (line 780). *)
Inductive empowered (now : Z) (p : Player.t) : Player.t -> Prop :=
  | empowered_none : empowered now p p
  | empowered_one q ty :
      empowered now p q -> Player.dead q = false ->
      empowered now p (applyPowerUpTo now ty q).

(** What one iteration of the loop does to one player: hits, the queue
    drained, the respawn if it is due, power-ups, expiry. *)
Definition tickedPlayer (now : Z) (p p' : Player.t) : Prop :=
  exists p1 p3 p4,
    damaged now p p1 /\
    ((shouldRespawn now (processInputs p1) = false /\ p3 = processInputs p1) \/
     (shouldRespawn now (processInputs p1) = true /\
      exists rnd', unit_rng rnd' /\ p3 = respawn now rnd' (processInputs p1))) /\
    empowered now p3 p4 /\
    p' = expireEffects now p4.

(** No effect flag is on past its expiry time. *)
Definition noneExpired (now : Z) (p : Player.t) : Prop :=
  expired now (Player.speedBoost p) (Player.speedBoostExpireTime p) = false /\
  expired now (Player.rapidFire p) (Player.rapidFireExpireTime p) = false /\
  expired now (Player.shield p) (Player.shieldExpireTime p) = false /\
  expired now (Player.damageBoost p) (Player.damageBoostExpireTime p) = false /\
  expired now (Player.invulnerable p) (Player.invulnerableExpireTime p) = false.

(** The bullet is on the map. *)
Definition onMap (b : Bullet.t) : Prop :=
  0 <= Bullet.x b <= MAP_WIDTH /\ 0 <= Bullet.y b <= MAP_HEIGHT.

(** The bullet passes the age test of line 726. *)
Definition young (now : Z) (b : Bullet.t) : Prop :=
  Bullet.createdAt b = 0%Z \/ (now - Bullet.createdAt b < bulletMaxAge)%Z.

(** The number of the bullets fired by [id]. *)
Definition ownedBy (id : string) (bullets : list Bullet.t) : nat :=
  List.length (filter (fun b => String.eqb (Bullet.owner b) id) bullets).

(** The [filter] callback of the power-up pass (lines 775-792), on the
    players as the pass finds them. *)
Definition keepsPowerUp (now : Z) (players : list (string * Player.t))
    (powerUp : PowerUp.t) : bool :=
  negb (POWER_UP_LIFETIME <? now - PowerUp.createdAt powerUp)%Z
  && match collector powerUp players with Some _ => false | None => true end.

(** A string of at most [NAME_MAX] characters, none of them a control
    character. *)
Definition tidy (s : string) : Prop :=
  (String.length s <= NAME_MAX)%nat /\
  Forall (fun c => (32 <= Ascii.nat_of_ascii c)%nat) (list_ascii_of_string s).

(** The input packet the client builds (lines 3670-3676), as the server's
    [input] handler receives it. *)
Definition packet (s : Client.Sample.t) : Input.t :=
  Input.mk (Some (Client.Sample.seq s)) (Some (Client.Sample.inputs s))
           (Some (Client.Sample.rotation s))
           (Some (Client.Sample.turretRotation s))
           (Some (Client.Sample.dt s)).

(** The server's player and the client's prediction of it agree on what
    [applyInput] reads and writes. *)
Definition agrees (player : Player.t) (predicted : Client.Predicted.t) : Prop :=
  Client.Predicted.x predicted = Player.x player /\
  Client.Predicted.y predicted = Player.y player /\
  Client.Predicted.vx predicted = Player.vx player /\
  Client.Predicted.vy predicted = Player.vy player /\
  Client.Predicted.rotation predicted = Player.rotation player /\
  Client.Predicted.turretRotation predicted = Player.turretRotation player /\
  Client.Predicted.speedBoost predicted = Player.speedBoost player.

(** The client is running: it knows its player and the game has started
    (line 3617). *)
Definition active (c : Client.t) : Prop :=
  Client.gameStarted c = true /\
  exists pid view,
    Client.playerId c = Some pid /\ lookup pid (Client.players c) = Some view.

(** The socket a request comes from. *)
Definition requester (req : Request) : option string :=
  match req with
  | ReqJoin sid _ | ReqInput sid _ | ReqShoot sid _ | ReqChatMessage sid _
  | ReqGetServers sid | ReqHost sid _ | ReqDisconnect sid => Some sid
  | CleanupTimer _ | Tick => None
  end.

(** The event goes to socket [sid] or to room [gameId]. *)
Definition addressedTo (sid gameId : option string) (e : Emit) : Prop :=
  match e with
  | ToSocket s _ => sid = Some s
  | ToRoom g _ => gameId = Some g
  end.

(** A [bulletHit] or [wallImpact] event sent to room [gameId]. *)
Definition isImpactIn (gameId : string) (e : Emit) : Prop :=
  match e with
  | ToRoom g (EvBulletHit _ _ _ _) | ToRoom g (EvWallImpact _ _ _) => g = gameId
  | _ => False
  end.

(** [lastPowerUpSpawnTime[gameId]] as line 599 reads it, after line 598 has
    put 0 where the room has no entry. *)
Definition recordedSpawnTime (gameId : string) (sv : Server.t) : Z :=
  int_or (lookup gameId (Server.lastPowerUpSpawnTime sv)) 0.

(** [q] was spawned more than the spawn interval after [p]. *)
Definition spawnedLater (p q : PowerUp.t) : Prop :=
  (PowerUp.createdAt p + 7000 < PowerUp.createdAt q)%Z.

(** The power-ups of a room, in the order they were spawned: more than the
    interval apart, none after the recorded spawn time [last], and none more
    than a lifetime after another. *)
Definition spawnsSpaced (last : Z) (powerUps : list PowerUp.t) : Prop :=
  StronglySorted spawnedLater powerUps /\
  Forall (fun p => (PowerUp.createdAt p <= last)%Z) powerUps /\
  (forall p q, In p powerUps -> In q powerUps ->
               (PowerUp.createdAt q - PowerUp.createdAt p <= POWER_UP_LIFETIME)%Z).

Definition spawnsRecorded (sv : Server.t) : Prop :=
  Forall (fun kg => spawnsSpaced (recordedSpawnTime (fst kg) sv)
                                 (Game.powerUps (snd kg)))
         (Server.games sv).

(** * Properties *)

(** ** Reading the records *)

Ltac player_fields :=
  repeat match goal with
  | p : Player.t |- _ => destruct p
  end; cbn [Player.x Player.y Player.vx Player.vy Player.hp Player.dead
            Player.id Player.rotation Player.turretRotation Player.name
            Player.color Player.respawnTime Player.speedBoost
            Player.speedBoostExpireTime Player.rapidFire
            Player.rapidFireExpireTime Player.shield Player.shieldExpireTime
            Player.damageBoost Player.damageBoostExpireTime
            Player.lastShotTime Player.invulnerable
            Player.invulnerableExpireTime Player.lastProcessedInput
            Player.inputQueue
            Player.set_pos Player.set_vel Player.set_rotation
            Player.set_turretRotation Player.set_hp Player.set_dead
            Player.set_respawnTime Player.set_speedBoost Player.set_rapidFire
            Player.set_shield Player.set_damageBoost Player.set_lastShotTime
            Player.set_invulnerable Player.set_lastProcessedInput
            Player.set_inputQueue] in *.

(** ** The physics integrator *)

Lemma clampAxis_range lo hi pos vel :
  lo <= hi ->
  lo <= fst (clampAxis lo hi (pos, vel)) <= hi.
Proof.
  intros Hle. unfold clampAxis.
  destruct (Rlt_dec pos lo); [cbn; lra|].
  destruct (Rlt_dec hi pos); cbn; lra.
Qed.

Lemma clampAxis_low lo hi pos vel :
  pos < lo ->
  clampAxis lo hi (pos, vel) = (lo, Rmax 0 vel).
Proof.
  intros H. unfold clampAxis. destruct (Rlt_dec pos lo); [reflexivity|lra].
Qed.

Lemma clampAxis_high lo hi pos vel :
  lo <= hi -> hi < pos ->
  clampAxis lo hi (pos, vel) = (hi, Rmin 0 vel).
Proof.
  intros Hle H. unfold clampAxis.
  destruct (Rlt_dec pos lo); [lra|].
  destruct (Rlt_dec hi pos); [reflexivity|lra].
Qed.


(** What [applyInput] leaves in the kinematic fields. *)
Lemma applyInput_kinematics player input k :
  Input.inputs input = Some k ->
  let dt := num_or (Input.dt input) (1 / 60) in
  let m := moveWithin MAP_WIDTH MAP_HEIGHT (maxSpeed (Player.speedBoost player))
             k dt (Player.x player) (Player.y player)
             (Player.vx player) (Player.vy player) in
  Player.x (applyInput player input) = fst (fst m) /\
  Player.vx (applyInput player input) = snd (fst m) /\
  Player.y (applyInput player input) = fst (snd m) /\
  Player.vy (applyInput player input) = snd (snd m).
Proof.
  intros Hk. unfold applyInput. rewrite Hk. cbv zeta.
  destruct (moveWithin _ _ _ _ _ _ _ _ _) as [[px pvx] [py pvy]].
  destruct (Input.rotation input), (Input.turretRotation input),
    (Input.seq input); player_fields; auto.
Qed.

(** With movement flags in the sample, the result is in the arena. *)
Lemma applyInput_inArena player input k :
  Input.inputs input = Some k -> inArena (applyInput player input).
Proof.
  intros Hk.
  destruct (applyInput_kinematics player input k Hk) as (Hx & _ & Hy & _).
  unfold inArena. rewrite Hx, Hy. unfold moveWithin.
  destruct (integrate _ _ _ _ _ _ _) as [[mx mvx] [my mvy]]. cbn [fst snd].
  unfold TANK_RADIUS, MAP_WIDTH, MAP_HEIGHT.
  split; apply clampAxis_range; lra.
Qed.

(** An in-arena player stays in the arena under any queued item, also one
    without movement flags, which [applyInput] returns from at once. *)
Lemma applyInput_preserves_inArena player input :
  inArena player -> inArena (applyInput player input).
Proof.
  intros Hin. destruct (Input.inputs input) as [k|] eqn:Hk.
  - exact (applyInput_inArena player input k Hk).
  - unfold applyInput. rewrite Hk. exact Hin.
Qed.

Lemma drainQueue_preserves_inArena queue :
  forall player, inArena player -> inArena (drainQueue queue player).
Proof.
  induction queue as [|[input|] rest IH]; intros player Hin; cbn.
  - exact Hin.
  - apply IH, applyInput_preserves_inArena, Hin.
  - apply IH, Hin.
Qed.

Lemma trajectory_inArena inputs :
  forall player, inArena player -> Forall inArena (trajectory player inputs).
Proof.
  induction inputs as [|input rest IH]; intros player Hin; cbn.
  - constructor.
  - pose proof (applyInput_preserves_inArena player input Hin) as Hin'.
    constructor; [exact Hin'|apply IH, Hin'].
Qed.

(** Over the real numbers, that is for samples whose [dt] is a number or
    missing: whatever state a player is in, an input sample that carries
    movement flags leaves the player's centre within
    [TANK_RADIUS, MAP_WIDTH - TANK_RADIUS] x [TANK_RADIUS, MAP_HEIGHT - TANK_RADIUS];
    and when the move has taken a coordinate past a wall, the coordinate is
    set on the wall and the velocity component toward the wall is zeroed
    (a component pointing away from it is kept).  The same bounds hold
    after each application of any samples that follow. *)
Theorem applyInput_stays_in_arena :
  forall (player : Player.t) (input : Input.t) (k : Keys.t),
    Input.inputs input = Some k ->
    let dt := num_or (Input.dt input) (1 / 60) in
    let moved :=
      integrate (maxSpeed (Player.speedBoost player)) k dt
        (Player.x player) (Player.y player)
        (Player.vx player) (Player.vy player) in
    let x1 := fst (fst moved) in
    let vx1 := snd (fst moved) in
    let y1 := fst (snd moved) in
    let vy1 := snd (snd moved) in
    let player' := applyInput player input in
    (20 <= Player.x player' <= 1000 - 20 /\
     20 <= Player.y player' <= 720 - 20) /\
    (x1 < 20 ->
     Player.x player' = 20 /\ Player.vx player' = Rmax 0 vx1 /\
     (vx1 <= 0 -> Player.vx player' = 0)) /\
    (1000 - 20 < x1 ->
     Player.x player' = 1000 - 20 /\ Player.vx player' = Rmin 0 vx1 /\
     (0 <= vx1 -> Player.vx player' = 0)) /\
    (y1 < 20 ->
     Player.y player' = 20 /\ Player.vy player' = Rmax 0 vy1 /\
     (vy1 <= 0 -> Player.vy player' = 0)) /\
    (720 - 20 < y1 ->
     Player.y player' = 720 - 20 /\ Player.vy player' = Rmin 0 vy1 /\
     (0 <= vy1 -> Player.vy player' = 0)) /\
    (forall later : list Input.t,
        Forall (fun p =>
                  20 <= Player.x p <= 1000 - 20 /\
                  20 <= Player.y p <= 720 - 20)
               (trajectory player' later)).
Proof.
  intros player input k Hk dt moved x1 vx1 y1 vy1 player'.
  assert (Hlater : forall later, Forall inArena (trajectory player' later)).
  { intros later. apply trajectory_inArena.
    exact (applyInput_inArena player input k Hk). }
  destruct (applyInput_kinematics player input k Hk) as (Hx & Hvx & Hy & Hvy).
  fold dt in Hx, Hvx, Hy, Hvy. fold player' in Hx, Hvx, Hy, Hvy.
  unfold moveWithin in Hx, Hvx, Hy, Hvy. fold moved in Hx, Hvx, Hy, Hvy.
  destruct moved as [[mx mvx] [my mvy]] eqn:Em.
  cbn [fst snd] in *. subst x1 vx1 y1 vy1.
  unfold TANK_RADIUS, MAP_WIDTH, MAP_HEIGHT in *.
  rewrite Hx, Hy, Hvx, Hvy.
  assert (Hw : 20 <= 1000 - 20) by lra.
  assert (Hh : 20 <= 720 - 20) by lra.
  split; [|split; [|split; [|split; [|split]]]].
  - split.
    + apply (clampAxis_range 20 (1000 - 20) mx mvx Hw).
    + apply (clampAxis_range 20 (720 - 20) my mvy Hh).
  - intros Hc. rewrite clampAxis_low by assumption. cbn [fst snd].
    repeat split. intros Hv. apply Rmax_left. lra.
  - intros Hc. rewrite clampAxis_high by assumption. cbn [fst snd].
    repeat split. intros Hv. apply Rmin_left. lra.
  - intros Hc. rewrite clampAxis_low by assumption. cbn [fst snd].
    repeat split. intros Hv. apply Rmax_left. lra.
  - intros Hc. rewrite clampAxis_high by assumption. cbn [fst snd].
    repeat split. intros Hv. apply Rmin_left. lra.
  - exact Hlater.
Qed.

(** A tank on the left wall, still moving left, with the left key held. *)
Lemma applyInput_stays_in_arena_witness :
  let player :=
    Player.set_vel (-60) 0 (Player.fresh "a" 20 360 "" "") in
  let keys := Keys.mk false false true false in
  let input := Input.mk (Some 1%Z) (Some keys) None None None in
  Input.inputs input = Some keys /\
  (20 <= Player.x (applyInput player input) <= 1000 - 20 /\
   20 <= Player.y (applyInput player input) <= 720 - 20).
Proof.
  intros player keys input. split.
  - reflexivity.
  - exact (proj1 (applyInput_stays_in_arena player input keys eq_refl)).
Defined.

(** ** The integrator and [NaN] *)

Lemma Js_approach_fin v target accelAmount :
  Js.approach (Js.fin v) (Js.fin target) (Js.fin accelAmount) =
  Js.fin (approach v target accelAmount).
Proof.
  unfold Js.approach, approach. cbn.
  destruct (Rlt_dec (Rabs (target - v)) accelAmount); reflexivity.
Qed.

Lemma Js_clampAxis_fin lo hi pos vel :
  Js.clampAxis lo hi (Js.fin pos, Js.fin vel) =
  (Js.fin (fst (clampAxis lo hi (pos, vel))),
   Js.fin (snd (clampAxis lo hi (pos, vel)))).
Proof.
  unfold Js.clampAxis, clampAxis. cbn.
  destruct (Rlt_dec pos lo); [reflexivity|].
  destruct (Rlt_dec hi pos); reflexivity.
Qed.

(** On a sample whose [dt] is a number or missing, the integrator over
    [Js.num] is [applyInput]. *)
Lemma Js_applyInput_numeric player input k :
  Input.inputs input = Some k ->
  Js.applyInput (Player.speedBoost player) k (Js.ofDt (Input.dt input))
                (Js.ofPlayer player) =
  Js.ofPlayer (applyInput player input).
Proof.
  intros Hk. unfold applyInput. rewrite Hk.
  assert (Hdt : Js.dtOf (Js.ofDt (Input.dt input)) =
                Js.fin (num_or (Input.dt input) (1 / 60))).
  { unfold Js.ofDt, num_or. destruct (Input.dt input) as [r|]; [|reflexivity].
    destruct (Req_dec_T r 0); reflexivity. }
  unfold Js.applyInput. rewrite Hdt. clear Hdt.
  set (dt := num_or (Input.dt input) (1 / 60)).
  unfold moveWithin, integrate.
  destruct (targetVelocity (maxSpeed (Player.speedBoost player)) k)
    as [targetVx targetVy].
  cbn [fst snd Js.ofPlayer Js.x Js.y Js.vx Js.vy].
  set (acceleration := if Rlt_dec 0 (inputMagnitude k) then _ else _).
  change (Js.mul (Js.fin acceleration) (Js.fin dt)) with (Js.fin (acceleration * dt)).
  rewrite !Js_approach_fin.
  set (pvx := approach (Player.vx player) targetVx (acceleration * dt)).
  set (pvy := approach (Player.vy player) targetVy (acceleration * dt)).
  change (Js.add (Js.fin (Player.x player)) (Js.mul (Js.fin pvx) (Js.fin dt)))
    with (Js.fin (Player.x player + pvx * dt)).
  change (Js.add (Js.fin (Player.y player)) (Js.mul (Js.fin pvy) (Js.fin dt)))
    with (Js.fin (Player.y player + pvy * dt)).
  rewrite !Js_clampAxis_fin. cbn [fst snd].
  destruct (clampAxis TANK_RADIUS (MAP_WIDTH - TANK_RADIUS)
                      (Player.x player + pvx * dt, pvx)) as [px' pvx'].
  destruct (clampAxis TANK_RADIUS (MAP_HEIGHT - TANK_RADIUS)
                      (Player.y player + pvy * dt, pvy)) as [py' pvy'].
  cbn [fst snd].
  unfold Js.ofPlayer.
  destruct (Input.rotation input), (Input.turretRotation input), (Input.seq input);
    destruct player; reflexivity.
Qed.

Lemma Js_approach_NaN_step v target :
  Js.approach v target Js.NaN = Js.NaN.
Proof.
  unfold Js.approach.
  destruct (Js.sub target v) as [|diff]; cbn; [destruct v|destruct v]; reflexivity.
Qed.

Lemma Js_approach_NaN_velocity target accelAmount :
  Js.approach Js.NaN target accelAmount = Js.NaN.
Proof.
  unfold Js.approach. destruct target; reflexivity.
Qed.

Lemma Js_clampAxis_NaN lo hi : Js.clampAxis lo hi (Js.NaN, Js.NaN) = (Js.NaN, Js.NaN).
Proof. reflexivity. Qed.

(** A sample whose [dt] is truthy and not a number leaves nothing of the
    body. *)
Lemma Js_applyInput_NaN_dt speedBoost k body :
  Js.applyInput speedBoost k (Js.Truthy Js.NaN) body = Js.allNaN.
Proof.
  unfold Js.applyInput. cbn [Js.dtOf].
  change (Js.mul (Js.fin ?a) Js.NaN) with Js.NaN.
  rewrite !Js_approach_NaN_step. 
  replace (Js.mul Js.NaN Js.NaN) with Js.NaN by reflexivity.
  replace (Js.add (Js.x body) Js.NaN) with Js.NaN by (destruct (Js.x body); reflexivity).
  replace (Js.add (Js.y body) Js.NaN) with Js.NaN by (destruct (Js.y body); reflexivity).
  reflexivity.
Qed.

(** And no sample brings it back. *)
Lemma Js_applyInput_NaN_body speedBoost k field :
  Js.applyInput speedBoost k field Js.allNaN = Js.allNaN.
Proof.
  unfold Js.applyInput, Js.allNaN. cbn [Js.x Js.y Js.vx Js.vy].
  rewrite !Js_approach_NaN_velocity.
  replace (Js.mul Js.NaN (Js.dtOf field)) with Js.NaN by reflexivity.
  reflexivity.
Qed.

Lemma Js_applyInputs_NaN_body speedBoost samples :
  Js.applyInputs speedBoost samples Js.allNaN = Js.allNaN.
Proof.
  unfold Js.applyInputs. induction samples as [|sample rest IH]; [reflexivity|].
  cbn [fold_left]. rewrite Js_applyInput_NaN_body. exact IH.
Qed.

(** C2, at a sample a client can send: [{inputs: {}, dt: "abc"}], queued
    for a tank at rest at (100, 100).  The claim has the tank within the
    arena after every sample.  The code computes [900 * "abc"], which is
    [NaN]; the test of line 544 fails and the velocity becomes
    [0 + Math.sign(0) * NaN], the position [100 + NaN * "abc"]; neither
    comparison of the clamp holds of [NaN], so the tank is left with position
    and velocity [NaN], within no interval, and no later sample brings them
    back.  (For a sample whose [dt] is a number or missing the integrator
    over [Js.num] is the one over the reals, which keeps the tank within the
    arena.) *)
Theorem applyInput_leaves_the_arena_on_a_dt_that_is_no_number :
  let tank := Js.mkBody (Js.fin 100) (Js.fin 100) (Js.fin 0) (Js.fin 0) in
  let keys := Keys.mk false false false false in
  let tank' := Js.applyInput false keys (Js.Truthy Js.NaN) tank in
  Js.inArena tank = true /\
  tank' = Js.allNaN /\
  Js.inArena tank' = false /\
  (forall speedBoost samples,
      Js.applyInputs speedBoost samples tank' = Js.allNaN /\
      Js.inArena (Js.applyInputs speedBoost samples tank') = false).
Proof.
  cbv zeta. rewrite Js_applyInput_NaN_dt.
  split; [|split; [reflexivity|split; [reflexivity|]]].
  - unfold Js.inArena, Js.between, TANK_RADIUS, MAP_WIDTH, MAP_HEIGHT.
    cbn [Js.x Js.y].
    repeat match goal with
           | |- context [Rle_dec ?a ?b] =>
             destruct (Rle_dec a b); [|exfalso; lra]
           end.
    reflexivity.
  - intros speedBoost samples. rewrite Js_applyInputs_NaN_body.
    split; reflexivity.
Qed.

(** ** Normalisation of the direction *)

Lemma sqrt2_sq : sqrt 2 * sqrt 2 = 2.
Proof. apply sqrt_sqrt. lra. Qed.

Lemma sqrt2_pos : 0 < sqrt 2.
Proof. apply sqrt_lt_R0. lra. Qed.


(** The raw direction has squared length 0, 1 or 2. *)
Lemma inputMagnitude_cases k :
  let '(tx, ty) := direction k in
  (tx * tx + ty * ty = 0 /\ tx = 0 /\ ty = 0 /\ inputMagnitude k = 0) \/
  (tx * tx + ty * ty = 1 /\ inputMagnitude k = 1) \/
  (tx * tx + ty * ty = 2 /\ inputMagnitude k = sqrt 2).
Proof.
  unfold inputMagnitude.
  destruct k as [[] [] [] []]; cbn;
    match goal with
    | |- context [sqrt ?e] =>
      first
        [ left; replace e with 0 by lra; rewrite sqrt_0; repeat split; lra
        | right; left; replace e with 1 by lra; rewrite sqrt_1; split; lra
        | right; right; replace e with 2 by lra; split; [lra | reflexivity] ]
    end.
Qed.

(** The target velocity has length [maxSpeed] whenever a direction is
    held, and is zero otherwise. *)
Lemma targetVelocity_magnitude (v : R) (k : Keys.t) :
  0 <= v ->
  magnitude (targetVelocity v k) =
  if Rlt_dec 0 (inputMagnitude k) then v else 0.
Proof.
  intros Hv. unfold targetVelocity, magnitude.
  pose proof (inputMagnitude_cases k) as Hc.
  destruct (direction k) as [tx ty].
  pose proof sqrt2_sq as H2. pose proof sqrt2_pos as Hp.
  destruct Hc as [(Hs & Hx & Hy & Hm) | [(Hs & Hm) | (Hs & Hm)]]; rewrite Hm.
  - destruct (Rlt_dec 0 0); [lra|]. cbn [fst snd]. subst tx ty.
    replace (0 * v * (0 * v) + 0 * v * (0 * v)) with 0 by lra.
    apply sqrt_0.
  - destruct (Rlt_dec 0 1); [|lra]. cbn [fst snd].
    replace (tx / 1 * v * (tx / 1 * v) + ty / 1 * v * (ty / 1 * v))
      with ((tx * tx + ty * ty) * (v * v)) by (field; lra).
    rewrite Hs, Rmult_1_l. apply sqrt_square, Hv.
  - destruct (Rlt_dec 0 (sqrt 2)); [|lra]. cbn [fst snd].
    replace (tx / sqrt 2 * v * (tx / sqrt 2 * v) +
             ty / sqrt 2 * v * (ty / sqrt 2 * v))
      with ((tx * tx + ty * ty) / (sqrt 2 * sqrt 2) * (v * v)) by (field; lra).
    rewrite Hs, H2. replace (2 / 2 * (v * v)) with (v * v) by lra.
    apply sqrt_square, Hv.
Qed.

Lemma maxSpeed_nonneg b : 0 <= maxSpeed b.
Proof.
  unfold maxSpeed, TANK_MAX_SPEED, multiplier. destruct b; cbn; lra.
Qed.



Lemma sign_pos v : 0 < v -> sign v = 1.
Proof. intros H. unfold sign. destruct (Rlt_dec 0 v); [reflexivity|lra]. Qed.

Lemma sign_neg v : v < 0 -> sign v = -1.
Proof.
  intros H. unfold sign. destruct (Rlt_dec 0 v); [lra|].
  destruct (Rlt_dec v 0); [reflexivity|lra].
Qed.









(** ** Reconciliation on the client *)

Lemma int_or_id z : int_or (Some z) 0 = z.
Proof.
  unfold int_or. destruct (Z.eqb_spec z 0); [symmetry; assumption|reflexivity].
Qed.

Lemma num_or_id r : num_or (Some r) 0 = r.
Proof.
  unfold num_or. destruct (Req_dec_T r 0); [symmetry; assumption|reflexivity].
Qed.

(** The client's integrator is the server's: the same maximum speed, and
    on a canvas of the map's size the same move. *)
Lemma client_maxSpeed speedBoost : Client.maxSpeed speedBoost = maxSpeed speedBoost.
Proof.
  unfold Client.maxSpeed, maxSpeed, multiplier. destruct speedBoost; cbn; reflexivity.
Qed.

Lemma client_applyInput_mirrors_server player input k dtv sample predicted :
  Input.inputs input = Some k ->
  Input.dt input = Some dtv ->
  Client.Sample.inputs sample = k ->
  Client.Sample.dt sample = dtv ->
  Client.Predicted.x predicted = Player.x player ->
  Client.Predicted.y predicted = Player.y player ->
  Client.Predicted.vx predicted = Player.vx player ->
  Client.Predicted.vy predicted = Player.vy player ->
  Client.Predicted.speedBoost predicted = Player.speedBoost player ->
  let predicted' := Client.applyInput MAP_WIDTH MAP_HEIGHT predicted sample in
  let player' := applyInput player input in
  Client.Predicted.x predicted' = Player.x player' /\
  Client.Predicted.y predicted' = Player.y player' /\
  Client.Predicted.vx predicted' = Player.vx player' /\
  Client.Predicted.vy predicted' = Player.vy player'.
Proof.
  intros Hk Hdt Hsk Hsdt Hx Hy Hvx Hvy Hsb predicted' player'.
  destruct (applyInput_kinematics player input k Hk) as (Px & Pvx & Py & Pvy).
  fold player' in Px, Pvx, Py, Pvy. rewrite Px, Pvx, Py, Pvy.
  unfold predicted', Client.applyInput.
  rewrite Hsk, Hsdt, Hx, Hy, Hvx, Hvy, Hsb, Hdt, client_maxSpeed.
  clear Px Pvx Py Pvy.
  destruct (moveWithin _ _ _ _ _ _ _ _ _) as [[px pvx] [py pvy]].
  cbn. auto.
Qed.

(** On an ascending history, shifting acknowledged entries off the front
    removes every acknowledged entry. *)
Lemma dropAcked_unacked ack history :
  ascending history -> Client.dropAcked ack history = unacked ack history.
Proof.
  unfold ascending, unacked.
  induction 1 as [|e rest Hs IH Hall]; cbn.
  - reflexivity.
  - destruct (Z.leb_spec (Client.Entry.seq e) ack) as [Hle|Hgt].
    + destruct (Z.ltb_spec ack (Client.Entry.seq e)); [lia|]. exact IH.
    + destruct (Z.ltb_spec ack (Client.Entry.seq e)); [|lia].
      f_equal. symmetry. apply forallb_filter_id.
      rewrite forallb_forall. intros e' Hin.
      rewrite Forall_forall in Hall. specialize (Hall e' Hin).
      apply Z.ltb_lt. lia.
Qed.

Lemma replay_fold w h history p :
  Client.replay w h history p =
  fold_left (Client.applyInput w h) (map Client.Entry.sample history) p.
Proof.
  unfold Client.replay. revert p.
  induction history as [|e rest IH]; intros p; cbn; [reflexivity|apply IH].
Qed.

Lemma onState_found c st pid serverPlayer :
  Client.gameStarted c = true ->
  Client.playerId c = Some pid ->
  pid <> ""%string ->
  lookup pid (Client.indexPlayers (snap_players st)) = Some serverPlayer ->
  let history :=
    Client.dropAcked (PlayerView.lastProcessedInput serverPlayer)
                     (Client.predictionHistory c) in
  Client.predictionHistory (Client.onState (Some st) c) = history /\
  Client.predictedPlayer (Client.onState (Some st) c) =
  Client.replay (Client.canvasWidth c) (Client.canvasHeight c) history
                (Client.overwrite serverPlayer (Client.predictedPlayer c)).
Proof.
  intros Hg Hp Hne Hl. unfold Client.onState.
  rewrite Hg, Hp. cbn [negb].
  destruct (String.eqb_spec pid ""); [contradiction|].
  rewrite Hl, int_or_id. cbn. split; reflexivity.
Qed.

(** C1.  When a snapshot that lists the local player arrives, the client
    (a) takes position, velocity and rotation from the server's values,
    (b) keeps of its history exactly the entries whose sequence number is
    above the server's last processed one, and (c) its predicted state is
    the fold of [applyInput] over those entries, in order, starting from
    the overwritten state.  The history is ascending, as the client
    records it. *)
Theorem reconciliation_replays_unacknowledged :
  forall (c : Client.t) (st : Snapshot) (pid : string)
         (serverPlayer : PlayerView.t),
    Client.gameStarted c = true ->
    Client.playerId c = Some pid ->
    pid <> ""%string ->
    lookup pid (Client.indexPlayers (snap_players st)) = Some serverPlayer ->
    ascending (Client.predictionHistory c) ->
    let ack := PlayerView.lastProcessedInput serverPlayer in
    let base := Client.overwrite serverPlayer (Client.predictedPlayer c) in
    let c' := Client.onState (Some st) c in
    (Client.Predicted.x base = PlayerView.x serverPlayer /\
     Client.Predicted.y base = PlayerView.y serverPlayer /\
     Client.Predicted.vx base = PlayerView.vx serverPlayer /\
     Client.Predicted.vy base = PlayerView.vy serverPlayer /\
     Client.Predicted.rotation base = PlayerView.rotation serverPlayer) /\
    Client.predictionHistory c' = unacked ack (Client.predictionHistory c) /\
    (forall e, In e (Client.predictionHistory c) ->
               (In e (Client.predictionHistory c') <->
                (ack < Client.Entry.seq e)%Z)) /\
    Client.predictedPlayer c' =
    fold_left (Client.applyInput (Client.canvasWidth c) (Client.canvasHeight c))
              (map Client.Entry.sample (unacked ack (Client.predictionHistory c)))
              base.
Proof.
  intros c st pid serverPlayer Hg Hp Hne Hl Hasc ack base c'.
  destruct (onState_found c st pid serverPlayer Hg Hp Hne Hl) as [Hh Hpp].
  fold c' in Hh, Hpp. fold ack in Hh, Hpp. fold base in Hpp.
  rewrite (dropAcked_unacked ack _ Hasc) in Hh, Hpp.
  split; [|split; [|split]].
  - unfold base, Client.overwrite.
    cbn [Client.Predicted.x Client.Predicted.y Client.Predicted.vx
         Client.Predicted.vy Client.Predicted.rotation].
    rewrite !num_or_id. repeat split.
  - exact Hh.
  - intros e Hin. rewrite Hh. unfold unacked. rewrite filter_In.
    rewrite Z.ltb_lt. tauto.
  - rewrite Hpp. apply replay_fold.
Qed.

(** The design document's third scenario: sequence numbers 10 to 15
    predicted, 12 acknowledged; 13, 14 and 15 are replayed on the server's
    state. *)
Lemma reconciliation_replays_unacknowledged_witness :
  let keys := Keys.mk false false false true in
  let entry := fun n => Client.Entry.mk 0 0 0 0 0 0 n keys (1 / 60) in
  let history := map entry [10; 11; 12; 13; 14; 15]%Z in
  let c :=
    Client.mk true (Some "me"%string) 1000 720 keys [] Client.Predicted.init
              history [] 16%Z in
  let serverPlayer :=
    PlayerView.mk "me" 100 200 0 0 "" "" 100 false 60 0
                  false false false false false 12%Z in
  let st := mkSnapshot [serverPlayer] [] [] [] in
  let base := Client.overwrite serverPlayer (Client.predictedPlayer c) in
  let apply := Client.applyInput 1000 720 in
  ascending history /\
  Client.predictionHistory (Client.onState (Some st) c) =
  map entry [13; 14; 15]%Z /\
  Client.predictedPlayer (Client.onState (Some st) c) =
  apply (apply (apply base (Client.Entry.sample (entry 13%Z)))
               (Client.Entry.sample (entry 14%Z)))
        (Client.Entry.sample (entry 15%Z)).
Proof.
  intros keys entry history c serverPlayer st base apply.
  assert (Hasc : ascending history).
  { unfold ascending, history. repeat constructor; cbn; lia. }
  assert (Hne : "me"%string <> ""%string) by discriminate.
  destruct (reconciliation_replays_unacknowledged c st "me" serverPlayer
              eq_refl eq_refl Hne eq_refl Hasc) as (_ & Hh & _ & Hp).
  split; [exact Hasc|]. split; [exact Hh | exact Hp].
Defined.

(** *** The client keeps its history ordered *)

Lemma dropAcked_suffix ack history :
  exists front, history = front ++ Client.dropAcked ack history.
Proof.
  induction history as [|e rest IH]; cbn.
  - exists []. reflexivity.
  - destruct (Client.Entry.seq e <=? ack)%Z.
    + destruct IH as [front Hf]. exists (e :: front). cbn. f_equal. exact Hf.
    + exists []. reflexivity.
Qed.

Lemma StronglySorted_app_r {A} (R : A -> A -> Prop) l1 l2 :
  StronglySorted R (l1 ++ l2) -> StronglySorted R l2.
Proof.
  induction l1 as [|a l1 IH]; cbn; intros H; [exact H|].
  apply IH. inversion H; assumption.
Qed.

Lemma StronglySorted_snoc {A} (R : A -> A -> Prop) l a :
  StronglySorted R l -> Forall (fun b => R b a) l ->
  StronglySorted R (l ++ [a]).
Proof.
  induction 1 as [|b l Hs IH Hall]; cbn; intros Hf.
  - repeat constructor.
  - inversion Hf as [|? ? Hba Hrest]; subst. constructor.
    + apply IH, Hrest.
    + apply Forall_app. split; [exact Hall|]. constructor; [exact Hba|constructor].
Qed.

Lemma StronglySorted_tl {A} (R : A -> A -> Prop) l :
  StronglySorted R l -> StronglySorted R (tl l).
Proof.
  destruct 1; cbn; [constructor|assumption].
Qed.

Lemma Forall_tl {A} (P : A -> Prop) l : Forall P l -> Forall P (tl l).
Proof.
  destruct 1; cbn; [constructor|assumption].
Qed.

Lemma historyOrdered_ascending c :
  historyOrdered c -> ascending (Client.predictionHistory c).
Proof.
  intros [Hs _]. unfold ascending.
  induction Hs as [|e rest Hs IH Hall]; constructor.
  - exact IH.
  - eapply Forall_impl; [|exact Hall]. cbn. intros; lia.
Qed.

(** Recording an input keeps the history ordered. *)
Lemma update_historyOrdered mouseTurret c :
  historyOrdered c -> historyOrdered (Client.update mouseTurret c).
Proof.
  intros Hc. unfold Client.update.
  destruct (Client.playerId c) as [pid|]; [|exact Hc].
  destruct (lookup pid (Client.players c)); [|exact Hc].
  destruct (Client.gameStarted c); [|exact Hc].
  destruct Hc as [Hs Hb]. unfold historyOrdered, Client.recordInput.
  cbn [Client.predictionHistory Client.sequenceNumber Client.Sample.seq].
  set (entry := Client.Entry.mk _ _ _ _ _ _ _ _ _).
  assert (Hs' : StronglySorted
                  (fun e1 e2 => (Client.Entry.seq e1 < Client.Entry.seq e2)%Z)
                  (Client.predictionHistory c ++ [entry])).
  { apply StronglySorted_snoc; [exact Hs|exact Hb]. }
  assert (Hb' : Forall (fun e => (Client.Entry.seq e < Client.sequenceNumber c + 1)%Z)
                       (Client.predictionHistory c ++ [entry])).
  { apply Forall_app. split.
    - eapply Forall_impl; [|exact Hb]. cbn. intros; lia.
    - repeat constructor. cbn. lia. }
  destruct (60 <? _)%nat.
  - split; [apply StronglySorted_tl, Hs'|apply Forall_tl, Hb'].
  - split; assumption.
Qed.

(** A snapshot keeps the history ordered. *)
Lemma onState_historyOrdered state c :
  historyOrdered c -> historyOrdered (Client.onState state c).
Proof.
  intros Hc. unfold Client.onState.
  destruct (negb (Client.gameStarted c)); [exact Hc|].
  destruct state as [st|]; [|exact Hc].
  destruct (match Client.playerId c with
            | Some pid => _
            | None => None
            end) as [serverPlayer|]; [|exact Hc].
  destruct Hc as [Hs Hb]. unfold historyOrdered.
  cbn [Client.predictionHistory Client.sequenceNumber].
  destruct (dropAcked_suffix
              (int_or (Some (PlayerView.lastProcessedInput serverPlayer)) 0)
              (Client.predictionHistory c)) as [front Hf].
  rewrite Hf in Hs, Hb. split.
  - eapply StronglySorted_app_r, Hs.
  - apply Forall_app in Hb. apply Hb.
Qed.

(** ** Power-ups *)

Lemma boosted_damage : IZR (Zfloor (BULLET_DAMAGE * multiplier DAMAGE_BOOST)) = 30.
Proof.
  unfold BULLET_DAMAGE, multiplier. cbn.
  rewrite (Zfloor_eq 30); [reflexivity|]. lra.
Qed.

Lemma applyPowerUpTo_active ty now player :
  ty <> HEALTH_PACK ->
  effectFlag ty player = true ->
  applyPowerUpTo now ty player = withExpiry ty (Some (now + duration ty)%Z) player.
Proof.
  intros Hty Hf. destruct ty; cbn in *; try congruence;
    rewrite Hf; reflexivity.
Qed.

Lemma applyPowerUpTo_twice ty now1 now2 player :
  ty <> HEALTH_PACK ->
  applyPowerUpTo now2 ty (applyPowerUpTo now1 ty player) =
  applyPowerUpTo now2 ty player.
Proof.
  intros Hty. destruct ty; try congruence; destruct player; reflexivity.
Qed.

(** C6.  A timed power-up applied to a player on whom the effect is
    already active changes the effect's expiry timestamp to
    [now + duration] and nothing else; collected twice, it leaves the state
    a single collection at the later time leaves; and the maximum speed
    and the bullet damage read from the flag are the same after one
    collection and after two (120 and 30, not 240 and 45). *)
Theorem reapplied_power_up_only_resets_expiry :
  forall (ty : PowerUpType) (now1 now2 : Z) (player : Player.t),
    ty <> HEALTH_PACK ->
    let once := applyPowerUpTo now1 ty player in
    let twice := applyPowerUpTo now2 ty once in
    effectFlag ty once = true /\
    twice = withExpiry ty (Some (now2 + duration ty)%Z) once /\
    effectFlag ty twice = true /\
    effectExpiry ty twice = Some (now2 + duration ty)%Z /\
    twice = applyPowerUpTo now2 ty player /\
    maxSpeed (Player.speedBoost twice) = maxSpeed (Player.speedBoost once) /\
    (ty = SPEED -> maxSpeed (Player.speedBoost twice) = 120) /\
    (forall target,
        bulletDamage (Some twice) target = bulletDamage (Some once) target) /\
    (ty = DAMAGE_BOOST ->
     forall target, Player.shield target = false ->
                    bulletDamage (Some twice) target = 30).
Proof.
  intros ty now1 now2 player Hty once twice.
  assert (Hf : effectFlag ty once = true).
  { unfold once. destruct ty; try congruence; destruct player; reflexivity. }
  assert (Ht : twice = applyPowerUpTo now2 ty player).
  { apply applyPowerUpTo_twice, Hty. }
  assert (Hs : Player.speedBoost twice = Player.speedBoost once).
  { unfold twice, once. destruct ty; try congruence; destruct player; reflexivity. }
  assert (Hd : Player.damageBoost twice = Player.damageBoost once).
  { unfold twice, once. destruct ty; try congruence; destruct player; reflexivity. }
  repeat split.
  - exact Hf.
  - apply applyPowerUpTo_active; assumption.
  - unfold twice, once. destruct ty; try congruence; destruct player; reflexivity.
  - unfold twice, once. destruct ty; try congruence; destruct player; reflexivity.
  - exact Ht.
  - rewrite Hs. reflexivity.
  - intros ->. rewrite Ht. destruct player. cbn.
    unfold maxSpeed, TANK_MAX_SPEED, multiplier. cbn. lra.
  - intros target. unfold bulletDamage. rewrite Hd. reflexivity.
  - intros -> target Hsh. rewrite Ht. unfold bulletDamage.
    destruct player. cbn. rewrite Hsh. apply boosted_damage.
Qed.

(** Two speed pickups, three seconds apart, by a fresh player. *)
Lemma reapplied_power_up_only_resets_expiry_witness :
  let player := Player.fresh "a" 100 100 "" "" in
  let twice := applyPowerUpTo 4000 SPEED (applyPowerUpTo 1000 SPEED player) in
  SPEED <> HEALTH_PACK /\
  Player.speedBoostExpireTime twice = Some 9000%Z /\
  maxSpeed (Player.speedBoost twice) = 120.
Proof.
  intros player twice.
  assert (Hty : SPEED <> HEALTH_PACK) by discriminate.
  destruct (reapplied_power_up_only_resets_expiry SPEED 1000 4000 player Hty)
    as (_ & _ & _ & He & _ & _ & Hs & _).
  split; [exact Hty|]. split; [exact He | exact (Hs eq_refl)].
Defined.

(** ** The spawn check *)

Lemma randomIndex_spec (r : R) (len k : nat) :
  0 <= r < 1 -> (k < len)%nat ->
  (randomIndex r len = k <-> INR k / INR len <= r < (INR k + 1) / INR len).
Proof.
  intros Hr Hk. unfold randomIndex.
  assert (Hlen : 0 < INR len) by (apply lt_0_INR; lia).
  pose proof (Zfloor_bound (r * INR len)) as Hb.
  assert (Hnn : (0 <= Zfloor (r * INR len))%Z).
  { apply Zfloor_lub. cbn. nra. }
  assert (Hq1 : INR k / INR len * INR len = INR k) by (field; lra).
  assert (Hq2 : (INR k + 1) / INR len * INR len = INR k + 1) by (field; lra).
  split.
  - intros <-. rewrite INR_IZR_INZ, Z2Nat.id in Hq1, Hq2 |- * by exact Hnn.
    split; nra.
  - intros [Hlo Hhi].
    rewrite (Zfloor_eq (Z.of_nat k)).
    + apply Nat2Z.id.
    + rewrite <- INR_IZR_INZ. split; nra.
Qed.

Lemma randomIndex_lt (r : R) (len : nat) :
  0 <= r < 1 -> (0 < len)%nat -> (randomIndex r len < len)%nat.
Proof.
  intros Hr Hlen. unfold randomIndex.
  assert (Hl : 0 < INR len) by (apply lt_0_INR; lia).
  pose proof (Zfloor_bound (r * INR len)) as Hb.
  assert (Hnn : (0 <= Zfloor (r * INR len))%Z).
  { apply Zfloor_lub. cbn. nra. }
  assert (Hlt : (Zfloor (r * INR len) < Z.of_nat len)%Z).
  { apply lt_IZR. rewrite <- INR_IZR_INZ. nra. }
  lia.
Qed.

Lemma spawn_coordinate r bound :
  0 <= r < 1 -> 40 < bound -> 20 <= r * (bound - 40) + 20 < bound - 20.
Proof. intros Hr Hb. split; nra. Qed.

Lemma nth_key_inj i k :
  (i < 5)%nat -> (k < 5)%nat ->
  (nth i POWER_UP_KEYS SPEED = nth k POWER_UP_KEYS SPEED <-> i = k).
Proof.
  intros Hi Hk.
  do 5 (destruct i as [|i]; [do 5 (destruct k as [|k]; [cbn; split; congruence|]); lia|]).
  lia.
Qed.

Lemma spawnPowerUp_adds_one now rnd game :
  Game.powerUps (spawnPowerUp now rnd game) =
  Game.powerUps game ++
  [PowerUp.mk (IZR now + rnd 1%nat)
     (nth (randomIndex (rnd 0%nat) 5) POWER_UP_KEYS SPEED)
     (rnd 2%nat * (MAP_WIDTH - 40) + 20)
     (rnd 3%nat * (MAP_HEIGHT - 40) + 20) now].
Proof. reflexivity. Qed.

(** The spawn check on its own, with [last] the time it reads: exactly one
    power-up is appended to the room's power-ups when more than 7000 ms have
    passed since [last] and the room holds fewer than 6; otherwise the room
    is left as it was.  The power-up appended has one of the five types,
    type number [k] exactly when the random number drawn lies in
    [k/5, (k+1)/5), and a position inside the map. *)
Lemma spawnCheck_spawns_when_due :
  forall (now : Z) (rnd : Rng) (last : Z) (game : Game.t),
    (forall n, 0 <= rnd n < 1) ->
    let due :=
      (7000 < now - last)%Z /\ (List.length (Game.powerUps game) < 6)%nat in
    let game' := snd (fst (spawnCheck now rnd last game)) in
    (due ->
     exists powerUp,
       Game.powerUps game' = Game.powerUps game ++ [powerUp] /\
       In (PowerUp.type powerUp) POWER_UP_KEYS /\
       (forall k, (k < 5)%nat ->
                  (PowerUp.type powerUp = nth k POWER_UP_KEYS SPEED <->
                   INR k / 5 <= rnd 0%nat < (INR k + 1) / 5)) /\
       20 <= PowerUp.x powerUp < MAP_WIDTH - 20 /\
       20 <= PowerUp.y powerUp < MAP_HEIGHT - 20 /\
       PowerUp.createdAt powerUp = now) /\
    (~ due -> game' = game) /\
    (List.length (Game.powerUps game') = S (List.length (Game.powerUps game))
     <-> due).
Proof.
  intros now rnd last game Hrnd due game'.
  assert (Hidx : (randomIndex (rnd 0%nat) 5 < 5)%nat).
  { apply randomIndex_lt; [apply Hrnd|lia]. }
  unfold game', spawnCheck, due.
  destruct (Z.ltb_spec 7000 (now - last)) as [Ht|Ht];
    [destruct (Nat.ltb_spec (List.length (Game.powerUps game)) 6) as [Hc|Hc]|];
    cbn [fst snd].
  - split; [|split].
    + intros _. eexists. split; [apply spawnPowerUp_adds_one|].
      cbn [PowerUp.type PowerUp.x PowerUp.y PowerUp.createdAt].
      split; [apply nth_In; exact Hidx|]. split; [|split; [|split]].
      * intros k Hk. rewrite nth_key_inj by assumption.
        pose proof (randomIndex_spec (rnd 0%nat) 5 k (Hrnd 0%nat) Hk) as Hs.
        replace (INR 5) with 5 in Hs by (cbn; lra). exact Hs.
      * apply spawn_coordinate; [apply Hrnd|unfold MAP_WIDTH; lra].
      * apply spawn_coordinate; [apply Hrnd|unfold MAP_HEIGHT; lra].
      * reflexivity.
    + intros Hn. exfalso. apply Hn. split; assumption.
    + rewrite spawnPowerUp_adds_one, length_app. cbn. split; [|lia].
      intros _. split; assumption.
  - split; [|split].
    + intros [_ Hlt]. lia.
    + reflexivity.
    + split; [lia|]. intros [_ Hlt]. lia.
  - split; [|split].
    + intros [Hlt _]. lia.
    + reflexivity.
    + split; [lia|]. intros [Hlt _]. lia.
Qed.

(** ** Stale requests *)

(** C8, as stated, fails for [join]: a join that names a room the server
    does not have is answered with an error event. *)
Lemma join_unknown_room_emits_error :
  let request := Some (mkJoinData (Some "game_7"%string) (Some "Ann"%string)) in
  let result := onJoin 1000 (fun _ => 0) "a" request Server.init in
  property "game_7"%string (Server.games Server.init) = Missing /\
  joinOutcome 1000 (fun _ => 0) "a" request Server.init = Returned result /\
  result = (Server.init, [ToSocket "a" (EvError "Game not found")]) /\
  existsb isError (snd result) = true.
Proof.
  cbv zeta. repeat split.
Qed.

Lemma inputOutcome_stale sid inputs sv :
  stale sid sv -> inputOutcome sid inputs sv = Returned (sv, []).
Proof.
  unfold stale, inputOutcome, onInput, property.
  destruct (lookup sid (Server.socketGameId sv)) as [gameId|]; [|reflexivity].
  destruct (lookup gameId (Server.games sv)) as [game|].
  - intros ->. reflexivity.
  - destruct (inherited gameId); [contradiction|reflexivity].
Qed.

Lemma onShoot_stale now sid angle sv :
  stale sid sv -> onShoot now sid angle sv = (sv, []).
Proof.
  unfold stale, onShoot, property.
  destruct (lookup sid (Server.socketGameId sv)) as [gameId|]; [|reflexivity].
  destruct (lookup gameId (Server.games sv)) as [game|]; [|reflexivity].
  intros ->. reflexivity.
Qed.

Lemma chatMessageOutcome_stale now sid text sv :
  stale sid sv -> chatMessageOutcome now sid text sv = Returned (sv, []).
Proof.
  unfold stale, chatMessageOutcome, onChatMessage, property.
  destruct (lookup sid (Server.socketGameId sv)) as [gameId|]; [|reflexivity].
  destruct (lookup gameId (Server.games sv)) as [game|].
  - intros ->. reflexivity.
  - destruct (inherited gameId); [contradiction|reflexivity].
Qed.

Lemma joinOutcome_unknown now rnd sid gameId nm sv :
  gameId <> ""%string ->
  property gameId (Server.games sv) = Missing ->
  joinOutcome now rnd sid (Some (mkJoinData (Some gameId) nm)) sv =
  Returned (sv, [ToSocket sid (EvError "Game not found")]).
Proof.
  intros Hne Hp. unfold joinOutcome, onJoin. cbn [jd_serverId].
  destruct (String.eqb_spec gameId ""); [contradiction|].
  rewrite Hp. unfold property in Hp.
  destruct (lookup gameId (Server.games sv)); [discriminate|reflexivity].
Qed.

(** Away from the inherited names the handler runs are [onJoin], [onInput]
    and [onChatMessage]. *)
Lemma joinOutcome_onJoin now rnd sid gameId nm sv :
  inherited gameId = false ->
  joinOutcome now rnd sid (Some (mkJoinData (Some gameId) nm)) sv =
  Returned (onJoin now rnd sid (Some (mkJoinData (Some gameId) nm)) sv).
Proof.
  intros Hi. unfold joinOutcome, property. cbn [jd_serverId]. rewrite Hi.
  destruct (String.eqb gameId ""); [reflexivity|].
  destruct (lookup gameId (Server.games sv)); reflexivity.
Qed.

(** A join that names [constructor]: the socket's room is set and the
    handler throws; the joiner is sent nothing, and the socket is left
    claiming a name under which the [input] and [chat:message] handlers
    throw as well. *)
Lemma join_inherited_name_throws :
  let request := Some (mkJoinData (Some "constructor"%string) (Some "Ann"%string)) in
  let claimed := Server.mk [] 0 [] [("a", "constructor")]%string in
  joinOutcome 1000 (fun _ => 0) "a" request Server.init = Threw claimed /\
  inputOutcome "a" (Some []) claimed = Threw claimed /\
  chatMessageOutcome 2000 "a" (Some "hello"%string) claimed = Threw claimed.
Proof.
  cbv zeta. repeat split.
Qed.

(** C8, amended.  An input, shoot or chat request from a socket whose
    claimed room does not exist, or does not hold the socket's player,
    leaves the server's state as it was and emits nothing.  A join that
    names a room that does not exist leaves the state as it was too, and
    emits one event, the error "Game not found", to the requesting
    socket.  A room does not exist when [games] has nothing under its name,
    stored or inherited: of a name that every object inherits, such as
    [constructor], nothing is said here. *)
Theorem stale_requests_change_nothing :
  forall (now : Z) (rnd : Rng) (sid : string) (sv : Server.t),
    stale sid sv ->
    (forall inputs, inputOutcome sid inputs sv = Returned (sv, [])) /\
    (forall angle, onShoot now sid angle sv = (sv, [])) /\
    (forall text, chatMessageOutcome now sid text sv = Returned (sv, [])) /\
    (forall joiner gameId nm,
        gameId <> ""%string ->
        property gameId (Server.games sv) = Missing ->
        joinOutcome now rnd joiner (Some (mkJoinData (Some gameId) nm)) sv =
        Returned (sv, [ToSocket joiner (EvError "Game not found")])).
Proof.
  intros now rnd sid sv Hst. repeat split.
  - intros inputs. apply inputOutcome_stale, Hst.
  - intros angle. apply onShoot_stale, Hst.
  - intros text. apply chatMessageOutcome_stale, Hst.
  - intros joiner gameId nm Hne Hl. apply joinOutcome_unknown; assumption.
Qed.

(** Socket [a] hosts a room and disconnects while [b] is in it: the room
    stays, without a player of [a], and [a] still claims it.  What [a] sends
    then is ignored, and its join of a room that is not there is answered
    with the error. *)
Lemma stale_requests_change_nothing_witness :
  let rnd : Rng := fun _ => 1 / 2 in
  let hosted :=
    fst (handle 1000 rnd (ReqHost "a" (Some (mkHostData None None None)))
                Server.init) in
  let joined :=
    fst (handle 2000 rnd
                (ReqJoin "b" (Some (mkJoinData (Some "game_1"%string) None)))
                hosted) in
  let sv := fst (handle 3000 rnd (ReqDisconnect "a") joined) in
  lookup "a"%string (Server.socketGameId sv) = Some "game_1"%string /\
  stale "a" sv /\
  inputOutcome "a" (Some [None]) sv = Returned (sv, []) /\
  onShoot 4000 "a" (Some 1) sv = (sv, []) /\
  chatMessageOutcome 4000 "a" (Some "hello"%string) sv = Returned (sv, []) /\
  joinOutcome 4000 rnd "a" (Some (mkJoinData (Some "game_7"%string) None)) sv =
  Returned (sv, [ToSocket "a" (EvError "Game not found")]).
Proof.
  intros rnd hosted joined sv.
  assert (Hst : stale "a" sv) by reflexivity.
  destruct (stale_requests_change_nothing 4000 rnd "a" sv Hst)
    as (Hinput & Hshoot & Hchat & Hjoin).
  split; [reflexivity|]. split; [exact Hst|].
  split; [apply Hinput|]. split; [apply Hshoot|]. split; [apply Hchat|].
  apply Hjoin; [discriminate|reflexivity].
Defined.

(** ** Objects used as maps: lookup, insertion, removal *)

Section ObjectMapFacts.
Context {V : Type}.
Implicit Types (m : list (string * V)) (k : string) (v : V).

Lemma lookup_In k v m : lookup k m = Some v -> In (k, v) m.
Proof.
  induction m as [|[k' v'] rest IH]; cbn; [discriminate|].
  destruct (String.eqb_spec k k') as [->|Hne].
  - intros [= ->]. left. reflexivity.
  - intros H. right. apply IH, H.
Qed.

Lemma lookup_None_keys k m : lookup k m = None <-> ~ In k (map fst m).
Proof.
  induction m as [|[k' v'] rest IH]; cbn.
  - tauto.
  - destruct (String.eqb_spec k k') as [->|Hne].
    + split; [discriminate|]. intros H. exfalso. apply H. left. reflexivity.
    + rewrite IH. split; intros H; [intros [He|Hi]; [congruence|tauto]|tauto].
Qed.

Lemma In_lookup k v m : NoDup (map fst m) -> In (k, v) m -> lookup k m = Some v.
Proof.
  induction m as [|[k' v'] rest IH]; cbn; [tauto|].
  intros Hnd [Heq|Hin].
  - injection Heq as -> ->. rewrite String.eqb_refl. reflexivity.
  - inversion Hnd as [|? ? Hnotin Hnd']; subst.
    destruct (String.eqb_spec k k') as [->|Hne].
    + exfalso. apply Hnotin. apply (in_map fst) in Hin. exact Hin.
    + apply IH; assumption.
Qed.

Lemma lookup_insert_eq k v m : lookup k (insert k v m) = Some v.
Proof.
  induction m as [|[k' v'] rest IH]; cbn.
  - rewrite String.eqb_refl. reflexivity.
  - destruct (String.eqb_spec k k') as [->|Hne]; cbn.
    + rewrite String.eqb_refl. reflexivity.
    + destruct (String.eqb_spec k k'); [contradiction|]. exact IH.
Qed.

Lemma lookup_insert_ne k k' v m :
  k' <> k -> lookup k' (insert k v m) = lookup k' m.
Proof.
  intros Hne. induction m as [|[k0 v0] rest IH]; cbn.
  - destruct (String.eqb_spec k' k); [contradiction|]. reflexivity.
  - destruct (String.eqb_spec k k0) as [->|Hk]; cbn.
    + destruct (String.eqb_spec k' k0); [contradiction|]. reflexivity.
    + destruct (String.eqb_spec k' k0); [reflexivity|]. exact IH.
Qed.

Lemma In_insert k v k' v' m :
  In (k', v') (insert k v m) -> (k', v') = (k, v) \/ In (k', v') m.
Proof.
  induction m as [|[k0 v0] rest IH]; cbn.
  - intros [H|[]]. left. symmetry. exact H.
  - destruct (String.eqb_spec k k0) as [->|Hk]; cbn.
    + intros [H|H]; [left; symmetry; exact H|right; right; exact H].
    + intros [H|H]; [right; left; exact H|].
      destruct (IH H) as [H'|H']; [left; exact H'|right; right; exact H'].
Qed.

Lemma In_remove k k' v' m : In (k', v') (remove k m) -> In (k', v') m.
Proof.
  induction m as [|[k0 v0] rest IH]; cbn; [tauto|].
  destruct (String.eqb_spec k k0) as [->|Hk]; cbn.
  - intros H. right. exact H.
  - intros [H|H]; [left; exact H|right; apply IH, H].
Qed.

(** Writing under a key the object has keeps the keys as they are. *)
Lemma keys_insert_present k v m :
  In k (map fst m) -> map fst (insert k v m) = map fst m.
Proof.
  induction m as [|[k0 v0] rest IH]; cbn; [tauto|].
  destruct (String.eqb_spec k k0) as [->|Hk]; cbn; [reflexivity|].
  intros [H|H]; [congruence|]. f_equal. apply IH, H.
Qed.

Lemma keys_insert_absent k v m :
  ~ In k (map fst m) -> map fst (insert k v m) = map fst m ++ [k].
Proof.
  induction m as [|[k0 v0] rest IH]; cbn; [reflexivity|].
  destruct (String.eqb_spec k k0) as [->|Hk]; cbn; [tauto|].
  intros H. f_equal. apply IH. tauto.
Qed.

Lemma keys_insert k v m :
  forall k', In k' (map fst (insert k v m)) <-> k' = k \/ In k' (map fst m).
Proof.
  intros k'. destruct (in_dec string_dec k (map fst m)) as [Hin|Hout].
  - rewrite keys_insert_present by exact Hin. split; [tauto|].
    intros [->|H]; assumption.
  - rewrite keys_insert_absent by exact Hout. rewrite in_app_iff. cbn.
    split; [intros [H|[H|[]]]; [tauto|left; congruence]|].
    intros [->|H]; [right; left; reflexivity|left; exact H].
Qed.

Lemma NoDup_insert k v m : NoDup (map fst m) -> NoDup (map fst (insert k v m)).
Proof.
  intros Hnd. destruct (in_dec string_dec k (map fst m)) as [Hin|Hout].
  - rewrite keys_insert_present by exact Hin. exact Hnd.
  - rewrite keys_insert_absent by exact Hout.
    apply NoDup_app; [exact Hnd|repeat constructor; cbn; tauto|].
    intros a Ha [<-|[]]. contradiction.
Qed.

Lemma keys_remove k m :
  NoDup (map fst m) ->
  forall k', In k' (map fst (remove k m)) <-> k' <> k /\ In k' (map fst m).
Proof.
  induction m as [|[k0 v0] rest IH]; cbn; intros Hnd k'; [tauto|].
  inversion Hnd as [|? ? Hnotin Hnd']; subst.
  destruct (String.eqb_spec k k0) as [->|Hk]; cbn.
  - split.
    + intros H. split; [intros ->; contradiction|right; exact H].
    + intros [Hne [H|H]]; [congruence|exact H].
  - rewrite (IH Hnd'). split.
    + intros [->|[Hne H]]; [split; [congruence|left; reflexivity]|tauto].
    + intros [Hne [H|H]]; [left; exact H|right; tauto].
Qed.

Lemma NoDup_remove k m : NoDup (map fst m) -> NoDup (map fst (remove k m)).
Proof.
  induction m as [|[k0 v0] rest IH]; cbn; intros Hnd; [constructor|].
  inversion Hnd as [|? ? Hnotin Hnd']; subst.
  destruct (String.eqb_spec k k0) as [->|Hk]; cbn; [exact Hnd'|].
  constructor; [|apply IH, Hnd'].
  intros H. apply (keys_remove k rest Hnd') in H. tauto.
Qed.

Lemma lookup_remove_ne k k' m : k' <> k -> lookup k' (remove k m) = lookup k' m.
Proof.
  intros Hne. induction m as [|[k0 v0] rest IH]; cbn; [reflexivity|].
  destruct (String.eqb_spec k k0) as [->|Hk]; cbn.
  - destruct (String.eqb_spec k' k0); [contradiction|]. reflexivity.
  - destruct (String.eqb_spec k' k0); [reflexivity|exact IH].
Qed.

Lemma lookup_remove_eq k m : NoDup (map fst m) -> lookup k (remove k m) = None.
Proof.
  intros Hnd. apply lookup_None_keys. rewrite keys_remove by exact Hnd. tauto.
Qed.

Lemma keys_mapValues (f : V -> V) m : map fst (mapValues f m) = map fst m.
Proof.
  unfold mapValues. rewrite map_map. apply map_ext. reflexivity.
Qed.

Lemma lookup_mapValues (f : V -> V) k m :
  lookup k (mapValues f m) = option_map f (lookup k m).
Proof.
  induction m as [|[k0 v0] rest IH]; cbn; [reflexivity|].
  destruct (String.eqb k k0); [reflexivity|exact IH].
Qed.

End ObjectMapFacts.

(** ** Invariants of the room table *)

Lemma allValues_insert {V} (P : V -> Prop) k v m :
  P v -> allValues P m -> allValues P (insert k v m).
Proof.
  intros Hv Hm. unfold allValues in *. rewrite Forall_forall in *.
  intros [k' v'] Hin. destruct (In_insert _ _ _ _ _ Hin) as [Heq|Hold].
  - injection Heq as -> ->. exact Hv.
  - apply (Hm _ Hold).
Qed.

Lemma allValues_remove {V} (P : V -> Prop) k m :
  allValues P m -> allValues P (remove k m).
Proof.
  intros Hm. unfold allValues in *. rewrite Forall_forall in *.
  intros [k' v'] Hin. apply (Hm (k', v')), (In_remove _ _ _ _ Hin).
Qed.

Lemma allValues_lookup {V} (P : V -> Prop) k v m :
  allValues P m -> lookup k m = Some v -> P v.
Proof.
  intros Hm Hl. unfold allValues in Hm. rewrite Forall_forall in Hm.
  apply (Hm (k, v)), lookup_In, Hl.
Qed.

Lemma allValues_mapValues {V} (P : V -> Prop) (f : V -> V) m :
  (forall v, P v -> P (f v)) -> allValues P m -> allValues P (mapValues f m).
Proof.
  intros Hf Hm. unfold allValues, mapValues in *.
  rewrite Forall_map. eapply Forall_impl; [|exact Hm].
  intros [k v] Hv. cbn in *. apply Hf, Hv.
Qed.

Lemma unit_rng_drop n rnd : unit_rng rnd -> unit_rng (rng_drop n rnd).
Proof. intros H m. apply H. Qed.

Section GameInvariant.

Variable I : Game.t -> Prop.

Hypothesis I_join : forall now rnd sid nm game,
  unit_rng rnd -> I game -> I (joinGame now rnd sid nm game).
Hypothesis I_queue : forall sid player items game,
  lookup sid (Game.players game) = Some player ->
  I game -> I (queueInputs sid player items game).
Hypothesis I_fire : forall now sid player angle game,
  lookup sid (Game.players game) = Some player ->
  I game -> I (fireShots now sid player angle game).
Hypothesis I_chat : forall now msg game,
  I game -> I (pushChatMessage now msg game).
Hypothesis I_host : forall now rnd sid gameId gameName mapType playerName,
  unit_rng rnd -> I (hostGame now rnd sid gameId gameName mapType playerName).
Hypothesis I_leave : forall now sid game,
  I game -> I (leaveGame now sid game).
Hypothesis I_tick : forall now rnd gameId last game,
  unit_rng rnd -> I game -> I (tickedGame (tickGame now rnd gameId last game)).

Lemma tickGames_allGames now todo :
  forall rnd sv,
    unit_rng rnd -> allValues I todo -> allGames I sv ->
    allGames I (fst (tickGames now rnd todo sv)).
Proof.
  induction todo as [|[gameId game] rest IH]; intros rnd sv Hrnd Htodo Hsv.
  - exact Hsv.
  - cbn [tickGames].
    pose proof (I_tick now rnd gameId
                  (lookup gameId (Server.lastPowerUpSpawnTime sv)) game Hrnd)
      as Ht.
    destruct (tickGame now rnd gameId _ game) as [[[last game'] n] ev].
    unfold tickedGame in Ht. cbn [fst snd] in Ht.
    inversion Htodo as [|? ? Hg Hrest]; subst. cbn [snd] in Hg.
    specialize (IH (rng_drop n rnd)
                   (Server.set_games
                      (insert gameId game'
                         (Server.games
                            (Server.set_lastPowerUpSpawnTime
                               (insert gameId last (Server.lastPowerUpSpawnTime sv))
                               sv)))
                      (Server.set_lastPowerUpSpawnTime
                         (insert gameId last (Server.lastPowerUpSpawnTime sv)) sv))
                   (unit_rng_drop n rnd Hrnd) Hrest).
    destruct (tickGames now (rng_drop n rnd) rest _) as [sv' ev'].
    cbn [fst] in *. apply IH.
    unfold allGames. cbn. apply allValues_insert; [apply Ht, Hg|exact Hsv].
Qed.

Lemma handle_allGames now rnd req sv :
  unit_rng rnd -> allGames I sv -> allGames I (fst (handle now rnd req sv)).
Proof.
  intros Hrnd Hsv. unfold allGames in *.
  destruct req as [sid data|sid inputs|sid angle|sid text|sid|sid data|sid|gameId|];
    cbn [handle].
  - unfold onJoin. destruct data as [dta|]; [|exact Hsv].
    destruct (jd_serverId dta) as [gameId|]; [|exact Hsv].
    destruct (String.eqb gameId ""); [exact Hsv|].
    destruct (lookup gameId (Server.games sv)) as [game|] eqn:Hl; [|exact Hsv].
    cbn. apply allValues_insert; [|exact Hsv].
    apply I_join; [exact Hrnd|]. eapply allValues_lookup; eassumption.
  - unfold onInput.
    destruct (lookup sid (Server.socketGameId sv)) as [gameId|]; [|exact Hsv].
    destruct (lookup gameId (Server.games sv)) as [game|] eqn:Hl; [|exact Hsv].
    destruct (lookup sid (Game.players game)) as [player|] eqn:Hp; [|exact Hsv].
    destruct inputs as [items|]; [|exact Hsv].
    cbn. apply allValues_insert; [|exact Hsv].
    apply I_queue; [exact Hp|]. eapply allValues_lookup; eassumption.
  - unfold onShoot.
    destruct (lookup sid (Server.socketGameId sv)) as [gameId|]; [|exact Hsv].
    destruct (lookup gameId (Server.games sv)) as [game|] eqn:Hl; [|exact Hsv].
    destruct (lookup sid (Game.players game)) as [player|] eqn:Hp; [|exact Hsv].
    destruct (Player.dead player); [exact Hsv|].
    destruct (_ <? _)%Z; [exact Hsv|].
    cbn. apply allValues_insert; [|exact Hsv].
    apply I_fire; [exact Hp|]. eapply allValues_lookup; eassumption.
  - unfold onChatMessage.
    destruct (lookup sid (Server.socketGameId sv)) as [gameId|]; [|exact Hsv].
    destruct (lookup gameId (Server.games sv)) as [game|] eqn:Hl; [|exact Hsv].
    destruct (lookup sid (Game.players game)) as [player|]; [|exact Hsv].
    destruct (String.eqb _ ""); [exact Hsv|].
    cbn. apply allValues_insert; [|exact Hsv].
    apply I_chat. eapply allValues_lookup; eassumption.
  - exact Hsv.
  - unfold onHost. destruct data as [dta|]; [|exact Hsv].
    cbn. apply allValues_insert; [|exact Hsv].
    apply I_host, Hrnd.
  - unfold onDisconnect.
    destruct (lookup sid (Server.socketGameId sv)) as [gameId|]; [|exact Hsv].
    destruct (lookup gameId (Server.games sv)) as [game|] eqn:Hl; [|exact Hsv].
    cbn. apply allValues_insert; [|exact Hsv].
    apply I_leave. eapply allValues_lookup; eassumption.
  - unfold onCleanupTimer.
    destruct (lookup gameId (Server.games sv)) as [game|]; [|exact Hsv].
    destruct (Game.cleanupTimer game); [|exact Hsv].
    destruct (Game.players game); [|exact Hsv].
    cbn. apply allValues_remove, Hsv.
  - unfold onTick. apply tickGames_allGames; assumption.
Qed.

Lemma reachable_allGames sv : reachable sv -> allGames I sv.
Proof.
  induction 1 as [|now rnd req sv Hr IH Hrnd].
  - constructor.
  - apply handle_allGames; assumption.
Qed.

End GameInvariant.

(** ** The passes of a tick, read off [tickGame] *)

Lemma spawnCheck_keeps now rnd last game :
  let game' := snd (fst (spawnCheck now rnd last game)) in
  Game.players game' = Game.players game /\
  Game.bullets game' = Game.bullets game /\
  Game.scores game' = Game.scores game.
Proof.
  unfold spawnCheck.
  destruct (_ <? _)%Z; [destruct (_ <? _)%nat|]; cbn; auto.
Qed.

Lemma tickGame_passes now rnd gameId last game :
  let sc := spawnCheck now rnd (int_or last 0) game in
  let bp := bulletPass now gameId (Game.bullets game)
                       (Game.players game, Game.scores game) in
  let rp := respawnPass now (rng_drop (snd sc) rnd)
                        (mapValues processInputs (fst (snd (fst bp)))) in
  let pp := powerUpPass now (Game.powerUps (snd (fst sc))) (fst rp) in
  let game' := tickedGame (tickGame now rnd gameId last game) in
  Game.players game' = mapValues (expireEffects now) (snd pp) /\
  Game.bullets game' = fst (fst bp) /\
  Game.scores game' = snd (snd (fst bp)) /\
  Game.powerUps game' = fst pp.
Proof.
  cbv zeta. unfold tickGame, tickedGame.
  pose proof (spawnCheck_keeps now rnd (int_or last 0) game) as (Hp & Hb & Hs).
  destruct (spawnCheck now rnd (int_or last 0) game) as [[last' g1] n1].
  cbn [fst snd] in *. rewrite Hb, Hp, Hs.
  destruct (bulletPass now gameId (Game.bullets game)
                       (Game.players game, Game.scores game))
    as [[bullets [players scores]] ev].
  cbn [fst snd].
  destruct (respawnPass now (rng_drop n1 rnd) (mapValues processInputs players))
    as [players2 n2].
  cbn [fst snd].
  destruct (powerUpPass now (Game.powerUps g1) players2) as [powerUps players3].
  cbn. repeat split.
Qed.

(** ** What the collision pass does to the players *)

Lemma findTarget_spec bullet players id target :
  findTarget bullet players = Some (id, target) ->
  In (id, target) players /\
  id <> Bullet.owner bullet /\
  Player.dead target = false /\
  Player.invulnerable target = false /\
  hits bullet target = true.
Proof.
  induction players as [|[id' p] rest IH]; cbn; [discriminate|].
  destruct (String.eqb_spec id' (Bullet.owner bullet)) as [He|Hne].
  - intros H. destruct (IH H) as (Hin & Hrest). split; [right; exact Hin|exact Hrest].
  - destruct (Player.dead p) eqn:Hd; cbn [orb].
    + intros H. destruct (IH H) as (Hin & Hrest). split; [right; exact Hin|exact Hrest].
    + destruct (Player.invulnerable p) eqn:Hi.
      * intros H. destruct (IH H) as (Hin & Hrest).
        split; [right; exact Hin|exact Hrest].
      * destruct (hits bullet p) eqn:Hh.
        -- intros [= <- <-]. repeat split; auto.
        -- intros H. destruct (IH H) as (Hin & Hrest).
           split; [right; exact Hin|exact Hrest].
Qed.

Lemma bulletDamage_cases shooter target :
  bulletDamage shooter target = 0 \/
  bulletDamage shooter target = 20 \/
  bulletDamage shooter target = 30.
Proof.
  unfold bulletDamage. destruct (Player.shield target); [left; reflexivity|].
  right. destruct shooter as [sh|]; [|left; reflexivity].
  destruct (Player.damageBoost sh); [right; apply boosted_damage|left; reflexivity].
Qed.

Lemma bulletDamage_nonneg shooter target : 0 <= bulletDamage shooter target.
Proof.
  destruct (bulletDamage_cases shooter target) as [->|[->| ->]]; lra.
Qed.

Lemma players_scheduleCleanup game :
  Game.players (scheduleCleanup game) = Game.players game.
Proof.
  destruct game as [? ? ? players ? ? ? ? ?]. destruct players; reflexivity.
Qed.

Lemma scores_scheduleCleanup game :
  Game.scores (scheduleCleanup game) = Game.scores game.
Proof.
  destruct game as [? ? ? players ? ? ? ? ?]. destruct players; reflexivity.
Qed.

Lemma bullets_scheduleCleanup game :
  Game.bullets (scheduleCleanup game) = Game.bullets game.
Proof.
  destruct game as [? ? ? players ? ? ? ? ?]. destruct players; reflexivity.
Qed.

Section PlayerInvariant.

Variable P : Player.t -> Prop.

Hypothesis P_fresh : forall rnd sid safeName,
  unit_rng rnd -> P (newPlayer rnd sid safeName).
Hypothesis P_inputQueue : forall queue player,
  P player -> P (Player.set_inputQueue queue player).
Hypothesis P_lastShotTime : forall now player,
  P player -> P (Player.set_lastShotTime now player).
Hypothesis P_applyDamage : forall now damage player,
  0 <= damage -> P player -> P (applyDamage now damage player).
Hypothesis P_applyInput : forall player input,
  P player -> P (applyInput player input).
Hypothesis P_respawn : forall now rnd player,
  unit_rng rnd -> P player -> P (respawn now rnd player).
Hypothesis P_applyPowerUpTo : forall now ty player,
  P player -> P (applyPowerUpTo now ty player).
Hypothesis P_expireEffects : forall now player,
  P player -> P (expireEffects now player).

Let IP (game : Game.t) : Prop := allValues P (Game.players game).

Lemma players_pushChatMessage now msg game :
  Game.players (pushChatMessage now msg game) = Game.players game.
Proof. reflexivity. Qed.

Lemma stepBullet_allPlayers now gameId bullet players scores :
  allValues P players ->
  allValues P (fst (snd (fst (stepBullet now gameId bullet (players, scores))))).
Proof.
  intros Hp. unfold stepBullet. cbn [fst].
  destruct (findTarget bullet players) as [[id target]|] eqn:Hf.
  - cbn. apply allValues_insert; [|exact Hp].
    destruct (findTarget_spec _ _ _ _ Hf) as (Hin & _).
    apply P_applyDamage; [apply bulletDamage_nonneg|].
    unfold allValues in Hp. rewrite Forall_forall in Hp. apply (Hp _ Hin).
  - destruct (moveBullet now gameId bullet). exact Hp.
Qed.

Lemma bulletPass_allPlayers now gameId bullets :
  forall players scores,
    allValues P players ->
    allValues P (fst (snd (fst (bulletPass now gameId bullets (players, scores))))).
Proof.
  induction bullets as [|bullet later IH]; intros players scores Hp; [exact Hp|].
  cbn [bulletPass]. specialize (IH players scores Hp).
  destruct (bulletPass now gameId later (players, scores))
    as [[later' [players1 scores1]] ev1].
  cbn [fst snd] in IH.
  pose proof (stepBullet_allPlayers now gameId bullet players1 scores1 IH) as Hs.
  destruct (stepBullet now gameId bullet (players1, scores1))
    as [[ob [players2 scores2]] ev2].
  exact Hs.
Qed.

Lemma drainQueue_P queue : forall player, P player -> P (drainQueue queue player).
Proof.
  induction queue as [|[input|] rest IH]; intros player Hp; cbn.
  - exact Hp.
  - apply IH, P_applyInput, Hp.
  - apply IH, Hp.
Qed.

Lemma respawnPass_allPlayers now players :
  forall rnd, unit_rng rnd -> allValues P players ->
              allValues P (fst (respawnPass now rnd players)).
Proof.
  induction players as [|[id player] rest IH]; intros rnd Hrnd Hp; [exact Hp|].
  inversion Hp as [|? ? Hplayer Hrest]; subst. cbn [snd] in Hplayer.
  cbn [respawnPass]. destruct (shouldRespawn now player).
  - specialize (IH (rng_drop 2 rnd) (unit_rng_drop 2 rnd Hrnd) Hrest).
    destruct (respawnPass now (rng_drop 2 rnd) rest) as [rest' n].
    constructor; [apply P_respawn; assumption|exact IH].
  - specialize (IH rnd Hrnd Hrest).
    destruct (respawnPass now rnd rest) as [rest' n].
    constructor; [exact Hplayer|exact IH].
Qed.

Lemma applyPowerUp_allPlayers now playerId ty players :
  allValues P players -> allValues P (applyPowerUp now playerId ty players).
Proof.
  intros Hp. unfold applyPowerUp.
  destruct (lookup playerId players) as [player|] eqn:Hl; [|exact Hp].
  apply allValues_insert; [|exact Hp].
  apply P_applyPowerUpTo. eapply allValues_lookup; eassumption.
Qed.

Lemma powerUpPass_allPlayers now powerUps :
  forall players, allValues P players ->
                  allValues P (snd (powerUpPass now powerUps players)).
Proof.
  induction powerUps as [|powerUp rest IH]; intros players Hp; [exact Hp|].
  cbn [powerUpPass]. destruct (_ <? _)%Z; [apply IH, Hp|].
  destruct (collector powerUp players) as [playerId|].
  - apply IH, applyPowerUp_allPlayers, Hp.
  - specialize (IH players Hp).
    destruct (powerUpPass now rest players) as [rest' players']. exact IH.
Qed.

Lemma tickGame_allPlayers now rnd gameId last game :
  unit_rng rnd -> IP game -> IP (tickedGame (tickGame now rnd gameId last game)).
Proof.
  intros Hrnd Hg. unfold IP in *.
  destruct (tickGame_passes now rnd gameId last game) as (Hp & _).
  rewrite Hp.
  apply allValues_mapValues; [apply P_expireEffects|].
  apply powerUpPass_allPlayers, respawnPass_allPlayers;
    [apply unit_rng_drop, Hrnd|].
  apply allValues_mapValues.
  - intros p Hpp. unfold processInputs. apply P_inputQueue, drainQueue_P, Hpp.
  - apply bulletPass_allPlayers, Hg.
Qed.

Lemma enterGame_allPlayers now sid player message game :
  P player -> IP game -> IP (enterGame now sid player message game).
Proof.
  intros Hp Hg. unfold IP, enterGame in *. rewrite players_pushChatMessage.
  cbn. apply allValues_insert; assumption.
Qed.

Lemma leaveGame_allPlayers now sid game : IP game -> IP (leaveGame now sid game).
Proof.
  intros Hg. unfold IP, leaveGame in *.
  rewrite players_scheduleCleanup. unfold removePlayer.
  destruct (lookup sid (Game.players game)); [|exact Hg].
  cbn. apply allValues_remove, Hg.
Qed.

Lemma joinGame_allPlayers now rnd sid nm game :
  unit_rng rnd -> IP game -> IP (joinGame now rnd sid nm game).
Proof.
  intros Hrnd Hg. unfold joinGame.
  apply enterGame_allPlayers; [apply P_fresh, Hrnd|exact Hg].
Qed.

Lemma queueInputs_allPlayers sid player items game :
  lookup sid (Game.players game) = Some player ->
  IP game -> IP (queueInputs sid player items game).
Proof.
  intros Hl Hg. unfold IP, queueInputs in *. cbn.
  apply allValues_insert; [|exact Hg].
  apply P_inputQueue. eapply allValues_lookup; eassumption.
Qed.

Lemma fireShots_allPlayers now sid player angle game :
  lookup sid (Game.players game) = Some player ->
  IP game -> IP (fireShots now sid player angle game).
Proof.
  intros Hl Hg. unfold IP, fireShots in *. cbn.
  apply allValues_insert; [|exact Hg].
  apply P_lastShotTime. eapply allValues_lookup; eassumption.
Qed.

Lemma hostGame_allPlayers now rnd sid gameId gameName mapType playerName :
  unit_rng rnd -> IP (hostGame now rnd sid gameId gameName mapType playerName).
Proof.
  intros Hrnd. unfold hostGame.
  apply enterGame_allPlayers; [apply P_fresh, Hrnd|constructor].
Qed.

(** Every request and every tick keeps [P] true of every player. *)
Lemma handle_allPlayers now rnd req sv :
  unit_rng rnd -> allPlayers P sv -> allPlayers P (fst (handle now rnd req sv)).
Proof.
  apply (handle_allGames IP).
  - apply joinGame_allPlayers.
  - apply queueInputs_allPlayers.
  - apply fireShots_allPlayers.
  - intros ? ? game Hg. exact Hg.
  - apply hostGame_allPlayers.
  - apply leaveGame_allPlayers.
  - apply tickGame_allPlayers.
Qed.

(** Every player of every room of a reachable server satisfies [P]. *)
Lemma reachable_allPlayers sv : reachable sv -> allPlayers P sv.
Proof.
  induction 1 as [|now rnd req sv Hr IH Hrnd].
  - constructor.
  - apply handle_allPlayers; assumption.
Qed.

End PlayerInvariant.

(** ** Fields the operations leave alone *)

Lemma applyInput_keeps player input :
  Player.hp (applyInput player input) = Player.hp player /\
  Player.dead (applyInput player input) = Player.dead player /\
  Player.invulnerable (applyInput player input) = Player.invulnerable player /\
  Player.shield (applyInput player input) = Player.shield player.
Proof.
  unfold applyInput. destruct (Input.inputs input) as [k|]; [|auto].
  cbv zeta. destruct (moveWithin _ _ _ _ _ _ _ _ _) as [[px pvx] [py pvy]].
  destruct (Input.rotation input), (Input.turretRotation input),
    (Input.seq input); destruct player; cbn; auto.
Qed.

Lemma expireEffects_keeps now player :
  Player.hp (expireEffects now player) = Player.hp player /\
  Player.x (expireEffects now player) = Player.x player /\
  Player.y (expireEffects now player) = Player.y player.
Proof.
  unfold expireEffects. destruct player. cbn.
  repeat match goal with
  | |- context [if ?c then _ else _] => destruct c; cbn
  end; auto.
Qed.

Lemma applyDamage_keeps now damage player :
  Player.hp (applyDamage now damage player) = Rmax 0 (Player.hp player - damage) /\
  Player.x (applyDamage now damage player) = Player.x player /\
  Player.y (applyDamage now damage player) = Player.y player.
Proof.
  unfold applyDamage. destruct player. cbn.
  destruct (Rle_dec _ 0); cbn; auto.
Qed.

Lemma applyPowerUpTo_position now ty player :
  Player.x (applyPowerUpTo now ty player) = Player.x player /\
  Player.y (applyPowerUpTo now ty player) = Player.y player.
Proof. destruct ty, player; cbn; auto. Qed.

Lemma applyPowerUpTo_hp now ty player :
  Player.hp (applyPowerUpTo now ty player) =
  match ty with
  | HEALTH_PACK => Rmin 100 (Player.hp player + 50)
  | _ => Player.hp player
  end.
Proof.
  destruct ty, player; cbn; try reflexivity.
  unfold MAX_HP. destruct (Req_dec_T 50 0); [lra|reflexivity].
Qed.

(** ** Hit points *)

Lemma hpInRange_applyDamage now damage player :
  0 <= damage -> hpInRange player -> hpInRange (applyDamage now damage player).
Proof.
  unfold hpInRange, MAX_HP. intros Hd Hp.
  destruct (applyDamage_keeps now damage player) as (-> & _).
  unfold Rmax. destruct (Rle_dec 0 (Player.hp player - damage)); lra.
Qed.

Lemma hpInRange_applyPowerUpTo now ty player :
  hpInRange player -> hpInRange (applyPowerUpTo now ty player).
Proof.
  unfold hpInRange, MAX_HP. intros Hp. rewrite applyPowerUpTo_hp.
  destruct ty; try exact Hp.
  unfold Rmin. destruct (Rle_dec 100 (Player.hp player + 50)); lra.
Qed.

Lemma hp_newPlayer rnd sid safeName : Player.hp (newPlayer rnd sid safeName) = 100.
Proof. reflexivity. Qed.

Lemma hp_respawn now rnd player : Player.hp (respawn now rnd player) = 100.
Proof. destruct player. reflexivity. Qed.

Lemma handle_hpInRange now rnd req sv :
  unit_rng rnd -> allPlayers hpInRange sv ->
  allPlayers hpInRange (fst (handle now rnd req sv)).
Proof.
  apply handle_allPlayers.
  - intros r sid nm _. unfold hpInRange. rewrite hp_newPlayer. unfold MAX_HP. lra.
  - intros queue player Hp. destruct player. exact Hp.
  - intros t player Hp. destruct player. exact Hp.
  - apply hpInRange_applyDamage.
  - intros player input Hp. unfold hpInRange.
    destruct (applyInput_keeps player input) as (-> & _). exact Hp.
  - intros t r player _ _. unfold hpInRange. rewrite hp_respawn. unfold MAX_HP. lra.
  - apply hpInRange_applyPowerUpTo.
  - intros t player Hp. unfold hpInRange.
    destruct (expireEffects_keeps t player) as (-> & _). exact Hp.
Qed.

(** In every reachable state every player's hit points are in [0, 100]. *)
Lemma reachable_hpInRange sv : reachable sv -> allPlayers hpInRange sv.
Proof.
  induction 1 as [|now rnd req sv Hr IH Hrnd].
  - constructor.
  - apply handle_hpInRange; assumption.
Qed.

(** C4.  A request or a tick that finds every player's hit points in
    [0, 100] leaves every player's hit points in [0, 100].  The operations
    that write hit points: a hit leaves [max 0 (hp - damage)], a health
    pack [min 100 (hp + 50)], a respawn 100, and the player object of
    [join] and [host] starts at 100. *)
Theorem hp_stays_within_0_and_100 :
  forall (now : Z) (rnd : Rng) (req : Request) (sv : Server.t),
    unit_rng rnd ->
    allPlayers hpInRange sv ->
    allPlayers hpInRange (fst (handle now rnd req sv)) /\
    (forall shooter target,
        Player.hp (applyDamage now (bulletDamage shooter target) target) =
        Rmax 0 (Player.hp target - bulletDamage shooter target)) /\
    (forall player,
        Player.hp (applyPowerUpTo now HEALTH_PACK player) =
        Rmin 100 (Player.hp player + 50)) /\
    (forall player, Player.hp (respawn now rnd player) = 100) /\
    (forall sid safeName, Player.hp (newPlayer rnd sid safeName) = 100).
Proof.
  intros now rnd req sv Hrnd Hsv. repeat split.
  - apply handle_hpInRange; assumption.
  - intros shooter target. apply applyDamage_keeps.
  - intros player. apply (applyPowerUpTo_hp now HEALTH_PACK).
  - intros player. apply hp_respawn.
Qed.

(** A first room hosted on a server without rooms. *)
Lemma hp_stays_within_0_and_100_witness :
  let rnd : Rng := fun _ => 1 / 2 in
  let req := ReqHost "a" (Some (mkHostData None (Some "Ann"%string) None)) in
  unit_rng rnd /\
  allPlayers hpInRange Server.init /\
  allPlayers hpInRange (fst (handle 1000 rnd req Server.init)).
Proof.
  intros rnd req.
  assert (Hrnd : unit_rng rnd) by (intros n; unfold rnd; lra).
  assert (Hinit : allPlayers hpInRange Server.init) by constructor.
  split; [exact Hrnd|]. split; [exact Hinit|].
  exact (proj1 (hp_stays_within_0_and_100 1000 rnd req Server.init Hrnd Hinit)).
Defined.

(** ** Positions in reachable states *)

Lemma inArena_newPlayer rnd sid safeName :
  unit_rng rnd -> inArena (newPlayer rnd sid safeName).
Proof.
  intros Hrnd. unfold inArena, newPlayer. cbn.
  pose proof (Hrnd 1%nat). pose proof (Hrnd 2%nat).
  unfold TANK_RADIUS, MAP_WIDTH, MAP_HEIGHT. split; nra.
Qed.

Lemma inArena_respawn now rnd player :
  unit_rng rnd -> inArena (respawn now rnd player).
Proof.
  intros Hrnd. unfold inArena. destruct player. cbn.
  pose proof (Hrnd 0%nat). pose proof (Hrnd 1%nat).
  unfold TANK_RADIUS, MAP_WIDTH, MAP_HEIGHT. split; nra.
Qed.

(** In every reachable state every tank's centre is in the arena,
    whatever was queued as input. *)
Lemma reachable_inArena sv : reachable sv -> allPlayers inArena sv.
Proof.
  apply reachable_allPlayers.
  - intros r sid nm Hr. apply inArena_newPlayer, Hr.
  - intros queue player Hp. destruct player. exact Hp.
  - intros t player Hp. destruct player. exact Hp.
  - intros t damage player _ Hp. unfold inArena.
    destruct (applyDamage_keeps t damage player) as (_ & -> & ->). exact Hp.
  - apply applyInput_preserves_inArena.
  - intros t r player Hr _. apply inArena_respawn, Hr.
  - intros t ty player Hp. unfold inArena.
    destruct (applyPowerUpTo_position t ty player) as (-> & ->). exact Hp.
  - intros t player Hp. unfold inArena.
    destruct (expireEffects_keeps t player) as (_ & -> & ->). exact Hp.
Qed.

(** ** Bounce counts *)

Lemma wallX_bounces gameId b b' bounced ev :
  wallX gameId b = Some (b', bounced, ev) ->
  bouncesInRange b -> bouncesInRange b'.
Proof.
  unfold wallX, bouncesInRange, MAX_BOUNCES.
  destruct (outside (Bullet.x b) MAP_WIDTH).
  - destruct (Nat.ltb_spec (Bullet.bounces b) 3); [|discriminate].
    intros [= <- _ _] _. cbn. lia.
  - intros [= <- _ _] H. exact H.
Qed.

Lemma wallY_bounces gameId b b' bounced ev :
  wallY gameId b = Some (b', bounced, ev) ->
  bouncesInRange b -> bouncesInRange b'.
Proof.
  unfold wallY, bouncesInRange, MAX_BOUNCES.
  destruct (outside (Bullet.y b) MAP_HEIGHT).
  - destruct (Nat.ltb_spec (Bullet.bounces b) 3); [|discriminate].
    intros [= <- _ _] _. cbn. lia.
  - intros [= <- _ _] H. exact H.
Qed.

Lemma moveBullet_bounces now gameId bullet bullet' :
  fst (moveBullet now gameId bullet) = Some bullet' ->
  bouncesInRange bullet -> bouncesInRange bullet'.
Proof.
  unfold moveBullet. intros Hm Hb.
  set (moved := set_motion _ _ _ _ _ bullet) in Hm.
  assert (Hmoved : bouncesInRange moved) by exact Hb.
  destruct (wallX gameId moved) as [[[b1 bx] evx]|] eqn:Hx; [|discriminate].
  pose proof (wallX_bounces _ _ _ _ _ Hx Hmoved) as H1.
  destruct (wallY gameId b1) as [[[b2 by_] evy]|] eqn:Hy; [|discriminate].
  pose proof (wallY_bounces _ _ _ _ _ Hy H1) as H2.
  destruct (_ || _)%bool in Hm; cbn in Hm.
  - injection Hm as <-. destruct (bx || by_)%bool; [|exact H2].
    destruct b2. exact H2.
  - discriminate.
Qed.

Lemma stepBullet_bounces now gameId bullet ar bullet' :
  fst (fst (stepBullet now gameId bullet ar)) = Some bullet' ->
  bouncesInRange bullet -> bouncesInRange bullet'.
Proof.
  unfold stepBullet. destruct (findTarget bullet (fst ar)) as [[id target]|].
  - discriminate.
  - destruct (moveBullet now gameId bullet) as [ob ev] eqn:Hm. cbn.
    intros ->. apply (moveBullet_bounces now gameId). rewrite Hm. reflexivity.
Qed.

Lemma bulletPass_bounces now gameId bullets :
  forall ar,
    Forall bouncesInRange bullets ->
    Forall bouncesInRange (fst (fst (bulletPass now gameId bullets ar))).
Proof.
  induction bullets as [|bullet later IH]; intros ar Hb; [constructor|].
  inversion Hb as [|? ? Hbullet Hlater]; subst.
  cbn [bulletPass]. specialize (IH ar Hlater).
  destruct (bulletPass now gameId later ar) as [[later' ar1] ev1].
  cbn [fst] in IH.
  pose proof (stepBullet_bounces now gameId bullet ar1) as Hs.
  destruct (stepBullet now gameId bullet ar1) as [[ob ar2] ev2].
  cbn [fst] in *. destruct ob as [b|]; [|exact IH].
  constructor; [apply Hs; [reflexivity|exact Hbullet]|exact IH].
Qed.

Lemma shotBullets_bounces now player sid angle shots spread n :
  forall i0, Forall bouncesInRange
               (shotBullets now player sid angle shots spread i0 n).
Proof.
  induction n as [|n IH]; intros i0; cbn; constructor.
  - unfold bouncesInRange, MAX_BOUNCES. cbn. lia.
  - apply IH.
Qed.

Lemma bullets_enterGame now sid player message game :
  Game.bullets (enterGame now sid player message game) = Game.bullets game.
Proof. reflexivity. Qed.

Lemma bullets_removePlayer now sid game :
  Game.bullets (removePlayer now sid game) = Game.bullets game.
Proof.
  unfold removePlayer. destruct (lookup sid (Game.players game)); reflexivity.
Qed.

Lemma handle_bouncesInRange now rnd req sv :
  unit_rng rnd -> allBullets bouncesInRange sv ->
  allBullets bouncesInRange (fst (handle now rnd req sv)).
Proof.
  apply (handle_allGames (fun game => Forall bouncesInRange (Game.bullets game))).
  - intros t r sid nm game _ Hg. exact Hg.
  - intros sid player items game _ Hg. exact Hg.
  - intros t sid player angle game _ Hg. unfold fireShots. cbn.
    apply Forall_app. split; [exact Hg|apply shotBullets_bounces].
  - intros t msg game Hg. exact Hg.
  - intros t r sid gameId gameName mapType playerName _. constructor.
  - intros t sid game Hg. unfold leaveGame.
    rewrite bullets_scheduleCleanup, bullets_removePlayer. exact Hg.
  - intros t r gameId last game _ Hg.
    destruct (tickGame_passes t r gameId last game) as (_ & -> & _).
    apply bulletPass_bounces, Hg.
Qed.

Lemma reachable_bouncesInRange sv :
  reachable sv -> allBullets bouncesInRange sv.
Proof.
  induction 1 as [|now rnd req sv Hr IH Hrnd].
  - constructor.
  - apply handle_bouncesInRange; assumption.
Qed.

(** A bullet at the cap that crosses an edge is spliced out. *)
Lemma moveBullet_at_cap now gameId bullet :
  Bullet.bounces bullet = MAX_BOUNCES ->
  crossesBoundary bullet ->
  fst (moveBullet now gameId bullet) = None.
Proof.
  intros Hb Hc. unfold moveBullet.
  set (moved := set_motion _ _ _ _ _ bullet).
  assert (Hlt : (Bullet.bounces moved <? MAX_BOUNCES)%nat = false).
  { change (Bullet.bounces moved) with (Bullet.bounces bullet).
    rewrite Hb. reflexivity. }
  unfold wallX. rewrite Hlt.
  destruct (outside (Bullet.x moved) MAP_WIDTH) eqn:Hx; [reflexivity|].
  unfold wallY. rewrite Hlt.
  destruct Hc as [Hc|Hc].
  - change (Bullet.x moved) with (Bullet.x bullet + Bullet.vx bullet) in Hx.
    congruence.
  - change (Bullet.y moved) with (Bullet.y bullet + Bullet.vy bullet).
    rewrite Hc. reflexivity.
Qed.

(** The loop runs from the last bullet to the first: the pass over a list
    of bullets is the pass over its back part, then the pass over its front
    part on the players and scores the back part left. *)
Lemma bulletPass_app now gameId front back ar :
  bulletPass now gameId (front ++ back) ar =
  let '(back', ar1, ev1) := bulletPass now gameId back ar in
  let '(front', ar2, ev2) := bulletPass now gameId front ar1 in
  (front' ++ back', ar2, ev1 ++ ev2).
Proof.
  induction front as [|bullet front IH]; cbn [app bulletPass].
  - destruct (bulletPass now gameId back ar) as [[back' ar1] ev1].
    rewrite List.app_nil_r. reflexivity.
  - rewrite IH.
    destruct (bulletPass now gameId back ar) as [[back' ar1] ev1].
    destruct (bulletPass now gameId front ar1) as [[front' ar2] ev2].
    destruct (stepBullet now gameId bullet ar2) as [[ob ar3] ev3].
    rewrite List.app_assoc. destruct ob; reflexivity.
Qed.

Lemma stepBullet_at_cap now gameId bullet ar :
  Bullet.bounces bullet = MAX_BOUNCES ->
  crossesBoundary bullet ->
  fst (fst (stepBullet now gameId bullet ar)) = None.
Proof.
  intros Hb Hc. unfold stepBullet.
  destruct (findTarget bullet (fst ar)) as [[id target]|]; [reflexivity|].
  pose proof (moveBullet_at_cap now gameId bullet Hb Hc) as Hm.
  destruct (moveBullet now gameId bullet). exact Hm.
Qed.

(** The bullets a pass leaves when one of them is at the cap and about to
    cross an edge: those the bullets behind it leave and those the bullets
    before it leave, and nothing in between. *)
Lemma bulletPass_at_cap now gameId front bullet back ar :
  Bullet.bounces bullet = MAX_BOUNCES ->
  crossesBoundary bullet ->
  let backPass := bulletPass now gameId back ar in
  let step := stepBullet now gameId bullet (snd (fst backPass)) in
  let frontPass := bulletPass now gameId front (snd (fst step)) in
  fst (fst (bulletPass now gameId (front ++ bullet :: back) ar)) =
  fst (fst frontPass) ++ fst (fst backPass).
Proof.
  intros Hb Hc. cbv zeta.
  rewrite bulletPass_app. cbn [bulletPass].
  destruct (bulletPass now gameId back ar) as [[back' ar1] ev1]. cbn [fst snd].
  pose proof (stepBullet_at_cap now gameId bullet ar1 Hb Hc) as Hs.
  destruct (stepBullet now gameId bullet ar1) as [[ob ar2] ev2].
  cbn [fst snd] in *. subst ob.
  destruct (bulletPass now gameId front ar2) as [[front' ar3] ev3].
  reflexivity.
Qed.

(** C5.  In every reachable state every bullet of every room has a bounce
    count of at most 3.  A bullet whose count is 3 and whose next position is
    past an edge of the map is removed by the tick, wherever it stands among
    the room's bullets: the loop body leaves no bullet for it, reflected or
    otherwise, and the bullets of the room after the collision pass, and so
    after the tick, are those the pass leaves of the bullets behind it
    followed by those it leaves of the bullets before it, so fewer than
    before. *)
Theorem bounce_count_never_exceeds_cap :
  forall sv : Server.t,
    reachable sv ->
    allBullets (fun bullet => (Bullet.bounces bullet <= 3)%nat) sv /\
    (forall now rnd gameId last game front bullet back,
        Game.bullets game = front ++ bullet :: back ->
        Bullet.bounces bullet = 3%nat ->
        crossesBoundary bullet ->
        let ar := (Game.players game, Game.scores game) in
        let backPass := bulletPass now gameId back ar in
        let step := stepBullet now gameId bullet (snd (fst backPass)) in
        let frontPass := bulletPass now gameId front (snd (fst step)) in
        let game' := tickedGame (tickGame now rnd gameId last game) in
        fst (fst step) = None /\
        (fst (fst (bulletPass now gameId (Game.bullets game) ar)) =
         fst (fst frontPass) ++ fst (fst backPass)) /\
        (Game.bullets game' = fst (fst frontPass) ++ fst (fst backPass)) /\
        (List.length (Game.bullets game') < List.length (Game.bullets game))%nat).
Proof.
  intros sv Hr. split; [exact (reachable_bouncesInRange sv Hr)|].
  intros now rnd gameId last game front bullet back Hg Hb Hc
         ar backPass step frontPass game'.
  assert (Hpass : fst (fst (bulletPass now gameId (Game.bullets game) ar)) =
                  fst (fst frontPass) ++ fst (fst backPass)).
  { rewrite Hg. apply bulletPass_at_cap; assumption. }
  assert (Htick : Game.bullets game' = fst (fst frontPass) ++ fst (fst backPass)).
  { destruct (tickGame_passes now rnd gameId last game) as (_ & Hbul & _).
    fold game' in Hbul. rewrite Hbul. exact Hpass. }
  split; [apply stepBullet_at_cap; assumption|].
  split; [exact Hpass|]. split; [exact Htick|].
  rewrite Htick, Hg, !List.length_app. cbn [List.length].
  assert (Hlen : forall bullets ar0,
             (List.length (fst (fst (bulletPass now gameId bullets ar0)))
              <= List.length bullets)%nat).
  { induction bullets as [|b later IH]; intros ar0; [reflexivity|].
    cbn [bulletPass]. specialize (IH ar0).
    destruct (bulletPass now gameId later ar0) as [[later' ar1] ev1].
    destruct (stepBullet now gameId b ar1) as [[ob ar2] ev2].
    cbn [fst List.length] in *. destruct ob; cbn [List.length]; lia. }
  pose proof (Hlen front (snd (fst step))) as H1.
  pose proof (Hlen back ar) as H2.
  fold frontPass in H1. fold backPass in H2. lia.
Qed.

(** A room hosted, then a shot fired by its host; and a room with three
    bullets, the middle one with three bounces behind it, one step from the
    right edge: the tick leaves the other two. *)
Lemma bounce_count_never_exceeds_cap_witness :
  let rnd : Rng := fun _ => 1 / 2 in
  let hosted :=
    fst (handle 1000 rnd
                (ReqHost "a" (Some (mkHostData None (Some "Ann"%string) None)))
                Server.init) in
  let sv := fst (handle 3000 rnd (ReqShoot "a" (Some 0)) hosted) in
  let first := Bullet.mk 100 100 5 0 0 "a" "#4a90e2" 1000 0 in
  let spent := Bullet.mk 998 300 5 0 0 "a" "#4a90e2" 1000 3 in
  let third := Bullet.mk 200 200 0 5 0 "a" "#4a90e2" 1000 1 in
  let game :=
    Game.mk "game_1" "Game 1" "green" [] [first; spent; third] [] [] [] false in
  reachable sv /\
  allBullets (fun bullet => (Bullet.bounces bullet <= 3)%nat) sv /\
  Game.bullets game = [first] ++ spent :: [third] /\
  Bullet.bounces spent = 3%nat /\
  crossesBoundary spent /\
  (List.length (Game.bullets (tickedGame (tickGame 2000 rnd "game_1" None game)))
   < 3)%nat.
Proof.
  intros rnd hosted sv first spent third game.
  assert (Hrnd : unit_rng rnd) by (intros n; unfold rnd; lra).
  assert (Hr : reachable sv).
  { apply reach_step; [|exact Hrnd]. apply reach_step; [|exact Hrnd].
    apply reach_init. }
  assert (Hg : Game.bullets game = [first] ++ spent :: [third]) by reflexivity.
  assert (Hb : Bullet.bounces spent = 3%nat) by reflexivity.
  assert (Hc : crossesBoundary spent).
  { left. unfold outside, MAP_WIDTH. cbn.
    destruct (Rlt_dec (998 + 5) 0); [reflexivity|].
    destruct (Rlt_dec 1000 (998 + 5)); [reflexivity|lra]. }
  split; [exact Hr|].
  split; [exact (proj1 (bounce_count_never_exceeds_cap sv Hr))|].
  split; [exact Hg|]. split; [exact Hb|]. split; [exact Hc|].
  exact (proj2 (proj2 (proj2 (proj2 (bounce_count_never_exceeds_cap sv Hr)
                                 2000%Z rnd "game_1"%string None game
                                 [first] spent [third]
                                 Hg Hb Hc)))).
Defined.

(** ** The keys of a room's players and scores *)

Lemma lookup_Some_key {V} k (v : V) m : lookup k m = Some v -> In k (map fst m).
Proof. intros H. apply (in_map fst _ (k, v)), lookup_In, H. Qed.

Lemma creditKill_keys owner scores :
  map fst (creditKill owner scores) = map fst scores.
Proof.
  unfold creditKill. destruct (lookup owner scores) as [n|] eqn:Hl; [|reflexivity].
  apply keys_insert_present. eapply lookup_Some_key, Hl.
Qed.

Lemma creditKill_absent owner scores :
  lookup owner scores = None -> creditKill owner scores = scores.
Proof. unfold creditKill. intros ->. reflexivity. Qed.

Lemma stepBullet_keys now gameId bullet players scores :
  let ar := snd (fst (stepBullet now gameId bullet (players, scores))) in
  map fst (fst ar) = map fst players /\ map fst (snd ar) = map fst scores.
Proof.
  unfold stepBullet. cbn [fst].
  destruct (findTarget bullet players) as [[id target]|] eqn:Hf.
  - cbn. destruct (findTarget_spec _ _ _ _ Hf) as (Hin & _). split.
    + apply keys_insert_present. apply (in_map fst _ (id, target)), Hin.
    + destruct (Rle_dec _ 0); [apply creditKill_keys|reflexivity].
  - destruct (moveBullet now gameId bullet). cbn. split; reflexivity.
Qed.

Lemma bulletPass_keys now gameId bullets players scores :
  let ar := snd (fst (bulletPass now gameId bullets (players, scores))) in
  map fst (fst ar) = map fst players /\ map fst (snd ar) = map fst scores.
Proof.
  induction bullets as [|bullet later IH]; [split; reflexivity|].
  cbn [bulletPass] in *.
  destruct (bulletPass now gameId later (players, scores))
    as [[later' [players1 scores1]] ev1].
  cbn [fst snd] in IH. destruct IH as [IHp IHs].
  pose proof (stepBullet_keys now gameId bullet players1 scores1) as Hs.
  destruct (stepBullet now gameId bullet (players1, scores1))
    as [[ob [players2 scores2]] ev2].
  cbn [fst snd] in *. destruct Hs as [Hp Hs]. split; congruence.
Qed.

Lemma respawnPass_keys now players :
  forall rnd, map fst (fst (respawnPass now rnd players)) = map fst players.
Proof.
  induction players as [|[id player] rest IH]; intros rnd; [reflexivity|].
  cbn [respawnPass]. destruct (shouldRespawn now player).
  - specialize (IH (rng_drop 2 rnd)).
    destruct (respawnPass now (rng_drop 2 rnd) rest). cbn in *. congruence.
  - specialize (IH rnd). destruct (respawnPass now rnd rest). cbn in *. congruence.
Qed.

Lemma applyPowerUp_keys now playerId ty players :
  map fst (applyPowerUp now playerId ty players) = map fst players.
Proof.
  unfold applyPowerUp.
  destruct (lookup playerId players) as [player|] eqn:Hl; [|reflexivity].
  apply keys_insert_present. eapply lookup_Some_key, Hl.
Qed.

Lemma powerUpPass_keys now powerUps :
  forall players,
    map fst (snd (powerUpPass now powerUps players)) = map fst players.
Proof.
  induction powerUps as [|powerUp rest IH]; intros players; [reflexivity|].
  cbn [powerUpPass]. destruct (_ <? _)%Z; [apply IH|].
  destruct (collector powerUp players) as [playerId|].
  - rewrite IH. apply applyPowerUp_keys.
  - specialize (IH players). destruct (powerUpPass now rest players). exact IH.
Qed.

Lemma tickGame_keys now rnd gameId last game :
  let game' := tickedGame (tickGame now rnd gameId last game) in
  map fst (Game.players game') = map fst (Game.players game) /\
  map fst (Game.scores game') = map fst (Game.scores game).
Proof.
  destruct (tickGame_passes now rnd gameId last game) as (Hp & _ & Hs & _).
  cbv zeta. rewrite Hp, Hs.
  rewrite keys_mapValues, powerUpPass_keys, respawnPass_keys, keys_mapValues.
  apply bulletPass_keys.
Qed.

Lemma enterGame_wellKeyed now sid player message game :
  wellKeyed game -> wellKeyed (enterGame now sid player message game).
Proof.
  intros (Hp & Hs & Hsub). unfold wellKeyed, enterGame. cbn.
  split; [apply NoDup_insert, Hp|]. split; [apply NoDup_insert, Hs|].
  intros id. rewrite !keys_insert. intros [->|H]; [left; reflexivity|].
  right. apply Hsub, H.
Qed.

Lemma removePlayer_wellKeyed now sid game :
  wellKeyed game -> wellKeyed (removePlayer now sid game).
Proof.
  intros (Hp & Hs & Hsub). unfold removePlayer.
  destruct (lookup sid (Game.players game)); [|repeat split; assumption].
  unfold wellKeyed. cbn.
  split; [apply NoDup_remove, Hp|]. split; [apply NoDup_remove, Hs|].
  intros id. rewrite !keys_remove by assumption.
  intros [Hne H]. split; [exact Hne|apply Hsub, H].
Qed.

Lemma handle_wellKeyed now rnd req sv :
  unit_rng rnd -> allGames wellKeyed sv ->
  allGames wellKeyed (fst (handle now rnd req sv)).
Proof.
  apply (handle_allGames wellKeyed).
  - intros t r sid nm game _ Hg. unfold joinGame.
    apply enterGame_wellKeyed. exact Hg.
  - intros sid player items game Hl (Hp & Hs & Hsub).
    unfold wellKeyed, queueInputs. cbn.
    rewrite keys_insert_present by (eapply lookup_Some_key, Hl).
    repeat split; assumption.
  - intros t sid player angle game Hl (Hp & Hs & Hsub).
    unfold wellKeyed, fireShots. cbn.
    rewrite keys_insert_present by (eapply lookup_Some_key, Hl).
    repeat split; assumption.
  - intros t msg game Hg. exact Hg.
  - intros t r sid gameId gameName mapType playerName _. unfold hostGame.
    apply enterGame_wellKeyed. repeat split; cbn; try constructor. tauto.
  - intros t sid game Hg. unfold leaveGame.
    pose proof (removePlayer_wellKeyed t sid game Hg) as (Hp & Hs & Hsub).
    unfold wellKeyed.
    rewrite players_scheduleCleanup, scores_scheduleCleanup.
    repeat split; assumption.
  - intros t r gameId last game _ (Hp & Hs & Hsub). unfold wellKeyed.
    destruct (tickGame_keys t r gameId last game) as (-> & ->).
    repeat split; assumption.
Qed.

(** In every reachable state, every room's players and scores are keyed
    without repetition, and only players of the room have a score. *)
Lemma reachable_wellKeyed sv : reachable sv -> allGames wellKeyed sv.
Proof.
  induction 1 as [|now rnd req sv Hr IH Hrnd].
  - constructor.
  - apply handle_wellKeyed; assumption.
Qed.

(** ** The collision pass: invulnerable and shielded players *)

Lemma moveBullet_no_hit now gameId bullet id :
  Forall (fun e => ~ hitsVictim id e) (snd (moveBullet now gameId bullet)).
Proof.
  unfold moveBullet.
  set (moved := set_motion _ _ _ _ _ bullet).
  assert (Hx : forall b b' bounced ev,
             wallX gameId b = Some (b', bounced, ev) ->
             Forall (fun e => ~ hitsVictim id e) ev).
  { intros b b' bounced ev. unfold wallX.
    destruct (outside _ _); [destruct (_ <? _)%nat|]; intros [= _ _ <-];
      repeat constructor; cbn; tauto. }
  assert (Hy : forall b b' bounced ev,
             wallY gameId b = Some (b', bounced, ev) ->
             Forall (fun e => ~ hitsVictim id e) ev).
  { intros b b' bounced ev. unfold wallY.
    destruct (outside _ _); [destruct (_ <? _)%nat|]; intros [= _ _ <-];
      repeat constructor; cbn; tauto. }
  destruct (wallX gameId moved) as [[[b1 bx] evx]|] eqn:Ex; [|constructor].
  destruct (wallY gameId b1) as [[[b2 by_] evy]|] eqn:Ey; cbn.
  - destruct (_ || _)%bool; cbn; apply Forall_app; split; eauto.
  - eauto.
Qed.

Lemma applyDamage_zero now target :
  0 <= Player.hp target ->
  Player.hp (applyDamage now 0 target) = Player.hp target.
Proof.
  intros Hhp. destruct (applyDamage_keeps now 0 target) as (-> & _).
  rewrite Rminus_0_r. apply Rmax_right, Hhp.
Qed.

Lemma applyDamage_flags now damage target :
  Player.shield (applyDamage now damage target) = Player.shield target /\
  Player.invulnerable (applyDamage now damage target) = Player.invulnerable target.
Proof.
  unfold applyDamage. destruct target. cbn. destruct (Rle_dec _ 0); cbn; auto.
Qed.

Lemma bulletDamage_shield shooter target :
  Player.shield target = true -> bulletDamage shooter target = 0.
Proof. unfold bulletDamage. intros ->. reflexivity. Qed.

Lemma stepBullet_spares_invulnerable now gameId bullet players scores id p :
  NoDup (map fst players) ->
  lookup id players = Some p ->
  Player.invulnerable p = true ->
  let r := stepBullet now gameId bullet (players, scores) in
  lookup id (fst (snd (fst r))) = Some p /\
  Forall (fun e => ~ hitsVictim id e) (snd r).
Proof.
  intros Hnd Hl Hi. unfold stepBullet. cbn [fst].
  destruct (findTarget bullet players) as [[id' target]|] eqn:Hf.
  - destruct (findTarget_spec _ _ _ _ Hf) as (Hin & _ & _ & Hinv & _).
    assert (Hne : id <> id').
    { intros <-. rewrite (In_lookup _ _ _ Hnd Hin) in Hl.
      injection Hl as ->. congruence. }
    cbn. split.
    + rewrite lookup_insert_ne by exact Hne. exact Hl.
    + repeat constructor. cbn. congruence.
  - pose proof (moveBullet_no_hit now gameId bullet id) as Hm.
    destruct (moveBullet now gameId bullet). cbn in *. split; assumption.
Qed.

Lemma stepBullet_keeps_shielded now gameId bullet players scores id p :
  NoDup (map fst players) ->
  lookup id players = Some p ->
  Player.shield p = true ->
  0 <= Player.hp p ->
  exists p',
    lookup id (fst (snd (fst (stepBullet now gameId bullet (players, scores)))))
    = Some p' /\
    Player.hp p' = Player.hp p /\ Player.shield p' = true.
Proof.
  intros Hnd Hl Hs Hhp. unfold stepBullet. cbn [fst].
  destruct (findTarget bullet players) as [[id' target]|] eqn:Hf.
  - destruct (findTarget_spec _ _ _ _ Hf) as (Hin & _).
    pose proof (In_lookup _ _ _ Hnd Hin) as Hl'. cbn.
    destruct (string_dec id id') as [<-|Hne].
    + rewrite Hl in Hl'. injection Hl' as <-.
      rewrite lookup_insert_eq. eexists. split; [reflexivity|].
      rewrite (bulletDamage_shield _ p Hs). split.
      * apply applyDamage_zero, Hhp.
      * destruct (applyDamage_flags now 0 p) as (-> & _). exact Hs.
    + rewrite lookup_insert_ne by exact Hne. exists p. auto.
  - destruct (moveBullet now gameId bullet). cbn. exists p. auto.
Qed.

Lemma NoDup_keys_eq {V} (m m' : list (string * V)) :
  map fst m' = map fst m -> NoDup (map fst m) -> NoDup (map fst m').
Proof. intros ->. auto. Qed.

Lemma bulletPass_spares_invulnerable now gameId bullets players scores id p :
  NoDup (map fst players) ->
  lookup id players = Some p ->
  Player.invulnerable p = true ->
  let r := bulletPass now gameId bullets (players, scores) in
  lookup id (fst (snd (fst r))) = Some p /\
  Forall (fun e => ~ hitsVictim id e) (snd r).
Proof.
  intros Hnd Hl Hi.
  induction bullets as [|bullet later IH]; [split; [exact Hl|constructor]|].
  cbn [bulletPass] in *.
  pose proof (bulletPass_keys now gameId later players scores) as Hk.
  destruct (bulletPass now gameId later (players, scores))
    as [[later' [players1 scores1]] ev1].
  cbn [fst snd] in *. destruct IH as [IHl IHe]. destruct Hk as [Hk _].
  pose proof (stepBullet_spares_invulnerable now gameId bullet players1 scores1
                id p (NoDup_keys_eq _ _ Hk Hnd) IHl Hi) as Hs.
  destruct (stepBullet now gameId bullet (players1, scores1))
    as [[ob [players2 scores2]] ev2].
  cbn [fst snd] in *. destruct Hs as [Hsl Hse].
  split; [exact Hsl|apply Forall_app; split; assumption].
Qed.

Lemma bulletPass_keeps_shielded now gameId bullets players scores id p :
  NoDup (map fst players) ->
  lookup id players = Some p ->
  Player.shield p = true ->
  0 <= Player.hp p ->
  exists p',
    lookup id (fst (snd (fst (bulletPass now gameId bullets (players, scores)))))
    = Some p' /\
    Player.hp p' = Player.hp p /\ Player.shield p' = true.
Proof.
  intros Hnd Hl Hs Hhp.
  induction bullets as [|bullet later IH]; [exists p; auto|].
  cbn [bulletPass] in *.
  pose proof (bulletPass_keys now gameId later players scores) as Hk.
  destruct (bulletPass now gameId later (players, scores))
    as [[later' [players1 scores1]] ev1].
  cbn [fst snd] in *. destruct IH as (p1 & Hl1 & Hhp1 & Hs1).
  destruct Hk as [Hk _].
  assert (Hhp1' : 0 <= Player.hp p1) by (rewrite Hhp1; exact Hhp).
  pose proof (stepBullet_keeps_shielded now gameId bullet players1 scores1
                id p1 (NoDup_keys_eq _ _ Hk Hnd) Hl1 Hs1 Hhp1')
    as (p2 & Hl2 & Hhp2 & Hs2).
  destruct (stepBullet now gameId bullet (players1, scores1))
    as [[ob [players2 scores2]] ev2].
  cbn [fst snd] in *. exists p2. repeat split; [exact Hl2|congruence|exact Hs2].
Qed.

(** C3.  In a collision pass over a room's bullets: no bullet selects an
    invulnerable player as its target; a player who is invulnerable when
    the pass starts is the same after it, and no [bulletHit] event of the
    pass names that player as victim; the damage computed against a
    shielded target is zero, whoever shot; and a player who is shielded
    when the pass starts has the same hit points after it, however many
    bullets hit. *)
Theorem collision_pass_spares_invulnerable_and_shielded :
  forall (now : Z) (gameId : string) (bullets : list Bullet.t)
         (players : list (string * Player.t)) (scores : list (string * Z)),
    NoDup (map fst players) ->
    (forall id p, lookup id players = Some p -> 0 <= Player.hp p) ->
    let result := bulletPass now gameId bullets (players, scores) in
    let players' := fst (snd (fst result)) in
    (forall bullet id target,
        findTarget bullet players = Some (id, target) ->
        Player.invulnerable target = false) /\
    (forall id p,
        lookup id players = Some p ->
        Player.invulnerable p = true ->
        lookup id players' = Some p /\
        Forall (fun e => ~ hitsVictim id e) (snd result)) /\
    (forall shooter target,
        Player.shield target = true -> bulletDamage shooter target = 0) /\
    (forall id p,
        lookup id players = Some p ->
        Player.shield p = true ->
        exists p', lookup id players' = Some p' /\
                   Player.hp p' = Player.hp p).
Proof.
  intros now gameId bullets players scores Hnd Hhp result players'.
  split; [|split; [|split]].
  - intros bullet id target Hf. apply (findTarget_spec _ _ _ _ Hf).
  - intros id p Hl Hi.
    apply bulletPass_spares_invulnerable; assumption.
  - apply bulletDamage_shield.
  - intros id p Hl Hs.
    destruct (bulletPass_keeps_shielded now gameId bullets players scores id p
                Hnd Hl Hs (Hhp id p Hl)) as (p' & Hl' & Hhp' & _).
    exists p'. split; assumption.
Qed.

(** An invulnerable player and a shielded player, each with a bullet of an
    absent shooter on top of them. *)
Lemma collision_pass_spares_invulnerable_and_shielded_witness :
  let pb := Player.set_invulnerable true (Some 5000%Z)
              (Player.fresh "b" 200 100 "" "") in
  let pc := Player.set_hp 60
              (Player.set_shield true (Some 5000%Z)
                 (Player.fresh "c" 300 100 "" "")) in
  let players := [("b"%string, pb); ("c"%string, pc)] in
  let bullets := [Bullet.mk 200 100 5 0 0 "a" "" 1000 0;
                  Bullet.mk 300 100 5 0 0 "a" "" 1000 0] in
  let players' :=
    fst (snd (fst (bulletPass 2000 "game_1" bullets (players, [])))) in
  NoDup (map fst players) /\
  (forall id p, lookup id players = Some p -> 0 <= Player.hp p) /\
  lookup "b"%string players' = Some pb /\
  (exists p', lookup "c"%string players' = Some p' /\ Player.hp p' = 60).
Proof.
  intros pb pc players bullets players'.
  assert (Hnd : NoDup (map fst players)).
  { cbn. repeat constructor; cbn; intuition discriminate. }
  assert (Hhp : forall id p, lookup id players = Some p -> 0 <= Player.hp p).
  { intros id p. cbn [lookup players].
    destruct (String.eqb id "b"); [intros [= <-]; cbn; unfold MAX_HP; lra|].
    destruct (String.eqb id "c"); [intros [= <-]; cbn; lra|discriminate]. }
  destruct (collision_pass_spares_invulnerable_and_shielded
              2000 "game_1" bullets players [] Hnd Hhp)
    as (_ & Hinv & _ & Hsh).
  split; [exact Hnd|]. split; [exact Hhp|]. split.
  - exact (proj1 (Hinv "b"%string pb eq_refl eq_refl)).
  - exact (Hsh "c"%string pc eq_refl eq_refl).
Defined.

(** ** A bullet whose shooter has left *)

Lemma hits_on_top bullet target :
  Player.x target = Bullet.x bullet ->
  Player.y target = Bullet.y bullet ->
  hits bullet target = true.
Proof.
  intros Hx Hy. unfold hits. rewrite Hx, Hy.
  destruct (Rlt_dec _ TANK_RADIUS_SQ) as [_|Hn]; [reflexivity|].
  exfalso. apply Hn. unfold TANK_RADIUS_SQ, HIT_TANK_RADIUS. nra.
Qed.

(** C10, as stated, fails on a shielded target: the bullet of an absent
    shooter does no damage to it, not the base damage. *)
Lemma orphan_bullet_on_shielded_target_does_no_damage :
  let target := Player.set_shield true (Some 9000%Z)
                  (Player.fresh "b" 100 100 "" "") in
  let bullet := Bullet.mk 100 100 5 0 0 "gone" "" 1000 0 in
  let players := [("b"%string, target)] in
  let scores := [("b"%string, 0%Z)] in
  lookup (Bullet.owner bullet) players = None /\
  findTarget bullet players = Some ("b"%string, target) /\
  bulletDamage (lookup (Bullet.owner bullet) players) target = 0 /\
  bulletDamage (lookup (Bullet.owner bullet) players) target <> BULLET_DAMAGE /\
  (exists p',
      lookup "b"%string (fst (resolveHit 2000 bullet "b" target (players, scores)))
      = Some p' /\
      Player.hp p' = 100).
Proof.
  intros target bullet players scores.
  assert (Hd : bulletDamage (lookup (Bullet.owner bullet) players) target = 0)
    by reflexivity.
  split; [reflexivity|]. split.
  - unfold players. cbn [findTarget]. cbn [String.eqb Ascii.eqb Bool.eqb Bullet.owner bullet].
    change (Player.dead target || Player.invulnerable target)%bool with false.
    cbv iota. rewrite hits_on_top by reflexivity. reflexivity.
  - split; [exact Hd|]. split.
    + rewrite Hd. unfold BULLET_DAMAGE. lra.
    + unfold resolveHit. cbv zeta. rewrite Hd. cbn [fst].
      rewrite lookup_insert_eq. eexists. split; [reflexivity|].
      rewrite applyDamage_zero; cbn; unfold MAX_HP; lra.
Qed.

Lemma applyDamage_kill now damage target :
  Player.hp target <= damage ->
  Player.dead (applyDamage now damage target) = true /\
  Player.respawnTime (applyDamage now damage target) = (now + 3000)%Z.
Proof.
  intros Hk. unfold applyDamage. destruct target. cbn in *.
  destruct (Rle_dec (Rmax 0 (hp - damage)) 0) as [_|Hn]; [cbn; auto|].
  exfalso. apply Hn. unfold Rmax. destruct (Rle_dec 0 (hp - damage)); lra.
Qed.

Lemma applyDamage_survive now damage target :
  damage < Player.hp target ->
  applyDamage now damage target =
  Player.set_hp (Player.hp target - damage) target.
Proof.
  intros Hs. unfold applyDamage. destruct target. cbn in *.
  assert (Hm : Rmax 0 (hp - damage) = hp - damage) by (apply Rmax_right; lra).
  rewrite Hm. destruct (Rle_dec (hp - damage) 0); [lra|reflexivity].
Qed.

(** C10, amended.  When the bullet's owner is not among the room's
    players, the hit does the base damage of 20 with no damage-boost
    factor, or no damage if the target's shield is active; the target's
    hit points become [max 0 (hp - damage)]; a target whose hit points do
    not exceed the damage is marked dead with a respawn scheduled 3000 ms
    on; and the scores are left as they were. *)
Theorem orphan_bullet_hit_scores_nobody :
  forall (now : Z) (bullet : Bullet.t) (id : string) (target : Player.t)
         (players : list (string * Player.t)) (scores : list (string * Z)),
    lookup (Bullet.owner bullet) players = None ->
    (forall k, In k (map fst scores) -> In k (map fst players)) ->
    let damage := bulletDamage (lookup (Bullet.owner bullet) players) target in
    let result := resolveHit now bullet id target (players, scores) in
    damage = (if Player.shield target then 0 else 20) /\
    lookup id (fst result) = Some (applyDamage now damage target) /\
    Player.hp (applyDamage now damage target) =
    Rmax 0 (Player.hp target - damage) /\
    (Player.hp target <= damage ->
     Player.dead (applyDamage now damage target) = true /\
     Player.respawnTime (applyDamage now damage target) = (now + 3000)%Z) /\
    snd result = scores.
Proof.
  intros now bullet id target players scores Hgone Hsub damage result.
  assert (Hns : lookup (Bullet.owner bullet) scores = None).
  { apply lookup_None_keys. intros Hin.
    apply lookup_None_keys in Hgone. apply Hgone, Hsub, Hin. }
  split; [|split; [|split; [|split]]].
  - unfold damage. rewrite Hgone. unfold bulletDamage, BULLET_DAMAGE.
    reflexivity.
  - unfold result, resolveHit. cbn [fst]. apply lookup_insert_eq.
  - apply applyDamage_keeps.
  - apply applyDamage_kill.
  - unfold result, resolveHit. cbn [snd].
    destruct (Rle_dec _ 0); [apply creditKill_absent, Hns|reflexivity].
Qed.

(** A last hit by the bullet of a player who has left: the target dies,
    the one score of the room stays at 2. *)
Lemma orphan_bullet_hit_scores_nobody_witness :
  let target := Player.set_hp 20 (Player.fresh "b" 100 100 "" "") in
  let bullet := Bullet.mk 100 100 5 0 0 "gone" "" 1000 0 in
  let players := [("b"%string, target)] in
  let scores := [("b"%string, 2%Z)] in
  let result := resolveHit 2000 bullet "b" target (players, scores) in
  lookup (Bullet.owner bullet) players = None /\
  (forall k, In k (map fst scores) -> In k (map fst players)) /\
  Player.dead (applyDamage 2000 (bulletDamage None target) target) = true /\
  snd result = scores.
Proof.
  intros target bullet players scores result.
  assert (Hsub : forall k, In k (map fst scores) -> In k (map fst players))
    by (intros k H; exact H).
  destruct (orphan_bullet_hit_scores_nobody 2000 bullet "b" target players scores
              eq_refl Hsub) as (Hd & _ & _ & Hk & Hs).
  split; [reflexivity|]. split; [exact Hsub|]. split; [|exact Hs].
  apply Hk. change (Player.hp target) with 20.
  change (bulletDamage (lookup (Bullet.owner bullet) players) target)
    with (bulletDamage None target).
  unfold bulletDamage, BULLET_DAMAGE. cbn. lra.
Defined.

(** ** Worked examples *)

(** Names are trimmed, inner white space is collapsed, and at most 20
    characters are kept. *)
Example sanitizeString_collapses :
  sanitizeString (Some "  Ann   of  Cleves "%string) = "Ann of Cleves"%string.
Proof. reflexivity. Qed.

Example sanitizeString_cuts :
  sanitizeString (Some "abcdefghijklmnopqrstuvwxyz"%string) = "abcdefghijklmnopqrst"%string.
Proof. reflexivity. Qed.

(** The first room is [game_1]. *)
Example first_room_id :
  map fst (Server.games
             (fst (onHost 1000 (fun _ => 0) "a"
                          (Some (mkHostData None None None)) Server.init)))
  = ["game_1"%string].
Proof. reflexivity. Qed.

(** Two hits of 20 take 100 hit points to 60; a third hit under a shield
    leaves 60. *)
Example two_hits_then_a_shielded_one :
  let a := Player.fresh "a" 100 100 "" "" in
  let hit := fun target => applyDamage 2000 (bulletDamage None target) target in
  let twice := hit (hit a) in
  Player.hp twice = 60 /\
  Player.dead twice = false /\
  Player.hp (hit (Player.set_shield true (Some 9000%Z) twice)) = 60.
Proof.
  intros a hit twice.
  assert (H1 : hit a = Player.set_hp 80 a).
  { unfold hit. replace (bulletDamage None a) with 20 by reflexivity.
    rewrite applyDamage_survive by (cbn; unfold MAX_HP; lra).
    cbn. unfold MAX_HP. f_equal; lra. }
  assert (H2 : twice = Player.set_hp 60 a).
  { unfold twice. rewrite H1. unfold hit.
    replace (bulletDamage None (Player.set_hp 80 a)) with 20 by reflexivity.
    rewrite applyDamage_survive by (cbn; lra).
    cbn. f_equal; lra. }
  rewrite H2. repeat split.
  unfold hit.
  replace (bulletDamage None (Player.set_shield true (Some 9000%Z)
                                (Player.set_hp 60 a))) with 0 by reflexivity.
  rewrite applyDamage_zero; cbn; lra.
Qed.

(** A bullet that reaches the left wall with no bounce behind it comes
    back with its horizontal velocity reversed, on the wall, one bounce
    counted, and a wall impact emitted. *)
Example bullet_reflects_on_left_wall :
  let bullet := Bullet.mk 2 100 (-5) 0 PI "a" "#4a90e2" 1000 0 in
  exists angle,
    moveBullet 2000 "game_1" bullet =
    (Some (Bullet.mk 0 (100 + 0) (- -5) 0 angle "a" "#4a90e2" 1000 1),
     [ToRoom "game_1" (EvWallImpact 0 (100 + 0) "#4a90e2")]).
Proof.
  intros bullet. eexists. unfold moveBullet, wallX, wallY.
  cbn [set_motion Bullet.x Bullet.y Bullet.vx Bullet.vy Bullet.bounces
       Bullet.color Bullet.createdAt Bullet.owner Bullet.angle bullet].
  assert (Hx : outside (2 + -5) MAP_WIDTH = true).
  { unfold outside. destruct (Rlt_dec (2 + -5) 0); [reflexivity|lra]. }
  assert (Hy : outside (100 + 0) MAP_HEIGHT = false).
  { unfold outside, MAP_HEIGHT.
    destruct (Rlt_dec (100 + 0) 0); [lra|].
    destruct (Rlt_dec 720 (100 + 0)); [lra|reflexivity]. }
  rewrite Hx. cbn [Nat.ltb Nat.leb MAX_BOUNCES].
  cbn [set_motion Bullet.x Bullet.y Bullet.vx Bullet.vy Bullet.bounces
       Bullet.color Bullet.createdAt Bullet.owner Bullet.angle].
  rewrite Hy.
  cbn [set_motion set_angle Bullet.x Bullet.y Bullet.vx Bullet.vy
       Bullet.bounces Bullet.color Bullet.createdAt Bullet.owner Bullet.angle
       orb Z.eqb Z.ltb Z.sub Z.compare app str_or String.eqb].
  assert (Hc : Rmax 0 (Rmin MAP_WIDTH (2 + -5)) = 0).
  { unfold MAP_WIDTH, Rmin, Rmax.
    destruct (Rle_dec 1000 (2 + -5)); [lra|].
    destruct (Rle_dec 0 (2 + -5)); [lra|reflexivity]. }
  rewrite Hc. reflexivity.
Qed.

(** The last player leaves: the room's cleanup timer is set.  A join
    before it fires clears it, and the timer's callback then finds players
    and leaves the room in place. *)
Example join_cancels_cleanup :
  let rnd : Rng := fun _ => 0 in
  let hosted :=
    fst (onHost 1000 rnd "a" (Some (mkHostData None None None)) Server.init) in
  let emptied := fst (onDisconnect 2000 "a" hosted) in
  let rejoined :=
    fst (onJoin 3000 rnd "b"
                (Some (mkJoinData (Some "game_1"%string) None)) emptied) in
  option_map Game.cleanupTimer (lookup "game_1"%string (Server.games emptied))
  = Some true /\
  option_map Game.cleanupTimer (lookup "game_1"%string (Server.games rejoined))
  = Some false /\
  map fst (Server.games (fst (onCleanupTimer "game_1" rejoined)))
  = ["game_1"%string] /\
  Server.games (fst (onCleanupTimer "game_1" emptied)) = [].
Proof. cbv zeta. repeat split. Qed.

(** * Further properties of the server *)

(** ** What a tick leaves of a room *)

Lemma tickGame_frame now rnd gameId last game :
  let game' := tickedGame (tickGame now rnd gameId last game) in
  Game.id game' = Game.id game /\
  Game.name game' = Game.name game /\
  Game.mapType game' = Game.mapType game /\
  Game.chat game' = Game.chat game /\
  Game.cleanupTimer game' = Game.cleanupTimer game.
Proof.
  cbv zeta. unfold tickGame, tickedGame.
  assert (Hsc : let g1 := snd (fst (spawnCheck now rnd (int_or last 0) game)) in
                Game.id g1 = Game.id game /\ Game.name g1 = Game.name game /\
                Game.mapType g1 = Game.mapType game /\
                Game.chat g1 = Game.chat game /\
                Game.cleanupTimer g1 = Game.cleanupTimer game).
  { unfold spawnCheck. destruct (_ <? _)%Z; [destruct (_ <? _)%nat|]; cbn; auto 6. }
  destruct (spawnCheck now rnd (int_or last 0) game) as [[last' g1] n1].
  cbn [fst snd] in Hsc.
  destruct (bulletPass now gameId (Game.bullets g1)
                       (Game.players g1, Game.scores g1))
    as [[bullets [players scores]] ev].
  destruct (respawnPass now (rng_drop n1 rnd) (mapValues processInputs players))
    as [players2 n2].
  destruct (powerUpPass now (Game.powerUps g1) players2) as [powerUps players3].
  cbn. exact Hsc.
Qed.

(** Each player after the respawn pass is the player before it, or that
    player respawned. *)
Lemma respawnPass_each now players :
  forall rnd,
    Forall2
      (fun kp kp' =>
         fst kp' = fst kp /\
         ((shouldRespawn now (snd kp) = false /\ snd kp' = snd kp) \/
          (shouldRespawn now (snd kp) = true /\
           exists rnd', (unit_rng rnd -> unit_rng rnd') /\
                        snd kp' = respawn now rnd' (snd kp))))
      players (fst (respawnPass now rnd players)).
Proof.
  induction players as [|[id player] rest IH]; intros rnd; [constructor|].
  cbn [respawnPass]. destruct (shouldRespawn now player) eqn:Hs.
  - specialize (IH (rng_drop 2 rnd)).
    destruct (respawnPass now (rng_drop 2 rnd) rest) as [rest' n]. cbn [fst] in *.
    constructor.
    + cbn. split; [reflexivity|]. right. split; [exact Hs|].
      exists rnd. split; [auto|reflexivity].
    + eapply Forall2_impl; [|exact IH]. cbn.
      intros a b (Hk & [H|(Hr & rnd' & Hu & He)]); split; auto.
      right. split; [exact Hr|]. exists rnd'. split; [|exact He].
      intros Hrnd. apply Hu, unit_rng_drop, Hrnd.
  - specialize (IH rnd).
    destruct (respawnPass now rnd rest) as [rest' n]. cbn [fst] in *.
    constructor; [cbn; auto|exact IH].
Qed.

Lemma respawnPass_allValues (P : Player.t -> Prop) now rnd players :
  (forall rnd' player, P player -> P (respawn now rnd' player)) ->
  allValues P players -> allValues P (fst (respawnPass now rnd players)).
Proof.
  intros Hr Hp. pose proof (respawnPass_each now players rnd) as He.
  unfold allValues in *. induction He as [|kp kp' l l' Hh Ht IH].
  - constructor.
  - inversion Hp as [|? ? Hkp Hl]; subst. constructor; [|apply IH, Hl].
    destruct Hh as (_ & [(_ & ->)|(_ & rnd' & _ & ->)]); [exact Hkp|].
    apply Hr, Hkp.
Qed.

(** ** Input queues *)

Lemma inputQueue_respawn now rnd player :
  Player.inputQueue (respawn now rnd player) = Player.inputQueue player.
Proof. destruct player. reflexivity. Qed.

Lemma inputQueue_applyPowerUpTo now ty player :
  Player.inputQueue (applyPowerUpTo now ty player) = Player.inputQueue player.
Proof. destruct ty, player; reflexivity. Qed.

Lemma inputQueue_expireEffects now player :
  Player.inputQueue (expireEffects now player) = Player.inputQueue player.
Proof.
  unfold expireEffects. destruct player. cbn.
  repeat match goal with
  | |- context [if ?c then _ else _] => destruct c; cbn
  end; reflexivity.
Qed.

Lemma tickGame_queues_empty now rnd gameId last game :
  allValues (fun player => Player.inputQueue player = [])
            (Game.players (tickedGame (tickGame now rnd gameId last game))).
Proof.
  destruct (tickGame_passes now rnd gameId last game) as (Hp & _).
  rewrite Hp.
  apply allValues_mapValues.
  { intros p Hq. rewrite inputQueue_expireEffects. exact Hq. }
  apply powerUpPass_allPlayers.
  { intros t ty p Hq. rewrite inputQueue_applyPowerUpTo. exact Hq. }
  apply respawnPass_allValues.
  { intros r p Hq. rewrite inputQueue_respawn. exact Hq. }
  unfold allValues, mapValues. rewrite Forall_map. apply Forall_forall.
  intros [k p] _. cbn. unfold processInputs. destruct (drainQueue _ p). reflexivity.
Qed.

Lemma lastn_length {A} n (l : list A) :
  (n <= List.length l)%nat -> List.length (lastn n l) = n.
Proof. intros H. unfold lastn. rewrite length_skipn. lia. Qed.

Lemma lastn_suffix {A} n (l : list A) :
  l = firstn (List.length l - n) l ++ lastn n l.
Proof. unfold lastn. symmetry. apply firstn_skipn. Qed.

Lemma inputQueue_set queue player :
  Player.inputQueue (Player.set_inputQueue queue player) = queue.
Proof. destruct player. reflexivity. Qed.

Lemma queueInputs_queue sid player items game :
  let queue := (Player.inputQueue player ++ items)%list in
  exists player',
    lookup sid (Game.players (queueInputs sid player items game)) = Some player' /\
    Player.inputQueue player' =
    (if (180 <? List.length queue)%nat then lastn 120 queue else queue) /\
    queueInBound player'.
Proof.
  cbv zeta. unfold queueInputs. cbn [Game.players Game.set_players].
  rewrite lookup_insert_eq. eexists. split; [reflexivity|].
  unfold queueInBound. rewrite inputQueue_set.
  destruct (Nat.ltb_spec 180 (List.length (Player.inputQueue player ++ items)))
    as [Hlt|Hle].
  - split; [reflexivity|]. rewrite lastn_length; lia.
  - split; [reflexivity|exact Hle].
Qed.

Lemma handle_queueInBound now rnd req sv :
  unit_rng rnd -> allPlayers queueInBound sv ->
  allPlayers queueInBound (fst (handle now rnd req sv)).
Proof.
  apply (handle_allGames (fun game => allValues queueInBound (Game.players game))).
  - intros t r sid nm game _ Hg. unfold joinGame, enterGame.
    rewrite players_pushChatMessage. cbn.
    apply allValues_insert; [|exact Hg]. unfold queueInBound. cbn. lia.
  - intros sid player items game Hl Hg. unfold queueInputs.
    cbn [Game.players Game.set_players].
    apply allValues_insert; [|exact Hg].
    unfold queueInBound. rewrite inputQueue_set.
    destruct (Nat.ltb_spec 180 (List.length (Player.inputQueue player ++ items)))
      as [Hlt|Hle]; [rewrite lastn_length; lia|exact Hle].
  - intros t sid player angle game Hl Hg. unfold fireShots. cbn.
    apply allValues_insert; [|exact Hg].
    pose proof (allValues_lookup _ _ _ _ Hg Hl) as Hp.
    unfold queueInBound in *. destruct player. exact Hp.
  - intros t msg game Hg. exact Hg.
  - intros t r sid gameId gameName mapType playerName _.
    unfold hostGame, enterGame. rewrite players_pushChatMessage. cbn.
    constructor; [|constructor]. unfold queueInBound. cbn. lia.
  - intros t sid game Hg. unfold leaveGame.
    rewrite players_scheduleCleanup. unfold removePlayer.
    destruct (lookup sid (Game.players game)); [|exact Hg].
    cbn. apply allValues_remove, Hg.
  - intros t r gameId last game _ _.
    eapply Forall_impl; [|apply tickGame_queues_empty].
    intros [k p] Hq. cbn in *. unfold queueInBound. rewrite Hq. cbn. lia.
Qed.

Lemma reachable_queueInBound sv : reachable sv -> allPlayers queueInBound sv.
Proof.
  induction 1 as [|now rnd req sv Hr IH Hrnd].
  - constructor.
  - apply handle_queueInBound; assumption.
Qed.

(** X1.  No player of a reachable server has more than 180 queued input
    samples; when a batch takes a queue past 180, the queue becomes the
    last 120 samples of the old queue followed by the batch (the oldest
    are dropped, the newest kept in order). *)
Theorem input_queue_is_bounded :
  forall sv : Server.t,
    reachable sv ->
    allPlayers (fun player =>
                  (List.length (Player.inputQueue player) <= 180)%nat) sv /\
    (forall sid player items game,
        let queue := (Player.inputQueue player ++ items)%list in
        exists player',
          lookup sid (Game.players (queueInputs sid player items game))
          = Some player' /\
          ((List.length queue <= 180)%nat ->
           Player.inputQueue player' = queue) /\
          ((180 < List.length queue)%nat ->
           List.length (Player.inputQueue player') = 120%nat /\
           exists dropped,
             queue = (dropped ++ Player.inputQueue player')%list)).
Proof.
  intros sv Hr. split; [exact (reachable_queueInBound sv Hr)|].
  intros sid player items game queue.
  destruct (queueInputs_queue sid player items game) as (player' & Hl & Hq & _).
  fold queue in Hq. exists player'. split; [exact Hl|]. split.
  - intros Hle. rewrite Hq.
    destruct (Nat.ltb_spec 180 (List.length queue)); [lia|reflexivity].
  - intros Hlt. rewrite Hq.
    destruct (Nat.ltb_spec 180 (List.length queue)); [|lia].
    split; [apply lastn_length; lia|].
    eexists. apply lastn_suffix.
Qed.

(** A host that has sent one batch of two samples. *)
Lemma input_queue_is_bounded_witness :
  let rnd : Rng := fun _ => 1 / 2 in
  let sample := Some (Input.mk (Some 1%Z) None None None None) in
  let hosted :=
    fst (handle 1000 rnd
                (ReqHost "a" (Some (mkHostData None None None))) Server.init) in
  let sv := fst (handle 1010 rnd (ReqInput "a" (Some [sample; sample])) hosted) in
  reachable sv /\
  allPlayers (fun player =>
                (List.length (Player.inputQueue player) <= 180)%nat) sv.
Proof.
  intros rnd sample hosted sv.
  assert (Hrnd : unit_rng rnd) by (intros n; unfold rnd; lra).
  assert (Hr : reachable sv).
  { apply reach_step; [|exact Hrnd]. apply reach_step; [|exact Hrnd].
    apply reach_init. }
  split; [exact Hr|exact (proj1 (input_queue_is_bounded sv Hr))].
Defined.

(** ** The chat log *)

Lemma pushChatMessage_chat now msg game :
  Game.chat (pushChatMessage now msg game) =
  (if (CHAT_MAX_MESSAGES <? List.length (Game.chat game ++ [storedMessage now msg]))%nat
   then tl (Game.chat game ++ [storedMessage now msg])
   else Game.chat game ++ [storedMessage now msg])%list.
Proof.
  unfold pushChatMessage, storedMessage.
  destruct (_ <? _)%nat; reflexivity.
Qed.

Lemma pushChatMessage_chatInBound now msg game :
  chatInBound game -> chatInBound (pushChatMessage now msg game).
Proof.
  unfold chatInBound. intros Hb. rewrite pushChatMessage_chat.
  destruct (Nat.ltb_spec CHAT_MAX_MESSAGES
              (List.length (Game.chat game ++ [storedMessage now msg])))
    as [Hlt|Hle]; [|exact Hle].
  rewrite length_app in Hlt. cbn in Hlt.
  destruct (Game.chat game) as [|m rest]; cbn in *; [lia|].
  rewrite length_app. cbn. lia.
Qed.

Lemma pushChatMessage_last now msg game :
  last (Game.chat (pushChatMessage now msg game)) msg = storedMessage now msg.
Proof.
  rewrite pushChatMessage_chat.
  destruct (Nat.ltb_spec CHAT_MAX_MESSAGES
              (List.length (Game.chat game ++ [storedMessage now msg])))
    as [Hlt|Hle]; [|apply last_last].
  rewrite length_app in Hlt. cbn in Hlt. unfold CHAT_MAX_MESSAGES in Hlt.
  destruct (Game.chat game) as [|m rest]; cbn [List.length] in Hlt; [lia|].
  cbn [app tl]. apply last_last.
Qed.

Lemma handle_chatInBound now rnd req sv :
  unit_rng rnd -> allGames chatInBound sv ->
  allGames chatInBound (fst (handle now rnd req sv)).
Proof.
  apply (handle_allGames chatInBound).
  - intros t r sid nm game _ Hg. unfold joinGame, enterGame.
    apply pushChatMessage_chatInBound. exact Hg.
  - intros sid player items game _ Hg. exact Hg.
  - intros t sid player angle game _ Hg. exact Hg.
  - intros t msg game Hg. apply pushChatMessage_chatInBound, Hg.
  - intros t r sid gameId gameName mapType playerName _.
    unfold hostGame, enterGame. apply pushChatMessage_chatInBound.
    unfold chatInBound, CHAT_MAX_MESSAGES. cbn. lia.
  - intros t sid game Hg. unfold leaveGame, chatInBound.
    assert (Hc : Game.chat (scheduleCleanup (removePlayer t sid game)) =
                 Game.chat (removePlayer t sid game)).
    { unfold scheduleCleanup. destruct (Game.players _); reflexivity. }
    rewrite Hc. unfold removePlayer.
    destruct (lookup sid (Game.players game)); [|exact Hg].
    apply (pushChatMessage_chatInBound t _ game Hg).
  - intros t r gameId last game _ Hg. unfold chatInBound.
    destruct (tickGame_frame t r gameId last game) as (_ & _ & _ & -> & _).
    exact Hg.
Qed.

Lemma reachable_chatInBound sv : reachable sv -> allGames chatInBound sv.
Proof.
  induction 1 as [|now rnd req sv Hr IH Hrnd].
  - constructor.
  - apply handle_chatInBound; assumption.
Qed.

(** X2.  No room of a reachable server logs more than 60 chat messages;
    a message pushed on a log is the log's last entry afterwards, so when
    the log is full it is the oldest entry that goes. *)
Theorem chat_log_is_bounded :
  forall sv : Server.t,
    reachable sv ->
    allGames (fun game => (List.length (Game.chat game) <= 60)%nat) sv /\
    (forall now msg game,
        last (Game.chat (pushChatMessage now msg game)) msg =
        storedMessage now msg /\
        ((List.length (Game.chat game) < 60)%nat ->
         Game.chat (pushChatMessage now msg game) =
         (Game.chat game ++ [storedMessage now msg])%list) /\
        (List.length (Game.chat game) = 60%nat ->
         Game.chat (pushChatMessage now msg game) =
         (tl (Game.chat game) ++ [storedMessage now msg])%list)).
Proof.
  intros sv Hr. split; [exact (reachable_chatInBound sv Hr)|].
  intros now msg game. split; [apply pushChatMessage_last|].
  rewrite pushChatMessage_chat, length_app. cbn [List.length].
  unfold CHAT_MAX_MESSAGES. split.
  - intros Hlt. destruct (Nat.ltb_spec 60 (List.length (Game.chat game) + 1));
      [lia|reflexivity].
  - intros Heq. destruct (Nat.ltb_spec 60 (List.length (Game.chat game) + 1));
      [|lia].
    destruct (Game.chat game); [discriminate|reflexivity].
Qed.

(** A room just hosted: its log holds the creation message. *)
Lemma chat_log_is_bounded_witness :
  let rnd : Rng := fun _ => 1 / 2 in
  let sv :=
    fst (handle 1000 rnd
                (ReqHost "a" (Some (mkHostData None None None))) Server.init) in
  reachable sv /\
  allGames (fun game => (List.length (Game.chat game) <= 60)%nat) sv.
Proof.
  intros rnd sv.
  assert (Hrnd : unit_rng rnd) by (intros n; unfold rnd; lra).
  assert (Hr : reachable sv) by (apply reach_step; [apply reach_init|exact Hrnd]).
  split; [exact Hr|exact (proj1 (chat_log_is_bounded sv Hr))].
Defined.
(** ** Shooting *)

Lemma shotBullets_spec now player sid angle shots spread n :
  forall i0,
    List.length (shotBullets now player sid angle shots spread i0 n) = n /\
    Forall (fun b =>
              Bullet.owner b = sid /\
              Bullet.x b = Player.x player /\ Bullet.y b = Player.y player /\
              Bullet.bounces b = 0%nat /\ Bullet.createdAt b = now /\
              Bullet.color b = Player.color player /\
              Bullet.vx b * Bullet.vx b + Bullet.vy b * Bullet.vy b = 25 /\
              Bullet.vx b = cos (Bullet.angle b) * 5 /\
              Bullet.vy b = sin (Bullet.angle b) * 5)
           (shotBullets now player sid angle shots spread i0 n).
Proof.
  induction n as [|n IH]; intros i0; cbn [shotBullets List.length].
  - split; [reflexivity|constructor].
  - destruct (IH (S i0)) as [Hl Hf]. split; [rewrite Hl; reflexivity|].
    constructor; [|exact Hf].
    cbn [Bullet.owner Bullet.x Bullet.y Bullet.bounces Bullet.createdAt
         Bullet.color Bullet.vx Bullet.vy Bullet.angle].
    set (a := angle + _). unfold BULLET_SPEED, TICK_RATE.
    pose proof (sin2_cos2 a) as Hsc. unfold Rsqr in Hsc.
    repeat split; try reflexivity; lra.
Qed.

Lemma shotBullets_angles_single now player sid angle spread :
  map Bullet.angle (shotBullets now player sid angle 1 spread 0 1) = [angle + 0].
Proof. reflexivity. Qed.

Lemma shotBullets_angles_triple now player sid angle :
  map Bullet.angle (shotBullets now player sid angle 3 (12 / 100) 0 3) =
  [angle + (INR 0 - (INR 3 - 1) / 2) * (12 / 100);
   angle + (INR 1 - (INR 3 - 1) / 2) * (12 / 100);
   angle + (INR 2 - (INR 3 - 1) / 2) * (12 / 100)].
Proof. reflexivity. Qed.

Lemma fireShots_spec now sid player angle game :
  let shots :=
    shotBullets now player sid (num_or angle 0)
                (if Player.rapidFire player then 3 else 1) (12 / 100) 0
                (if Player.rapidFire player then 3 else 1) in
  Game.bullets (fireShots now sid player angle game) =
  (Game.bullets game ++ shots)%list /\
  Game.players (fireShots now sid player angle game) =
  insert sid (Player.set_lastShotTime now player) (Game.players game) /\
  Game.scores (fireShots now sid player angle game) = Game.scores game.
Proof.
  cbv zeta. unfold fireShots.
  assert (Hsp : num_or (cfg_spread (POWER_UP_TYPES RAPID_FIRE)) (1 / 10) = 12 / 100).
  { cbn. destruct (Req_dec_T (12 / 100) 0); [lra|reflexivity]. }
  rewrite Hsp. cbn [cfg_shots POWER_UP_TYPES Nat.eqb].
  repeat split.
Qed.

(** X3.  A shoot request of a socket whose player is in its room, with an
    angle that is a finite number, or missing or not a number and then
    taken as 0: if the player is dead, or less than the cooldown (1500 ms,
    400 ms under rapid fire) has passed since the player's last shot,
    nothing changes and nothing is emitted; otherwise one bullet (three
    under rapid fire, at the angle and 0.12 rad to either side) is appended
    to the room's bullets, each at the player's position, owned by the
    socket, with no bounce, created now, moving 5 px per tick along its
    angle, and the player's last shot time becomes now.  (An infinite angle
    is not covered: its cosine and sine are [NaN].) *)
Theorem shoot_fires_or_is_ignored :
  forall (now : Z) (sid : string) (angle : option R) (sv : Server.t)
         (gameId : string) (game : Game.t) (player : Player.t),
    lookup sid (Server.socketGameId sv) = Some gameId ->
    lookup gameId (Server.games sv) = Some game ->
    lookup sid (Game.players game) = Some player ->
    let cooldown := if Player.rapidFire player then 400%Z else 1500%Z in
    let a := num_or angle 0 in
    (Player.dead player = true \/
     (now - Player.lastShotTime player < cooldown)%Z ->
     onShoot now sid angle sv = (sv, [])) /\
    (Player.dead player = false ->
     (cooldown <= now - Player.lastShotTime player)%Z ->
     exists game' shots,
       onShoot now sid angle sv =
       (Server.set_games (insert gameId game' (Server.games sv)) sv, []) /\
       Game.bullets game' = (Game.bullets game ++ shots)%list /\
       map Bullet.angle shots =
       (if Player.rapidFire player
        then [a - 12 / 100; a; a + 12 / 100] else [a]) /\
       Forall (fun b =>
                 Bullet.owner b = sid /\
                 Bullet.x b = Player.x player /\ Bullet.y b = Player.y player /\
                 Bullet.bounces b = 0%nat /\ Bullet.createdAt b = now /\
                 Bullet.color b = Player.color player /\
                 Bullet.vx b * Bullet.vx b + Bullet.vy b * Bullet.vy b = 25 /\
                 Bullet.vx b = cos (Bullet.angle b) * 5 /\
                 Bullet.vy b = sin (Bullet.angle b) * 5)
              shots /\
       lookup sid (Game.players game') =
       Some (Player.set_lastShotTime now player) /\
       Game.scores game' = Game.scores game).
Proof.
  intros now sid angle sv gameId game player Hs Hg Hp cooldown a.
  unfold onShoot. rewrite Hs, Hg, Hp.
  change (if Player.rapidFire player then RAPID_FIRE_COOLDOWN else SHOOT_COOLDOWN)
    with cooldown.
  split.
  - intros [Hd|Hc]; [rewrite Hd; reflexivity|].
    destruct (Player.dead player); [reflexivity|].
    destruct (Z.ltb_spec (now - Player.lastShotTime player) cooldown);
      [reflexivity|lia].
  - intros Hd Hc. rewrite Hd.
    destruct (Z.ltb_spec (now - Player.lastShotTime player) cooldown); [lia|].
    destruct (fireShots_spec now sid player angle game) as (Hb & Hpl & Hsc).
    eexists. eexists. split; [reflexivity|]. split; [exact Hb|].
    split; [|split; [|split]].
    + fold a. destruct (Player.rapidFire player).
      * rewrite shotBullets_angles_triple. cbn [INR].
        f_equal; [lra|]. f_equal; [lra|]. f_equal. lra.
      * rewrite shotBullets_angles_single. f_equal. lra.
    + apply shotBullets_spec.
    + rewrite Hpl. apply lookup_insert_eq.
    + exact Hsc.
Qed.

(** A host who has never fired shoots at clock 3000. *)
Lemma shoot_fires_or_is_ignored_witness :
  let rnd : Rng := fun _ => 1 / 2 in
  let sv :=
    fst (onHost 1000 rnd "a" (Some (mkHostData None None None)) Server.init) in
  let game := hostGame 1000 rnd "a" "game_1" "Game 1" "green" None in
  let player := newPlayer rnd "a" "" in
  lookup "a"%string (Server.socketGameId sv) = Some "game_1"%string /\
  lookup "game_1"%string (Server.games sv) = Some game /\
  lookup "a"%string (Game.players game) = Some player /\
  exists game' shots,
    onShoot 3000 "a" (Some 1) sv =
    (Server.set_games (insert "game_1" game' (Server.games sv)) sv, []) /\
    Game.bullets game' = (Game.bullets game ++ shots)%list /\
    map Bullet.angle shots = [num_or (Some 1) 0].
Proof.
  intros rnd sv game player.
  assert (H1 : lookup "a"%string (Server.socketGameId sv) = Some "game_1"%string)
    by reflexivity.
  assert (H2 : lookup "game_1"%string (Server.games sv) = Some game) by reflexivity.
  assert (H3 : lookup "a"%string (Game.players game) = Some player) by reflexivity.
  split; [exact H1|]. split; [exact H2|]. split; [exact H3|].
  destruct (proj2 (shoot_fires_or_is_ignored 3000 "a" (Some 1) sv "game_1" game
                     player H1 H2 H3) eq_refl)
    as (game' & shots & He & Hb & Ha & _).
  { cbn. lia. }
  exists game', shots. split; [exact He|]. split; [exact Hb|exact Ha].
Defined.
(** ** Room ids *)




Lemma roomId_nonempty n : roomId n <> ""%string.
Proof. unfold roomId. cbn. discriminate. Qed.

(** A handler that writes a room back under its key keeps the keys. *)
Lemma keys_rewrite {V} k (v v' : V) m :
  lookup k m = Some v -> map fst (insert k v' m) = map fst m.
Proof. intros H. apply keys_insert_present. eapply lookup_Some_key, H. Qed.

Lemma tickGames_keys now todo :
  forall rnd sv,
    (forall k, In k (map fst todo) -> In k (map fst (Server.games sv))) ->
    let sv' := fst (tickGames now rnd todo sv) in
    map fst (Server.games sv') = map fst (Server.games sv) /\
    Server.gameCounter sv' = Server.gameCounter sv /\
    Server.socketGameId sv' = Server.socketGameId sv.
Proof.
  induction todo as [|[gameId game] rest IH]; intros rnd sv Hsub.
  - repeat split.
  - cbn [tickGames].
    destruct (tickGame now rnd gameId _ game) as [[[last game'] n] ev].
    set (sv1 := Server.set_games _ _).
    assert (Hk1 : map fst (Server.games sv1) = map fst (Server.games sv)).
    { unfold sv1. cbn. apply keys_insert_present. apply Hsub. left. reflexivity. }
    specialize (IH (rng_drop n rnd) sv1).
    destruct (tickGames now (rng_drop n rnd) rest sv1) as [sv' ev'].
    cbn [fst] in *. destruct IH as (Hk & Hc & Hs).
    { intros k Hin. rewrite Hk1. apply Hsub. right. exact Hin. }
    rewrite Hk, Hk1, Hc, Hs. repeat split.
Qed.

Lemma handle_roomIdsIssued now rnd req sv :
  roomIdsIssued sv -> roomIdsIssued (fst (handle now rnd req sv)).
Proof.
  intros (Hnd & Hk).
  assert (Hsame : forall sv',
             map fst (Server.games sv') = map fst (Server.games sv) ->
             Server.gameCounter sv' = Server.gameCounter sv ->
             roomIdsIssued sv').
  { intros sv' Hg Hc. unfold roomIdsIssued. rewrite Hg, Hc. split; assumption. }
  destruct req as [sid data|sid inputs|sid angle|sid text|sid|sid data|sid|gameId|];
    cbn [handle].
  - unfold onJoin. destruct data as [dta|]; [|split; assumption].
    destruct (jd_serverId dta) as [gameId|]; [|split; assumption].
    destruct (String.eqb gameId ""); [split; assumption|].
    destruct (lookup gameId (Server.games sv)) as [game|] eqn:Hl; [|split; assumption].
    apply Hsame; [|reflexivity]. cbn. eapply keys_rewrite, Hl.
  - unfold onInput.
    destruct (lookup sid (Server.socketGameId sv)) as [gameId|]; [|split; assumption].
    destruct (lookup gameId (Server.games sv)) as [game|] eqn:Hl; [|split; assumption].
    destruct (lookup sid (Game.players game)) as [player|]; [|split; assumption].
    destruct inputs as [items|]; [|split; assumption].
    apply Hsame; [|reflexivity]. cbn. eapply keys_rewrite, Hl.
  - unfold onShoot.
    destruct (lookup sid (Server.socketGameId sv)) as [gameId|]; [|split; assumption].
    destruct (lookup gameId (Server.games sv)) as [game|] eqn:Hl; [|split; assumption].
    destruct (lookup sid (Game.players game)) as [player|]; [|split; assumption].
    destruct (Player.dead player); [split; assumption|].
    destruct (_ <? _)%Z; [split; assumption|].
    apply Hsame; [|reflexivity]. cbn. eapply keys_rewrite, Hl.
  - unfold onChatMessage.
    destruct (lookup sid (Server.socketGameId sv)) as [gameId|]; [|split; assumption].
    destruct (lookup gameId (Server.games sv)) as [game|] eqn:Hl; [|split; assumption].
    destruct (lookup sid (Game.players game)) as [player|]; [|split; assumption].
    destruct (String.eqb _ ""); [split; assumption|].
    apply Hsame; [|reflexivity]. cbn. eapply keys_rewrite, Hl.
  - split; assumption.
  - unfold onHost. destruct data as [dta|]; [|split; assumption].
    unfold roomIdsIssued. cbn [fst Server.games Server.gameCounter].
    fold (roomId (S (Server.gameCounter sv))).
    split; [apply NoDup_insert, Hnd|].
    intros gameId Hin. apply keys_insert in Hin. destruct Hin as [->|Hin].
    + exists (S (Server.gameCounter sv)). split; [lia|reflexivity].
    + destruct (Hk gameId Hin) as (k & Hle & ->). exists k. split; [lia|reflexivity].
  - unfold onDisconnect.
    destruct (lookup sid (Server.socketGameId sv)) as [gameId|]; [|split; assumption].
    destruct (lookup gameId (Server.games sv)) as [game|] eqn:Hl; [|split; assumption].
    apply Hsame; [|reflexivity]. cbn. eapply keys_rewrite, Hl.
  - unfold onCleanupTimer.
    destruct (lookup gameId (Server.games sv)) as [game|]; [|split; assumption].
    destruct (Game.cleanupTimer game); [|split; assumption].
    destruct (Game.players game); [|split; assumption].
    unfold roomIdsIssued. cbn. split; [apply NoDup_remove, Hnd|].
    intros k Hin. apply (keys_remove _ _ Hnd) in Hin. apply Hk, Hin.
  - unfold onTick.
    destruct (tickGames_keys now (Server.games sv) rnd sv (fun k H => H))
      as (Hg & Hc & _).
    apply Hsame; assumption.
Qed.

Lemma reachable_roomIdsIssued sv : reachable sv -> roomIdsIssued sv.
Proof.
  induction 1 as [|now rnd req sv Hr IH Hrnd].
  - split; [constructor|]. intros k [].
  - apply handle_roomIdsIssued, IH.
Qed.



(** ** Joining and leaving *)

Lemma joinGame_spec now rnd sid nm game :
  let game' := joinGame now rnd sid nm game in
  Game.players game' =
  insert sid (newPlayer rnd sid (sanitizeString nm)) (Game.players game) /\
  Game.scores game' = insert sid 0%Z (Game.scores game) /\
  Game.cleanupTimer game' = false /\
  Game.bullets game' = Game.bullets game /\
  Game.powerUps game' = Game.powerUps game.
Proof. cbv zeta. unfold joinGame, enterGame. repeat split. Qed.

(** X5.  A join that names an existing room always enters the socket in
    it, however many players the room holds (the handler never reads
    [MAX_PLAYERS]): afterwards the room has the socket's player, new, alive,
    at 100 hit points, with score 0 and an empty queue; a pending cleanup
    timer is cleared; every other player and score of the room, and its
    bullets, are as they were; and the socket's claimed room is that
    room. *)
Theorem join_always_enters_the_room :
  forall (now : Z) (rnd : Rng) (sid gameId : string) (nm : option string)
         (sv : Server.t) (game : Game.t),
    gameId <> ""%string ->
    lookup gameId (Server.games sv) = Some game ->
    let sv' := fst (onJoin now rnd sid (Some (mkJoinData (Some gameId) nm)) sv) in
    exists game' player,
      lookup gameId (Server.games sv') = Some game' /\
      lookup sid (Game.players game') = Some player /\
      player = newPlayer rnd sid (sanitizeString nm) /\
      Player.hp player = 100 /\ Player.dead player = false /\
      Player.inputQueue player = [] /\
      lookup sid (Game.scores game') = Some 0%Z /\
      Game.cleanupTimer game' = false /\
      (forall other, other <> sid ->
                     lookup other (Game.players game') =
                     lookup other (Game.players game) /\
                     lookup other (Game.scores game') =
                     lookup other (Game.scores game)) /\
      Game.bullets game' = Game.bullets game /\
      lookup sid (Server.socketGameId sv') = Some gameId.
Proof.
  intros now rnd sid gameId nm sv game Hne Hl sv'.
  unfold sv', onJoin. cbn [jd_serverId jd_name].
  destruct (String.eqb_spec gameId ""); [contradiction|].
  rewrite Hl. cbn [fst Server.games Server.set_games Server.socketGameId
                   Server.set_socketGameId].
  destruct (joinGame_spec now rnd sid nm game) as (Hp & Hs & Ht & Hb & _).
  exists (joinGame now rnd sid nm game), (newPlayer rnd sid (sanitizeString nm)).
  split; [apply lookup_insert_eq|].
  split; [rewrite Hp; apply lookup_insert_eq|].
  split; [reflexivity|]. split; [reflexivity|]. split; [reflexivity|].
  split; [reflexivity|].
  split; [rewrite Hs; apply lookup_insert_eq|].
  split; [exact Ht|]. split; [|split; [exact Hb|apply lookup_insert_eq]].
  intros other Ho. rewrite Hp, Hs. split; apply lookup_insert_ne; exact Ho.
Qed.

(** A second socket joins the first room. *)
Lemma join_always_enters_the_room_witness :
  let rnd : Rng := fun _ => 1 / 2 in
  let sv :=
    fst (onHost 1000 rnd "a" (Some (mkHostData None None None)) Server.init) in
  let game := hostGame 1000 rnd "a" "game_1" "Game 1" "green" None in
  let sv' :=
    fst (onJoin 2000 rnd "b" (Some (mkJoinData (Some "game_1"%string) None)) sv) in
  "game_1"%string <> ""%string /\
  lookup "game_1"%string (Server.games sv) = Some game /\
  exists game' player,
    lookup "game_1"%string (Server.games sv') = Some game' /\
    lookup "b"%string (Game.players game') = Some player /\
    Player.hp player = 100.
Proof.
  intros rnd sv game sv'.
  assert (Hne : "game_1"%string <> ""%string) by discriminate.
  assert (Hl : lookup "game_1"%string (Server.games sv) = Some game) by reflexivity.
  split; [exact Hne|]. split; [exact Hl|].
  destruct (join_always_enters_the_room 2000 rnd "b" "game_1" None sv game Hne Hl)
    as (game' & player & Hg & Hp & _ & Hhp & _).
  exists game', player. split; [exact Hg|]. split; [exact Hp|exact Hhp].
Defined.

Lemma removePlayer_spec now sid game :
  let game' := removePlayer now sid game in
  Game.players game' = remove sid (Game.players game) /\
  Game.bullets game' = Game.bullets game /\
  Game.powerUps game' = Game.powerUps game /\
  (lookup sid (Game.players game) <> None ->
   Game.scores game' = remove sid (Game.scores game)) /\
  (lookup sid (Game.players game) = None -> game' = game).
Proof.
  cbv zeta. unfold removePlayer.
  destruct (lookup sid (Game.players game)) as [player|] eqn:Hl.
  - cbn. repeat split. congruence.
  - repeat split; try congruence.
    clear -Hl. induction (Game.players game) as [|[k v] rest IH]; [reflexivity|].
    cbn in *. destruct (String.eqb sid k); [discriminate|]. f_equal. apply IH, Hl.
Qed.

(** X6.  When a socket of a reachable server disconnects, its claimed
    room no longer has a player or a score under the socket's id; every
    other player and score of the room is as it was; the bullets the
    player fired stay in the room; the cleanup timer is set exactly when
    the room is left without players (or was set before); and nothing is
    emitted. *)
Theorem disconnect_removes_player_and_score :
  forall (now : Z) (sid gameId : string) (sv : Server.t) (game : Game.t),
    reachable sv ->
    lookup sid (Server.socketGameId sv) = Some gameId ->
    lookup gameId (Server.games sv) = Some game ->
    exists game',
      onDisconnect now sid sv =
      (Server.set_games (insert gameId game' (Server.games sv)) sv, []) /\
      lookup sid (Game.players game') = None /\
      lookup sid (Game.scores game') = None /\
      (forall other, other <> sid ->
                     lookup other (Game.players game') =
                     lookup other (Game.players game) /\
                     lookup other (Game.scores game') =
                     lookup other (Game.scores game)) /\
      Game.bullets game' = Game.bullets game /\
      (Game.cleanupTimer game' = true <->
       Game.players game' = [] \/ Game.cleanupTimer game = true).
Proof.
  intros now sid gameId sv game Hr Hs Hg.
  pose proof (reachable_wellKeyed sv Hr) as Hwk.
  pose proof (allValues_lookup _ _ _ _ Hwk Hg) as (Hnp & Hns & Hsub).
  unfold onDisconnect. rewrite Hs, Hg.
  exists (leaveGame now sid game). split; [reflexivity|].
  unfold leaveGame.
  rewrite players_scheduleCleanup, scores_scheduleCleanup, bullets_scheduleCleanup.
  destruct (removePlayer_spec now sid game) as (Hp & Hb & _ & Hsc & Hnone).
  split; [rewrite Hp; apply lookup_remove_eq, Hnp|].
  assert (Hscores : Game.scores (removePlayer now sid game) =
                    remove sid (Game.scores game)).
  { destruct (lookup sid (Game.players game)) eqn:Hl.
    - apply Hsc. congruence.
    - rewrite (Hnone eq_refl).
      assert (Hno : lookup sid (Game.scores game) = None).
      { apply lookup_None_keys. intros Hin. apply Hsub in Hin.
        apply lookup_None_keys in Hl. contradiction. }
      clear -Hno. induction (Game.scores game) as [|[k v] rest IH]; [reflexivity|].
      cbn in *. destruct (String.eqb sid k); [discriminate|]. f_equal. apply IH, Hno. }
  split; [rewrite Hscores; apply lookup_remove_eq, Hns|].
  split; [|split; [exact Hb|]].
  - intros other Ho. rewrite Hp, Hscores.
    split; apply lookup_remove_ne; exact Ho.
  - unfold scheduleCleanup.
    assert (Ht : Game.cleanupTimer (removePlayer now sid game) =
                 Game.cleanupTimer game).
    { unfold removePlayer. destruct (lookup sid (Game.players game)); reflexivity. }
    destruct (Game.players (removePlayer now sid game)) eqn:E.
    + cbn. split; [intros _; left; reflexivity|reflexivity].
    + rewrite Ht. split; [intros H; right; exact H|].
      intros [H|H]; [discriminate|exact H].
Qed.

(** The host of a fresh room disconnects. *)
Lemma disconnect_removes_player_and_score_witness :
  let rnd : Rng := fun _ => 1 / 2 in
  let sv :=
    fst (handle 1000 rnd
                (ReqHost "a" (Some (mkHostData None None None))) Server.init) in
  let game := hostGame 1000 rnd "a" "game_1" "Game 1" "green" None in
  reachable sv /\
  lookup "a"%string (Server.socketGameId sv) = Some "game_1"%string /\
  lookup "game_1"%string (Server.games sv) = Some game /\
  exists game',
    onDisconnect 2000 "a" sv =
    (Server.set_games (insert "game_1" game' (Server.games sv)) sv, []) /\
    lookup "a"%string (Game.players game') = None.
Proof.
  intros rnd sv game.
  assert (Hrnd : unit_rng rnd) by (intros n; unfold rnd; lra).
  assert (Hr : reachable sv) by (apply reach_step; [apply reach_init|exact Hrnd]).
  assert (H1 : lookup "a"%string (Server.socketGameId sv) = Some "game_1"%string)
    by reflexivity.
  assert (H2 : lookup "game_1"%string (Server.games sv) = Some game) by reflexivity.
  split; [exact Hr|]. split; [exact H1|]. split; [exact H2|].
  destruct (disconnect_removes_player_and_score 2000 "a" "game_1" sv game Hr H1 H2)
    as (game' & He & Hp & _).
  exists game'. split; [exact He|exact Hp].
Defined.
(** ** Room labels and the two listings *)

Lemma Forall_insert {V} (Q : string * V -> Prop) k v m :
  Q (k, v) -> Forall Q m -> Forall Q (insert k v m).
Proof.
  intros Hq Hm. induction Hm as [|[k' v'] rest Hx Hrest IH]; cbn.
  - constructor; [exact Hq|constructor].
  - destruct (String.eqb k k'); constructor; assumption.
Qed.

Lemma Forall_remove {V} (Q : string * V -> Prop) k m :
  Forall Q m -> Forall Q (remove k m).
Proof.
  intros Hm. induction Hm as [|[k' v'] rest Hx Hrest IH]; cbn; [constructor|].
  destruct (String.eqb k k'); [exact Hrest|constructor; assumption].
Qed.

Lemma label_pushChatMessage now msg game :
  Game.id (pushChatMessage now msg game) = Game.id game /\
  Game.name (pushChatMessage now msg game) = Game.name game.
Proof. split; reflexivity. Qed.

Lemma label_joinGame now rnd sid nm game :
  Game.id (joinGame now rnd sid nm game) = Game.id game /\
  Game.name (joinGame now rnd sid nm game) = Game.name game.
Proof. split; reflexivity. Qed.

Lemma label_leaveGame now sid game :
  Game.id (leaveGame now sid game) = Game.id game /\
  Game.name (leaveGame now sid game) = Game.name game.
Proof.
  unfold leaveGame, scheduleCleanup, removePlayer.
  destruct (lookup sid (Game.players game)); cbn [Game.players Game.set_players
    Game.set_scores pushChatMessage Game.set_chat].
  - destruct (remove sid (Game.players game)); split; reflexivity.
  - destruct (Game.players game); split; reflexivity.
Qed.

Lemma tickGames_roomsLabelled now todo :
  forall rnd sv,
    Forall roomLabelled todo -> roomsLabelled sv ->
    roomsLabelled (fst (tickGames now rnd todo sv)).
Proof.
  induction todo as [|[gameId game] rest IH]; intros rnd sv Htodo Hsv.
  - exact Hsv.
  - cbn [tickGames].
    pose proof (tickGame_frame now rnd gameId
                  (lookup gameId (Server.lastPowerUpSpawnTime sv)) game) as Hf.
    destruct (tickGame now rnd gameId _ game) as [[[last game'] n] ev].
    unfold tickedGame in Hf. cbn [fst snd] in Hf. destruct Hf as (Hid & Hname & _).
    inversion Htodo as [|? ? Hg Hrest]; subst. destruct Hg as (Hgi & Hgn).
    cbn [fst snd] in Hgi, Hgn.
    set (sv1 := Server.set_games _ _).
    specialize (IH (rng_drop n rnd) sv1 Hrest).
    destruct (tickGames now (rng_drop n rnd) rest sv1) as [sv' ev'].
    cbn [fst] in *. apply IH. unfold roomsLabelled, sv1. cbn.
    apply Forall_insert; [|exact Hsv].
    split; cbn [fst snd]; congruence.
Qed.

Lemma handle_roomsLabelled now rnd req sv :
  roomsLabelled sv -> roomsLabelled (fst (handle now rnd req sv)).
Proof.
  intros Hsv. unfold roomsLabelled in *.
  assert (Hat : forall gameId game,
             lookup gameId (Server.games sv) = Some game ->
             Game.id game = gameId /\ Game.name game <> ""%string).
  { intros gameId game Hl. rewrite Forall_forall in Hsv.
    apply (Hsv (gameId, game)), lookup_In, Hl. }
  destruct req as [sid data|sid inputs|sid angle|sid text|sid|sid data|sid|gameId|];
    cbn [handle].
  - unfold onJoin. destruct data as [dta|]; [|exact Hsv].
    destruct (jd_serverId dta) as [gameId|]; [|exact Hsv].
    destruct (String.eqb gameId ""); [exact Hsv|].
    destruct (lookup gameId (Server.games sv)) as [game|] eqn:Hl; [|exact Hsv].
    cbn. apply Forall_insert; [|exact Hsv]. exact (Hat _ _ Hl).
  - unfold onInput.
    destruct (lookup sid (Server.socketGameId sv)) as [gameId|]; [|exact Hsv].
    destruct (lookup gameId (Server.games sv)) as [game|] eqn:Hl; [|exact Hsv].
    destruct (lookup sid (Game.players game)) as [player|] eqn:Hp; [|exact Hsv].
    destruct inputs as [items|]; [|exact Hsv].
    cbn. apply Forall_insert; [|exact Hsv]. exact (Hat _ _ Hl).
  - unfold onShoot.
    destruct (lookup sid (Server.socketGameId sv)) as [gameId|]; [|exact Hsv].
    destruct (lookup gameId (Server.games sv)) as [game|] eqn:Hl; [|exact Hsv].
    destruct (lookup sid (Game.players game)) as [player|] eqn:Hp; [|exact Hsv].
    destruct (Player.dead player); [exact Hsv|].
    destruct (_ <? _)%Z; [exact Hsv|].
    cbn. apply Forall_insert; [|exact Hsv]. exact (Hat _ _ Hl).
  - unfold onChatMessage.
    destruct (lookup sid (Server.socketGameId sv)) as [gameId|]; [|exact Hsv].
    destruct (lookup gameId (Server.games sv)) as [game|] eqn:Hl; [|exact Hsv].
    destruct (lookup sid (Game.players game)) as [player|] eqn:Hp; [|exact Hsv].
    destruct (String.eqb _ ""); [exact Hsv|].
    cbn. apply Forall_insert; [|exact Hsv]. exact (Hat _ _ Hl).
  - exact Hsv.
  - unfold onHost. destruct data as [dta|]; [|exact Hsv].
    cbn [fst Server.games]. apply Forall_insert; [|exact Hsv].
    split; [reflexivity|]. cbn [snd hostGame enterGame].
    change (str_or (match hd_name dta with Some n => n | None => ""%string end)
                   ("Game " ++ decimal (S (Server.gameCounter sv))) <> ""%string).
    unfold str_or.
    destruct (String.eqb_spec
                (match hd_name dta with Some n => n | None => ""%string end) "")
      as [He|Hne]; [discriminate|exact Hne].
  - unfold onDisconnect.
    destruct (lookup sid (Server.socketGameId sv)) as [gameId|]; [|exact Hsv].
    destruct (lookup gameId (Server.games sv)) as [game|] eqn:Hl; [|exact Hsv].
    cbn. apply Forall_insert; [|exact Hsv].
    destruct (label_leaveGame now sid game) as (Hi & Hn).
    destruct (Hat _ _ Hl) as (Hgi & Hgn).
    split; cbn [fst snd]; congruence.
  - unfold onCleanupTimer.
    destruct (lookup gameId (Server.games sv)) as [game|]; [|exact Hsv].
    destruct (Game.cleanupTimer game); [|exact Hsv].
    destruct (Game.players game); [|exact Hsv].
    cbn. apply Forall_remove, Hsv.
  - unfold onTick. apply tickGames_roomsLabelled; exact Hsv.
Qed.

Lemma reachable_roomsLabelled sv : reachable sv -> roomsLabelled sv.
Proof.
  induction 1 as [|now rnd req sv Hr IH Hrnd].
  - constructor.
  - apply handle_roomsLabelled, IH.
Qed.

Lemma httpServers_eq games :
  Forall roomLabelled games ->
  flat_map
    (fun kg : string * Game.t =>
       let gameId := fst kg in
       let game := snd kg in
       let playerCount := List.length (Game.players game) in
       if (0 <? playerCount)%nat
       then [mkServerInfo (str_or (Game.id game) gameId)
                          (str_or (Game.name game) ("Game " ++ gameId))
                          playerCount MAX_PLAYERS]
       else []) games =
  flat_map
    (fun kg : string * Game.t =>
       let game := snd kg in
       let playerCount := List.length (Game.players game) in
       if (0 <? playerCount)%nat
       then [mkServerInfo (Game.id game) (Game.name game) playerCount MAX_PLAYERS]
       else []) games.
Proof.
  induction 1 as [|[gameId game] rest (Hi & Hn) Hrest IH]; [reflexivity|].
  cbn [flat_map fst snd] in *. rewrite IH. f_equal.
  destruct (0 <? _)%nat; [|reflexivity].
  unfold str_or. rewrite Hi.
  destruct (String.eqb_spec gameId ""), (String.eqb_spec (Game.name game) "");
    try contradiction; reflexivity.
Qed.

Lemma In_httpServers info games :
  In info
     (flat_map
        (fun kg : string * Game.t =>
           let game := snd kg in
           let playerCount := List.length (Game.players game) in
           if (0 <? playerCount)%nat
           then [mkServerInfo (Game.id game) (Game.name game) playerCount
                              MAX_PLAYERS]
           else []) games) <->
  exists gameId game,
    In (gameId, game) games /\ Game.players game <> [] /\
    info = mkServerInfo (Game.id game) (Game.name game)
                        (List.length (Game.players game)) MAX_PLAYERS.
Proof.
  rewrite in_flat_map. split.
  - intros ([gameId game] & Hin & Hi). cbn [snd] in Hi.
    destruct (Game.players game) as [|p ps] eqn:E; cbn in Hi; [contradiction|].
    destruct Hi as [<-|[]]. exists gameId, game. rewrite E.
    split; [exact Hin|]. split; [discriminate|reflexivity].
  - intros (gameId & game & Hin & Hne & ->). exists (gameId, game).
    split; [exact Hin|]. cbn [snd].
    destruct (Game.players game); [contradiction|]. left. reflexivity.
Qed.

(** X7.  In every reachable state the socket request [getServers] and the
    HTTP endpoint [/servers] give the same list; a row is listed exactly
    for each room that holds at least one player, with the room's key as
    its id, the room's name and its number of players; so every listed id
    names a room a [join] finds.  The request changes nothing. *)
Theorem listings_show_the_rooms_with_players :
  forall (sv : Server.t) (sid : string),
    reachable sv ->
    onGetServers sid sv = (sv, [ToSocket sid (EvServers (httpServers sv))]) /\
    (forall info,
        In info (httpServers sv) <->
        exists game,
          lookup (si_id info) (Server.games sv) = Some game /\
          Game.players game <> [] /\
          info = mkServerInfo (si_id info) (Game.name game)
                              (List.length (Game.players game)) MAX_PLAYERS).
Proof.
  intros sv sid Hr.
  pose proof (reachable_roomsLabelled sv Hr) as Hlab.
  destruct (reachable_roomIdsIssued sv Hr) as (Hnd & _).
  assert (He : httpServers sv =
               flat_map
                 (fun kg : string * Game.t =>
                    let game := snd kg in
                    let playerCount := List.length (Game.players game) in
                    if (0 <? playerCount)%nat
                    then [mkServerInfo (Game.id game) (Game.name game) playerCount
                                       MAX_PLAYERS]
                    else []) (Server.games sv))
    by (apply httpServers_eq, Hlab).
  split; [unfold onGetServers; rewrite He; reflexivity|].
  intros info. rewrite He, In_httpServers. unfold roomsLabelled in Hlab.
  rewrite Forall_forall in Hlab. split.
  - intros (gameId & game & Hin & Hne & ->). exists game. cbn [si_id].
    destruct (Hlab _ Hin) as (Hi & _). cbn [fst snd] in Hi. rewrite Hi.
    split; [apply In_lookup; assumption|]. split; [exact Hne|reflexivity].
  - intros (game & Hl & Hne & Hinfo). exists (si_id info), game.
    apply lookup_In in Hl. split; [exact Hl|]. split; [exact Hne|].
    destruct (Hlab _ Hl) as (Hi & _). cbn [fst snd] in Hi. rewrite Hi. exact Hinfo.
Qed.

(** The listing of a server with one hosted room. *)
Lemma listings_show_the_rooms_with_players_witness :
  let rnd : Rng := fun _ => 1 / 2 in
  let sv :=
    fst (handle 1000 rnd
                (ReqHost "a" (Some (mkHostData None None None))) Server.init) in
  reachable sv /\
  onGetServers "b" sv = (sv, [ToSocket "b" (EvServers (httpServers sv))]).
Proof.
  intros rnd sv.
  assert (Hrnd : unit_rng rnd) by (intros n; unfold rnd; lra).
  assert (Hr : reachable sv) by (apply reach_step; [apply reach_init|exact Hrnd]).
  split; [exact Hr|].
  exact (proj1 (listings_show_the_rooms_with_players sv "b" Hr)).
Defined.

(** ** Rooms are kept, and kept apart *)

Lemma handle_keeps_keys now rnd req sv k :
  In k (map fst (Server.games sv)) ->
  In k (map fst (Server.games (fst (handle now rnd req sv)))) \/
  req = CleanupTimer k /\
  exists game, lookup k (Server.games sv) = Some game /\
               Game.players game = [] /\ Game.cleanupTimer game = true.
Proof.
  intros Hin.
  destruct req as [sid data|sid inputs|sid angle|sid text|sid|sid data|sid|gameId|];
    cbn [handle].
  - left. unfold onJoin. destruct data as [dta|]; [|exact Hin].
    destruct (jd_serverId dta) as [gameId|]; [|exact Hin].
    destruct (String.eqb gameId ""); [exact Hin|].
    destruct (lookup gameId (Server.games sv)) as [game|] eqn:Hl; [|exact Hin].
    cbn. apply keys_insert. right. exact Hin.
  - left. unfold onInput.
    destruct (lookup sid (Server.socketGameId sv)) as [gameId|]; [|exact Hin].
    destruct (lookup gameId (Server.games sv)) as [game|] eqn:Hl; [|exact Hin].
    destruct (lookup sid (Game.players game)) as [player|] eqn:Hp; [|exact Hin].
    destruct inputs as [items|]; [|exact Hin].
    cbn. apply keys_insert. right. exact Hin.
  - left. unfold onShoot.
    destruct (lookup sid (Server.socketGameId sv)) as [gameId|]; [|exact Hin].
    destruct (lookup gameId (Server.games sv)) as [game|] eqn:Hl; [|exact Hin].
    destruct (lookup sid (Game.players game)) as [player|] eqn:Hp; [|exact Hin].
    destruct (Player.dead player); [exact Hin|].
    destruct (_ <? _)%Z; [exact Hin|].
    cbn. apply keys_insert. right. exact Hin.
  - left. unfold onChatMessage.
    destruct (lookup sid (Server.socketGameId sv)) as [gameId|]; [|exact Hin].
    destruct (lookup gameId (Server.games sv)) as [game|] eqn:Hl; [|exact Hin].
    destruct (lookup sid (Game.players game)) as [player|] eqn:Hp; [|exact Hin].
    destruct (String.eqb _ ""); [exact Hin|].
    cbn. apply keys_insert. right. exact Hin.
  - left. exact Hin.
  - left. unfold onHost. destruct data as [dta|]; [|exact Hin].
    cbn [fst Server.games]. apply keys_insert. right. exact Hin.
  - left. unfold onDisconnect.
    destruct (lookup sid (Server.socketGameId sv)) as [gameId|]; [|exact Hin].
    destruct (lookup gameId (Server.games sv)) as [game|] eqn:Hl; [|exact Hin].
    cbn. apply keys_insert. right. exact Hin.
  - unfold onCleanupTimer.
    destruct (lookup gameId (Server.games sv)) as [game|] eqn:Hl; [|left; exact Hin].
    destruct (Game.cleanupTimer game) eqn:Ht; [|left; exact Hin].
    destruct (Game.players game) eqn:Hp; [|left; exact Hin].
    destruct (string_dec k gameId) as [->|Hne].
    + right. split; [reflexivity|]. exists game. repeat split; assumption.
    + left. cbn. clear -Hin Hne.
      induction (Server.games sv) as [|[k0 v0] rest IH]; [exact Hin|].
      cbn in *. destruct (String.eqb_spec gameId k0) as [->|Hk].
      * destruct Hin as [He|Hin]; [congruence|exact Hin].
      * cbn. destruct Hin as [He|Hin]; [left; exact He|right; apply IH, Hin].
  - left. unfold onTick.
    destruct (tickGames_keys now (Server.games sv) rnd sv (fun k H => H))
      as (Hg & _).
    rewrite Hg. exact Hin.
Qed.

(** X8.  Nothing deletes a room that holds a player: a room that is
    there before a request or a tick and gone after it had no players, and
    the step was that room's cleanup timer firing. *)
Theorem only_the_timer_deletes_a_room_and_only_an_empty_one :
  forall (now : Z) (rnd : Rng) (req : Request) (sv : Server.t)
         (gameId : string) (game : Game.t),
    lookup gameId (Server.games sv) = Some game ->
    lookup gameId (Server.games (fst (handle now rnd req sv))) = None ->
    req = CleanupTimer gameId /\ Game.players game = [].
Proof.
  intros now rnd req sv gameId game Hl Hgone.
  destruct (handle_keeps_keys now rnd req sv gameId (lookup_Some_key _ _ _ Hl))
    as [Hin|(Hreq & game0 & Hl0 & Hp & _)].
  - apply lookup_None_keys in Hgone. contradiction.
  - rewrite Hl in Hl0. injection Hl0 as <-. split; assumption.
Qed.

(** The timer of a room whose only player has left. *)
Lemma only_the_timer_deletes_a_room_and_only_an_empty_one_witness :
  let rnd : Rng := fun _ => 1 / 2 in
  let hosted :=
    fst (onHost 1000 rnd "a" (Some (mkHostData None None None)) Server.init) in
  let sv := fst (onDisconnect 2000 "a" hosted) in
  let game :=
    leaveGame 2000 "a" (hostGame 1000 rnd "a" "game_1" "Game 1" "green" None) in
  lookup "game_1"%string (Server.games sv) = Some game /\
  lookup "game_1"%string
         (Server.games (fst (handle 13000 rnd (CleanupTimer "game_1") sv))) = None /\
  Game.players game = [].
Proof.
  intros rnd hosted sv game.
  assert (H1 : lookup "game_1"%string (Server.games sv) = Some game) by reflexivity.
  assert (H2 : lookup "game_1"%string
                 (Server.games (fst (handle 13000 rnd (CleanupTimer "game_1") sv)))
               = None) by reflexivity.
  split; [exact H1|]. split; [exact H2|].
  exact (proj2 (only_the_timer_deletes_a_room_and_only_an_empty_one
                  13000 rnd (CleanupTimer "game_1") sv "game_1" game H1 H2)).
Defined.

(** X9.  A request other than the tick writes to at most one room: the
    room a [join] names, the room the socket of an [input], [shoot],
    [chat:message] or [disconnect] has claimed, the room a [host] creates,
    the room of a cleanup timer.  Every other room is as it was. *)
Theorem requests_leave_other_rooms_alone :
  forall (now : Z) (rnd : Rng) (req : Request) (sv : Server.t) (other : string),
    req <> Tick ->
    touchedRoom req sv <> Some other ->
    lookup other (Server.games (fst (handle now rnd req sv))) =
    lookup other (Server.games sv).
Proof.
  intros now rnd req sv other Hreq Hother.
  destruct req as [sid data|sid inputs|sid angle|sid text|sid|sid data|sid|gameId|];
    cbn [handle touchedRoom] in *.
  - unfold onJoin. destruct data as [dta|]; [|reflexivity].
    destruct (jd_serverId dta) as [gameId|]; [|reflexivity].
    destruct (String.eqb gameId ""); [reflexivity|].
    destruct (lookup gameId (Server.games sv)) as [game|]; [|reflexivity].
    cbn. apply lookup_insert_ne. congruence.
  - unfold onInput.
    destruct (lookup sid (Server.socketGameId sv)) as [gameId|]; [|reflexivity].
    destruct (lookup gameId (Server.games sv)) as [game|]; [|reflexivity].
    destruct (lookup sid (Game.players game)) as [player|]; [|reflexivity].
    destruct inputs as [items|]; [|reflexivity].
    cbn. apply lookup_insert_ne. congruence.
  - unfold onShoot.
    destruct (lookup sid (Server.socketGameId sv)) as [gameId|]; [|reflexivity].
    destruct (lookup gameId (Server.games sv)) as [game|]; [|reflexivity].
    destruct (lookup sid (Game.players game)) as [player|]; [|reflexivity].
    destruct (Player.dead player); [reflexivity|].
    destruct (_ <? _)%Z; [reflexivity|].
    cbn. apply lookup_insert_ne. congruence.
  - unfold onChatMessage.
    destruct (lookup sid (Server.socketGameId sv)) as [gameId|]; [|reflexivity].
    destruct (lookup gameId (Server.games sv)) as [game|]; [|reflexivity].
    destruct (lookup sid (Game.players game)) as [player|]; [|reflexivity].
    destruct (String.eqb _ ""); [reflexivity|].
    cbn. apply lookup_insert_ne. congruence.
  - reflexivity.
  - unfold onHost. destruct data as [dta|]; [|reflexivity].
    cbn [fst Server.games]. apply lookup_insert_ne.
    intros ->. apply Hother. reflexivity.
  - unfold onDisconnect.
    destruct (lookup sid (Server.socketGameId sv)) as [gameId|]; [|reflexivity].
    destruct (lookup gameId (Server.games sv)) as [game|]; [|reflexivity].
    cbn. apply lookup_insert_ne. congruence.
  - unfold onCleanupTimer.
    destruct (lookup gameId (Server.games sv)) as [game|]; [|reflexivity].
    destruct (Game.cleanupTimer game); [|reflexivity].
    destruct (Game.players game); [|reflexivity].
    cbn. apply lookup_remove_ne. congruence.
  - contradiction.
Qed.

(** A shot in the second room leaves the first as it was. *)
Lemma requests_leave_other_rooms_alone_witness :
  let rnd : Rng := fun _ => 1 / 2 in
  let one :=
    fst (onHost 1000 rnd "a" (Some (mkHostData None None None)) Server.init) in
  let sv := fst (onHost 1500 rnd "b" (Some (mkHostData None None None)) one) in
  let req := ReqShoot "b" (Some 0) in
  req <> Tick /\
  touchedRoom req sv <> Some "game_1"%string /\
  lookup "game_1"%string (Server.games (fst (handle 2000 rnd req sv))) =
  lookup "game_1"%string (Server.games sv).
Proof.
  intros rnd one sv req.
  assert (H1 : req <> Tick) by discriminate.
  assert (H2 : touchedRoom req sv <> Some "game_1"%string) by (cbn; discriminate).
  split; [exact H1|]. split; [exact H2|].
  exact (requests_leave_other_rooms_alone 2000 rnd req sv "game_1" H1 H2).
Defined.
(** ** The tick, player by player *)

Section Pointwise.
Context {V : Type}.
Implicit Types (m : list (string * V)) (k : string) (v : V).

Lemma pointwise_keys (R : V -> V -> Prop) m m' :
  pointwise R m m' -> map fst m' = map fst m.
Proof.
  induction 1 as [|kv kv' l l' (Hk & _) _ IH]; [reflexivity|].
  cbn. rewrite Hk, IH. reflexivity.
Qed.

Lemma pointwise_refl (R : V -> V -> Prop) m :
  (forall v, R v v) -> pointwise R m m.
Proof.
  intros Hr. induction m as [|kv rest IH]; constructor; [|exact IH].
  split; [reflexivity|apply Hr].
Qed.

Lemma pointwise_step (R S T : V -> V -> Prop) m1 m2 m3 :
  (forall x y z, R x y -> S y z -> T x z) ->
  pointwise R m1 m2 -> pointwise S m2 m3 -> pointwise T m1 m3.
Proof.
  intros Ht H12. revert m3.
  induction H12 as [|a b l l' (Hk & Hr) _ IH]; intros m3 H23;
    inversion H23 as [|? c ? l'' (Hk' & Hs) Hrest]; subst; constructor.
  - split; [congruence|]. eapply Ht; eassumption.
  - apply IH, Hrest.
Qed.

Lemma pointwise_impl (R S : V -> V -> Prop) m m' :
  (forall x y, R x y -> S x y) -> pointwise R m m' -> pointwise S m m'.
Proof.
  intros Hi H. eapply Forall2_impl; [|exact H].
  cbn. intros a b (Hk & Hr). split; [exact Hk|apply Hi, Hr].
Qed.

Lemma pointwise_mapValues (R : V -> V -> Prop) (f : V -> V) m :
  (forall v, R v (f v)) -> pointwise R m (mapValues f m).
Proof.
  intros Hf. induction m as [|kv rest IH]; constructor; [|exact IH].
  split; [reflexivity|apply Hf].
Qed.

Lemma pointwise_insert (R : V -> V -> Prop) k v v' m :
  (forall x, R x x) ->
  lookup k m = Some v -> R v v' -> pointwise R m (insert k v' m).
Proof.
  intros Hr Hl Hv. induction m as [|[k0 v0] rest IH]; [discriminate|].
  cbn in *. destruct (String.eqb_spec k k0) as [->|Hne].
  - injection Hl as ->. constructor; [split; [reflexivity|exact Hv]|].
    apply pointwise_refl, Hr.
  - constructor; [split; [reflexivity|apply Hr]|apply IH, Hl].
Qed.

Lemma pointwise_lookup (R : V -> V -> Prop) k v m m' :
  pointwise R m m' -> lookup k m = Some v ->
  exists v', lookup k m' = Some v' /\ R v v'.
Proof.
  induction 1 as [|[k0 v0] [k1 v1] l l' (Hk & Hr) _ IH]; [discriminate|].
  cbn in *. subst k1. destruct (String.eqb k k0).
  - intros [= <-]. exists v1. split; [reflexivity|exact Hr].
  - exact IH.
Qed.

Lemma pointwise_In (R : V -> V -> Prop) k v' m m' :
  pointwise R m m' -> In (k, v') m' -> exists v, In (k, v) m /\ R v v'.
Proof.
  induction 1 as [|[k0 v0] [k1 v1] l l' (Hk & Hr) _ IH]; [intros []|].
  cbn in *. subst k1. intros [He|Hin].
  - injection He as -> ->. exists v0. split; [left; reflexivity|exact Hr].
  - destruct (IH Hin) as (v & Hv & Hrv). exists v. split; [right; exact Hv|exact Hrv].
Qed.

End Pointwise.

Lemma damaged_trans now p q r :
  damaged now p q -> damaged now q r -> damaged now p r.
Proof.
  intros Hpq Hqr. induction Hqr as [|s shooter Hqs IH Hd Hi]; [exact Hpq|].
  apply damaged_hit; assumption.
Qed.

Lemma empowered_trans now p q r :
  empowered now p q -> empowered now q r -> empowered now p r.
Proof.
  intros Hpq Hqr. induction Hqr as [|s ty Hqs IH Hd]; [exact Hpq|].
  apply empowered_one; assumption.
Qed.

Lemma stepBullet_damaged now gameId bullet players scores :
  NoDup (map fst players) ->
  pointwise (damaged now) players
            (fst (snd (fst (stepBullet now gameId bullet (players, scores))))).
Proof.
  intros Hnd. unfold stepBullet. cbn [fst].
  destruct (findTarget bullet players) as [[id target]|] eqn:Hf.
  - destruct (findTarget_spec _ _ _ _ Hf) as (Hin & _ & Hd & Hi & _).
    cbn. apply pointwise_insert with (v := target).
    + intros x. apply damaged_none.
    + apply In_lookup; assumption.
    + apply damaged_hit; [apply damaged_none|exact Hd|exact Hi].
  - destruct (moveBullet now gameId bullet) as [ob ev]. cbn.
    apply pointwise_refl. intros x. apply damaged_none.
Qed.

Lemma bulletPass_damaged now gameId bullets players scores :
  NoDup (map fst players) ->
  pointwise (damaged now) players
            (fst (snd (fst (bulletPass now gameId bullets (players, scores))))).
Proof.
  intros Hnd. induction bullets as [|bullet later IH].
  - cbn. apply pointwise_refl. intros x. apply damaged_none.
  - cbn [bulletPass].
    destruct (bulletPass now gameId later (players, scores))
      as [[later' [players1 scores1]] ev1].
    cbn [fst snd] in IH.
    pose proof (stepBullet_damaged now gameId bullet players1 scores1) as Hs.
    destruct (stepBullet now gameId bullet (players1, scores1))
      as [[ob [players2 scores2]] ev2].
    cbn [fst snd] in *.
    eapply pointwise_step; [|exact IH|apply Hs].
    + intros x y z. apply damaged_trans.
    + rewrite (pointwise_keys _ _ _ IH). exact Hnd.
Qed.

Lemma collector_spec powerUp players playerId :
  collector powerUp players = Some playerId ->
  exists player, In (playerId, player) players /\ Player.dead player = false.
Proof.
  induction players as [|[id p] rest IH]; cbn; [discriminate|].
  destruct (Player.dead p) eqn:Hd.
  - intros H. destruct (IH H) as (q & Hin & Hq). exists q. split; [right|]; assumption.
  - destruct (Rlt_dec _ _).
    + intros [= <-]. exists p. split; [left; reflexivity|exact Hd].
    + intros H. destruct (IH H) as (q & Hin & Hq). exists q.
      split; [right|]; assumption.
Qed.

Lemma applyPowerUp_empowered now powerUp ty players playerId :
  NoDup (map fst players) ->
  collector powerUp players = Some playerId ->
  pointwise (empowered now) players (applyPowerUp now playerId ty players).
Proof.
  intros Hnd Hc. destruct (collector_spec _ _ _ Hc) as (player & Hin & Hd).
  assert (Hl : lookup playerId players = Some player)
    by (apply In_lookup; assumption).
  unfold applyPowerUp. rewrite Hl.
  apply pointwise_insert with (v := player);
    [intros x; apply empowered_none|exact Hl|].
  apply empowered_one; [apply empowered_none|exact Hd].
Qed.

Lemma powerUpPass_empowered now powerUps :
  forall players,
    NoDup (map fst players) ->
    pointwise (empowered now) players (snd (powerUpPass now powerUps players)).
Proof.
  induction powerUps as [|powerUp rest IH]; intros players Hnd.
  - cbn. apply pointwise_refl. intros x. apply empowered_none.
  - cbn [powerUpPass]. destruct (_ <? _)%Z; [apply IH, Hnd|].
    destruct (collector powerUp players) as [playerId|] eqn:Hc.
    + eapply pointwise_step; [| |apply IH].
      * intros x y z. apply empowered_trans.
      * eapply applyPowerUp_empowered; eassumption.
      * rewrite applyPowerUp_keys. exact Hnd.
    + specialize (IH players Hnd).
      destruct (powerUpPass now rest players) as [rest' players']. exact IH.
Qed.

Lemma tickGame_each now rnd gameId last game :
  NoDup (map fst (Game.players game)) ->
  unit_rng rnd ->
  pointwise (tickedPlayer now) (Game.players game)
            (Game.players (tickedGame (tickGame now rnd gameId last game))).
Proof.
  intros Hnd Hrnd.
  destruct (tickGame_passes now rnd gameId last game) as (Hp & _).
  rewrite Hp. clear Hp.
  pose proof (bulletPass_damaged now gameId (Game.bullets game)
                (Game.players game) (Game.scores game) Hnd) as H1.
  set (players1 := fst (snd (fst (bulletPass now gameId (Game.bullets game)
                                             (Game.players game, Game.scores game)))))
    in *.
  set (rnd1 := rng_drop (snd (spawnCheck now rnd (int_or last 0) game)) rnd).
  assert (Hrnd1 : unit_rng rnd1) by (apply unit_rng_drop, Hrnd).
  pose proof (respawnPass_each now (mapValues processInputs players1) rnd1) as H3.
  set (players3 := fst (respawnPass now rnd1 (mapValues processInputs players1))) in *.
  assert (Hnd3 : NoDup (map fst players3)).
  { unfold players3. rewrite respawnPass_keys, keys_mapValues.
    rewrite (pointwise_keys _ _ _ H1). exact Hnd. }
  pose proof (powerUpPass_empowered now
                (Game.powerUps (snd (fst (spawnCheck now rnd (int_or last 0) game))))
                players3 Hnd3) as H4.
  set (players4 := snd (powerUpPass now _ players3)) in *.
  assert (H2 : pointwise (fun p1 p2 => p2 = processInputs p1) players1
                         (mapValues processInputs players1))
    by (apply pointwise_mapValues; reflexivity).
  assert (H5 : pointwise (fun p4 p5 => p5 = expireEffects now p4) players4
                         (mapValues (expireEffects now) players4))
    by (apply pointwise_mapValues; reflexivity).
  assert (H3' : pointwise
                  (fun p2 p3 =>
                     (shouldRespawn now p2 = false /\ p3 = p2) \/
                     (shouldRespawn now p2 = true /\
                      exists rnd', unit_rng rnd' /\ p3 = respawn now rnd' p2))
                  (mapValues processInputs players1) players3).
  { eapply Forall2_impl; [|exact H3]. cbn.
    intros a b (Hk & [H|(Hs & rnd' & Hu & He)]); split; auto.
    right. split; [exact Hs|]. exists rnd'. split; [apply Hu, Hrnd1|exact He]. }
  clear H3.
  assert (H23 : pointwise
                  (fun p1 p3 =>
                     (shouldRespawn now (processInputs p1) = false /\
                      p3 = processInputs p1) \/
                     (shouldRespawn now (processInputs p1) = true /\
                      exists rnd', unit_rng rnd' /\
                                   p3 = respawn now rnd' (processInputs p1)))
                  players1 players3).
  { refine (pointwise_step _ _ _ _ _ _ _ H2 H3').
    intros x y z -> H. exact H. }
  pose proof (pointwise_step _ _
                (fun p4 p5 => exists q, empowered now p4 q /\
                                        p5 = expireEffects now q)
                _ _ _ (fun x y z Hxy Hyz => ex_intro _ y (conj Hxy Hyz))
                H4 H5) as H45.
  pose proof (pointwise_step _ _
                (fun p p3 => exists p1, damaged now p p1 /\
                   ((shouldRespawn now (processInputs p1) = false /\
                     p3 = processInputs p1) \/
                    (shouldRespawn now (processInputs p1) = true /\
                     exists rnd', unit_rng rnd' /\
                                  p3 = respawn now rnd' (processInputs p1))))
                _ _ _ (fun x y z Hxy Hyz => ex_intro _ y (conj Hxy Hyz))
                H1 H23) as H13.
  refine (pointwise_step _ _ _ _ _ _ _ H13 H45).
  intros p p3 p5 (p1 & Hd & Hr) (p4 & He & ->).
  exists p1, p3, p4. repeat split; assumption.
Qed.
(** ** What each pass leaves of a player *)

Lemma applyDamage_frame now damage p :
  let q := applyDamage now damage p in
  Player.x q = Player.x p /\ Player.y q = Player.y p /\
  Player.vx q = Player.vx p /\ Player.vy q = Player.vy p /\
  Player.rotation q = Player.rotation p /\
  Player.lastProcessedInput q = Player.lastProcessedInput p /\
  Player.inputQueue q = Player.inputQueue p.
Proof.
  cbv zeta. unfold applyDamage. destruct p. cbn.
  destruct (Rle_dec _ 0); cbn; repeat split.
Qed.

Lemma applyDamage_respawn now damage p :
  Player.dead p = false ->
  shouldRespawn now (applyDamage now damage p) = false.
Proof.
  intros Hd. unfold applyDamage, shouldRespawn. destruct p. cbn in *. subst.
  destruct (Rle_dec _ 0); cbn; [|reflexivity].
  unfold RESPAWN_TIME.
  destruct (Z.ltb_spec (now + 3000) now); [lia|].
  apply andb_false_r.
Qed.

Lemma damaged_dead now p q :
  damaged now p q -> Player.dead p = true -> q = p.
Proof.
  induction 1 as [|q shooter Hpq IH Hd Hi]; [reflexivity|].
  intros Hp. rewrite (IH Hp) in Hd. congruence.
Qed.

Lemma damaged_frame now p q :
  damaged now p q ->
  Player.x q = Player.x p /\ Player.y q = Player.y p /\
  Player.vx q = Player.vx p /\ Player.vy q = Player.vy p /\
  Player.rotation q = Player.rotation p /\
  Player.lastProcessedInput q = Player.lastProcessedInput p /\
  Player.inputQueue q = Player.inputQueue p.
Proof.
  induction 1 as [|q shooter Hpq IH Hd Hi]; [repeat split|].
  destruct (applyDamage_frame now (bulletDamage shooter q) q)
    as (H1 & H2 & H3 & H4 & H5 & H6 & H7).
  destruct IH as (I1 & I2 & I3 & I4 & I5 & I6 & I7).
  repeat split; congruence.
Qed.

Lemma damaged_respawn now p q :
  damaged now p q -> shouldRespawn now p = false -> shouldRespawn now q = false.
Proof.
  induction 1 as [|q shooter Hpq IH Hd Hi]; [auto|].
  intros _. apply applyDamage_respawn, Hd.
Qed.

Lemma applyInput_life player input :
  Player.dead (applyInput player input) = Player.dead player /\
  Player.respawnTime (applyInput player input) = Player.respawnTime player.
Proof.
  unfold applyInput. destruct (Input.inputs input) as [k|]; [|auto].
  cbv zeta. destruct (moveWithin _ _ _ _ _ _ _ _ _) as [[px pvx] [py pvy]].
  destruct (Input.rotation input), (Input.turretRotation input),
    (Input.seq input), player; cbn; auto.
Qed.

Lemma drainQueue_life queue :
  forall player,
    Player.dead (drainQueue queue player) = Player.dead player /\
    Player.respawnTime (drainQueue queue player) = Player.respawnTime player.
Proof.
  induction queue as [|[input|] rest IH]; intros player; cbn; [auto| |apply IH].
  destruct (IH (applyInput player input)) as (H1 & H2).
  destruct (applyInput_life player input) as (H3 & H4).
  split; congruence.
Qed.

Lemma processInputs_respawn now player :
  shouldRespawn now (processInputs player) = shouldRespawn now player.
Proof.
  unfold processInputs, shouldRespawn.
  destruct (drainQueue_life (Player.inputQueue player) player) as (H1 & H2).
  destruct (drainQueue _ player). cbn in *. rewrite H1, H2. reflexivity.
Qed.

Lemma processInputs_idle player :
  Player.inputQueue player = [] -> processInputs player = player.
Proof.
  intros Hq. unfold processInputs. rewrite Hq. cbn.
  destruct player. cbn in *. subst. reflexivity.
Qed.

Lemma respawn_fields now rnd player :
  let q := respawn now rnd player in
  Player.x q = fst (getRandomSpawn rnd) /\ Player.y q = snd (getRandomSpawn rnd) /\
  Player.vx q = 0 /\ Player.vy q = 0 /\ Player.hp q = MAX_HP /\
  Player.dead q = false /\ Player.lastShotTime q = 0%Z /\
  Player.invulnerable q = true /\
  Player.invulnerableExpireTime q = Some (now + 3000)%Z /\
  Player.lastProcessedInput q = Player.lastProcessedInput player /\
  Player.inputQueue q = Player.inputQueue player.
Proof. destruct player. cbn. repeat split. Qed.

Lemma applyPowerUpTo_frame now ty p :
  let q := applyPowerUpTo now ty p in
  Player.x q = Player.x p /\ Player.y q = Player.y p /\
  Player.vx q = Player.vx p /\ Player.vy q = Player.vy p /\
  Player.rotation q = Player.rotation p /\
  Player.dead q = Player.dead p /\
  Player.lastShotTime q = Player.lastShotTime p /\
  Player.invulnerable q = Player.invulnerable p /\
  Player.invulnerableExpireTime q = Player.invulnerableExpireTime p /\
  Player.lastProcessedInput q = Player.lastProcessedInput p /\
  Player.inputQueue q = Player.inputQueue p.
Proof. destruct ty, p; cbn; repeat split. Qed.

Lemma empowered_frame now p q :
  empowered now p q ->
  Player.x q = Player.x p /\ Player.y q = Player.y p /\
  Player.vx q = Player.vx p /\ Player.vy q = Player.vy p /\
  Player.rotation q = Player.rotation p /\
  Player.dead q = Player.dead p /\
  Player.lastShotTime q = Player.lastShotTime p /\
  Player.invulnerable q = Player.invulnerable p /\
  Player.invulnerableExpireTime q = Player.invulnerableExpireTime p /\
  Player.lastProcessedInput q = Player.lastProcessedInput p /\
  Player.inputQueue q = Player.inputQueue p.
Proof.
  induction 1 as [|q ty Hpq IH Hd]; [repeat split|].
  pose proof (applyPowerUpTo_frame now ty q) as Hf. cbv zeta in Hf.
  repeat match goal with
         | H : _ /\ _ |- _ => destruct H
         end.
  repeat split; congruence.
Qed.

Lemma empowered_dead now p q : empowered now p q -> Player.dead p = true -> q = p.
Proof.
  induction 1 as [|q ty Hpq IH Hd]; [reflexivity|].
  intros Hp. rewrite (IH Hp) in Hd. congruence.
Qed.

Lemma empowered_full now p q :
  empowered now p q -> Player.hp p = MAX_HP -> Player.hp q = MAX_HP.
Proof.
  induction 1 as [|q ty Hpq IH Hd]; [auto|].
  intros Hp. specialize (IH Hp). rewrite applyPowerUpTo_hp.
  destruct ty; try exact IH. rewrite IH. unfold MAX_HP.
  unfold Rmin. destruct (Rle_dec 100 (100 + 50)); lra.
Qed.

Lemma expireEffects_frame now p :
  let q := expireEffects now p in
  Player.x q = Player.x p /\ Player.y q = Player.y p /\
  Player.vx q = Player.vx p /\ Player.vy q = Player.vy p /\
  Player.rotation q = Player.rotation p /\
  Player.hp q = Player.hp p /\
  Player.dead q = Player.dead p /\
  Player.respawnTime q = Player.respawnTime p /\
  Player.lastShotTime q = Player.lastShotTime p /\
  Player.lastProcessedInput q = Player.lastProcessedInput p /\
  Player.inputQueue q = Player.inputQueue p.
Proof.
  cbv zeta. unfold expireEffects. destruct p. cbn.
  repeat match goal with
  | |- context [if ?c then _ else _] => destruct c; cbn
  end; repeat split.
Qed.

Lemma expireEffects_invulnerable now e p :
  Player.invulnerable p = true ->
  Player.invulnerableExpireTime p = Some e -> (now <= e)%Z ->
  Player.invulnerable (expireEffects now p) = true /\
  Player.invulnerableExpireTime (expireEffects now p) = Some e.
Proof.
  intros Hi He Hle. unfold expireEffects. destruct p. cbn -[expired] in *. subst.
  assert (Hx : expired now true (Some e) = false).
  { unfold expired. cbn. destruct (Z.ltb_spec e now); [lia|]. apply andb_false_r. }
  repeat (match goal with
          | |- context [if expired now ?f ?t then _ else _] =>
            is_var f; destruct (expired now f t)
          end; cbn -[expired]);
    rewrite Hx; split; reflexivity.
Qed.

(** X10.  A dead player whose respawn time has passed is alive after the
    room's tick: at a spawn point at least 20 from every edge, at rest, with
    full hit points, the shot cooldown reset, and invulnerable until 3000 ms
    after the tick.  (The room's players have distinct ids.) *)
Theorem tick_respawns_a_player_who_is_due :
  forall (now : Z) (rnd : Rng) (gameId : string) (last : option Z)
         (game : Game.t) (id : string) (p : Player.t),
    NoDup (map fst (Game.players game)) ->
    unit_rng rnd ->
    lookup id (Game.players game) = Some p ->
    Player.dead p = true ->
    Player.respawnTime p <> 0%Z ->
    (Player.respawnTime p < now)%Z ->
    exists p',
      lookup id (Game.players (tickedGame (tickGame now rnd gameId last game)))
      = Some p' /\
      Player.dead p' = false /\ Player.hp p' = MAX_HP /\
      Player.vx p' = 0 /\ Player.vy p' = 0 /\
      20 <= Player.x p' <= MAP_WIDTH - 20 /\
      20 <= Player.y p' <= MAP_HEIGHT - 20 /\
      Player.lastShotTime p' = 0%Z /\
      Player.invulnerable p' = true /\
      Player.invulnerableExpireTime p' = Some (now + 3000)%Z.
Proof.
  intros now rnd gameId last game id p Hnd Hrnd Hl Hdead Hne Hlt.
  destruct (pointwise_lookup _ _ _ _ _
              (tickGame_each now rnd gameId last game Hnd Hrnd) Hl)
    as (p' & Hl' & p1 & p3 & p4 & Hd & Hr & He & ->).
  exists (expireEffects now p4). split; [exact Hl'|].
  rewrite (damaged_dead _ _ _ Hd Hdead) in Hr. clear Hd p1.
  assert (Hs : shouldRespawn now p = true).
  { unfold shouldRespawn. rewrite Hdead.
    destruct (Z.eqb_spec (Player.respawnTime p) 0); [contradiction|].
    destruct (Z.ltb_spec (Player.respawnTime p) now); [reflexivity|lia]. }
  rewrite processInputs_respawn, Hs in Hr.
  destruct Hr as [(Hf & _)|(_ & rnd' & Hu & ->)]; [discriminate|].
  pose proof (respawn_fields now rnd' (processInputs p)) as Hrf. cbv zeta in Hrf.
  destruct Hrf as (Rx & Ry & Rvx & Rvy & Rhp & Rd & Rls & Ri & Rie & _).
  pose proof (empowered_full _ _ _ He Rhp) as Hhp.
  destruct (empowered_frame _ _ _ He)
    as (Ex & Ey & Evx & Evy & _ & Ed & Els & Ei & Eie & _).
  pose proof (expireEffects_frame now p4) as Hxf. cbv zeta in Hxf.
  destruct Hxf as (Xx & Xy & Xvx & Xvy & _ & Xhp & Xd & _ & Xls & _).
  destruct (expireEffects_invulnerable now (now + 3000) p4) as (Xi & Xie);
    [congruence|congruence|lia|].
  pose proof (spawn_coordinate (rnd' 0%nat) MAP_WIDTH (Hu 0%nat)) as Sx.
  pose proof (spawn_coordinate (rnd' 1%nat) MAP_HEIGHT (Hu 1%nat)) as Sy.
  unfold getRandomSpawn in Rx, Ry. cbn [fst snd] in Rx, Ry.
  split; [congruence|]. split; [congruence|]. split; [congruence|].
  split; [congruence|].
  split; [rewrite Xx, Ex, Rx; unfold MAP_WIDTH in *; lra|].
  split; [rewrite Xy, Ey, Ry; unfold MAP_HEIGHT in *; lra|].
  split; [congruence|]. split; [exact Xi|exact Xie].
Qed.

(** A player who died at 1000 and is due at 4000, ticked at 5000. *)
Lemma tick_respawns_a_player_who_is_due_witness :
  let rnd : Rng := fun _ => 1 / 2 in
  let p :=
    Player.set_respawnTime 4000
      (Player.set_dead true
         (Player.set_hp 0 (Player.fresh "a" 100 100 "" "#e74c3c"))) in
  let game :=
    Game.mk "game_1" "Game 1" "green" [("a"%string, p)] [] [] [("a"%string, 0%Z)]
            [] false in
  NoDup (map fst (Game.players game)) /\
  unit_rng rnd /\
  lookup "a"%string (Game.players game) = Some p /\
  Player.dead p = true /\
  Player.respawnTime p <> 0%Z /\
  (Player.respawnTime p < 5000)%Z /\
  exists p',
    lookup "a"%string
           (Game.players (tickedGame (tickGame 5000 rnd "game_1" None game)))
    = Some p' /\
    Player.dead p' = false /\ Player.hp p' = MAX_HP.
Proof.
  intros rnd p game.
  assert (Hnd : NoDup (map fst (Game.players game)))
    by (repeat constructor; intros []).
  assert (Hrnd : unit_rng rnd) by (intros n; unfold rnd; lra).
  assert (Hl : lookup "a"%string (Game.players game) = Some p) by reflexivity.
  assert (Hd : Player.dead p = true) by reflexivity.
  assert (Hne : Player.respawnTime p <> 0%Z) by (cbn; lia).
  assert (Hlt : (Player.respawnTime p < 5000)%Z) by (cbn; lia).
  repeat (split; [assumption|]).
  destruct (tick_respawns_a_player_who_is_due
              5000 rnd "game_1" None game "a" p Hnd Hrnd Hl Hd Hne Hlt)
    as (p' & Hl' & Hd' & Hhp & _).
  exists p'. repeat split; assumption.
Defined.

(** ** The acknowledged sequence number *)






(** X12.  A tick moves a tank only by its queued input or by a respawn:
    a player with an empty queue who is not due to respawn has the same
    position, velocity and acknowledged sequence number after the tick,
    whatever hit it or was collected. *)
Theorem tick_moves_no_idle_player :
  forall (now : Z) (rnd : Rng) (gameId : string) (last : option Z)
         (game : Game.t) (id : string) (p : Player.t),
    NoDup (map fst (Game.players game)) ->
    unit_rng rnd ->
    lookup id (Game.players game) = Some p ->
    Player.inputQueue p = [] ->
    shouldRespawn now p = false ->
    exists p',
      lookup id (Game.players (tickedGame (tickGame now rnd gameId last game)))
      = Some p' /\
      Player.x p' = Player.x p /\ Player.y p' = Player.y p /\
      Player.vx p' = Player.vx p /\ Player.vy p' = Player.vy p /\
      Player.rotation p' = Player.rotation p /\
      Player.lastProcessedInput p' = Player.lastProcessedInput p.
Proof.
  intros now rnd gameId last game id p Hnd Hrnd Hl Hq Hs.
  destruct (pointwise_lookup _ _ _ _ _
              (tickGame_each now rnd gameId last game Hnd Hrnd) Hl)
    as (p' & Hl' & p1 & p3 & p4 & Hd & Hr & He & ->).
  exists (expireEffects now p4). split; [exact Hl'|].
  destruct (damaged_frame _ _ _ Hd) as (Dx & Dy & Dvx & Dvy & Dr & Dl & Dq).
  pose proof (damaged_respawn _ _ _ Hd Hs) as Hs1.
  rewrite processInputs_respawn, Hs1 in Hr.
  destruct Hr as [(_ & ->)|(Hf & _)]; [|discriminate].
  rewrite processInputs_idle in He by congruence.
  destruct (empowered_frame _ _ _ He)
    as (Ex & Ey & Evx & Evy & Er & _ & _ & _ & _ & El & _).
  pose proof (expireEffects_frame now p4) as Hxf. cbv zeta in Hxf.
  destruct Hxf as (Xx & Xy & Xvx & Xvy & Xr & _ & _ & _ & _ & Xl & _).
  repeat split; congruence.
Qed.

(** A host who has sent nothing. *)
Lemma tick_moves_no_idle_player_witness :
  let rnd : Rng := fun _ => 1 / 2 in
  let p := Player.fresh "a" 100 100 "" "#e74c3c" in
  let game :=
    Game.mk "game_1" "Game 1" "green" [("a"%string, p)] [] [] [("a"%string, 0%Z)]
            [] false in
  NoDup (map fst (Game.players game)) /\
  unit_rng rnd /\
  lookup "a"%string (Game.players game) = Some p /\
  Player.inputQueue p = [] /\
  shouldRespawn 5000 p = false /\
  exists p',
    lookup "a"%string
           (Game.players (tickedGame (tickGame 5000 rnd "game_1" None game)))
    = Some p' /\
    Player.x p' = 100 /\ Player.y p' = 100.
Proof.
  intros rnd p game.
  assert (Hnd : NoDup (map fst (Game.players game)))
    by (repeat constructor; intros []).
  assert (Hrnd : unit_rng rnd) by (intros n; unfold rnd; lra).
  assert (Hl : lookup "a"%string (Game.players game) = Some p) by reflexivity.
  assert (Hq : Player.inputQueue p = []) by reflexivity.
  assert (Hs : shouldRespawn 5000 p = false) by reflexivity.
  repeat (split; [assumption|]).
  destruct (tick_moves_no_idle_player
              5000 rnd "game_1" None game "a" p Hnd Hrnd Hl Hq Hs)
    as (p' & Hl' & Hx & Hy & _).
  exists p'. repeat split; assumption.
Defined.
(** ** After a tick: effects, power-ups, bullets, scores *)

Lemma expireEffects_noneExpired now p : noneExpired now (expireEffects now p).
Proof.
  unfold noneExpired, expireEffects. destruct p. cbn -[expired].
  repeat (match goal with
          | |- context [if expired now ?f ?t then _ else _] =>
            is_var f; destruct (expired now f t) eqn:?
          end; cbn -[expired]);
    repeat split; solve [assumption | reflexivity].
Qed.

Lemma expireEffects_only_clears now p :
  let q := expireEffects now p in
  (Player.speedBoost q = true -> Player.speedBoost p = true) /\
  (Player.rapidFire q = true -> Player.rapidFire p = true) /\
  (Player.shield q = true -> Player.shield p = true) /\
  (Player.damageBoost q = true -> Player.damageBoost p = true) /\
  (Player.invulnerable q = true -> Player.invulnerable p = true).
Proof.
  cbv zeta. unfold expireEffects. destruct p. cbn -[expired].
  repeat (match goal with
          | |- context [if expired now ?f ?t then _ else _] =>
            is_var f; destruct (expired now f t) eqn:?
          end; cbn -[expired]);
    repeat split; solve [auto | discriminate].
Qed.

Lemma expireEffects_settled now p :
  noneExpired now p -> expireEffects now p = p.
Proof.
  intros (H1 & H2 & H3 & H4 & H5). unfold expireEffects.
  destruct p. cbn -[expired] in *. rewrite H1. cbn -[expired].
  rewrite H2. cbn -[expired]. rewrite H3. cbn -[expired].
  rewrite H4. cbn -[expired]. rewrite H5. reflexivity.
Qed.

(** X13.  After a room's tick no player has an effect (speed boost, rapid
    fire, shield, damage boost, invulnerability) on whose expiry time has
    passed; the expiry step only ever switches effects off, and running it
    again at the same time changes nothing. *)
Theorem tick_leaves_no_expired_effect :
  forall (now : Z) (rnd : Rng) (gameId : string) (last : option Z)
         (game : Game.t),
    allValues (noneExpired now)
              (Game.players (tickedGame (tickGame now rnd gameId last game))) /\
    (forall p,
        let q := expireEffects now p in
        (Player.speedBoost q = true -> Player.speedBoost p = true) /\
        (Player.rapidFire q = true -> Player.rapidFire p = true) /\
        (Player.shield q = true -> Player.shield p = true) /\
        (Player.damageBoost q = true -> Player.damageBoost p = true) /\
        (Player.invulnerable q = true -> Player.invulnerable p = true)) /\
    (forall p, expireEffects now (expireEffects now p) = expireEffects now p).
Proof.
  intros now rnd gameId last game. split; [|split].
  - destruct (tickGame_passes now rnd gameId last game) as (Hp & _).
    rewrite Hp. unfold allValues, mapValues. rewrite Forall_map.
    rewrite Forall_forall. intros kv _. apply expireEffects_noneExpired.
  - intros p. apply expireEffects_only_clears.
  - intros p. apply expireEffects_settled, expireEffects_noneExpired.
Qed.

(** *** Power-ups *)

Lemma collector_pointwise (R : Player.t -> Player.t -> Prop) powerUp players players' :
  (forall p q, R p q -> Player.x q = Player.x p /\ Player.y q = Player.y p /\
                        Player.dead q = Player.dead p) ->
  pointwise R players players' ->
  collector powerUp players' = collector powerUp players.
Proof.
  intros Hr. induction 1 as [|[k p] [k' q] l l' (Hk & Hpq) _ IH]; [reflexivity|].
  cbn in *. subst k'. destruct (Hr _ _ Hpq) as (Hx & Hy & Hd).
  rewrite Hx, Hy, Hd, IH. reflexivity.
Qed.

Lemma empowered_place now p q :
  empowered now p q ->
  Player.x q = Player.x p /\ Player.y q = Player.y p /\
  Player.dead q = Player.dead p.
Proof.
  intros H. destruct (empowered_frame _ _ _ H) as (Hx & Hy & _ & _ & _ & Hd & _).
  auto.
Qed.

Lemma powerUpPass_filter now powerUps :
  forall players,
    NoDup (map fst players) ->
    fst (powerUpPass now powerUps players) =
    filter (keepsPowerUp now players) powerUps.
Proof.
  induction powerUps as [|powerUp rest IH]; intros players Hnd; [reflexivity|].
  cbn [powerUpPass filter]. unfold keepsPowerUp at 1.
  destruct (_ <? _)%Z; cbn [negb andb]; [apply IH, Hnd|].
  destruct (collector powerUp players) as [playerId|] eqn:Hc.
  - rewrite IH by (rewrite applyPowerUp_keys; exact Hnd).
    apply filter_ext. intros pu. unfold keepsPowerUp. f_equal.
    rewrite (collector_pointwise (empowered now) pu players
               (applyPowerUp now playerId (PowerUp.type powerUp) players));
      [reflexivity|apply empowered_place|].
    eapply applyPowerUp_empowered; eassumption.
  - specialize (IH players Hnd).
    destruct (powerUpPass now rest players) as [rest' players']. cbn [fst] in *.
    rewrite IH. reflexivity.
Qed.

Lemma powerUpPass_length now powerUps :
  forall players,
    (List.length (fst (powerUpPass now powerUps players))
     <= List.length powerUps)%nat.
Proof.
  induction powerUps as [|powerUp rest IH]; intros players; [reflexivity|].
  cbn [powerUpPass]. destruct (_ <? _)%Z.
  - specialize (IH players). cbn. lia.
  - destruct (collector powerUp players) as [playerId|].
    + specialize (IH (applyPowerUp now playerId (PowerUp.type powerUp) players)).
      cbn. lia.
    + specialize (IH players).
      destruct (powerUpPass now rest players) as [rest' players']. cbn in *. lia.
Qed.

Lemma spawnCheck_powerUps now rnd last game :
  let game' := snd (fst (spawnCheck now rnd last game)) in
  (List.length (Game.powerUps game') <= S (List.length (Game.powerUps game)))%nat /\
  ((List.length (Game.powerUps game) <= 6)%nat ->
   (List.length (Game.powerUps game') <= 6)%nat).
Proof.
  cbv zeta. unfold spawnCheck.
  destruct (_ <? _)%Z; [|cbn; lia].
  destruct (Nat.ltb_spec (List.length (Game.powerUps game)) 6); [|cbn; lia].
  cbn. rewrite length_app. cbn. lia.
Qed.

(** X14.  After a room's tick no power-up is left that is older than
    30 s or that lies within pickup reach (30) of a live player, where the
    players are as the tick leaves them; and the tick adds at most one
    power-up.  (The room's players have distinct ids.) *)
Theorem tick_leaves_no_power_up_in_reach :
  forall (now : Z) (rnd : Rng) (gameId : string) (last : option Z)
         (game : Game.t),
    NoDup (map fst (Game.players game)) ->
    let game' := tickedGame (tickGame now rnd gameId last game) in
    Forall (fun powerUp =>
              (now - PowerUp.createdAt powerUp <= POWER_UP_LIFETIME)%Z /\
              collector powerUp (Game.players game') = None)
           (Game.powerUps game') /\
    (List.length (Game.powerUps game')
     <= S (List.length (Game.powerUps game)))%nat.
Proof.
  intros now rnd gameId last game Hnd game'.
  destruct (tickGame_passes now rnd gameId last game) as (Hp & _ & _ & Hpu).
  fold game' in Hp, Hpu. rewrite Hp, Hpu. clear Hp Hpu.
  set (pus1 := Game.powerUps (snd (fst (spawnCheck now rnd (int_or last 0) game)))).
  set (players3 := fst (respawnPass now _ _)).
  assert (Hnd3 : NoDup (map fst players3)).
  { unfold players3. rewrite respawnPass_keys, keys_mapValues.
    destruct (bulletPass_keys now gameId (Game.bullets game) (Game.players game)
                (Game.scores game)) as (Hk & _).
    rewrite Hk. exact Hnd. }
  split.
  - rewrite powerUpPass_filter by exact Hnd3.
    rewrite Forall_forall. intros pu Hin. apply filter_In in Hin.
    destruct Hin as (_ & Hkeep). unfold keepsPowerUp in Hkeep.
    apply andb_prop in Hkeep. destruct Hkeep as (Hage & Hc).
    split.
    + destruct (Z.ltb_spec POWER_UP_LIFETIME (now - PowerUp.createdAt pu));
        [discriminate|lia].
    + rewrite (collector_pointwise (fun p q => q = expireEffects now p) pu
                 (snd (powerUpPass now pus1 players3))).
      * rewrite (collector_pointwise (empowered now) pu players3);
          [|apply empowered_place|apply powerUpPass_empowered, Hnd3].
        destruct (collector pu players3); [discriminate|reflexivity].
      * intros p q ->. pose proof (expireEffects_frame now p) as Hf.
        cbv zeta in Hf. tauto.
      * apply pointwise_mapValues. reflexivity.
  - pose proof (powerUpPass_length now pus1 players3).
    destruct (spawnCheck_powerUps now rnd (int_or last 0) game) as (Hs & _).
    fold pus1 in Hs. lia.
Qed.

(** A room with one player standing on a power-up. *)
Lemma tick_leaves_no_power_up_in_reach_witness :
  let rnd : Rng := fun _ => 1 / 2 in
  let p := Player.fresh "a" 100 100 "" "#e74c3c" in
  let game :=
    Game.mk "game_1" "Game 1" "green" [("a"%string, p)] []
            [PowerUp.mk 1 SHIELD 100 100 4000] [("a"%string, 0%Z)] [] false in
  NoDup (map fst (Game.players game)) /\
  (List.length (Game.powerUps (tickedGame (tickGame 5000 rnd "game_1" (Some 4000%Z)
                                                    game)))
   <= 2)%nat.
Proof.
  intros rnd p game.
  assert (Hnd : NoDup (map fst (Game.players game)))
    by (repeat constructor; intros []).
  split; [exact Hnd|].
  exact (proj2 (tick_leaves_no_power_up_in_reach
                  5000 rnd "game_1" (Some 4000%Z) game Hnd)).
Defined.

Lemma tickGame_powerUps_cap now rnd gameId last game :
  (List.length (Game.powerUps game) <= 6)%nat ->
  (List.length (Game.powerUps (tickedGame (tickGame now rnd gameId last game)))
   <= 6)%nat.
Proof.
  intros Hcap.
  destruct (tickGame_passes now rnd gameId last game) as (_ & _ & _ & Hpu).
  rewrite Hpu.
  destruct (spawnCheck_powerUps now rnd (int_or last 0) game) as (_ & Hs).
  specialize (Hs Hcap).
  etransitivity; [apply powerUpPass_length|exact Hs].
Qed.

Lemma powerUps_leaveGame now sid game :
  Game.powerUps (leaveGame now sid game) = Game.powerUps game.
Proof.
  unfold leaveGame, scheduleCleanup, removePlayer.
  destruct (lookup sid (Game.players game)); cbn [Game.players Game.set_players
    Game.set_scores pushChatMessage Game.set_chat].
  - destruct (remove sid (Game.players game)); reflexivity.
  - destruct (Game.players game); reflexivity.
Qed.

(** X15.  In every reachable state every room holds at most 6
    power-ups. *)
Theorem rooms_hold_at_most_six_power_ups :
  forall sv : Server.t,
    reachable sv ->
    allGames (fun game => (List.length (Game.powerUps game) <= 6)%nat) sv.
Proof.
  apply reachable_allGames.
  - intros now rnd sid nm game _ H. exact H.
  - intros sid player items game _ H. exact H.
  - intros now sid player angle game _ H. exact H.
  - intros now msg game H. exact H.
  - intros now rnd sid gameId gameName mapType playerName _. cbn. lia.
  - intros now sid game H. rewrite powerUps_leaveGame. exact H.
  - intros now rnd gameId last game _ H. apply tickGame_powerUps_cap, H.
Qed.

(** A room ticked once: its first power-up has been spawned. *)
Lemma rooms_hold_at_most_six_power_ups_witness :
  let rnd : Rng := fun _ => 1 / 2 in
  let hosted :=
    fst (handle 1000 rnd
                (ReqHost "a" (Some (mkHostData None None None))) Server.init) in
  let sv := fst (handle 9000 rnd Tick hosted) in
  reachable sv /\
  allGames (fun game => (List.length (Game.powerUps game) <= 6)%nat) sv.
Proof.
  intros rnd hosted sv.
  assert (Hrnd : unit_rng rnd) by (intros n; unfold rnd; lra).
  assert (Hr : reachable sv).
  { apply reach_step; [|exact Hrnd]. apply reach_step; [|exact Hrnd].
    apply reach_init. }
  split; [exact Hr|exact (rooms_hold_at_most_six_power_ups sv Hr)].
Defined.

(** *** Bullets *)

Lemma outside_false v bound : outside v bound = false -> 0 <= v <= bound.
Proof.
  unfold outside. destruct (Rlt_dec v 0); [discriminate|].
  destruct (Rlt_dec bound v); [discriminate|]. intros _. lra.
Qed.

Lemma clamp_between v bound : 0 <= bound -> 0 <= Rmax 0 (Rmin bound v) <= bound.
Proof.
  intros Hb. split; [apply Rmax_l|].
  apply Rmax_lub; [exact Hb|apply Rmin_l].
Qed.

Lemma wallX_onMap gameId b b' bounced ev :
  wallX gameId b = Some (b', bounced, ev) ->
  0 <= Bullet.x b' <= MAP_WIDTH /\ Bullet.y b' = Bullet.y b /\
  Bullet.createdAt b' = Bullet.createdAt b.
Proof.
  unfold wallX. destruct (outside _ _) eqn:Ho.
  - destruct (_ <? _)%nat; [|discriminate]. intros [= <- _ _]. cbn.
    split; [apply clamp_between; unfold MAP_WIDTH; lra|split; reflexivity].
  - intros [= <- _ _]. split; [apply outside_false, Ho|split; reflexivity].
Qed.

Lemma wallY_onMap gameId b b' bounced ev :
  wallY gameId b = Some (b', bounced, ev) ->
  0 <= Bullet.y b' <= MAP_HEIGHT /\ Bullet.x b' = Bullet.x b /\
  Bullet.createdAt b' = Bullet.createdAt b.
Proof.
  unfold wallY. destruct (outside _ _) eqn:Ho.
  - destruct (_ <? _)%nat; [|discriminate]. intros [= <- _ _]. cbn.
    split; [apply clamp_between; unfold MAP_HEIGHT; lra|split; reflexivity].
  - intros [= <- _ _]. split; [apply outside_false, Ho|split; reflexivity].
Qed.

Lemma moveBullet_onMap now gameId bullet bullet' :
  fst (moveBullet now gameId bullet) = Some bullet' ->
  onMap bullet' /\ young now bullet'.
Proof.
  unfold moveBullet. set (moved := set_motion _ _ _ _ _ bullet).
  destruct (wallX gameId moved) as [[[b1 bx] evx]|] eqn:Hx; [|discriminate].
  destruct (wallX_onMap _ _ _ _ _ Hx) as (X1 & Y1 & C1).
  destruct (wallY gameId b1) as [[[b2 by_] evy]|] eqn:Hy; [|discriminate].
  destruct (wallY_onMap _ _ _ _ _ Hy) as (Y2 & X2 & C2).
  set (b3 := if (bx || by_)%bool then set_angle _ b2 else b2).
  assert (H3 : Bullet.x b3 = Bullet.x b2 /\ Bullet.y b3 = Bullet.y b2 /\
                Bullet.createdAt b3 = Bullet.createdAt b2)
    by (unfold b3; destruct (bx || by_)%bool; repeat split).
  destruct H3 as (X3 & Y3 & C3).
  destruct (Z.eqb_spec (Bullet.createdAt b3) 0) as [He|Hne]; cbn [orb].
  - cbn. intros [= <-]. split; [|left; exact He].
    unfold onMap. rewrite X3, Y3, X2. auto.
  - destruct (Z.ltb_spec (now - Bullet.createdAt b3) bulletMaxAge);
      cbn; [|discriminate].
    intros [= <-]. split; [|right; assumption].
    unfold onMap. rewrite X3, Y3, X2. auto.
Qed.

Lemma bulletPass_onMap now gameId bullets :
  forall ar,
    let bullets' := fst (fst (bulletPass now gameId bullets ar)) in
    Forall (fun b => onMap b /\ young now b) bullets' /\
    (List.length bullets' <= List.length bullets)%nat.
Proof.
  induction bullets as [|bullet later IH]; intros ar; [split; [constructor|reflexivity]|].
  cbn [bulletPass]. specialize (IH ar). cbv zeta in IH.
  destruct (bulletPass now gameId later ar) as [[later' ar1] ev1].
  cbn [fst] in IH. destruct IH as (IHf & IHl).
  unfold stepBullet.
  destruct (findTarget bullet (fst ar1)) as [[id target]|].
  - cbn. split; [exact IHf|lia].
  - pose proof (moveBullet_onMap now gameId bullet) as Hm.
    destruct (moveBullet now gameId bullet) as [ob ev]. cbn [fst snd] in *.
    destruct ob as [b|]; cbn; [|split; [exact IHf|lia]].
    split; [constructor; [apply Hm; reflexivity|exact IHf]|lia].
Qed.

(** X16.  Of the bullets of a room whose positions and velocities are
    numbers, every one the room's tick leaves in the room lies on the map
    (0 to 1000 by 0 to 720) and, if it carries a creation time, is younger
    than 10 s; and the tick adds no bullet.  (A bullet with a [NaN]
    coordinate or velocity is not covered: no wall test holds of it, and it
    stays where it is until it ages out.) *)
Theorem tick_keeps_bullets_on_the_map :
  forall (now : Z) (rnd : Rng) (gameId : string) (last : option Z)
         (game : Game.t),
    let game' := tickedGame (tickGame now rnd gameId last game) in
    Forall (fun b => onMap b /\ young now b) (Game.bullets game') /\
    (List.length (Game.bullets game') <= List.length (Game.bullets game))%nat.
Proof.
  intros now rnd gameId last game game'.
  destruct (tickGame_passes now rnd gameId last game) as (_ & Hb & _).
  fold game' in Hb. rewrite Hb. apply bulletPass_onMap.
Qed.

(** *** Scores *)

Lemma lookup_creditKill id owner scores :
  lookup id (creditKill owner scores) =
  if String.eqb id owner
  then option_map (fun n => (n + 1)%Z) (lookup id scores)
  else lookup id scores.
Proof.
  unfold creditKill. destruct (String.eqb_spec id owner) as [->|Hne].
  - destruct (lookup owner scores) as [n|] eqn:Hl.
    + rewrite lookup_insert_eq. reflexivity.
    + rewrite Hl. reflexivity.
  - destruct (lookup owner scores) as [n|]; [|reflexivity].
    apply lookup_insert_ne, Hne.
Qed.

Lemma stepBullet_scores now gameId bullet players scores id n :
  lookup id scores = Some n ->
  exists n',
    lookup id (snd (snd (fst (stepBullet now gameId bullet (players, scores)))))
    = Some n' /\
    (n <= n' <= n + Z.of_nat (ownedBy id [bullet]))%Z.
Proof.
  intros Hl. unfold stepBullet, ownedBy. cbn [fst filter].
  destruct (findTarget bullet players) as [[vid target]|].
  - cbn [resolveHit fst snd]. destruct (Rle_dec _ 0).
    + cbn [snd]. rewrite lookup_creditKill, Hl, String.eqb_sym.
      destruct (String.eqb (Bullet.owner bullet) id); cbn;
        eexists; (split; [reflexivity|lia]).
    + cbn [snd]. exists n. split; [exact Hl|].
      destruct (String.eqb (Bullet.owner bullet) id); cbn; lia.
  - destruct (moveBullet now gameId bullet) as [ob ev]. cbn [fst snd].
    exists n. split; [exact Hl|].
    destruct (String.eqb (Bullet.owner bullet) id); cbn; lia.
Qed.

Lemma bulletPass_scores now gameId bullets players scores id n :
  lookup id scores = Some n ->
  exists n',
    lookup id (snd (snd (fst (bulletPass now gameId bullets (players, scores)))))
    = Some n' /\
    (n <= n' <= n + Z.of_nat (ownedBy id bullets))%Z.
Proof.
  intros Hl. induction bullets as [|bullet later IH].
  - exists n. split; [exact Hl|]. cbn. lia.
  - cbn [bulletPass].
    destruct (bulletPass now gameId later (players, scores))
      as [[later' [players1 scores1]] ev1].
    cbn [fst snd] in IH. destruct IH as (n1 & Hl1 & Hn1).
    destruct (stepBullet_scores now gameId bullet players1 scores1 id n1 Hl1)
      as (n2 & Hl2 & Hn2).
    destruct (stepBullet now gameId bullet (players1, scores1))
      as [[ob [players2 scores2]] ev2].
    cbn [fst snd] in *. exists n2. split; [exact Hl2|].
    unfold ownedBy in *. cbn [filter] in *.
    destruct (String.eqb (Bullet.owner bullet) id); cbn [List.length] in *; lia.
Qed.

(** X17.  A room's tick never lowers a score, and raises a player's score
    by at most the number of that player's bullets in the room; so the score
    of a player with no bullet in the room is unchanged. *)
Theorem tick_raises_a_score_by_at_most_the_bullets_owned :
  forall (now : Z) (rnd : Rng) (gameId : string) (last : option Z)
         (game : Game.t) (id : string) (n : Z),
    lookup id (Game.scores game) = Some n ->
    exists n',
      lookup id (Game.scores (tickedGame (tickGame now rnd gameId last game)))
      = Some n' /\
      (n <= n' <= n + Z.of_nat (ownedBy id (Game.bullets game)))%Z.
Proof.
  intros now rnd gameId last game id n Hl.
  destruct (tickGame_passes now rnd gameId last game) as (_ & _ & Hs & _).
  rewrite Hs. apply bulletPass_scores, Hl.
Qed.

(** A player with score 3 and no bullet in flight. *)
Lemma tick_raises_a_score_by_at_most_the_bullets_owned_witness :
  let rnd : Rng := fun _ => 1 / 2 in
  let p := Player.fresh "a" 100 100 "" "#e74c3c" in
  let game :=
    Game.mk "game_1" "Game 1" "green" [("a"%string, p)] [] []
            [("a"%string, 3%Z)] [] false in
  lookup "a"%string (Game.scores game) = Some 3%Z /\
  exists n',
    lookup "a"%string
           (Game.scores (tickedGame (tickGame 5000 rnd "game_1" None game)))
    = Some n' /\
    (3 <= n' <= 3 + Z.of_nat (ownedBy "a" (Game.bullets game)))%Z.
Proof.
  intros rnd p game.
  assert (Hl : lookup "a"%string (Game.scores game) = Some 3%Z) by reflexivity.
  split; [exact Hl|].
  exact (tick_raises_a_score_by_at_most_the_bullets_owned
           5000 rnd "game_1" None game "a" 3%Z Hl).
Defined.
(** ** One hit *)

(** X18.  A bullet that finds a target is removed and emits one
    [bulletHit] naming its owner and the target, who is not the owner.  The
    target's hit points drop by the damage, not below 0.  If that leaves 0,
    the target is dead, due to respawn 3000 ms later, and the owner's score,
    if the owner has one, goes up by one; otherwise the target stays alive
    and the scores are as they were. *)
Theorem hit_damages_and_credits_a_kill :
  forall (now : Z) (gameId : string) (bullet : Bullet.t)
         (players : list (string * Player.t)) (scores : list (string * Z))
         (id : string) (target : Player.t),
    NoDup (map fst players) ->
    findTarget bullet players = Some (id, target) ->
    let damage := bulletDamage (lookup (Bullet.owner bullet) players) target in
    let r := stepBullet now gameId bullet (players, scores) in
    let scores' := snd (snd (fst r)) in
    fst (fst r) = None /\
    snd r = [ToRoom gameId (EvBulletHit (Bullet.owner bullet) id
                                        (Bullet.x bullet) (Bullet.y bullet))] /\
    id <> Bullet.owner bullet /\
    exists target',
      lookup id (fst (snd (fst r))) = Some target' /\
      Player.hp target' = Rmax 0 (Player.hp target - damage) /\
      (Player.hp target <= damage ->
       Player.dead target' = true /\
       Player.respawnTime target' = (now + 3000)%Z /\
       lookup (Bullet.owner bullet) scores' =
       option_map (fun n => (n + 1)%Z) (lookup (Bullet.owner bullet) scores) /\
       forall other, other <> Bullet.owner bullet ->
                     lookup other scores' = lookup other scores) /\
      (damage < Player.hp target ->
       Player.dead target' = false /\ scores' = scores).
Proof.
  intros now gameId bullet players scores id target Hnd Hf damage r scores'.
  destruct (findTarget_spec _ _ _ _ Hf) as (Hin & Hne & Hd & _).
  unfold scores', r, stepBullet. cbn [fst]. rewrite Hf.
  cbn [fst snd resolveHit]. fold damage.
  split; [reflexivity|]. split; [reflexivity|]. split; [exact Hne|].
  exists (applyDamage now damage target).
  split; [apply lookup_insert_eq|].
  destruct (applyDamage_keeps now damage target) as (Hhp & _).
  split; [exact Hhp|]. split.
  - intros Hk. destruct (applyDamage_kill now damage target Hk) as (Hdead & Hrt).
    split; [exact Hdead|]. split; [exact Hrt|].
    destruct (Rle_dec (Player.hp (applyDamage now damage target)) 0) as [_|Hn].
    + cbn [snd]. split.
      * rewrite lookup_creditKill, String.eqb_refl. reflexivity.
      * intros other Ho. rewrite lookup_creditKill.
        destruct (String.eqb_spec other (Bullet.owner bullet)); [contradiction|].
        reflexivity.
    + exfalso. apply Hn. rewrite Hhp. unfold Rmax.
      destruct (Rle_dec 0 (Player.hp target - damage)); lra.
  - intros Hs. rewrite (applyDamage_survive now damage target Hs).
    split; [destruct target; exact Hd|].
    destruct (Rle_dec _ 0) as [Hle|_]; [|reflexivity].
    exfalso. destruct target. cbn in *. lra.
Qed.

(** A bullet of [a] on top of [b], who has 20 hit points left. *)
Lemma hit_damages_and_credits_a_kill_witness :
  let a := Player.fresh "a" 100 100 "" "#e74c3c" in
  let b := Player.set_hp 20 (Player.fresh "b" 300 300 "" "#3498db") in
  let players := [("a"%string, a); ("b"%string, b)] in
  let scores := [("a"%string, 0%Z); ("b"%string, 0%Z)] in
  let bullet := Bullet.mk 300 300 5 0 0 "a" "#e74c3c" 1000 0 in
  NoDup (map fst players) /\
  findTarget bullet players = Some ("b"%string, b) /\
  fst (fst (stepBullet 2000 "game_1" bullet (players, scores))) = None.
Proof.
  intros a b players scores bullet.
  assert (Hnd : NoDup (map fst players)).
  { repeat constructor; cbn; [|tauto]. intros [H|[]]. discriminate. }
  assert (Hf : findTarget bullet players = Some ("b"%string, b)).
  { cbn. rewrite hits_on_top; reflexivity. }
  split; [exact Hnd|]. split; [exact Hf|].
  exact (proj1 (hit_damages_and_credits_a_kill
                  2000 "game_1" bullet players scores "b" b Hnd Hf)).
Defined.

(** ** The tick over all rooms *)

Lemma insert_middle {V} k (v v0 : V) front back :
  ~ In k (map fst front) ->
  insert k v (front ++ (k, v0) :: back) = front ++ (k, v) :: back.
Proof.
  induction front as [|[k' v'] rest IH]; cbn; intros Hout.
  - rewrite String.eqb_refl. reflexivity.
  - destruct (String.eqb_spec k k') as [->|_]; [tauto|].
    rewrite IH by tauto. reflexivity.
Qed.

Lemma tickGames_each now (last0 : list (string * Z)) todo :
  forall done rnd sv,
    Server.games sv = done ++ todo ->
    NoDup (map fst (done ++ todo)) ->
    (forall k, In k (map fst todo) ->
               lookup k (Server.lastPowerUpSpawnTime sv) = lookup k last0) ->
    let sv' := fst (tickGames now rnd todo sv) in
    exists todo',
      Server.games sv' = done ++ todo' /\
      Forall2
        (fun kg kg' =>
           fst kg' = fst kg /\
           exists rnd',
             (unit_rng rnd -> unit_rng rnd') /\
             snd kg' = tickedGame (tickGame now rnd' (fst kg)
                                            (lookup (fst kg) last0) (snd kg)))
        todo todo' /\
      Server.gameCounter sv' = Server.gameCounter sv /\
      Server.socketGameId sv' = Server.socketGameId sv.
Proof.
  induction todo as [|[gameId game] rest IH]; intros done rnd sv Hg Hnd Hlast.
  - exists []. repeat split; [exact Hg|constructor].
  - cbn [tickGames].
    rewrite (Hlast gameId) by (left; reflexivity).
    destruct (tickGame now rnd gameId (lookup gameId last0) game)
      as [[[last game'] n] ev] eqn:Er.
    set (sv1 := Server.set_games _ _).
    rewrite map_app in Hnd. cbn [map fst] in Hnd.
    assert (Hout : ~ In gameId (map fst done) /\ ~ In gameId (map fst rest)).
    { apply NoDup_remove_2 in Hnd. rewrite in_app_iff in Hnd. tauto. }
    assert (Hg1 : Server.games sv1 = (done ++ [(gameId, game')]) ++ rest).
    { unfold sv1. cbn. rewrite Hg, <- app_assoc. cbn.
      apply insert_middle. tauto. }
    specialize (IH (done ++ [(gameId, game')]) (rng_drop n rnd) sv1 Hg1).
    destruct IH as (rest' & Hg' & Hall & Hc & Hs).
    + rewrite <- app_assoc, map_app. cbn [map fst app]. exact Hnd.
    + intros k Hin. unfold sv1. cbn. rewrite lookup_insert_ne.
      * apply Hlast. right. exact Hin.
      * intros ->. tauto.
    + destruct (tickGames now (rng_drop n rnd) rest sv1) as [sv' ev'].
      cbn [fst] in *. exists ((gameId, game') :: rest').
      split; [rewrite Hg', <- app_assoc; reflexivity|].
      split; [|split; [exact Hc|exact Hs]].
      constructor.
      * cbn [fst snd]. split; [reflexivity|]. exists rnd.
        split; [auto|]. rewrite Er. reflexivity.
      * eapply Forall2_impl; [|exact Hall]. cbn.
        intros a b (Hk & rnd' & Hu & He). split; [exact Hk|].
        exists rnd'. split; [|exact He]. intros H. apply Hu, unit_rng_drop, H.
Qed.

(** X19.  The tick handles every room once and each on its own: after
    it the server has the same rooms in the same order, each the result of
    the room loop on that room alone, with that room's recorded spawn time
    and some stretch of the random numbers; the room counter and the sockets'
    claimed rooms are as they were.  (The rooms have distinct ids, as in
    every reachable state.) *)
Theorem tick_handles_each_room_on_its_own :
  forall (now : Z) (rnd : Rng) (sv : Server.t),
    NoDup (map fst (Server.games sv)) ->
    let sv' := fst (onTick now rnd sv) in
    Forall2
      (fun kg kg' =>
         fst kg' = fst kg /\
         exists rnd',
           (unit_rng rnd -> unit_rng rnd') /\
           snd kg' =
           tickedGame (tickGame now rnd' (fst kg)
                                (lookup (fst kg) (Server.lastPowerUpSpawnTime sv))
                                (snd kg)))
      (Server.games sv) (Server.games sv') /\
    Server.gameCounter sv' = Server.gameCounter sv /\
    Server.socketGameId sv' = Server.socketGameId sv.
Proof.
  intros now rnd sv Hnd. cbv zeta. unfold onTick.
  destruct (tickGames_each now (Server.lastPowerUpSpawnTime sv) (Server.games sv)
              [] rnd sv eq_refl Hnd (fun k _ => eq_refl))
    as (todo' & Hg & Hall & Hc & Hs).
  cbn [app] in Hg. rewrite Hg. repeat split; assumption.
Qed.

(** Two hosted rooms, ticked. *)
Lemma tick_handles_each_room_on_its_own_witness :
  let rnd : Rng := fun _ => 1 / 2 in
  let one :=
    fst (onHost 1000 rnd "a" (Some (mkHostData None None None)) Server.init) in
  let sv := fst (onHost 1500 rnd "b" (Some (mkHostData None None None)) one) in
  NoDup (map fst (Server.games sv)) /\
  Server.gameCounter (fst (onTick 2000 rnd sv)) = 2%nat.
Proof.
  intros rnd one sv.
  assert (Hnd : NoDup (map fst (Server.games sv))).
  { repeat constructor; cbn; [|tauto]. intros [H|[]]. discriminate. }
  split; [exact Hnd|].
  exact (proj1 (proj2 (tick_handles_each_room_on_its_own 2000 rnd sv Hnd))).
Defined.


(** ** Velocity *)

Lemma approach_between v target accelAmount :
  0 <= accelAmount ->
  Rmin v target <= approach v target accelAmount <= Rmax v target.
Proof.
  intros Ha. unfold approach.
  destruct (Rlt_dec (Rabs (target - v)) accelAmount) as [_|Hfar].
  - split; [apply Rmin_r|apply Rmax_r].
  - unfold Rmin, Rmax. destruct (Rle_dec v target) as [Hle|Hgt].
    + destruct (Req_dec_T v target) as [->|Hne].
      * unfold sign. replace (target - target) with 0 in * by lra.
        destruct (Rlt_dec 0 0); [lra|]. lra.
      * rewrite sign_pos by lra. rewrite Rabs_right in Hfar by lra. lra.
    + rewrite sign_neg by lra. rewrite Rabs_left in Hfar by lra. lra.
Qed.

Lemma Rabs_le_inv a b : Rabs a <= b -> - b <= a <= b.
Proof.
  unfold Rabs. destruct (Rcase_abs a); lra.
Qed.

Lemma approach_bound v target accelAmount bound :
  0 <= accelAmount -> Rabs target <= bound -> Rabs v <= bound ->
  Rabs (approach v target accelAmount) <= bound.
Proof.
  intros Ha Ht Hv. pose proof (approach_between v target accelAmount Ha) as Hb.
  apply Rabs_le. apply Rabs_le_inv in Ht, Hv.
  unfold Rmin, Rmax in Hb. destruct (Rle_dec v target); lra.
Qed.

Lemma approach_brake v accelAmount :
  0 <= accelAmount ->
  Rabs (approach v 0 accelAmount) <= Rmax 0 (Rabs v - accelAmount).
Proof.
  intros Ha. unfold approach. replace (0 - v) with (- v) by lra.
  rewrite Rabs_Ropp.
  destruct (Rlt_dec (Rabs v) accelAmount) as [_|Hfar].
  - rewrite Rabs_R0. apply Rmax_l.
  - eapply Rle_trans; [|apply Rmax_r].
    destruct (Rle_dec 0 v) as [Hpos|Hneg].
    + rewrite (Rabs_right v) in * by lra.
      destruct (Req_dec_T v 0) as [->|Hne].
      * unfold sign. replace (- 0) with 0 by lra.
        destruct (Rlt_dec 0 0); [lra|]. rewrite Rabs_right; lra.
      * rewrite sign_neg by lra. rewrite Rabs_right; lra.
    + rewrite (Rabs_left v) in * by lra. rewrite sign_pos by lra.
      rewrite Rabs_left1; lra.
Qed.

Lemma clampAxis_slows lo hi pos vel :
  Rabs (snd (clampAxis lo hi (pos, vel))) <= Rabs vel.
Proof.
  unfold clampAxis. destruct (Rlt_dec pos lo); [|destruct (Rlt_dec hi pos)];
    cbn [snd]; [| |lra].
  - unfold Rmax. destruct (Rle_dec 0 vel); [lra|].
    rewrite Rabs_R0. apply Rabs_pos.
  - unfold Rmin. destruct (Rle_dec 0 vel); [|lra].
    rewrite Rabs_R0. apply Rabs_pos.
Qed.

Lemma component_le_magnitude a b : Rabs a <= sqrt (a * a + b * b).
Proof.
  rewrite <- sqrt_Rsqr_abs. apply sqrt_le_1_alt. unfold Rsqr. nra.
Qed.

Lemma targetVelocity_bound v k :
  0 <= v ->
  Rabs (fst (targetVelocity v k)) <= v /\ Rabs (snd (targetVelocity v k)) <= v.
Proof.
  intros Hv. pose proof (targetVelocity_magnitude v k Hv) as Hm.
  unfold magnitude in Hm.
  assert (Hle : sqrt (fst (targetVelocity v k) * fst (targetVelocity v k) +
                      snd (targetVelocity v k) * snd (targetVelocity v k)) <= v)
    by (rewrite Hm; destruct (Rlt_dec 0 (inputMagnitude k)); lra).
  split; (eapply Rle_trans; [|exact Hle]).
  - apply component_le_magnitude.
  - rewrite Rplus_comm. apply component_le_magnitude.
Qed.

Lemma targetVelocity_idle v k :
  inputMagnitude k = 0 -> targetVelocity v k = (0, 0).
Proof.
  intros Hm. unfold targetVelocity. rewrite Hm.
  pose proof (inputMagnitude_cases k) as Hc.
  destruct (direction k) as [tx ty].
  pose proof sqrt2_pos as Hp.
  destruct Hc as [(_ & -> & -> & _)|[(_ & H1)|(_ & H2)]]; [|lra|lra].
  destruct (Rlt_dec 0 0); [lra|]. f_equal; lra.
Qed.

(** X21.  With a time step that is not negative, [applyInput] never takes
    a velocity component past the tank's maximum speed (60, or 120 under a
    speed boost): components within it before the sample are within it
    after. *)
Theorem applyInput_keeps_velocity_within_max_speed :
  forall (player : Player.t) (input : Input.t) (k : Keys.t),
    Input.inputs input = Some k ->
    0 <= num_or (Input.dt input) (1 / 60) ->
    Rabs (Player.vx player) <= maxSpeed (Player.speedBoost player) ->
    Rabs (Player.vy player) <= maxSpeed (Player.speedBoost player) ->
    Rabs (Player.vx (applyInput player input))
    <= maxSpeed (Player.speedBoost player) /\
    Rabs (Player.vy (applyInput player input))
    <= maxSpeed (Player.speedBoost player).
Proof.
  intros player input k Hk Hdt Hvx Hvy.
  destruct (applyInput_kinematics player input k Hk) as (_ & Hx & _ & Hy).
  rewrite Hx, Hy. clear Hx Hy. unfold moveWithin, integrate.
  set (M := maxSpeed (Player.speedBoost player)) in *.
  assert (HM : 0 <= M) by apply maxSpeed_nonneg.
  destruct (targetVelocity_bound M k HM) as (Htx & Hty).
  destruct (targetVelocity M k) as [tx ty]. cbn [fst snd] in *.
  set (dt := num_or (Input.dt input) (1 / 60)) in *.
  set (acc := if Rlt_dec 0 (inputMagnitude k) then _ else _).
  assert (Ha : 0 <= acc * dt).
  { apply Rmult_le_pos; [|exact Hdt]. unfold acc.
    destruct (Rlt_dec 0 (inputMagnitude k));
      unfold TANK_ACCELERATION, TANK_DECELERATION; lra. }
  split; (eapply Rle_trans; [apply clampAxis_slows|]);
    apply approach_bound; assumption.
Qed.

(** A tank at rest, one sample with [d] held. *)
Lemma applyInput_keeps_velocity_within_max_speed_witness :
  let player := Player.fresh "a" 100 100 "" "#e74c3c" in
  let keys := Keys.mk false false false true in
  let input := Input.mk (Some 1%Z) (Some keys) None None (Some (1 / 60)) in
  Input.inputs input = Some keys /\
  0 <= num_or (Input.dt input) (1 / 60) /\
  Rabs (Player.vx player) <= maxSpeed (Player.speedBoost player) /\
  Rabs (Player.vy player) <= maxSpeed (Player.speedBoost player) /\
  Rabs (Player.vx (applyInput player input)) <= 60.
Proof.
  intros player keys input.
  assert (Hk : Input.inputs input = Some keys) by reflexivity.
  assert (Hdt : 0 <= num_or (Input.dt input) (1 / 60)).
  { cbn. destruct (Req_dec_T (1 / 60) 0); lra. }
  assert (Hv : Rabs (Player.vx player) <= maxSpeed (Player.speedBoost player)).
  { cbn. rewrite Rabs_R0. unfold TANK_MAX_SPEED. lra. }
  assert (Hw : Rabs (Player.vy player) <= maxSpeed (Player.speedBoost player))
    by exact Hv.
  repeat (split; [assumption|]).
  exact (proj1 (applyInput_keeps_velocity_within_max_speed
                  player input keys Hk Hdt Hv Hw)).
Defined.

Lemma applyInput_brakes player input k :
  Input.inputs input = Some k ->
  inputMagnitude k = 0 ->
  let dt := num_or (Input.dt input) (1 / 60) in
  0 <= dt ->
  Rabs (Player.vx (applyInput player input))
  <= Rmax 0 (Rabs (Player.vx player) - TANK_DECELERATION * dt) /\
  Rabs (Player.vy (applyInput player input))
  <= Rmax 0 (Rabs (Player.vy player) - TANK_DECELERATION * dt).
Proof.
  intros Hk Hm dt Hdt.
  destruct (applyInput_kinematics player input k Hk) as (_ & Hx & _ & Hy).
  rewrite Hx, Hy. clear Hx Hy. unfold moveWithin, integrate.
  rewrite (targetVelocity_idle _ k Hm), Hm.
  destruct (Rlt_dec 0 0); [lra|]. fold dt.
  assert (Ha : 0 <= TANK_DECELERATION * dt)
    by (apply Rmult_le_pos; [unfold TANK_DECELERATION; lra|exact Hdt]).
  split; (eapply Rle_trans; [apply clampAxis_slows|]);
    apply approach_brake, Ha.
Qed.

Lemma Rmax_brake v a b :
  0 <= a -> 0 <= b -> Rmax 0 (Rmax 0 (v - a) - b) = Rmax 0 (v - (a + b)).
Proof.
  intros Ha Hb. unfold Rmax.
  destruct (Rle_dec 0 (v - a)), (Rle_dec 0 (v - (a + b)));
    match goal with
    | |- context [Rle_dec ?x ?y] => destruct (Rle_dec x y)
    end; lra.
Qed.

Lemma Rmax_0_mono a b : a <= b -> Rmax 0 a <= Rmax 0 b.
Proof.
  intros H. unfold Rmax. destruct (Rle_dec 0 a), (Rle_dec 0 b); lra.
Qed.

(** X22.  With no net direction in the keys (none held, or opposite ones
    cancelling) and a time step [dt] that is not negative, every queued
    sample lowers the magnitude of each velocity component by
    [TANK_DECELERATION * dt] until it is 0, walls or no walls: after [n] such
    samples it is at most [max 0 (|v| - n * 900 * dt)], so the tank comes to
    rest. *)
Theorem released_keys_bring_the_tank_to_rest :
  forall (input : Input.t) (k : Keys.t) (n : nat) (player : Player.t),
    Input.inputs input = Some k ->
    inputMagnitude k = 0 ->
    let dt := num_or (Input.dt input) (1 / 60) in
    0 <= dt ->
    let player' := drainQueue (repeat (Some input) n) player in
    Rabs (Player.vx player')
    <= Rmax 0 (Rabs (Player.vx player) - INR n * (TANK_DECELERATION * dt)) /\
    Rabs (Player.vy player')
    <= Rmax 0 (Rabs (Player.vy player) - INR n * (TANK_DECELERATION * dt)).
Proof.
  intros input k n player Hk Hm dt Hdt. revert player.
  assert (Ha : 0 <= TANK_DECELERATION * dt)
    by (apply Rmult_le_pos; [unfold TANK_DECELERATION; lra|exact Hdt]).
  induction n as [|n IH]; intros player.
  - cbn [repeat drainQueue INR]. rewrite Rmult_0_l, !Rminus_0_r.
    split; apply Rmax_r.
  - cbn [repeat drainQueue]. rewrite S_INR.
    destruct (IH (applyInput player input)) as (Hx & Hy).
    destruct (applyInput_brakes player input k Hk Hm Hdt) as (Bx & By).
    fold dt in Bx, By.
    assert (Hn : 0 <= INR n * (TANK_DECELERATION * dt))
      by (apply Rmult_le_pos; [apply pos_INR|exact Ha]).
    split.
    + eapply Rle_trans; [exact Hx|].
      replace ((INR n + 1) * (TANK_DECELERATION * dt))
        with (TANK_DECELERATION * dt + INR n * (TANK_DECELERATION * dt)) by ring.
      rewrite <- Rmax_brake by assumption. apply Rmax_0_mono. lra.
    + eapply Rle_trans; [exact Hy|].
      replace ((INR n + 1) * (TANK_DECELERATION * dt))
        with (TANK_DECELERATION * dt + INR n * (TANK_DECELERATION * dt)) by ring.
      rewrite <- Rmax_brake by assumption. apply Rmax_0_mono. lra.
Qed.

(** A tank moving right at full speed, four idle samples of 1/60 s: 60
    from 60 leaves 0. *)
Lemma released_keys_bring_the_tank_to_rest_witness :
  let player := Player.set_vel 60 0 (Player.fresh "a" 100 100 "" "#e74c3c") in
  let keys := Keys.mk false false false false in
  let input := Input.mk (Some 1%Z) (Some keys) None None (Some (1 / 60)) in
  Input.inputs input = Some keys /\
  inputMagnitude keys = 0 /\
  0 <= num_or (Input.dt input) (1 / 60) /\
  Rabs (Player.vx (drainQueue (repeat (Some input) 4) player))
  <= Rmax 0 (Rabs (Player.vx player)
             - INR 4 * (TANK_DECELERATION * num_or (Input.dt input) (1 / 60))).
Proof.
  intros player keys input.
  assert (Hk : Input.inputs input = Some keys) by reflexivity.
  assert (Hm : inputMagnitude keys = 0).
  { unfold inputMagnitude. cbn. replace (0 * 0 + 0 * 0) with 0 by lra.
    apply sqrt_0. }
  assert (Hdt : 0 <= num_or (Input.dt input) (1 / 60)).
  { cbn. destruct (Req_dec_T (1 / 60) 0); lra. }
  repeat (split; [assumption|]).
  exact (proj1 (released_keys_bring_the_tank_to_rest
                  input keys 4 player Hk Hm Hdt)).
Defined.
(** ** Names and chat text *)

Lemma length_string_of_list_ascii l :
  String.length (string_of_list_ascii l) = List.length l.
Proof. induction l as [|c rest IH]; cbn; [reflexivity|]. rewrite IH. reflexivity. Qed.

Lemma tidy_of_list l :
  (List.length l <= NAME_MAX)%nat ->
  Forall (fun c => (32 <= Ascii.nat_of_ascii c)%nat) l ->
  tidy (string_of_list_ascii l).
Proof.
  intros Hlen Hall. split.
  - rewrite length_string_of_list_ascii. exact Hlen.
  - rewrite list_ascii_of_string_of_list_ascii. exact Hall.
Qed.

Lemma stripControl_printable l :
  Forall (fun c => (32 <= Ascii.nat_of_ascii c)%nat) (stripControl l).
Proof.
  unfold stripControl. rewrite Forall_forall. intros c Hin.
  apply filter_In in Hin. destruct Hin as (_ & Hc).
  destruct (Nat.leb_spec (Ascii.nat_of_ascii c) 31); [discriminate|lia].
Qed.

Lemma sanitizeString_tidy nm : tidy (sanitizeString nm).
Proof.
  unfold sanitizeString. destruct nm as [str|]; [|split; [cbn; lia|constructor]].
  destruct (trim (list_ascii_of_string str)) as [|c rest];
    [split; [cbn; lia|constructor]|].
  set (s := stripControl _).
  pose proof (stripControl_printable (collapseSpaces false (c :: rest))) as Hs.
  fold s in Hs. apply tidy_of_list.
  - destruct (Nat.ltb_spec NAME_MAX (List.length s)); [|assumption].
    rewrite length_firstn. lia.
  - destruct (NAME_MAX <? List.length s)%nat; [|exact Hs].
    rewrite Forall_forall in *. intros x Hx. apply Hs.
    rewrite <- (firstn_skipn NAME_MAX s). apply in_or_app. left. exact Hx.
Qed.

Lemma trimStart_blank l : forallb isSpace l = true -> trimStart l = [].
Proof.
  induction l as [|c rest IH]; cbn; [reflexivity|].
  destruct (isSpace c); [exact IH|discriminate].
Qed.

Lemma sanitizeString_blank str :
  forallb isSpace (list_ascii_of_string str) = true ->
  sanitizeString (Some str) = ""%string.
Proof.
  intros Hb. unfold sanitizeString, trim.
  rewrite (trimStart_blank _ Hb). reflexivity.
Qed.

Lemma name_newPlayer rnd sid safeName :
  Player.name (newPlayer rnd sid safeName) = safeName.
Proof. reflexivity. Qed.

Lemma name_applyDamage now damage player :
  Player.name (applyDamage now damage player) = Player.name player.
Proof. unfold applyDamage. destruct player. cbn. destruct (Rle_dec _ 0); reflexivity. Qed.

Lemma name_applyInput player input :
  Player.name (applyInput player input) = Player.name player.
Proof.
  unfold applyInput. destruct (Input.inputs input) as [k|]; [|reflexivity].
  cbv zeta. destruct (moveWithin _ _ _ _ _ _ _ _ _) as [[px pvx] [py pvy]].
  destruct (Input.rotation input), (Input.turretRotation input),
    (Input.seq input), player; reflexivity.
Qed.

Lemma name_expireEffects now player :
  Player.name (expireEffects now player) = Player.name player.
Proof.
  unfold expireEffects. destruct player. cbn -[expired].
  repeat (match goal with
          | |- context [if expired now ?f ?t then _ else _] =>
            is_var f; destruct (expired now f t)
          end; cbn -[expired]);
    reflexivity.
Qed.

Lemma tickGame_names now rnd gameId last game :
  unit_rng rnd ->
  allValues (fun p => tidy (Player.name p)) (Game.players game) ->
  allValues (fun p => tidy (Player.name p))
            (Game.players (tickedGame (tickGame now rnd gameId last game))).
Proof.
  apply (tickGame_allPlayers (fun p => tidy (Player.name p))).
  - intros queue player H. destruct player. exact H.
  - intros t damage player _ H. rewrite name_applyDamage. exact H.
  - intros player input H. rewrite name_applyInput. exact H.
  - intros t r player _ H. destruct player. exact H.
  - intros t ty player H. destruct ty, player; exact H.
  - intros t player H. rewrite name_expireEffects. exact H.
Qed.

Lemma reachable_names sv :
  reachable sv -> allPlayers (fun p => tidy (Player.name p)) sv.
Proof.
  apply (reachable_allGames
           (fun game => allValues (fun p => tidy (Player.name p))
                                  (Game.players game))).
  - intros now rnd sid nm game _ Hg. unfold joinGame.
    apply enterGame_allPlayers; [apply sanitizeString_tidy|exact Hg].
  - intros sid player items game Hl Hg.
    apply queueInputs_allPlayers; [|exact Hl|exact Hg].
    intros queue p H. destruct p. exact H.
  - intros now sid player angle game Hl Hg.
    apply fireShots_allPlayers; [|exact Hl|exact Hg].
    intros t p H. destruct p. exact H.
  - intros now msg game Hg. exact Hg.
  - intros now rnd sid gameId gameName mapType playerName _. unfold hostGame.
    apply enterGame_allPlayers; [apply sanitizeString_tidy|constructor].
  - intros now sid game Hg. apply leaveGame_allPlayers, Hg.
  - intros now rnd gameId last game. apply tickGame_names.
Qed.

(** X23.  [sanitizeString] returns at most 20 characters, none of them a
    control character, and the empty string for a value that is not a string
    or a string of white space only; and in every reachable state every
    player's name is such a string. *)
Theorem names_are_short_and_printable :
  forall sv : Server.t,
    reachable sv ->
    allPlayers (fun p => tidy (Player.name p)) sv /\
    (forall nm, tidy (sanitizeString nm)) /\
    sanitizeString None = ""%string /\
    (forall str, forallb isSpace (list_ascii_of_string str) = true ->
                 sanitizeString (Some str) = ""%string).
Proof.
  intros sv Hr. split; [exact (reachable_names sv Hr)|].
  split; [exact sanitizeString_tidy|]. split; [reflexivity|].
  exact sanitizeString_blank.
Qed.

(** A host who gave a name of 26 letters. *)
Lemma names_are_short_and_printable_witness :
  let rnd : Rng := fun _ => 1 / 2 in
  let sv :=
    fst (handle 1000 rnd
           (ReqHost "a" (Some (mkHostData None None
                                          (Some "abcdefghijklmnopqrstuvwxyz"%string))))
           Server.init) in
  reachable sv /\
  allPlayers (fun p => tidy (Player.name p)) sv.
Proof.
  intros rnd sv.
  assert (Hrnd : unit_rng rnd) by (intros n; unfold rnd; lra).
  assert (Hr : reachable sv) by (apply reach_step; [apply reach_init|exact Hrnd]).
  split; [exact Hr|exact (proj1 (names_are_short_and_printable sv Hr))].
Defined.

Lemma substring_all s :
  forall n, (String.length s <= n)%nat -> substring 0 n s = s.
Proof.
  induction s as [|c rest IH]; intros n Hn.
  - destruct n; reflexivity.
  - destruct n as [|n]; cbn in *; [lia|]. rewrite IH by lia. reflexivity.
Qed.

(** X24.  A chat message from a player of the socket's room whose text is
    not empty after sanitizing is logged as the room's last chat entry and
    broadcast to the room, under the socket's id, not as a system message,
    with the time of the request and the sanitized text: at most 20
    characters, no control character.  Nothing else of the room changes. *)
Theorem chat_message_is_logged_and_broadcast_sanitized :
  forall (now : Z) (sid gameId : string) (text : option string)
         (sv : Server.t) (game : Game.t) (player : Player.t),
    lookup sid (Server.socketGameId sv) = Some gameId ->
    lookup gameId (Server.games sv) = Some game ->
    lookup sid (Game.players game) = Some player ->
    sanitizeString text <> ""%string ->
    let msg := Chat.mk (Some sid) (sanitizeString text) now false in
    exists game',
      onChatMessage now sid text sv =
      (Server.set_games (insert gameId game' (Server.games sv)) sv,
       [ToRoom gameId (EvChatMessage msg)]) /\
      last (Game.chat game') msg = storedMessage now msg /\
      Chat.text (storedMessage now msg) = sanitizeString text /\
      tidy (sanitizeString text) /\
      Game.players game' = Game.players game /\
      Game.scores game' = Game.scores game /\
      Game.bullets game' = Game.bullets game /\
      Game.powerUps game' = Game.powerUps game.
Proof.
  intros now sid gameId text sv game player Hs Hg Hp Hne msg.
  pose proof (sanitizeString_tidy text) as Ht.
  assert (Hsub : substring 0 200 (sanitizeString text) = sanitizeString text).
  { apply substring_all. destruct Ht as (Hl & _). unfold NAME_MAX in Hl. lia. }
  unfold onChatMessage. rewrite Hs, Hg, Hp, Hsub.
  destruct (String.eqb_spec (sanitizeString text) ""); [contradiction|].
  exists (pushChatMessage now msg game). split; [reflexivity|].
  split; [apply pushChatMessage_last|]. repeat split; apply Ht.
Qed.

(** The host of a room says hello. *)
Lemma chat_message_is_logged_and_broadcast_sanitized_witness :
  let rnd : Rng := fun _ => 1 / 2 in
  let sv :=
    fst (onHost 1000 rnd "a" (Some (mkHostData None None None)) Server.init) in
  let game := hostGame 1000 rnd "a" "game_1" "Game 1" "green" None in
  let player := newPlayer rnd "a" "" in
  let msg := Chat.mk (Some "a"%string) "hello" 2000 false in
  lookup "a"%string (Server.socketGameId sv) = Some "game_1"%string /\
  lookup "game_1"%string (Server.games sv) = Some game /\
  lookup "a"%string (Game.players game) = Some player /\
  sanitizeString (Some "hello"%string) <> ""%string /\
  exists game',
    onChatMessage 2000 "a" (Some "hello"%string) sv =
    (Server.set_games (insert "game_1" game' (Server.games sv)) sv,
     [ToRoom "game_1" (EvChatMessage msg)]).
Proof.
  intros rnd sv game player msg.
  assert (H1 : lookup "a"%string (Server.socketGameId sv) = Some "game_1"%string)
    by reflexivity.
  assert (H2 : lookup "game_1"%string (Server.games sv) = Some game) by reflexivity.
  assert (H3 : lookup "a"%string (Game.players game) = Some player) by reflexivity.
  assert (H4 : sanitizeString (Some "hello"%string) <> ""%string)
    by (cbn; discriminate).
  repeat (split; [assumption|]).
  destruct (chat_message_is_logged_and_broadcast_sanitized
              2000 "a" "game_1" (Some "hello"%string) sv game player H1 H2 H3 H4)
    as (game' & He & _).
  exists game'. exact He.
Defined.
(** ** The client's prediction against the server *)

Lemma applyInput_packet player s :
  let player' := applyInput player (packet s) in
  Player.rotation player' = Client.Sample.rotation s /\
  Player.turretRotation player' = Client.Sample.turretRotation s /\
  Player.speedBoost player' = Player.speedBoost player /\
  Player.lastProcessedInput player' = Client.Sample.seq s.
Proof.
  cbv zeta. unfold applyInput, packet.
  cbn [Input.inputs Input.rotation Input.turretRotation Input.seq Input.dt].
  destruct (moveWithin _ _ _ _ _ _ _ _ _) as [[px pvx] [py pvy]].
  destruct player. cbn. repeat split.
Qed.

Lemma applyInput_agrees player predicted s :
  agrees player predicted ->
  agrees (applyInput player (packet s))
         (Client.applyInput MAP_WIDTH MAP_HEIGHT predicted s).
Proof.
  intros (Hx & Hy & Hvx & Hvy & Hr & Ht & Hb).
  destruct (client_applyInput_mirrors_server
              player (packet s) (Client.Sample.inputs s) (Client.Sample.dt s)
              s predicted eq_refl eq_refl eq_refl eq_refl Hx Hy Hvx Hvy Hb)
    as (Px & Py & Pvx & Pvy).
  pose proof (applyInput_packet player s) as Hp. cbv zeta in Hp.
  destruct Hp as (Pr & Pt & Pb & _).
  unfold agrees. rewrite Px, Py, Pvx, Pvy, Pr, Pt, Pb.
  repeat split; try reflexivity; unfold Client.applyInput;
    destruct (moveWithin _ _ _ _ _ _ _ _ _) as [[px pvx] [py pvy]];
    solve [reflexivity | exact Hb].
Qed.

Lemma last_default {A} (a : A) l d d' : last (a :: l) d = last (a :: l) d'.
Proof.
  revert a. induction l as [|b l IH]; intros a; [reflexivity|].
  change (last (b :: l) d = last (b :: l) d'). apply IH.
Qed.

(** X25.  On a canvas of the map's size the client's prediction is the
    server's computation: starting from a player and a predicted state that
    agree in position, velocity, rotations and speed boost, the client
    applying its samples one by one and the server draining the queue of the
    packets made from them end in states that agree again; and the server
    then acknowledges the last sample's number. *)
Theorem prediction_matches_the_server :
  forall (samples : list Client.Sample.t) (player : Player.t)
         (predicted : Client.Predicted.t),
    agrees player predicted ->
    let player' := drainQueue (map (fun s => Some (packet s)) samples) player in
    agrees player'
           (fold_left (Client.applyInput MAP_WIDTH MAP_HEIGHT) samples predicted) /\
    Player.lastProcessedInput player' =
    last (map Client.Sample.seq samples) (Player.lastProcessedInput player).
Proof.
  induction samples as [|s rest IH]; intros player predicted Ha.
  - split; [exact Ha|reflexivity].
  - cbn [map drainQueue fold_left].
    destruct (IH (applyInput player (packet s))
                 (Client.applyInput MAP_WIDTH MAP_HEIGHT predicted s)
                 (applyInput_agrees player predicted s Ha)) as (Hag & Hl).
    split; [exact Hag|]. rewrite Hl.
    pose proof (applyInput_packet player s) as Hp. cbv zeta in Hp.
    destruct Hp as (_ & _ & _ & ->).
    destruct rest as [|s' rest']; [reflexivity|].
    cbn [map]. change (last (Client.Sample.seq s ::
                             Client.Sample.seq s' :: map Client.Sample.seq rest')
                            (Player.lastProcessedInput player))
      with (last (Client.Sample.seq s' :: map Client.Sample.seq rest')
                 (Player.lastProcessedInput player)).
    apply last_default.
Qed.

(** A tank at rest at (100, 100), two samples with [d] held. *)
Lemma prediction_matches_the_server_witness :
  let player := Player.fresh "a" 100 100 "" "#e74c3c" in
  let predicted := Client.Predicted.mk 100 100 0 0 0 0 false false in
  let keys := Keys.mk false false false true in
  let samples :=
    [Client.Sample.mk 1 keys 0 0 (1 / 60); Client.Sample.mk 2 keys 0 0 (1 / 60)] in
  agrees player predicted /\
  Player.lastProcessedInput
    (drainQueue (map (fun s => Some (packet s)) samples) player) = 2%Z.
Proof.
  intros player predicted keys samples.
  assert (Ha : agrees player predicted) by (repeat split).
  split; [exact Ha|].
  exact (proj2 (prediction_matches_the_server samples player predicted Ha)).
Defined.

(** ** The client's history *)

Lemma dropAcked_length ack history :
  (List.length (Client.dropAcked ack history) <= List.length history)%nat.
Proof.
  destruct (dropAcked_suffix ack history) as [front Hf].
  rewrite Hf at 2. rewrite length_app. lia.
Qed.

Lemma onState_history_length state c :
  (List.length (Client.predictionHistory (Client.onState state c))
   <= List.length (Client.predictionHistory c))%nat.
Proof.
  unfold Client.onState.
  destruct (negb (Client.gameStarted c)); [reflexivity|].
  destruct state as [st|]; [|reflexivity].
  destruct (match Client.playerId c with
            | Some pid => _
            | None => None
            end) as [serverPlayer|]; [|reflexivity].
  cbn [Client.predictionHistory]. apply dropAcked_length.
Qed.

Lemma recordInput_spec mouseTurret c :
  let c' := Client.recordInput mouseTurret c in
  let input :=
    Client.Sample.mk (Client.sequenceNumber c) (Client.keys c)
                     (Client.Predicted.rotation (Client.predictedPlayer c))
                     mouseTurret (1 / 60) in
  Client.sequenceNumber c' = (Client.sequenceNumber c + 1)%Z /\
  Client.inputQueue c' = Client.inputQueue c ++ [input] /\
  Client.predictedPlayer c' =
  Client.applyInput (Client.canvasWidth c) (Client.canvasHeight c)
    (Client.Predicted.mk
       (Client.Predicted.x (Client.predictedPlayer c))
       (Client.Predicted.y (Client.predictedPlayer c))
       (Client.Predicted.vx (Client.predictedPlayer c))
       (Client.Predicted.vy (Client.predictedPlayer c))
       (Client.Predicted.rotation (Client.predictedPlayer c)) mouseTurret
       (Client.Predicted.speedBoost (Client.predictedPlayer c))
       (Client.Predicted.shield (Client.predictedPlayer c)))
    input /\
  (exists entry,
      last (Client.predictionHistory c') entry = entry /\
      Client.Entry.seq entry = Client.sequenceNumber c /\
      Client.Entry.x entry = Client.Predicted.x (Client.predictedPlayer c') /\
      Client.Entry.y entry = Client.Predicted.y (Client.predictedPlayer c') /\
      In entry (Client.predictionHistory c')) /\
  ((List.length (Client.predictionHistory c) <= 60)%nat ->
   (List.length (Client.predictionHistory c') <= 60)%nat).
Proof.
  cbv zeta. unfold Client.recordInput.
  cbn [Client.sequenceNumber Client.inputQueue Client.predictedPlayer
       Client.predictionHistory Client.Predicted.rotation
       Client.Predicted.turretRotation Client.Sample.seq].
  assert (Hn : forall r, num_or (Some r) 0 = r) by apply num_or_id.
  rewrite !Hn.
  split; [reflexivity|]. split; [reflexivity|]. split; [reflexivity|].
  set (entry := Client.Entry.mk _ _ _ _ _ _ _ _ _).
  set (history := (Client.predictionHistory c ++ [entry])%list).
  assert (Hlen : List.length history = S (List.length (Client.predictionHistory c)))
    by (unfold history; rewrite length_app; cbn; lia).
  split.
  - exists entry.
    assert (Hlast : forall l, last (l ++ [entry]) entry = entry)
      by (intros l; apply last_last).
    assert (Htl : forall l, last (tl (l ++ [entry])) entry = entry).
    { intros [|a l]; [reflexivity|]. cbn [app tl]. apply last_last. }
    split; [destruct (60 <? _)%nat; [apply Htl|apply Hlast]|].
    split; [reflexivity|]. split; [reflexivity|]. split; [reflexivity|].
    destruct (Nat.ltb_spec 60 (List.length history)) as [Hlt|_].
    + unfold history in *. destruct (Client.predictionHistory c) as [|a l].
      * cbn in Hlt. lia.
      * cbn [app tl]. apply in_or_app. right. left. reflexivity.
    + unfold history. apply in_or_app. right. left. reflexivity.
  - intros Hb. destruct (Nat.ltb_spec 60 (List.length history)) as [Hlt|Hle].
    + destruct history as [|a l]; cbn in *; lia.
    + exact Hle.
Qed.

(** X26.  The client's bookkeeping: a running client's [update] issues
    the next sequence number, queues one packet with the held keys and a step
    of 1/60 s for the server, and predicts with that same packet; the
    history's newest entry carries that number and the predicted position.
    Neither [update] nor a snapshot lets the history grow past 60 entries or
    disturbs its order (numbers strictly increasing, all below the next
    number to issue). *)
Theorem client_history_is_ordered_and_bounded :
  forall (mouseTurret : R) (state : option Snapshot) (c : Client.t),
    historyOrdered c ->
    (List.length (Client.predictionHistory c) <= 60)%nat ->
    (historyOrdered (Client.update mouseTurret c) /\
     (List.length (Client.predictionHistory (Client.update mouseTurret c))
      <= 60)%nat) /\
    (historyOrdered (Client.onState state c) /\
     (List.length (Client.predictionHistory (Client.onState state c))
      <= 60)%nat) /\
    (active c ->
     let c' := Client.update mouseTurret c in
     let input :=
       Client.Sample.mk (Client.sequenceNumber c) (Client.keys c)
                        (Client.Predicted.rotation (Client.predictedPlayer c))
                        mouseTurret (1 / 60) in
     Client.sequenceNumber c' = (Client.sequenceNumber c + 1)%Z /\
     Client.inputQueue c' = Client.inputQueue c ++ [input] /\
     exists entry,
       last (Client.predictionHistory c') entry = entry /\
       Client.Entry.seq entry = Client.sequenceNumber c /\
       Client.Entry.x entry = Client.Predicted.x (Client.predictedPlayer c') /\
       Client.Entry.y entry = Client.Predicted.y (Client.predictedPlayer c')).
Proof.
  intros mouseTurret state c Ho Hb. split; [|split].
  - split; [apply update_historyOrdered, Ho|].
    unfold Client.update.
    destruct (Client.playerId c) as [pid|]; [|exact Hb].
    destruct (lookup pid (Client.players c)); [|exact Hb].
    destruct (Client.gameStarted c); [|exact Hb].
    apply recordInput_spec, Hb.
  - split; [apply onState_historyOrdered, Ho|].
    etransitivity; [apply onState_history_length|exact Hb].
  - intros (Hg & pid & view & Hp & Hl). cbv zeta. unfold Client.update.
    rewrite Hp, Hl, Hg.
    pose proof (recordInput_spec mouseTurret c) as Hs. cbv zeta in Hs.
    destruct Hs as (H1 & H2 & _ & (entry & E1 & E2 & E3 & E4 & _) & _).
    split; [exact H1|]. split; [exact H2|].
    exists entry. repeat split; assumption.
Qed.

(** A client that has just joined, with no history yet. *)
Lemma client_history_is_ordered_and_bounded_witness :
  let view :=
    PlayerView.mk "a" 100 100 0 0 "#e74c3c" "" 100 false 0 0
                  false false false false false 0 in
  let c :=
    Client.mk true (Some "a"%string) 1000 720 (Keys.mk false false false true)
              [("a"%string, view)] (Client.Predicted.mk 100 100 0 0 0 0 false false)
              [] [] 0 in
  historyOrdered c /\
  (List.length (Client.predictionHistory c) <= 60)%nat /\
  Client.sequenceNumber (Client.update 0 c) = 1%Z.
Proof.
  intros view c.
  assert (Ho : historyOrdered c) by (split; constructor).
  assert (Hb : (List.length (Client.predictionHistory c) <= 60)%nat) by (cbn; lia).
  assert (Ha : active c).
  { split; [reflexivity|]. exists "a"%string, view. split; reflexivity. }
  split; [exact Ho|]. split; [exact Hb|].
  exact (proj1 (proj2 (proj2 (client_history_is_ordered_and_bounded
                                0 None c Ho Hb)) Ha)).
Defined.
(** ** Interpolation *)

Lemma easeT_range now d :
  (Interp.timestamp d <= now)%Z ->
  0 <= Interp.easeT now d <= 1 /\
  ((Interp.timestamp d + 100 <= now)%Z -> Interp.easeT now d = 1).
Proof.
  intros Hle. unfold Interp.easeT, Interp.INTERPOLATION_DELAY.
  set (dtv := IZR (now - Interp.timestamp d)).
  assert (Hd : 0 <= dtv) by (unfold dtv; apply IZR_le; lia).
  set (t := Rmin (dtv / 100) 1).
  assert (Ht : 0 <= t <= 1).
  { unfold t, Rmin. destruct (Rle_dec (dtv / 100) 1); lra. }
  split.
  - assert (H3 : 0 <= (1 - t) ^ 3 <= 1).
    { assert (H1 : 0 <= 1 - t <= 1) by lra. cbn [pow]. rewrite Rmult_1_r.
      assert (H2 : 0 <= (1 - t) * (1 - t) <= 1) by nra. nra. }
    lra.
  - intros Hlate.
    assert (Hb : 100 <= dtv) by (unfold dtv; apply IZR_le; lia).
    assert (Ht1 : t = 1).
    { unfold t, Rmin. destruct (Rle_dec (dtv / 100) 1); lra. }
    rewrite Ht1. cbn [pow]. lra.
Qed.

Lemma toward_between c g e :
  0 <= e <= 1 ->
  Rmin c g <= Interp.toward c g e <= Rmax c g /\
  Rabs (g - Interp.toward c g e) <= Rabs (g - c).
Proof.
  intros He. unfold Interp.toward. split.
  - unfold Rmin, Rmax. destruct (Rle_dec c g); nra.
  - replace (g - (c + (g - c) * e)) with ((g - c) * (1 - e)) by ring.
    rewrite Rabs_mult, (Rabs_right (1 - e)) by lra.
    pose proof (Rabs_pos (g - c)). nra.
Qed.

(** X27.  A frame never takes an interpolated player past its target:
    when the entry's timestamp is not in the future, each of x, y and the two
    rotations lands between its current value and its target, no farther from
    the target than before; and once 100 ms have passed since the last
    snapshot the frame puts it exactly on the target.  A new snapshot
    restarts the entry from the old target toward the snapshot's pose. *)
Theorem interpolation_never_overshoots :
  forall (now : Z) (d : Interp.t),
    (Interp.timestamp d <= now)%Z ->
    let d' := Interp.step now d in
    let c := Interp.current d in
    let g := Interp.target d in
    let c' := Interp.current d' in
    Interp.target d' = g /\ Interp.timestamp d' = Interp.timestamp d /\
    Rmin (Interp.x c) (Interp.x g) <= Interp.x c'
    <= Rmax (Interp.x c) (Interp.x g) /\
    Rmin (Interp.y c) (Interp.y g) <= Interp.y c'
    <= Rmax (Interp.y c) (Interp.y g) /\
    Rabs (Interp.x g - Interp.x c') <= Rabs (Interp.x g - Interp.x c) /\
    Rabs (Interp.y g - Interp.y c') <= Rabs (Interp.y g - Interp.y c) /\
    Rabs (Interp.rotation g - Interp.rotation c')
    <= Rabs (Interp.rotation g - Interp.rotation c) /\
    Rabs (Interp.turretRotation g - Interp.turretRotation c')
    <= Rabs (Interp.turretRotation g - Interp.turretRotation c) /\
    ((Interp.timestamp d + 100 <= now)%Z -> c' = g) /\
    (forall p,
        Interp.retarget now p (Some d) =
        Interp.mk g (Interp.poseOf p) now).
Proof.
  intros now d Hle d' c g c'.
  destruct (easeT_range now d Hle) as (He & Hlate).
  unfold c', d', Interp.step. cbv zeta. cbn [Interp.current Interp.target
    Interp.timestamp Interp.x Interp.y Interp.rotation Interp.turretRotation].
  fold c g.
  split; [reflexivity|]. split; [reflexivity|].
  split; [apply toward_between, He|]. split; [apply toward_between, He|].
  split; [apply toward_between, He|]. split; [apply toward_between, He|].
  split; [apply toward_between, He|]. split; [apply toward_between, He|].
  split; [|reflexivity].
  intros Hl. rewrite (Hlate Hl). unfold Interp.toward.
  destruct g as [gx gy gr gt]. cbn. f_equal; ring.
Qed.

(** An entry 50 ms after its snapshot. *)
Lemma interpolation_never_overshoots_witness :
  let d :=
    Interp.mk (Interp.mkPose 0 0 0 0) (Interp.mkPose 10 20 1 1) 1000 in
  (Interp.timestamp d <= 1050)%Z /\
  Interp.target (Interp.step 1050 d) = Interp.target d.
Proof.
  intros d.
  assert (Hle : (Interp.timestamp d <= 1050)%Z) by (cbn; lia).
  split; [exact Hle|].
  exact (proj1 (interpolation_never_overshoots 1050 d Hle)).
Defined.

(** ** The leaderboard *)

Lemma place_perm r sorted :
  Permutation (Leaderboard.place r sorted) (r :: sorted).
Proof.
  induction sorted as [|h rest IH]; cbn; [reflexivity|].
  destruct (_ <? _)%Z; [|reflexivity].
  rewrite IH. apply perm_swap.
Qed.

Lemma sortByKills_perm rows : Permutation (Leaderboard.sortByKills rows) rows.
Proof.
  induction rows as [|r rest IH]; cbn; [reflexivity|].
  rewrite place_perm. constructor. exact IH.
Qed.

Lemma place_sorted r sorted :
  StronglySorted (fun a b => (Leaderboard.kills b <= Leaderboard.kills a)%Z) sorted ->
  StronglySorted (fun a b => (Leaderboard.kills b <= Leaderboard.kills a)%Z)
                 (Leaderboard.place r sorted).
Proof.
  induction 1 as [|h rest Hs IH Hall]; cbn.
  - constructor; constructor.
  - destruct (Z.ltb_spec (Leaderboard.kills r) (Leaderboard.kills h)) as [Hlt|Hge].
    + constructor; [exact IH|].
      rewrite Forall_forall. intros x Hx.
      apply (Permutation_in _ (place_perm r rest)) in Hx.
      destruct Hx as [<-|Hx]; [lia|].
      rewrite Forall_forall in Hall. apply Hall, Hx.
    + constructor; [constructor; assumption|].
      constructor; [exact Hge|].
      eapply Forall_impl; [|exact Hall]. cbn. intros x Hx. lia.
Qed.

Lemma sortByKills_sorted rows :
  StronglySorted (fun a b => (Leaderboard.kills b <= Leaderboard.kills a)%Z)
                 (Leaderboard.sortByKills rows).
Proof.
  induction rows as [|r rest IH]; cbn; [constructor|].
  apply place_sorted, IH.
Qed.

Lemma StronglySorted_firstn {A} (R : A -> A -> Prop) n l :
  StronglySorted R l -> StronglySorted R (firstn n l).
Proof.
  revert l. induction n as [|n IH]; intros l Hs; [constructor|].
  destruct Hs as [|a l Hs Hall]; [constructor|]. cbn.
  constructor; [apply IH, Hs|].
  rewrite Forall_forall in *. intros x Hx. apply Hall.
  rewrite <- (firstn_skipn n l). apply in_or_app. left. exact Hx.
Qed.

Lemma StronglySorted_split {A} (R : A -> A -> Prop) l1 l2 :
  StronglySorted R (l1 ++ l2) ->
  Forall (fun a => Forall (fun b => R a b) l2) l1.
Proof.
  induction l1 as [|a l1 IH]; cbn; intros Hs; [constructor|].
  inversion Hs as [|? ? Hs' Hall]; subst. constructor; [|apply IH, Hs'].
  rewrite Forall_forall in *. intros b Hb. apply Hall.
  apply in_or_app. right. exact Hb.
Qed.

(** X28.  The leaderboard shows at most 10 rows, in descending order of
    kills, each the row of one entry of the scores; together with the rows
    it leaves out they are exactly the rows of all entries, and no row left
    out has more kills than a row shown. *)
Theorem leaderboard_shows_the_top_ten :
  forall (playerNames : list (string * string))
         (players : list (string * PlayerView.t)) (socketId : option string)
         (scores : list (string * Z)),
    let shown := Leaderboard.topPlayers playerNames players socketId scores in
    (List.length shown <= 10)%nat /\
    List.length shown = Nat.min 10 (List.length scores) /\
    StronglySorted (fun a b => (Leaderboard.kills b <= Leaderboard.kills a)%Z)
                   shown /\
    exists hidden,
      Permutation (shown ++ hidden)
                  (map (Leaderboard.row playerNames players socketId) scores) /\
      Forall (fun s =>
                Forall (fun h => (Leaderboard.kills h <= Leaderboard.kills s)%Z)
                       hidden)
             shown.
Proof.
  intros playerNames players socketId scores shown.
  unfold shown, Leaderboard.topPlayers.
  set (rows := map (Leaderboard.row playerNames players socketId) scores).
  pose proof (sortByKills_perm rows) as Hperm.
  pose proof (sortByKills_sorted rows) as Hsorted.
  assert (Hlen : List.length (Leaderboard.sortByKills rows) = List.length scores).
  { rewrite (Permutation_length Hperm). unfold rows. apply length_map. }
  split; [rewrite length_firstn; lia|].
  split; [rewrite length_firstn, Hlen; reflexivity|].
  split; [apply StronglySorted_firstn, Hsorted|].
  exists (skipn 10 (Leaderboard.sortByKills rows)).
  rewrite firstn_skipn. split; [exact Hperm|].
  apply StronglySorted_split. rewrite firstn_skipn. exact Hsorted.
Qed.
(** ** Where events go *)

Lemma wall_events gameId b :
  (forall b' bounced ev,
      wallX gameId b = Some (b', bounced, ev) -> Forall (isImpactIn gameId) ev) /\
  (forall b' bounced ev,
      wallY gameId b = Some (b', bounced, ev) -> Forall (isImpactIn gameId) ev).
Proof.
  split; intros b' bounced ev; [unfold wallX|unfold wallY];
    (destruct (outside _ _); [destruct (_ <? _)%nat|]); intros [= _ _ <-];
    repeat constructor.
Qed.

Lemma moveBullet_events now gameId bullet :
  Forall (isImpactIn gameId) (snd (moveBullet now gameId bullet)).
Proof.
  unfold moveBullet. set (moved := set_motion _ _ _ _ _ bullet).
  destruct (wallX gameId moved) as [[[b1 bx] evx]|] eqn:Hx; [|constructor].
  pose proof (proj1 (wall_events gameId moved) _ _ _ Hx) as H1.
  destruct (wallY gameId b1) as [[[b2 by_] evy]|] eqn:Hy; [|exact H1].
  pose proof (proj2 (wall_events gameId b1) _ _ _ Hy) as H2.
  destruct (_ || _)%bool; cbn; apply Forall_app; split; assumption.
Qed.

Lemma bulletPass_events now gameId bullets :
  forall ar, Forall (isImpactIn gameId) (snd (bulletPass now gameId bullets ar)).
Proof.
  induction bullets as [|bullet later IH]; intros ar; [constructor|].
  cbn [bulletPass]. specialize (IH ar).
  destruct (bulletPass now gameId later ar) as [[later' ar1] ev1].
  cbn [snd] in IH. unfold stepBullet.
  destruct (findTarget bullet (fst ar1)) as [[id target]|].
  - cbn. apply Forall_app. split; [exact IH|]. repeat constructor.
  - pose proof (moveBullet_events now gameId bullet) as Hm.
    destruct (moveBullet now gameId bullet) as [ob ev]. cbn [snd] in *.
    apply Forall_app. split; assumption.
Qed.

(** X29.  What a room's tick emits goes to that room only: [bulletHit]
    and [wallImpact] events first, then, last, one [state] event carrying the
    snapshot of the room as the tick leaves it, in which every player of the
    room appears once, under its key, in key order. *)
Theorem tick_emits_to_its_room_and_ends_with_its_snapshot :
  forall (now : Z) (rnd : Rng) (gameId : string) (last : option Z)
         (game : Game.t),
    let r := tickGame now rnd gameId last game in
    let game' := tickedGame r in
    exists impacts,
      snd r = impacts ++ [ToRoom gameId (EvState (snapshot game'))] /\
      Forall (isImpactIn gameId) impacts /\
      map PlayerView.id (snap_players (snapshot game')) =
      map fst (Game.players game) /\
      snap_scores (snapshot game') = Game.scores game' /\
      List.length (snap_bullets (snapshot game')) = List.length (Game.bullets game').
Proof.
  intros now rnd gameId last game r game'.
  destruct (tickGame_keys now rnd gameId last game) as (Hk & _).
  fold r game' in Hk.
  assert (Hev : exists impacts,
             snd r = impacts ++ [ToRoom gameId (EvState (snapshot game'))] /\
             Forall (isImpactIn gameId) impacts).
  { unfold game', r, tickGame, tickedGame.
    pose proof (spawnCheck_keeps now rnd (int_or last 0) game) as (Hp & Hb & Hs).
    destruct (spawnCheck now rnd (int_or last 0) game) as [[last' g1] n1].
    cbn [fst snd] in *.
    pose proof (bulletPass_events now gameId (Game.bullets g1)
                  (Game.players g1, Game.scores g1)) as He.
    destruct (bulletPass now gameId (Game.bullets g1)
                         (Game.players g1, Game.scores g1))
      as [[bullets [players scores]] ev].
    destruct (respawnPass now (rng_drop n1 rnd) (mapValues processInputs players))
      as [players2 n2].
    destruct (powerUpPass now (Game.powerUps g1) players2) as [powerUps players3].
    cbn [fst snd] in *. exists ev. split; [reflexivity|exact He]. }
  destruct Hev as (impacts & He & Hi). exists impacts.
  split; [exact He|]. split; [exact Hi|]. split; [|split].
  - rewrite <- Hk. unfold snapshot. cbn [snap_players].
    rewrite map_map. apply map_ext. intros [k p]. reflexivity.
  - reflexivity.
  - unfold snapshot. cbn [snap_bullets]. apply length_map.
Qed.

(** X30.  The events of a request other than the tick go to the
    requesting socket or to the one room the request can write to, never to
    another socket or room. *)
Theorem replies_go_to_the_requester_or_its_room :
  forall (now : Z) (rnd : Rng) (req : Request) (sv : Server.t),
    req <> Tick ->
    Forall (addressedTo (requester req) (touchedRoom req sv))
           (snd (handle now rnd req sv)).
Proof.
  intros now rnd req sv Hreq.
  destruct req as [sid data|sid inputs|sid angle|sid text|sid|sid data|sid|gameId|];
    cbn [handle requester touchedRoom].
  - unfold onJoin. destruct data as [dta|]; [|repeat constructor].
    destruct (jd_serverId dta) as [gameId|]; [|repeat constructor].
    destruct (String.eqb gameId ""); [repeat constructor|].
    destruct (lookup gameId (Server.games sv)) as [game|]; [|repeat constructor].
    cbn [snd]. apply Forall_app. split; [|repeat constructor].
    unfold broadcastPlayerName.
    destruct (lookup sid (Game.players _)); repeat constructor.
  - unfold onInput.
    destruct (lookup sid (Server.socketGameId sv)) as [gameId|]; [|constructor].
    destruct (lookup gameId (Server.games sv)) as [game|]; [|constructor].
    destruct (lookup sid (Game.players game)) as [player|]; [|constructor].
    destruct inputs as [items|]; constructor.
  - unfold onShoot.
    destruct (lookup sid (Server.socketGameId sv)) as [gameId|]; [|constructor].
    destruct (lookup gameId (Server.games sv)) as [game|]; [|constructor].
    destruct (lookup sid (Game.players game)) as [player|]; [|constructor].
    destruct (Player.dead player); [constructor|].
    destruct (_ <? _)%Z; constructor.
  - unfold onChatMessage.
    destruct (lookup sid (Server.socketGameId sv)) as [gameId|]; [|constructor].
    destruct (lookup gameId (Server.games sv)) as [game|]; [|constructor].
    destruct (lookup sid (Game.players game)) as [player|]; [|constructor].
    destruct (String.eqb _ ""); repeat constructor.
  - repeat constructor.
  - unfold onHost. destruct data as [dta|]; [|repeat constructor].
    cbn [snd]. apply Forall_app. split; [|repeat constructor].
    unfold broadcastPlayerName.
    destruct (lookup sid (Game.players _)); repeat constructor.
  - unfold onDisconnect.
    destruct (lookup sid (Server.socketGameId sv)) as [gameId|]; [|constructor].
    destruct (lookup gameId (Server.games sv)) as [game|]; constructor.
  - unfold onCleanupTimer.
    destruct (lookup gameId (Server.games sv)) as [game|]; [|constructor].
    destruct (Game.cleanupTimer game), (Game.players game); constructor.
  - contradiction.
Qed.

(** A join of the first room. *)
Lemma replies_go_to_the_requester_or_its_room_witness :
  let rnd : Rng := fun _ => 1 / 2 in
  let sv :=
    fst (onHost 1000 rnd "a" (Some (mkHostData None None None)) Server.init) in
  let req := ReqJoin "b" (Some (mkJoinData (Some "game_1"%string) None)) in
  req <> Tick /\
  Forall (addressedTo (Some "b"%string) (Some "game_1"%string))
         (snd (handle 2000 rnd req sv)).
Proof.
  intros rnd sv req.
  assert (H : req <> Tick) by discriminate.
  split; [exact H|].
  exact (replies_go_to_the_requester_or_its_room 2000 rnd req sv H).
Defined.

(** * The spawn check within the tick *)

Lemma spawnsSpaced_later last last' powerUps :
  (last <= last')%Z -> spawnsSpaced last powerUps -> spawnsSpaced last' powerUps.
Proof.
  intros Hle (Hs & Hf & Hw). split; [exact Hs|split; [|exact Hw]].
  eapply Forall_impl; [|exact Hf]. cbn. intros p Hp. lia.
Qed.

Lemma spawnedLater_span powerUps :
  forall p,
    StronglySorted spawnedLater (p :: powerUps) ->
    exists q, In q (p :: powerUps) /\
              (PowerUp.createdAt p + 7000 * Z.of_nat (List.length powerUps)
               <= PowerUp.createdAt q)%Z.
Proof.
  induction powerUps as [|p' rest IH]; intros p Hs.
  - exists p. split; [left; reflexivity|cbn; lia].
  - inversion Hs as [|? ? Hs' Hall]; subst.
    destruct (IH p' Hs') as (q & Hin & Hq).
    exists q. split; [right; exact Hin|].
    inversion Hall as [|? ? Hpp' _]; subst. unfold spawnedLater in Hpp'.
    cbn [List.length]. lia.
Qed.

(** Power-ups spawned more than 7 s apart and all within 30 s are at most
    five. *)
Lemma spawnsSpaced_length last powerUps :
  spawnsSpaced last powerUps -> (List.length powerUps < 6)%nat.
Proof.
  intros (Hs & _ & Hw). destruct powerUps as [|p rest]; [cbn; lia|].
  destruct (spawnedLater_span rest p Hs) as (q & Hin & Hq).
  specialize (Hw p q (or_introl eq_refl) Hin).
  unfold POWER_UP_LIFETIME in Hw. cbn [List.length]. lia.
Qed.

(** The power-ups the pass keeps, without what it does to the players: they
    are among those it was given, in their order, and none is older than the
    lifetime. *)
Lemma powerUpPass_kept now powerUps :
  forall players,
    let out := fst (powerUpPass now powerUps players) in
    incl out powerUps /\
    Forall (fun p => (now - PowerUp.createdAt p <= POWER_UP_LIFETIME)%Z) out /\
    (forall R, StronglySorted R powerUps -> StronglySorted R out).
Proof.
  induction powerUps as [|powerUp rest IH]; intros players; cbn [powerUpPass].
  - cbn. split; [apply incl_refl|split; [constructor|auto]].
  - destruct (Z.ltb_spec POWER_UP_LIFETIME (now - PowerUp.createdAt powerUp)) as [Ho|Hy].
    + destruct (IH players) as (Hi & Hf & Hs). cbv zeta.
      split; [apply incl_tl, Hi|split; [exact Hf|]].
      intros R HR. inversion HR; subst. apply Hs. assumption.
    + destruct (collector powerUp players) as [playerId|].
      * destruct (IH (applyPowerUp now playerId (PowerUp.type powerUp) players))
          as (Hi & Hf & Hs). cbv zeta.
        split; [apply incl_tl, Hi|split; [exact Hf|]].
        intros R HR. inversion HR; subst. apply Hs. assumption.
      * destruct (IH players) as (Hi & Hf & Hs).
        destruct (powerUpPass now rest players) as [rest' players'].
        cbn [fst] in *.
        split; [|split].
        -- intros x [<-|Hx]; [left; reflexivity|right; apply Hi, Hx].
        -- constructor; [exact Hy|exact Hf].
        -- intros R HR. inversion HR as [|? ? HR' Hall]; subst.
           constructor; [apply Hs, HR'|].
           rewrite Forall_forall in *. intros x Hx. apply Hall, Hi, Hx.
Qed.

Lemma spawnCheck_recorded now rnd last game :
  fst (fst (spawnCheck now rnd last game)) =
  if (7000 <? now - last)%Z then now else last.
Proof.
  unfold spawnCheck. destruct (_ <? _)%Z; [|reflexivity].
  destruct (_ <? _)%nat; reflexivity.
Qed.

Lemma tickGame_recorded now rnd gameId last game :
  fst (fst (fst (tickGame now rnd gameId last game))) =
  fst (fst (spawnCheck now rnd (int_or last 0) game)).
Proof.
  unfold tickGame.
  destruct (spawnCheck now rnd (int_or last 0) game) as [[last' g1] n1].
  destruct (bulletPass now gameId (Game.bullets g1) (Game.players g1, Game.scores g1))
    as [[bullets [players scores]] ev].
  destruct (respawnPass now (rng_drop n1 rnd) (mapValues processInputs players))
    as [players2 n2].
  destruct (powerUpPass now (Game.powerUps g1) players2) as [powerUps players3].
  reflexivity.
Qed.

(** One room's tick keeps its spawns spaced, with the time it records. *)
Lemma tickGame_spawnsSpaced now rnd gameId last game :
  spawnsSpaced (int_or last 0) (Game.powerUps game) ->
  let r := tickGame now rnd gameId last game in
  (int_or last 0 <= fst (fst (fst r)))%Z /\
  spawnsSpaced (fst (fst (fst r))) (Game.powerUps (tickedGame r)).
Proof.
  intros (Hs & Hf & Hw). cbv zeta.
  destruct (tickGame_passes now rnd gameId last game) as (_ & _ & _ & Hpu).
  rewrite Hpu, tickGame_recorded, spawnCheck_recorded. clear Hpu.
  set (players := fst (respawnPass now _ _)).
  set (R := int_or last 0) in *.
  unfold spawnCheck.
  destruct (Z.ltb_spec 7000 (now - R)) as [Hd|Hn].
  - split; [lia|].
    assert (Hout : forall pus,
               StronglySorted spawnedLater pus ->
               Forall (fun p => (PowerUp.createdAt p <= now)%Z) pus ->
               spawnsSpaced now (fst (powerUpPass now pus players))).
    { intros pus Hs1 Hf1.
      destruct (powerUpPass_kept now pus players) as (Hi & Hy & Hk).
      split; [apply Hk, Hs1|]. rewrite Forall_forall in *.
      split.
      - intros p Hp. apply Hf1, Hi, Hp.
      - intros p q Hp Hq. specialize (Hy p Hp). specialize (Hf1 q (Hi q Hq)).
        cbn in *. lia. }
    destruct (_ <? _)%nat; cbn [fst snd].
    + apply Hout.
      * unfold spawnPowerUp. cbn [Game.powerUps Game.set_powerUps].
        apply StronglySorted_snoc; [exact Hs|].
        eapply Forall_impl; [|exact Hf]. intros p Hp. unfold spawnedLater.
        cbn in *. lia.
      * unfold spawnPowerUp. cbn [Game.powerUps Game.set_powerUps].
        apply Forall_app. split; [|repeat constructor; cbn; lia].
        eapply Forall_impl; [|exact Hf]. intros p Hp. cbn in *. lia.
    + apply Hout; [exact Hs|].
      eapply Forall_impl; [|exact Hf]. intros p Hp. cbn in *. lia.
  - cbn [fst snd]. split; [lia|].
    destruct (powerUpPass_kept now (Game.powerUps game) players) as (Hi & Hy & Hk).
    split; [apply Hk, Hs|]. rewrite Forall_forall in *. split.
    + intros p Hp. apply Hf, Hi, Hp.
    + intros p q Hp Hq. apply Hw; apply Hi; assumption.
Qed.

Lemma recordedSpawnTime_insert gameId last k sv :
  recordedSpawnTime k
    (Server.set_lastPowerUpSpawnTime
       (insert gameId last (Server.lastPowerUpSpawnTime sv)) sv) =
  if String.eqb k gameId then last else recordedSpawnTime k sv.
Proof.
  unfold recordedSpawnTime. cbn.
  destruct (String.eqb_spec k gameId) as [->|Hne].
  - rewrite lookup_insert_eq. cbn. destruct (Z.eqb_spec last 0); congruence.
  - rewrite lookup_insert_ne by exact Hne. reflexivity.
Qed.

Lemma tickGames_spawnsRecorded now todo :
  forall rnd sv,
    Forall (fun kg => spawnsSpaced (recordedSpawnTime (fst kg) sv)
                                   (Game.powerUps (snd kg))) todo ->
    spawnsRecorded sv ->
    spawnsRecorded (fst (tickGames now rnd todo sv)).
Proof.
  induction todo as [|[gameId game] rest IH]; intros rnd sv Htodo Hsv.
  - exact Hsv.
  - cbn [tickGames].
    inversion Htodo as [|? ? Hg Hrest]; subst. cbn [fst snd] in Hg.
    pose proof (tickGame_spawnsSpaced now rnd gameId
                  (lookup gameId (Server.lastPowerUpSpawnTime sv)) game Hg) as Ht.
    cbv zeta in Ht. unfold tickedGame in Ht.
    destruct (tickGame now rnd gameId _ game) as [[[last game'] n] ev].
    cbn [fst snd] in Ht. destruct Ht as (Hle & Hsp).
    set (sv0 := Server.set_lastPowerUpSpawnTime _ sv).
    set (sv1 := Server.set_games _ sv0).
    assert (Hrec : forall k, recordedSpawnTime k sv1 =
                             if String.eqb k gameId then last
                             else recordedSpawnTime k sv).
    { intros k. apply (recordedSpawnTime_insert gameId last k sv). }
    assert (Hmono : forall k, (recordedSpawnTime k sv <= recordedSpawnTime k sv1)%Z).
    { intros k. rewrite Hrec. destruct (String.eqb_spec k gameId) as [->|_]; [|lia].
      exact Hle. }
    specialize (IH (rng_drop n rnd) sv1).
    destruct (tickGames now (rng_drop n rnd) rest sv1) as [sv' ev'].
    cbn [fst] in *. apply IH.
    + eapply Forall_impl; [|exact Hrest]. intros [k g] H. cbn [fst snd] in *.
      eapply spawnsSpaced_later; [apply Hmono|exact H].
    + unfold spawnsRecorded in *. rewrite Forall_forall in *.
      intros [k g] Hin. cbn [fst snd].
      change (Server.games sv1) with (insert gameId game' (Server.games sv)) in Hin.
      destruct (In_insert _ _ _ _ _ Hin) as [Heq|Hold].
      * injection Heq as -> ->. rewrite Hrec, String.eqb_refl. exact Hsp.
      * eapply spawnsSpaced_later; [apply Hmono|]. apply (Hsv (k, g) Hold).
Qed.

(** A request other than the tick writes neither the recorded times nor
    any room's power-ups; a room it creates has none. *)
Lemma spawnsRecorded_insert sv sv' k g :
  Server.lastPowerUpSpawnTime sv' = Server.lastPowerUpSpawnTime sv ->
  Server.games sv' = insert k g (Server.games sv) ->
  (Game.powerUps g = [] \/
   exists g0, lookup k (Server.games sv) = Some g0 /\
              Game.powerUps g = Game.powerUps g0) ->
  spawnsRecorded sv -> spawnsRecorded sv'.
Proof.
  intros Hl Hg Hpu Hsv. unfold spawnsRecorded, recordedSpawnTime in *.
  rewrite Hl, Hg. rewrite Forall_forall in *. intros [k' g'] Hin.
  destruct (In_insert _ _ _ _ _ Hin) as [Heq|Hold]; [|apply (Hsv _ Hold)].
  injection Heq as -> ->. cbn [fst snd].
  destruct Hpu as [-> |(g0 & Hl0 & ->)].
  - split; [constructor|split; [constructor|intros p q []]].
  - apply (Hsv (k, g0)), lookup_In, Hl0.
Qed.

Lemma handle_spawnsRecorded now rnd req sv :
  spawnsRecorded sv -> spawnsRecorded (fst (handle now rnd req sv)).
Proof.
  intros Hsv.
  destruct req as [sid data|sid inputs|sid angle|sid text|sid|sid data|sid|gameId|];
    cbn [handle].
  - unfold onJoin. destruct data as [dta|]; [|exact Hsv].
    destruct (jd_serverId dta) as [gameId|]; [|exact Hsv].
    destruct (String.eqb gameId ""); [exact Hsv|].
    destruct (lookup gameId (Server.games sv)) as [game|] eqn:Hl; [|exact Hsv].
    cbn [fst]. eapply spawnsRecorded_insert; [| |right; exists game; split;
      [exact Hl|]|exact Hsv]; reflexivity.
  - unfold onInput.
    destruct (lookup sid (Server.socketGameId sv)) as [gameId|]; [|exact Hsv].
    destruct (lookup gameId (Server.games sv)) as [game|] eqn:Hl; [|exact Hsv].
    destruct (lookup sid (Game.players game)) as [player|] eqn:Hp; [|exact Hsv].
    destruct inputs as [items|]; [|exact Hsv].
    cbn [fst]. eapply spawnsRecorded_insert; [| |right; exists game; split;
      [exact Hl|]|exact Hsv]; reflexivity.
  - unfold onShoot.
    destruct (lookup sid (Server.socketGameId sv)) as [gameId|]; [|exact Hsv].
    destruct (lookup gameId (Server.games sv)) as [game|] eqn:Hl; [|exact Hsv].
    destruct (lookup sid (Game.players game)) as [player|] eqn:Hp; [|exact Hsv].
    destruct (Player.dead player); [exact Hsv|].
    destruct (_ <? _)%Z; [exact Hsv|].
    cbn [fst]. eapply spawnsRecorded_insert; [| |right; exists game; split;
      [exact Hl|]|exact Hsv]; reflexivity.
  - unfold onChatMessage.
    destruct (lookup sid (Server.socketGameId sv)) as [gameId|]; [|exact Hsv].
    destruct (lookup gameId (Server.games sv)) as [game|] eqn:Hl; [|exact Hsv].
    destruct (lookup sid (Game.players game)) as [player|]; [|exact Hsv].
    destruct (String.eqb _ ""); [exact Hsv|].
    cbn [fst]. eapply spawnsRecorded_insert; [| |right; exists game; split;
      [exact Hl|]|exact Hsv]; reflexivity.
  - exact Hsv.
  - unfold onHost. destruct data as [dta|]; [|exact Hsv].
    cbn [fst]. eapply spawnsRecorded_insert; [| |left|exact Hsv]; reflexivity.
  - unfold onDisconnect.
    destruct (lookup sid (Server.socketGameId sv)) as [gameId|]; [|exact Hsv].
    destruct (lookup gameId (Server.games sv)) as [game|] eqn:Hl; [|exact Hsv].
    cbn [fst]. eapply spawnsRecorded_insert; [| |right; exists game; split;
      [exact Hl|apply powerUps_leaveGame]|exact Hsv]; reflexivity.
  - unfold onCleanupTimer.
    destruct (lookup gameId (Server.games sv)) as [game|]; [|exact Hsv].
    destruct (Game.cleanupTimer game); [|exact Hsv].
    destruct (Game.players game); [|exact Hsv].
    cbn [fst]. unfold spawnsRecorded, recordedSpawnTime in *. cbn.
    rewrite Forall_forall in *. intros [k g] Hin.
    apply (Hsv (k, g)), (In_remove _ _ _ _ Hin).
  - unfold onTick. apply tickGames_spawnsRecorded; exact Hsv.
Qed.

Lemma reachable_spawnsRecorded sv : reachable sv -> spawnsRecorded sv.
Proof.
  induction 1 as [|now rnd req sv Hr IH Hrnd].
  - constructor.
  - apply handle_spawnsRecorded, IH.
Qed.

(** The power-ups a room's tick leaves: of those the spawn check leaves,
    the ones the filter keeps, read with the players as the tick leaves
    them. *)
Lemma tickGame_powerUps now rnd gameId last game :
  NoDup (map fst (Game.players game)) ->
  let game' := tickedGame (tickGame now rnd gameId last game) in
  Game.powerUps game' =
  filter (keepsPowerUp now (Game.players game'))
         (Game.powerUps (snd (fst (spawnCheck now rnd (int_or last 0) game)))).
Proof.
  intros Hnd game'.
  destruct (tickGame_passes now rnd gameId last game) as (Hp & _ & _ & Hpu).
  fold game' in Hp, Hpu. rewrite Hp, Hpu. clear Hp Hpu.
  set (pus1 := Game.powerUps (snd (fst (spawnCheck now rnd (int_or last 0) game)))).
  set (players3 := fst (respawnPass now _ _)).
  assert (Hnd3 : NoDup (map fst players3)).
  { unfold players3. rewrite respawnPass_keys, keys_mapValues.
    destruct (bulletPass_keys now gameId (Game.bullets game) (Game.players game)
                (Game.scores game)) as (Hk & _).
    rewrite Hk. exact Hnd. }
  rewrite powerUpPass_filter by exact Hnd3.
  apply filter_ext. intros pu. unfold keepsPowerUp. f_equal.
  rewrite (collector_pointwise (fun p q => q = expireEffects now p) pu
             (snd (powerUpPass now pus1 players3))
             (mapValues (expireEffects now) (snd (powerUpPass now pus1 players3)))).
  - rewrite (collector_pointwise (empowered now) pu players3
               (snd (powerUpPass now pus1 players3)));
      [reflexivity|apply empowered_place|apply powerUpPass_empowered, Hnd3].
  - intros p q ->. pose proof (expireEffects_frame now p) as Hf.
    cbv zeta in Hf. tauto.
  - apply pointwise_mapValues. reflexivity.
Qed.

(** The loop leaves alone the rooms and the recorded times it does not
    visit. *)
Lemma tickGames_frame now todo :
  forall rnd sv k,
    ~ In k (map fst todo) ->
    let sv' := fst (tickGames now rnd todo sv) in
    lookup k (Server.games sv') = lookup k (Server.games sv) /\
    lookup k (Server.lastPowerUpSpawnTime sv') =
    lookup k (Server.lastPowerUpSpawnTime sv).
Proof.
  induction todo as [|[gameId game] rest IH]; intros rnd sv k Hout.
  - split; reflexivity.
  - cbn [tickGames].
    destruct (tickGame now rnd gameId _ game) as [[[last game'] n] ev].
    set (sv1 := Server.set_games _ _).
    specialize (IH (rng_drop n rnd) sv1 k).
    destruct (tickGames now (rng_drop n rnd) rest sv1) as [sv' ev'].
    cbn [fst map] in *.
    destruct IH as (Hg & Hl); [intros H; apply Hout; right; exact H|].
    rewrite Hg, Hl. unfold sv1. cbn.
    rewrite !lookup_insert_ne by (intros ->; apply Hout; left; reflexivity).
    split; reflexivity.
Qed.

(** A room the loop visits is left as its own iteration leaves it, under
    its key, with the time that iteration records; the iteration draws its
    random numbers where the rooms before it stopped. *)
Lemma tickGames_room now todo :
  forall rnd sv gameId game,
    NoDup (map fst todo) ->
    In (gameId, game) todo ->
    let sv' := fst (tickGames now rnd todo sv) in
    exists rnd' n,
      (forall m, rnd' m = rnd (m + n)%nat) /\
      let r := tickGame now rnd' gameId
                        (lookup gameId (Server.lastPowerUpSpawnTime sv)) game in
      lookup gameId (Server.games sv') = Some (tickedGame r) /\
      lookup gameId (Server.lastPowerUpSpawnTime sv') = Some (fst (fst (fst r))).
Proof.
  induction todo as [|[gameId0 game0] rest IH]; intros rnd sv gameId game Hnd Hin;
    [destruct Hin|].
  cbn [map fst] in Hnd. inversion Hnd as [|? ? Hout Hnd']; subst.
  cbn [tickGames].
  destruct Hin as [Heq|Hin].
  - injection Heq as -> ->. exists rnd, 0%nat.
    split; [intros m; rewrite Nat.add_0_r; reflexivity|]. cbv zeta.
    destruct (tickGame now rnd gameId _ game) as [[[last game'] n] ev].
    set (sv1 := Server.set_games _ _).
    destruct (tickGames_frame now rest (rng_drop n rnd) sv1 gameId Hout) as (Hg & Hl).
    destruct (tickGames now (rng_drop n rnd) rest sv1) as [sv' ev'].
    cbn [fst] in *. rewrite Hg, Hl. unfold sv1, tickedGame. cbn.
    rewrite !lookup_insert_eq. split; reflexivity.
  - assert (Hne : gameId <> gameId0).
    { intros ->. apply Hout. apply (in_map fst) in Hin. exact Hin. }
    destruct (tickGame now rnd gameId0 _ game0) as [[[last game'] n] ev].
    set (sv1 := Server.set_games _ _).
    destruct (IH (rng_drop n rnd) sv1 gameId game Hnd' Hin)
      as (rnd' & m & Hrnd' & Hg & Hl).
    destruct (tickGames now (rng_drop n rnd) rest sv1) as [sv' ev'].
    cbn [fst] in *. exists rnd', (m + n)%nat.
    split.
    { intros k. rewrite Hrnd'. unfold rng_drop. f_equal. lia. }
    assert (He : lookup gameId (Server.lastPowerUpSpawnTime sv1) =
                 lookup gameId (Server.lastPowerUpSpawnTime sv)).
    { unfold sv1. cbn. apply lookup_insert_ne, Hne. }
    rewrite He in Hg, Hl. split; assumption.
Qed.

(** C7.  At every tick of a reachable server, each room spawns exactly one
    power-up if more than 7000 ms have passed since its recorded spawn time
    and it holds fewer than 6 power-ups, and none otherwise.  The power-up
    spawned has one of the five types, type number [k] exactly when the first
    random number the room draws lies in [k/5, (k+1)/5), a position inside
    the map and the tick's time as its creation time; it joins the room's
    power-ups before the tick's filter, which keeps those not older than 30 s
    and out of reach of every live player.  The recorded time is the time of
    the room's last spawn, 0 before its first: the tick sets it to its own
    time when it spawns and leaves it otherwise, and no power-up of the room
    is younger.  The code sets the recorded time before it tests the cap, but
    a room of a reachable server holds at most 5 power-ups when the check
    runs, so the cap never holds a due spawn back. *)
Theorem tick_spawns_exactly_when_due :
  forall (now : Z) (rnd : Rng) (sv : Server.t) (gameId : string) (game : Game.t),
    reachable sv ->
    unit_rng rnd ->
    lookup gameId (Server.games sv) = Some game ->
    let sv' := fst (handle now rnd Tick sv) in
    let last := recordedSpawnTime gameId sv in
    let due :=
      (7000 < now - last)%Z /\ (List.length (Game.powerUps game) < 6)%nat in
    (List.length (Game.powerUps game) < 6)%nat /\
    Forall (fun p => (PowerUp.createdAt p <= last)%Z) (Game.powerUps game) /\
    exists rnd' n game',
      (forall m, rnd' m = rnd (m + n)%nat) /\
      game' = tickedGame (tickGame now rnd' gameId
                                   (lookup gameId (Server.lastPowerUpSpawnTime sv))
                                   game) /\
      lookup gameId (Server.games sv') = Some game' /\
      let keeps := keepsPowerUp now (Game.players game') in
      (due ->
       exists powerUp,
         Game.powerUps game' = filter keeps (Game.powerUps game ++ [powerUp]) /\
         In (PowerUp.type powerUp) POWER_UP_KEYS /\
         (forall k, (k < 5)%nat ->
                    (PowerUp.type powerUp = nth k POWER_UP_KEYS SPEED <->
                     INR k / 5 <= rnd' 0%nat < (INR k + 1) / 5)) /\
         20 <= PowerUp.x powerUp < MAP_WIDTH - 20 /\
         20 <= PowerUp.y powerUp < MAP_HEIGHT - 20 /\
         PowerUp.createdAt powerUp = now /\
         recordedSpawnTime gameId sv' = now) /\
      (~ due ->
       Game.powerUps game' = filter keeps (Game.powerUps game) /\
       recordedSpawnTime gameId sv' = last).
Proof.
  intros now rnd sv gameId game Hr Hrnd Hl sv' last due.
  pose proof (reachable_spawnsRecorded sv Hr) as Hrec.
  unfold spawnsRecorded in Hrec. rewrite Forall_forall in Hrec.
  specialize (Hrec (gameId, game) (lookup_In _ _ _ Hl)). cbn [fst snd] in Hrec.
  fold last in Hrec.
  pose proof (spawnsSpaced_length last _ Hrec) as Hlen.
  split; [exact Hlen|]. split; [exact (proj1 (proj2 Hrec))|].
  destruct (reachable_roomIdsIssued sv Hr) as (Hnd & _).
  destruct (tickGames_room now (Server.games sv) rnd sv gameId game Hnd
              (lookup_In _ _ _ Hl)) as (rnd' & n & Hshift & Hg & Ht).
  cbv zeta in Hg, Ht.
  assert (Hrnd' : forall m, 0 <= rnd' m < 1).
  { intros m. rewrite Hshift. apply Hrnd. }
  assert (Hkeys : NoDup (map fst (Game.players game))).
  { exact (proj1 (allValues_lookup _ _ _ _ (reachable_wellKeyed sv Hr) Hl)). }
  exists rnd', n, (tickedGame (tickGame now rnd' gameId
                     (lookup gameId (Server.lastPowerUpSpawnTime sv)) game)).
  split; [exact Hshift|]. split; [reflexivity|]. split; [exact Hg|].
  cbv zeta.
  rewrite (tickGame_powerUps now rnd' gameId _ game Hkeys).
  assert (Htime : recordedSpawnTime gameId sv' =
                  if (7000 <? now - last)%Z then now else last).
  { unfold recordedSpawnTime, sv'. cbn [handle]. unfold onTick. rewrite Ht.
    rewrite tickGame_recorded, spawnCheck_recorded. fold (recordedSpawnTime gameId sv).
    fold last. cbn [int_or].
    destruct (Z.eqb_spec (if (7000 <? now - last)%Z then now else last) 0) as [->|];
      reflexivity. }
  fold (recordedSpawnTime gameId sv). fold last.
  destruct (spawnCheck_spawns_when_due now rnd' last game Hrnd')
    as (Hdue & Hnot & _).
  split.
  - intros Hd. destruct (Hdue Hd) as (pu & Hpu & Hty & Hk & Hx & Hy & Hc).
    exists pu. rewrite Hpu. repeat (split; [assumption || reflexivity|]).
    rewrite Htime. destruct Hd as (Hd & _).
    destruct (Z.ltb_spec 7000 (now - last)); [reflexivity|lia].
  - intros Hn. rewrite (Hnot Hn). split; [reflexivity|].
    rewrite Htime.
    destruct (Z.ltb_spec 7000 (now - last)); [|reflexivity].
    exfalso. apply Hn. split; assumption.
Qed.

(** A room hosted and ticked for the first time at clock 9000: a spawn is
    due, and the tick records its time. *)
Lemma tick_spawns_exactly_when_due_witness :
  let rnd : Rng := fun _ => 1 / 2 in
  let sv :=
    fst (handle 1000 rnd (ReqHost "a" (Some (mkHostData None None None)))
                Server.init) in
  reachable sv /\
  unit_rng rnd /\
  exists game,
    lookup "game_1"%string (Server.games sv) = Some game /\
    (List.length (Game.powerUps game) < 6)%nat /\
    recordedSpawnTime "game_1" (fst (handle 9000 rnd Tick sv)) = 9000%Z.
Proof.
  intros rnd sv.
  assert (Hrnd : unit_rng rnd) by (intros n; unfold rnd; lra).
  assert (Hr : reachable sv) by (apply reach_step; [apply reach_init|exact Hrnd]).
  split; [exact Hr|]. split; [exact Hrnd|].
  eexists. split; [reflexivity|].
  destruct (tick_spawns_exactly_when_due 9000 rnd sv "game_1"%string _ Hr Hrnd eq_refl)
    as (Hlen & _ & rnd' & n & game' & _ & _ & _ & Hdue & _).
  split; [exact Hlen|].
  destruct Hdue as (pu & _ & _ & _ & _ & _ & _ & Htime).
  - split; [vm_compute; reflexivity|exact Hlen].
  - exact Htime.
Defined.
